(** * A shallow embedding of the maze package (vinser/maze)

    The development follows the Go sources: the grid model and the
    constructor [New], the solver [Solve] (both versions found in the
    repository), and the generator [Generate] with its helpers.  Go's [int]
    is modelled as [Z] with the 64-bit wrap-around written out, slices as
    lists, maps as [gmap], and a run-time panic or a loop that outlives its
    fuel as dedicated outcomes. *)

From Stdlib Require Import ZArith Zquot Lia List Bool String.
From stdpp Require Import base tactics option list gmap strings.

Local Open Scope Z_scope.

(** ** Machine integers *)

Definition int_min : Z := - 2 ^ 63.
Definition int_max : Z := 2 ^ 63 - 1.

(** Two's complement wrap-around of Go's 64-bit [int]. *)
Definition wrap (z : Z) : Z := (z + 2 ^ 63) mod 2 ^ 64 - 2 ^ 63.

Definition add64 (a b : Z) : Z := wrap (a + b).
Definition sub64 (a b : Z) : Z := wrap (a - b).
Definition mul64 (a b : Z) : Z := wrap (a * b).
(** Go's [/] truncates toward zero and [%] takes the sign of the dividend. *)
Definition div64 (a b : Z) : Z := wrap (Z.quot a b).
Definition rem64 (a b : Z) : Z := Z.rem a b.

Definition is_int (z : Z) : Prop := int_min <= z <= int_max.

(** ** Outcomes of a call *)

Inductive error : Type :=
  | ErrDimensions          (* width and height must be positive *)
  | ErrDenDimensions       (* den dimensions must be non-negative *)
  | ErrDenWidthTooLarge
  | ErrDenHeightTooLarge
  | ErrInvalidStart        (* must be within maze bounds and have odd coordinates *)
  | ErrStartInsideDen      (* cannot start generation inside the den *)
  | ErrInvalidDoorSide
  | ErrDoorTooClose        (* too close to maze edge *)
  | ErrDoorConnect         (* failed to connect door on side *)
  | ErrDoorNotWall         (* not a valid wall position *)
  | ErrDoorNoConnection    (* does not connect the den to a maze path *)
  | ErrNoPathToMaze.       (* no path found to connect the door to the maze *)

(** [Ok] is a normal return, [Panic] a run-time panic (index out of range,
    negative [make], [Intn] of a non-positive bound), [OutOfFuel] a loop that
    did not finish within the fuel given to the model. *)
Inductive result (A : Type) : Type :=
  | Ok (a : A)
  | Panic
  | OutOfFuel.
Arguments Ok {A} a.
Arguments Panic {A}.
Arguments OutOfFuel {A}.

#[global] Instance result_ret : MRet result := @Ok.
#[global] Instance result_bind : MBind result := fun A B f r =>
  match r with
  | Ok a => f a
  | Panic => Panic
  | OutOfFuel => OutOfFuel
  end.

(** ** The data model (maze.go) *)

(** [type Cell rune] *)
Definition Cell : Type := Z.
Definition Wall : Cell := 9608.        (* U+2588, full block *)
Definition Path : Cell := 32.          (* ' ' *)
Definition Start : Cell := 83.         (* 'S' *)
Definition End : Cell := 69.           (* 'E' *)
Definition SolutionPath : Cell := 46.  (* '.' *)

Record Point : Type := mkPoint { X : Z; Y : Z }.

#[global] Instance Point_eq_dec : EqDecision Point.
Proof. solve_decision. Defined.

#[global] Instance Point_countable : Countable Point :=
  inj_countable' (fun p => (X p, Y p)) (fun q => mkPoint (fst q) (snd q))
    (fun p => match p with mkPoint _ _ => eq_refl end).

(** The zero value of [Point], returned by a map read of a missing key. *)
#[global] Instance Point_inhabited : Inhabited Point := populate (mkPoint 0 0).

Record Maze : Type := mkMaze {
  width : Z;
  height : Z;
  grid : list (list Cell);
  start : Point;
  end_ : Point;
  door : Point;
  denWidth : Z;
  denHeight : Z;
  denStartX : Z;
  denStartY : Z
}.

Definition set_grid (g : list (list Cell)) (m : Maze) : Maze :=
  mkMaze (width m) (height m) g (start m) (end_ m) (door m)
         (denWidth m) (denHeight m) (denStartX m) (denStartY m).
Definition set_start (p : Point) (m : Maze) : Maze :=
  mkMaze (width m) (height m) (grid m) p (end_ m) (door m)
         (denWidth m) (denHeight m) (denStartX m) (denStartY m).
Definition set_end (p : Point) (m : Maze) : Maze :=
  mkMaze (width m) (height m) (grid m) (start m) p (door m)
         (denWidth m) (denHeight m) (denStartX m) (denStartY m).
Definition set_door (p : Point) (m : Maze) : Maze :=
  mkMaze (width m) (height m) (grid m) (start m) (end_ m) p
         (denWidth m) (denHeight m) (denStartX m) (denStartY m).

(** *** Two-dimensional slices, addressed [[y][x]] *)

(** [g[y][x]]; an index out of range panics. *)
Definition idx2 {A : Type} (g : list (list A)) (y x : Z) : result A :=
  if (y <? 0) || (x <? 0) then Panic
  else match g !! Z.to_nat y with
       | Some row => match row !! Z.to_nat x with
                     | Some a => Ok a
                     | None => Panic
                     end
       | None => Panic
       end.

(** [g[y][x] = a]; an index out of range panics. *)
Definition upd2 {A : Type} (g : list (list A)) (y x : Z) (a : A)
  : result (list (list A)) :=
  if (y <? 0) || (x <? 0) then Panic
  else match g !! Z.to_nat y with
       | Some row =>
           if (Z.to_nat x <? length row)%nat
           then Ok (<[Z.to_nat y := <[Z.to_nat x := a]> row]> g)
           else Panic
       | None => Panic
       end.

(** [make([][]A, h)] followed by [make([]A, w)] for every row; [make] of a
    negative length panics. *)
Definition make2 {A : Type} (h w : Z) (a : A) : result (list (list A)) :=
  if h <? 0 then Panic
  else if (0 <? h) && (w <? 0) then Panic
  else Ok (replicate (Z.to_nat h) (replicate (Z.to_nat w) a)).

(** [m.grid[p.Y][p.X] = c] *)
Definition set_cell (m : Maze) (p : Point) (c : Cell) : result Maze :=
  g ← upd2 (grid m) (Y p) (X p) c; Ok (set_grid g m).

(** *** Construction *)

Definition adjustToOdd (dim : Z) : Z :=
  if (0 <? dim) && (rem64 dim 2 =? 0) then add64 dim 1 else dim.

Definition validateAndAdjustDimensions (width height denWidth denHeight : Z)
  : (Z * Z * Z * Z) + error :=
  if (width <=? 0) || (height <=? 0) then inr ErrDimensions
  else if (denWidth <? 0) || (denHeight <? 0) then inr ErrDenDimensions
  else
    let adjWidth := adjustToOdd width in
    let adjHeight := adjustToOdd height in
    let adjDenWidth := adjustToOdd denWidth in
    let adjDenHeight := adjustToOdd denHeight in
    if (0 <? adjDenWidth) && (sub64 adjWidth 2 <=? adjDenWidth)
    then inr ErrDenWidthTooLarge
    else if (0 <? adjDenHeight) && (sub64 adjHeight 2 <=? adjDenHeight)
    then inr ErrDenHeightTooLarge
    else inl (adjWidth, adjHeight, adjDenWidth, adjDenHeight).

Definition calculateDenPosition (width denWidth height denHeight : Z) : Z * Z :=
  let denStartX := div64 (sub64 width denWidth) 2 in
  let denStartY := div64 (sub64 height denHeight) 2 in
  let denStartX :=
    if (0 <? denStartX) && (rem64 denStartX 2 =? 0)
    then sub64 denStartX 1 else denStartX in
  let denStartY :=
    if (0 <? denStartY) && (rem64 denStartY 2 =? 0)
    then sub64 denStartY 1 else denStartY in
  (denStartX, denStartY).

Definition IsInsideDen (m : Maze) (p : Point) : bool :=
  if (denWidth m <=? 0) || (denHeight m <=? 0) then false
  else (denStartX m <=? X p) && (X p <? add64 (denStartX m) (denWidth m)) &&
       (denStartY m <=? Y p) && (Y p <? add64 (denStartY m) (denHeight m)).

(** The four cardinal directions, in the order the code scans them. *)
Definition directions : list Point :=
  [mkPoint 0 (-1); mkPoint 0 1; mkPoint (-1) 0; mkPoint 1 0].

Definition move (p dir : Point) : Point :=
  mkPoint (add64 (X p) (X dir)) (add64 (Y p) (Y dir)).

Definition IsAdjacentToDen (m : Maze) (p : Point) : bool :=
  if (denWidth m <=? 0) || (denHeight m <=? 0) then false
  else if IsInsideDen m p then false
  else existsb (fun dir => IsInsideDen m (move p dir)) directions.

(** Rows [0..height-1], columns [0..width-1]: den cells are pre-carved. *)
Definition initializeGrid (m : Maze) : result Maze :=
  if height m <? 0 then Panic
  else if (0 <? height m) && (width m <? 0) then Panic
  else Ok (set_grid
    ((fun i => (fun j => if IsInsideDen m (mkPoint j i) then Path else Wall)
               <$> seqZ 0 (width m)) <$> seqZ 0 (height m)) m).

(** [New] returns the maze, an error, or panics. *)
Definition New (w h dw dh : Z) : result (Maze + error) :=
  match validateAndAdjustDimensions w h dw dh with
  | inr e => Ok (inr e)
  | inl (adjWidth, adjHeight, adjDenWidth, adjDenHeight) =>
      let m := mkMaze adjWidth adjHeight [] (mkPoint 0 0) (mkPoint 0 0)
                 (mkPoint 0 0) adjDenWidth adjDenHeight 0 0 in
      let m :=
        if (0 <? denWidth m) && (0 <? denHeight m)
        then let '(dx, dy) := calculateDenPosition (width m) (denWidth m)
                                (height m) (denHeight m) in
             mkMaze (width m) (height m) (grid m) (start m) (end_ m)
                    (door m) (denWidth m) (denHeight m) dx dy
        else m in
      m' ← initializeGrid m; Ok (inl m')
  end.

(** [func (m *Maze) Cell(x, y int) (Cell, bool)]: the cell and [true], or
    the zero value and [false] outside the bounds. *)
Definition Maze_Cell (m : Maze) (x y : Z) : result (Cell * bool) :=
  if (x <? 0) || (width m <=? x) || (y <? 0) || (height m <=? y)
  then Ok (0, false)
  else c ← idx2 (grid m) y x; Ok (c, true).

(** ** The solver (solve.go) *)

(** The mutable state of a breadth-first search: the queue (the slice is
    only appended to, [head] indexes the next point to dequeue), the visited
    grid and the parent map. *)
Record bfs_state : Type := mkBfs {
  queue : list Point;
  visited : list (list bool);
  parent : gmap Point Point
}.

(** [for _, a := range l { s = f(s, a) }] with a body that may panic. *)
Fixpoint for_each {S A : Type} (f : S -> A -> result S) (l : list A) (s : S)
  : result S :=
  match l with
  | [] => Ok s
  | a :: l' => s' ← f s a; for_each f l' s'
  end.

(** The body of the neighbour loop of [Solve]. *)
Definition solve_explore (m : Maze) (current : Point) (st : bfs_state)
  (dir : Point) : result bfs_state :=
  let next := move current dir in
  if (X next <? 0) || (width m <=? X next) || (Y next <? 0) || (height m <=? Y next)
  then Ok st
  else
    cell ← idx2 (grid m) (Y next) (X next);
    if cell =? Wall then Ok st
    else
      seen ← idx2 (visited st) (Y next) (X next);
      if seen : bool then Ok st
      else
        visited' ← upd2 (visited st) (Y next) (X next) true;
        Ok (mkBfs (queue st ++ [next]) visited' (<[next := current]> (parent st))).

(** The search loop: [for head < len(queue)]; returns [pathFound]. *)
Fixpoint solve_search (fuel : nat) (m : Maze) (head : nat) (st : bfs_state)
  : result (bool * bfs_state) :=
  match fuel with
  | O => OutOfFuel
  | S fuel' =>
      match queue st !! head with
      | None => Ok (false, st)
      | Some current =>
          if decide (current = end_ m) then Ok (true, st)
          else
            st' ← for_each (solve_explore m current) directions st;
            solve_search fuel' m (S head) st'
      end
  end.

(** [for { fullPath = append(fullPath, p); if p == m.start { break };
    p = parent[p] }]; a missing key reads as the zero point. *)
Fixpoint backtrack (fuel : nat) (par : gmap Point Point) (s p : Point)
  (fullPath : list Point) : result (list Point) :=
  match fuel with
  | O => OutOfFuel
  | S fuel' =>
      let fullPath := fullPath ++ [p] in
      if decide (p = s) then Ok fullPath
      else backtrack fuel' par s (par !!! p) fullPath
  end.

(** [for i, j := 0, len(l)-1; i < j; i, j = i+1, j-1 { l[i], l[j] = l[j], l[i] }] *)
Fixpoint reverse_loop (fuel : nat) (i j : Z) (l : list Point)
  : result (list Point) :=
  match fuel with
  | O => OutOfFuel
  | S fuel' =>
      if i <? j then
        match l !! Z.to_nat i, l !! Z.to_nat j with
        | Some a, Some b =>
            reverse_loop fuel' (i + 1) (j - 1)
              (<[Z.to_nat j := a]> (<[Z.to_nat i := b]> l))
        | _, _ => Panic
        end
      else Ok l
  end.

(** The search shared by both versions of [Solve]. *)
Definition solve_bfs (fuel : nat) (m : Maze) : result (bool * bfs_state) :=
  visited0 ← make2 (height m) (width m) false;
  visited1 ← upd2 visited0 (Y (start m)) (X (start m)) true;
  solve_search fuel m 0 (mkBfs [start m] visited1 ∅).

(** [Solve] of solve.go: rebuild the path end to start, then reverse it. *)
Definition Solve (fuel : nat) (m : Maze) : result (list Point * bool) :=
  '(pathFound, st) ← solve_bfs fuel m;
  if pathFound : bool then
    fullPath ← backtrack fuel (parent st) (start m) (end_ m) [];
    fullPath ← reverse_loop fuel 0 (Z.of_nat (length fullPath) - 1) fullPath;
    Ok (fullPath, true)
  else Ok ([], false).

(** [for p != m.start { p = parent[p]; pathLen++ }] *)
Fixpoint count_path (fuel : nat) (par : gmap Point Point) (s p : Point)
  (pathLen : Z) : result Z :=
  match fuel with
  | O => OutOfFuel
  | S fuel' =>
      if decide (p = s) then Ok pathLen
      else count_path fuel' par s (par !!! p) (add64 pathLen 1)
  end.

(** [for i := pathLen - 1; i >= 0; i-- { fullPath[i] = p;
    if i > 0 { p = parent[p] } }] *)
Fixpoint fill_path (fuel : nat) (par : gmap Point Point) (i : Z) (p : Point)
  (fullPath : list Point) : result (list Point) :=
  match fuel with
  | O => OutOfFuel
  | S fuel' =>
      if 0 <=? i then
        if (Z.to_nat i <? length fullPath)%nat then
          let fullPath := <[Z.to_nat i := p]> fullPath in
          let p := if 0 <? i then par !!! p else p in
          fill_path fuel' par (sub64 i 1) p fullPath
        else Panic
      else Ok fullPath
  end.

(** [Solve] of the second version: count the path length, allocate the
    slice and fill it back to front. *)
Definition Solve_prealloc (fuel : nat) (m : Maze) : result (list Point * bool) :=
  '(pathFound, st) ← solve_bfs fuel m;
  if pathFound : bool then
    pathLen ← count_path fuel (parent st) (start m) (end_ m) 1;
    fullPath ← (if pathLen <? 0 then Panic
                else Ok (replicate (Z.to_nat pathLen) (mkPoint 0 0)));
    fullPath ← fill_path fuel (parent st) (sub64 pathLen 1) (end_ m) fullPath;
    Ok (fullPath, true)
  else Ok ([], false).

(** ** The generator (generate.go) *)

(** [math/rand] is Go's standard library, not part of the package: the
    generator is a parameter.  [Intn_raw r n] is [r.Intn(n)] for a positive
    [n] (for any other [n], [Intn] panics) and returns a value in [[0, n)];
    [Float64] returns a value compared with the bias by [f64_ltb]. *)
Class RandSource : Type := {
  Rand : Type;
  float64 : Type;
  NewSource : Z -> Rand;
  Intn_raw : Rand -> Z -> Z * Rand;
  Float64 : Rand -> float64 * Rand;
  f64_ltb : float64 -> float64 -> bool;
  Intn_range : forall r n, 0 < n -> 0 <= fst (Intn_raw r n) < n
}.

(** The two-step directions of the carving walk, in scan order. *)
Definition carve_directions : list Point :=
  [mkPoint 0 (-2); mkPoint 0 2; mkPoint (-2) 0; mkPoint 2 0].

(** [0 < p.X && p.X < m.width-1 && 0 < p.Y && p.Y < m.height-1] *)
Definition inside_border (m : Maze) (p : Point) : bool :=
  (0 <? X p) && (X p <? sub64 (width m) 1) &&
  (0 <? Y p) && (Y p <? sub64 (height m) 1).

(** [m.grid[p.Y][p.X]] *)
Definition cell_at (m : Maze) (p : Point) : result Cell :=
  idx2 (grid m) (Y p) (X p).

(** The state of [findFarthestPoint]. *)
Record far_state : Type := mkFar {
  fqueue : list Point;
  distances : gmap Point Z;
  farthestPoint : Point;
  maxDistance : Z
}.

(** The state of [carvePathToNearest]. *)
Record carve_state : Type := mkCarve {
  cqueue : list Point;
  cvisited : gmap Point bool;
  cparent : gmap Point Point
}.

Section Generator.
Context `{RandSource}.

Definition Intn (r : Rand) (n : Z) : result (Z * Rand) :=
  if n <=? 0 then Panic else Ok (Intn_raw r n).

(** The body of the loop of [findValidNeighbors]. *)
Definition valid_neighbor (m : Maze) (p : Point) (neighbors : list Point)
  (dir : Point) : result (list Point) :=
  let next := move p dir in
  if inside_border m next then
    cell ← cell_at m next;
    if cell =? Wall then
      let wallBetween := mkPoint (add64 (X p) (div64 (X dir) 2))
                                 (add64 (Y p) (div64 (Y dir) 2)) in
      if IsInsideDen m wallBetween || IsAdjacentToDen m next
      then Ok neighbors
      else Ok (neighbors ++ [next])
    else Ok neighbors
  else Ok neighbors.

Definition findValidNeighbors (m : Maze) (p : Point) : result (list Point) :=
  for_each (valid_neighbor m p) carve_directions [].

(** The search for a neighbour that continues [lastDirection]. *)
Fixpoint find_straight (neighbors stack : list Point) (lastDirection : Point)
  : result (option Point) :=
  match neighbors with
  | [] => Ok None
  | n :: rest =>
      match last stack with
      | None => Panic
      | Some current =>
          if (sub64 (X n) (X current) =? X lastDirection) &&
             (sub64 (Y n) (Y current) =? Y lastDirection)
          then Ok (Some n)
          else find_straight rest stack lastDirection
      end
  end.

(** [neighbors[r.Intn(len(neighbors))]] *)
Definition random_neighbor (neighbors : list Point) (r : Rand)
  : result (Point * Rand) :=
  '(i, r') ← Intn r (Z.of_nat (length neighbors));
  match neighbors !! Z.to_nat i with
  | Some p => Ok (p, r')
  | None => Panic
  end.

Definition chooseBiasedNeighbor (neighbors stack : list Point)
  (bias : float64) (r : Rand) : result (Point * Rand) :=
  lastDirection ←
    (if (1 <? length stack)%nat then
       match stack !! (length stack - 2)%nat, stack !! (length stack - 1)%nat with
       | Some previous, Some current =>
           Ok (mkPoint (sub64 (X current) (X previous))
                       (sub64 (Y current) (Y previous)))
       | _, _ => Panic
       end
     else Ok (mkPoint 0 0));
  straightOption ← find_straight neighbors stack lastDirection;
  match straightOption with
  | Some s =>
      let '(f, r') := Float64 r in
      if f64_ltb f bias then Ok (s, r') else random_neighbor neighbors r'
  | None => random_neighbor neighbors r
  end.

(** The loop of [runDFS]: the top of the stack is its last element. *)
Fixpoint runDFS_loop (fuel : nat) (r : Rand) (bias : float64) (m : Maze)
  (stack : list Point) : result (Maze * Rand) :=
  match fuel with
  | O => OutOfFuel
  | S fuel' =>
      match last stack with
      | None => Ok (m, r)
      | Some current =>
          neighbors ← findValidNeighbors m current;
          if (0 <? length neighbors)%nat then
            '(next, r') ← chooseBiasedNeighbor neighbors stack bias r;
            let wallToRemove :=
              mkPoint (add64 (X current) (div64 (sub64 (X next) (X current)) 2))
                      (add64 (Y current) (div64 (sub64 (Y next) (Y current)) 2)) in
            m1 ← set_cell m wallToRemove Path;
            m2 ← set_cell m1 next Path;
            runDFS_loop fuel' r' bias m2 (stack ++ [next])
          else runDFS_loop fuel' r bias m (removelast stack)
      end
  end.

Definition runDFS (fuel : nat) (r : Rand) (s : Point) (bias : float64)
  (m : Maze) : result (Maze * Rand) :=
  m1 ← set_cell m s Path;
  runDFS_loop fuel r bias m1 [s].

(** The body of the neighbour loop of [findFarthestPoint]; a map read of a
    missing key gives zero. *)
Definition far_explore (m : Maze) (current : Point) (st : far_state)
  (dir : Point) : result far_state :=
  let next := move current dir in
  if inside_border m next then
    cell ← cell_at m next;
    if negb (cell =? Wall) then
      match distances st !! next with
      | Some _ => Ok st
      | None =>
          let dist := add64 (default 0 (distances st !! current)) 1 in
          let distances' := <[next := dist]> (distances st) in
          let queue' := fqueue st ++ [next] in
          if (maxDistance st <? dist) && negb (IsInsideDen m next) &&
             negb (IsAdjacentToDen m next)
          then Ok (mkFar queue' distances' next dist)
          else Ok (mkFar queue' distances' (farthestPoint st) (maxDistance st))
      end
    else Ok st
  else Ok st.

Fixpoint far_search (fuel : nat) (m : Maze) (head : nat) (st : far_state)
  : result far_state :=
  match fuel with
  | O => OutOfFuel
  | S fuel' =>
      match fqueue st !! head with
      | None => Ok st
      | Some current =>
          st' ← for_each (far_explore m current) directions st;
          far_search fuel' m (S head) st'
      end
  end.

Definition findFarthestPoint (fuel : nat) (m : Maze) (s : Point)
  : result (Point * Z) :=
  st ← far_search fuel m 0 (mkFar [s] {[s := 0]} s 0);
  Ok (farthestPoint st, maxDistance st).

Definition placeStartAndEnd (fuel : nat) (generationStart : Point)
  (useProvidedStart : bool) (m : Maze) : result Maze :=
  m1 ← (if useProvidedStart then Ok (set_start generationStart m)
        else '(p, _) ← findFarthestPoint fuel m generationStart;
             Ok (set_start p m));
  '(e, _) ← findFarthestPoint fuel m1 (start m1);
  let m2 := set_end e m1 in
  m3 ← set_cell m2 (start m2) Start;
  set_cell m3 (end_ m3) End.

(** The neighbour loop of [carvePathToNearest]; [Some next] is the
    labelled break on reaching an existing path. *)
Fixpoint carve_explore (m : Maze) (current : Point) (dirs : list Point)
  (st : carve_state) : result (carve_state * option Point) :=
  match dirs with
  | [] => Ok (st, None)
  | dir :: dirs' =>
      let next := move current dir in
      if (X next <=? 0) || (sub64 (width m) 1 <=? X next) ||
         (Y next <=? 0) || (sub64 (height m) 1 <=? Y next)
      then carve_explore m current dirs' st
      else
        cell ← cell_at m next;
        if cell =? Path then
          Ok (mkCarve (cqueue st) (cvisited st) (<[next := current]> (cparent st)),
              Some next)
        else if cell =? Wall then
          match cvisited st !! next with
          | Some _ => carve_explore m current dirs' st
          | None =>
              carve_explore m current dirs'
                (mkCarve (cqueue st ++ [next]) (<[next := true]> (cvisited st))
                         (<[next := current]> (cparent st)))
          end
        else carve_explore m current dirs' st
  end.

Fixpoint carve_search (fuel : nat) (m : Maze) (head : nat) (st : carve_state)
  : result (carve_state * option Point) :=
  match fuel with
  | O => OutOfFuel
  | S fuel' =>
      match cqueue st !! head with
      | None => Ok (st, None)
      | Some current =>
          '(st', target) ← carve_explore m current directions st;
          match target with
          | Some _ => Ok (st', target)
          | None => carve_search fuel' m (S head) st'
          end
      end
  end.

(** [for p != start { p = parent[p]; m.grid[p.Y][p.X] = Path }] *)
Fixpoint carve_back (fuel : nat) (par : gmap Point Point) (s p : Point)
  (m : Maze) : result Maze :=
  match fuel with
  | O => OutOfFuel
  | S fuel' =>
      if decide (p = s) then Ok m
      else
        let p' := par !!! p in
        m' ← set_cell m p' Path;
        carve_back fuel' par s p' m'
  end.

Definition carvePathToNearest (fuel : nat) (s : Point) (m : Maze)
  : result (Maze * option error) :=
  '(st, target) ← carve_search fuel m 0 (mkCarve [s] {[s := true]} ∅);
  match target with
  | None => Ok (m, Some ErrNoPathToMaze)
  | Some targetPath =>
      m' ← carve_back fuel (cparent st) s targetPath m;
      Ok (m', None)
  end.

(** [door] and its outward [neighbor] for a named side. *)
Definition side_door (m : Maze) (doorSide : string) : option (Point * Point) :=
  if decide (doorSide = "top"%string) then
    let d := mkPoint (add64 (denStartX m) (div64 (denWidth m) 2))
                     (sub64 (denStartY m) 1) in
    Some (d, mkPoint (X d) (sub64 (Y d) 1))
  else if decide (doorSide = "bottom"%string) then
    let d := mkPoint (add64 (denStartX m) (div64 (denWidth m) 2))
                     (add64 (denStartY m) (denHeight m)) in
    Some (d, mkPoint (X d) (add64 (Y d) 1))
  else if decide (doorSide = "left"%string) then
    let d := mkPoint (sub64 (denStartX m) 1)
                     (add64 (denStartY m) (div64 (denHeight m) 2)) in
    Some (d, mkPoint (sub64 (X d) 1) (Y d))
  else if decide (doorSide = "right"%string) then
    let d := mkPoint (add64 (denStartX m) (denWidth m))
                     (add64 (denStartY m) (div64 (denHeight m) 2)) in
    Some (d, mkPoint (add64 (X d) 1) (Y d))
  else None.

(** [m.grid[door.Y][door.X] = Path; m.door = door] *)
Definition open_door (m : Maze) (d : Point) : result Maze :=
  m' ← set_cell m d Path; Ok (set_door d m').

Definition connectDenAtSide (fuel : nat) (doorSide : string) (m : Maze)
  : result (Maze * option error) :=
  match side_door m doorSide with
  | None => Ok (m, Some ErrInvalidDoorSide)
  | Some (d, neighbor) =>
      if negb (inside_border m d) || negb (inside_border m neighbor)
      then Ok (m, Some ErrDoorTooClose)
      else
        cell ← cell_at m neighbor;
        if cell =? Path then
          m' ← open_door m d; Ok (m', None)
        else
          '(m1, err) ← carvePathToNearest fuel neighbor m;
          match err with
          | Some _ => Ok (m1, Some ErrDoorConnect)
          | None => m' ← open_door m1 d; Ok (m', None)
          end
  end.

(** [m.grid[p1.Y][p1.X] == Path && m.grid[p2.Y][p2.X] == Path]: the second
    cell is read only when the first is a path. *)
Definition both_path (m : Maze) (p1 p2 : Point) : result bool :=
  c1 ← cell_at m p1;
  if c1 =? Path then c2 ← cell_at m p2; Ok (c2 =? Path) else Ok false.

(** A path on both sides, exactly one of them inside the den. *)
Definition separates (m : Maze) (p1 p2 : Point) : result bool :=
  b ← both_path m p1 p2;
  Ok (b && xorb (IsInsideDen m p1) (IsInsideDen m p2)).

Definition connectDenAtPoint (userDoor : Point) (m : Maze)
  : result (Maze * option error) :=
  if negb (inside_border m userDoor) then Ok (m, Some ErrDoorNotWall)
  else
    cell ← cell_at m userDoor;
    if negb (cell =? Wall) then Ok (m, Some ErrDoorNotWall)
    else
      h ← separates m (mkPoint (sub64 (X userDoor) 1) (Y userDoor))
                      (mkPoint (add64 (X userDoor) 1) (Y userDoor));
      if h : bool then m' ← open_door m userDoor; Ok (m', None)
      else
        v ← separates m (mkPoint (X userDoor) (sub64 (Y userDoor) 1))
                        (mkPoint (X userDoor) (add64 (Y userDoor) 1));
        if v : bool then m' ← open_door m userDoor; Ok (m', None)
        else Ok (m, Some ErrDoorNoConnection).

(** The test applied to the wall cell [(x, y)] by the scan of
    [connectRandomDenDoor]. *)
Definition door_candidate (m : Maze) (p : Point) : result bool :=
  cell ← cell_at m p;
  if negb (cell =? Wall) then Ok false
  else
    h ← separates m (mkPoint (sub64 (X p) 1) (Y p)) (mkPoint (add64 (X p) 1) (Y p));
    if h : bool then Ok true
    else separates m (mkPoint (X p) (sub64 (Y p) 1)) (mkPoint (X p) (add64 (Y p) 1)).

(** The cells visited by [for y := 1; y < m.height-1; y++ { for x := 1;
    x < m.width-1; x++ {...} }], in order. *)
Definition interior_scan (m : Maze) : list Point :=
  y ← seqZ 1 (sub64 (height m) 1 - 1);
  x ← seqZ 1 (sub64 (width m) 1 - 1);
  [mkPoint x y].

Definition potentialDoors (m : Maze) : result (list Point) :=
  for_each (fun doors p =>
              b ← door_candidate m p;
              if b : bool then Ok (doors ++ [p]) else Ok doors)
           (interior_scan m) [].

Definition connectRandomDenDoor (r : Rand) (m : Maze)
  : result (Maze * option error) :=
  doors ← potentialDoors m;
  if (0 <? length doors)%nat then
    '(i, _) ← Intn r (Z.of_nat (length doors));
    match doors !! Z.to_nat i with
    | Some d => m' ← open_door m d; Ok (m', None)
    | None => Panic
    end
  else Ok (m, None).

Definition connectDen (fuel : nat) (r : Rand) (userDoor : option Point)
  (doorSide : string) (m : Maze) : result (Maze * option error) :=
  if (denWidth m <=? 0) || (denHeight m <=? 0) then Ok (m, None)
  else if negb (String.eqb doorSide EmptyString) then connectDenAtSide fuel doorSide m
  else match userDoor with
       | Some d => connectDenAtPoint d m
       | None => connectRandomDenDoor r m
       end.

(** The loop that draws a random start outside the den. *)
Fixpoint random_start (fuel : nat) (r : Rand) (m : Maze)
  : result (Point * Rand) :=
  match fuel with
  | O => OutOfFuel
  | S fuel' =>
      '(a, r1) ← Intn r (div64 (sub64 (width m) 1) 2);
      let startX := add64 (mul64 a 2) 1 in
      '(b, r2) ← Intn r1 (div64 (sub64 (height m) 1) 2);
      let startY := add64 (mul64 b 2) 1 in
      let p := mkPoint startX startY in
      if negb (IsInsideDen m p) then Ok (p, r2) else random_start fuel' r2 m
  end.

(** The validation of a supplied start point. *)
Definition start_rejected (m : Maze) (s : Point) : bool :=
  (X s <=? 0) || (sub64 (width m) 1 <=? X s) ||
  (Y s <=? 0) || (sub64 (height m) 1 <=? Y s) ||
  (rem64 (X s) 2 =? 0) || (rem64 (Y s) 2 =? 0).

(** [Generate] returns the maze as the call leaves it, and the error. *)
Definition Generate (fuel : nat) (seed : Z) (s : option Point)
  (userDoor : option Point) (doorSide : string) (bias : float64) (m : Maze)
  : result (Maze * option error) :=
  let r := NewSource seed in
  match
    match s with
    | Some p =>
        if start_rejected m p then inr ErrInvalidStart
        else if IsInsideDen m p then inr ErrStartInsideDen
        else inl (Ok (p, r))
    | None => inl (random_start fuel r m)
    end
  with
  | inr e => Ok (m, Some e)
  | inl chosen =>
      '(generationStart, r1) ← chosen;
      '(m1, r2) ← runDFS fuel r1 generationStart bias m;
      '(m2, err) ← connectDen fuel r2 userDoor doorSide m1;
      match err with
      | Some e => Ok (m2, Some e)
      | None =>
          m3 ← placeStartAndEnd fuel generationStart
                 (match s with Some _ => true | None => false end) m2;
          Ok (m3, None)
      end
  end.
End Generator.

(** * Specification vocabulary *)

(** ** Construction *)

(** The spec's rounding: an even value is incremented by one. *)
Definition next_odd (z : Z) : Z := if Z.even z then z + 1 else z.

(** The rejection condition of the constructor, in the words of the spec. *)
Definition New_rejects (w h dw dh : Z) : Prop :=
  w <= 0 \/ h <= 0 \/ dw < 0 \/ dh < 0 \/
  (0 < dw /\ next_odd dw >= next_odd w - 2) \/
  (0 < dh /\ next_odd dh >= next_odd h - 2).

(** ** Hand-built mazes, as in the test suite *)

Definition test_maze (g : list (list Cell)) (s e : Point) : Maze :=
  mkMaze (Z.of_nat (length (hd [] g))) (Z.of_nat (length g)) g s e
         (mkPoint 0 0) 0 0 0 0.

(** ** Two-dimensional slices *)

(** [g] has [h] rows of [w] entries. *)
Definition dims2 {A : Type} (g : list (list A)) (h w : Z) : Prop :=
  0 <= h /\ 0 <= w /\ length g = Z.to_nat h /\
  Forall (fun row => length row = Z.to_nat w) g.

(** ** Grid geometry *)

(** [p] addresses a cell of the [width] by [height] rectangle. *)
Definition inb (m : Maze) (p : Point) : Prop :=
  0 <= X p < width m /\ 0 <= Y p < height m.

(** The cell at [p] can be read and is not a [Wall]. *)
Definition open_cell (m : Maze) (p : Point) : Prop :=
  exists c, idx2 (grid m) (Y p) (X p) = Ok c /\ c <> Wall.

(** Every cell of the rectangle can be read: the grid has (at least)
    [height] rows of [width] cells. *)
Definition grid_ok (m : Maze) : Prop :=
  forall p, inb m p -> exists c, idx2 (grid m) (Y p) (X p) = Ok c.

(** The fields of a [Maze] are Go [int]s. *)
Definition maze_ints (m : Maze) : Prop := is_int (width m) /\ is_int (height m).

(** Cardinal adjacency. *)
Definition adjacent (p q : Point) : Prop :=
  Z.abs (X p - X q) + Z.abs (Y p - Y q) = 1.

(** [q] is produced from [p] by one of the four direction vectors. *)
Definition stepped (p q : Point) : Prop :=
  exists dir, dir ∈ directions /\ q = move p dir.

(** Consecutive points are cardinally adjacent. *)
Fixpoint linked (l : list Point) : Prop :=
  match l with
  | p :: (q :: _) as t => adjacent p q /\ linked t
  | _ => True
  end.

(** A route from [a] to [b]: consecutive points adjacent, every point inside
    the rectangle, every point after the first not a [Wall]. *)
Definition route (m : Maze) (a b : Point) (l : list Point) : Prop :=
  head l = Some a /\ last l = Some b /\ linked l /\
  Forall (inb m) l /\ Forall (open_cell m) (tail l).

Definition reachable (m : Maze) (a b : Point) : Prop :=
  exists l, route m a b l.

(** The number of cells of the rectangle. *)
Definition cells (m : Maze) : nat := (Z.to_nat (width m) * Z.to_nat (height m))%nat.

(** ** The invariant of the solver's search *)

(** [d] is the ghost level of each queued point, [c] the index of the point
    being expanded. *)
Record bfs_core (m : Maze) (d : Point -> nat) (c : nat) (st : bfs_state)
  : Prop := mkCore {
  bc_dims : dims2 (visited st) (height m) (width m);
  bc_nodup : NoDup (queue st);
  bc_inb : forall p, p ∈ queue st -> inb m p;
  bc_seen : forall p, inb m p ->
    (idx2 (visited st) (Y p) (X p) = Ok true <-> p ∈ queue st);
  bc_start : queue st !! 0%nat = Some (start m);
  bc_d0 : d (start m) = 0%nat;
  bc_parent : forall i p, (0 < i)%nat -> queue st !! i = Some p ->
    exists j q, (j < i)%nat /\ queue st !! j = Some q /\
      parent st !! p = Some q /\ stepped q p /\ open_cell m p /\
      d p = S (d q);
  bc_mono : forall i j p q, (i <= j)%nat ->
    queue st !! i = Some p -> queue st !! j = Some q -> (d p <= d q)%nat;
  bc_front : forall p q, queue st !! c = Some p -> q ∈ queue st ->
    (d q <= S (d p))%nat
}.

(** Every open neighbour of [p] inside the rectangle is queued, one level
    deeper at most. *)
Definition closed_at (m : Maze) (d : Point -> nat) (st : bfs_state)
  (p : Point) : Prop :=
  forall dir, dir ∈ directions -> inb m (move p dir) ->
    open_cell m (move p dir) ->
    move p dir ∈ queue st /\ (d (move p dir) <= S (d p))%nat.

Definition bfs_inv (m : Maze) (d : Point -> nat) (head : nat)
  (st : bfs_state) : Prop :=
  bfs_core m d head st /\
  forall i p, (i < head)%nat -> queue st !! i = Some p ->
    p <> end_ m /\ closed_at m d st p.

(** The queue grew at its end and the levels of the old points are kept. *)
Definition bfs_ext (d : Point -> nat) (st : bfs_state) (d' : Point -> nat)
  (st' : bfs_state) : Prop :=
  (exists suf, queue st' = queue st ++ suf) /\
  forall p, p ∈ queue st -> d' p = d p.

(** ** The parent chain of the solver *)

(** [l] lists [p], its parent, its grandparent, ... down to [s], each point
    but [s] being an open cell of the rectangle produced by a step from its
    parent. *)
Inductive back_route (m : Maze) (par : gmap Point Point) (s : Point)
  : Point -> list Point -> Prop :=
  | br_start : back_route m par s s [s]
  | br_step p l :
      p <> s -> stepped (par !!! p) p -> open_cell m p -> inb m p ->
      back_route m par s (par !!! p) l ->
      back_route m par s p (p :: l).

(** The grids of [TestSolve], and a corridor whose start cell is a wall. *)
Definition simple_maze : Maze :=
  test_maze [[Wall; Wall; Wall; Wall; Wall];
             [Wall; Start; Path; End; Wall];
             [Wall; Wall; Wall; Wall; Wall]] (mkPoint 1 1) (mkPoint 3 1).

Definition unsolvable_maze : Maze :=
  test_maze [[Wall; Wall; Wall; Wall; Wall];
             [Wall; Start; Wall; End; Wall];
             [Wall; Wall; Wall; Wall; Wall]] (mkPoint 1 1) (mkPoint 3 1).

Definition single_cell_maze : Maze :=
  test_maze [[Wall; Wall; Wall];
             [Wall; Start; Wall];
             [Wall; Wall; Wall]] (mkPoint 1 1) (mkPoint 1 1).

Definition wall_start_maze : Maze :=
  test_maze [[Wall; Path; End]] (mkPoint 0 0) (mkPoint 2 0).

(** ** Generation *)

(** The maze [New] builds once the dimensions are validated and adjusted. *)
Definition fresh_maze (aw ah adw adh : Z) : result Maze :=
  let m := mkMaze aw ah [] (mkPoint 0 0) (mkPoint 0 0) (mkPoint 0 0) adw adh 0 0 in
  let m :=
    if (0 <? adw) && (0 <? adh)
    then let '(dx, dy) := calculateDenPosition aw adw ah adh in
         mkMaze aw ah [] (mkPoint 0 0) (mkPoint 0 0) (mkPoint 0 0) adw adh dx dy
    else m in
  initializeGrid m.

(** Only the grid differs. *)
Definition regrid (m m' : Maze) : Prop := m' = set_grid (grid m') m.

(** The dimensions and the den geometry agree. *)
Definition same_shape (m m' : Maze) : Prop :=
  width m' = width m /\ height m' = height m /\
  denWidth m' = denWidth m /\ denHeight m' = denHeight m /\
  denStartX m' = denStartX m /\ denStartY m' = denStartY m.

(** The width and height are Go [int]s whose predecessor does not wrap. *)
Definition border_ints (m : Maze) : Prop :=
  int_min < width m <= int_max /\ int_min < height m <= int_max.

(** A supplied start point is refused, in the words of the spec: a
    coordinate is even, or the point is not strictly inside the outer
    border, or it lies inside the den. *)
Definition start_invalid (m : Maze) (p : Point) : Prop :=
  Z.even (X p) = true \/ Z.even (Y p) = true \/
  ~ (0 < X p < width m - 1 /\ 0 < Y p < height m - 1) \/
  IsInsideDen m p = true.

(** A small linear congruential generator, to run the model on examples. *)
Definition lcg_next (s : Z) : Z :=
  (s * 6364136223846793005 + 1442695040888963407) mod 2 ^ 64.

Definition lcg_Intn (r n : Z) : Z * Z := ((lcg_next r / 2 ^ 33) mod n, lcg_next r).

(** Floats are represented by their numerator over [2^53]. *)
Definition lcg_rand : RandSource := {|
  Rand := Z;
  float64 := Z;
  NewSource := fun seed => seed mod 2 ^ 64;
  Intn_raw := lcg_Intn;
  Float64 := fun r => ((lcg_next r / 2 ^ 11) mod 2 ^ 53, lcg_next r);
  f64_ltb := Z.ltb;
  Intn_range := fun r n Hn => Z.mod_pos_bound (lcg_next r / 2 ^ 33) n Hn
|}.

(** The bias 0.5. *)
Definition half : @float64 lcg_rand := 2 ^ 52.

(** The errors of the den connection step. *)
Definition door_error (e : error) : Prop :=
  e = ErrInvalidDoorSide \/ e = ErrDoorTooClose \/ e = ErrDoorConnect \/
  e = ErrDoorNotWall \/ e = ErrDoorNoConnection.

(** The errors of the validation of a supplied start point. *)
Definition start_error (e : error) : Prop :=
  e = ErrInvalidStart \/ e = ErrStartInsideDen.

(** The grid has [height] rows of [width] cells, both Go [int]s. *)
Definition maze_wf (m : Maze) : Prop :=
  dims2 (grid m) (height m) (width m) /\
  width m <= int_max /\ height m <= int_max.

(** Strictly inside the outer border. *)
Definition interior (m : Maze) (p : Point) : Prop :=
  0 < X p < width m - 1 /\ 0 < Y p < height m - 1.

(** A cell of the rectangle that is not a wall. *)
Definition walkable (m : Maze) (p : Point) : Prop := inb m p /\ open_cell m p.

(** [m] is what [New] returns on some inputs. *)
Definition constructed (m : Maze) : Prop :=
  exists w h dw dh, is_int w /\ is_int h /\ is_int dw /\ is_int dh /\
    New w h dw dh = Ok (inl m).

(** The maze has a den. *)
Definition has_den (m : Maze) : Prop := 0 < denWidth m /\ 0 < denHeight m.

(** The cell two steps from [p] along [dir], and the wall cell between. *)
Definition two_steps (p dir : Point) : Point :=
  mkPoint (X p + X dir) (Y p + Y dir).
Definition wall_between (p dir : Point) : Point :=
  mkPoint (X p + Z.quot (X dir) 2) (Y p + Z.quot (Y dir) 2).

(** [two_steps p dir] may be carved into from [p]: it lies strictly inside
    the border, is still a wall, the wall between is not inside the den and
    the cell is not adjacent to the den. *)
Definition carvable (m : Maze) (p dir : Point) : Prop :=
  interior m (two_steps p dir) /\
  cell_at m (two_steps p dir) = Ok Wall /\
  IsInsideDen m (wall_between p dir) = false /\
  IsAdjacentToDen m (two_steps p dir) = false.

(** The number of wall cells of a grid: the carving walk consumes them. *)
Definition wall_bit (c : Cell) : nat := if c =? Wall then 1%nat else 0%nat.

Fixpoint count_walls_row (row : list Cell) : nat :=
  match row with
  | [] => 0%nat
  | c :: row' => (wall_bit c + count_walls_row row')%nat
  end.

Fixpoint wall_count (g : list (list Cell)) : nat :=
  match g with
  | [] => 0%nat
  | row :: g' => (count_walls_row row + wall_count g')%nat
  end.

(** ** The farthest-point search *)

(** Neither inside the den nor adjacent to it. *)
Definition qualifies (m : Maze) (p : Point) : Prop :=
  IsInsideDen m p = false /\ IsAdjacentToDen m p = false.

(** The invariant of [findFarthestPoint] from the reference point [s]: the
    queue lists the visited points without repetition, [distances] records
    for each of them one more than for the point it was reached from, and
    the farthest point is the first visited qualifying point of greatest
    recorded distance, or [s] itself while no qualifying point of positive
    distance has been visited. *)
Record far_inv (m : Maze) (s : Point) (st : far_state) : Prop := mkFarInv {
  fi_start : fqueue st !! 0%nat = Some s;
  fi_nodup : NoDup (fqueue st);
  fi_keys : forall p, is_Some (distances st !! p) <-> p ∈ fqueue st;
  fi_dist0 : distances st !! s = Some 0;
  fi_range : forall i p dp, fqueue st !! i = Some p ->
    distances st !! p = Some dp -> 0 <= dp <= Z.of_nat i;
  fi_level : forall i p, (0 < i)%nat -> fqueue st !! i = Some p ->
    interior m p /\ open_cell m p /\
    exists j q dq, (j < i)%nat /\ fqueue st !! j = Some q /\ stepped q p /\
      distances st !! q = Some dq /\ distances st !! p = Some (dq + 1);
  fi_far : distances st !! farthestPoint st = Some (maxDistance st);
  fi_choice :
    (farthestPoint st = s /\ maxDistance st = 0) \/
    (exists j, (0 < j)%nat /\ fqueue st !! j = Some (farthestPoint st) /\
       qualifies m (farthestPoint st) /\ 0 < maxDistance st /\
       forall i q dq, (0 < i < j)%nat -> fqueue st !! i = Some q ->
         qualifies m q -> distances st !! q = Some dq ->
         dq < maxDistance st);
  fi_max : forall i q dq, (0 < i)%nat -> fqueue st !! i = Some q ->
    qualifies m q -> distances st !! q = Some dq -> dq <= maxDistance st
}.

(** Every cell of [m'] is the cell of [m] or has been carved to [Path]. *)
Definition only_carved (m m' : Maze) : Prop :=
  forall p, cell_at m' p = Ok Path \/ cell_at m' p = cell_at m p.

(** The den is aligned on odd coordinates, has odd spans and leaves at
    least the border wall on every side. *)
Definition den_aligned (m : Maze) : Prop :=
  Z.odd (denStartX m) = true /\ Z.odd (denStartY m) = true /\
  Z.odd (denWidth m) = true /\ Z.odd (denHeight m) = true /\
  1 <= denStartX m /\ denStartX m + denWidth m <= width m - 2 /\
  1 <= denStartY m /\ denStartY m + denHeight m <= height m - 2.

(** One coordinate of [calculateDenPosition]. *)
Definition den_axis (w dw : Z) : Z :=
  let d := div64 (sub64 w dw) 2 in
  if (0 <? d) && (rem64 d 2 =? 0) then sub64 d 1 else d.

(** What the den connection step may change: cells carved to [Path] and the
    door; the shape, the start and the end are kept. *)
Definition door_step (m m' : Maze) : Prop :=
  same_shape m m' /\ start m' = start m /\ end_ m' = end_ m /\
  only_carved m m' /\ (maze_wf m -> maze_wf m').

(** ** The random door *)

(** A wall cell strictly inside the border whose horizontal or vertical
    neighbour pair are both [Path], exactly one of the two inside the den. *)
Definition door_seam (m : Maze) (p : Point) : Prop :=
  interior m p /\ cell_at m p = Ok Wall /\
  ((cell_at m (mkPoint (X p - 1) (Y p)) = Ok Path /\
    cell_at m (mkPoint (X p + 1) (Y p)) = Ok Path /\
    IsInsideDen m (mkPoint (X p - 1) (Y p)) <> IsInsideDen m (mkPoint (X p + 1) (Y p))) \/
   (cell_at m (mkPoint (X p) (Y p - 1)) = Ok Path /\
    cell_at m (mkPoint (X p) (Y p + 1)) = Ok Path /\
    IsInsideDen m (mkPoint (X p) (Y p - 1)) <> IsInsideDen m (mkPoint (X p) (Y p + 1)))).

(** ** Corridor graphs *)

(** A simple path in the set [S] of cells: consecutive points adjacent, no
    point repeated, every point in [S]. *)
Definition simple_path (S : Point -> Prop) (a b : Point) (l : list Point) : Prop :=
  head l = Some a /\ last l = Some b /\ linked l /\ NoDup l /\ Forall S l.

(** Exactly one simple path connects any two cells of [S]: the cells form a
    connected graph without cycles. *)
Definition tree (S : Point -> Prop) : Prop :=
  forall a b, S a -> S b ->
    exists l, simple_path S a b l /\ forall l', simple_path S a b l' -> l' = l.

(** ** The invariant of the carving walk without a den *)

(** Both coordinates odd: a passage cell. *)
Definition odd_cell (p : Point) : Prop := Z.Odd (X p) /\ Z.Odd (Y p).

(** The carved cells lie strictly inside the border; no cell with both
    coordinates even is carved; a carved cell with one even coordinate has
    its two neighbours along that axis carved; and the carved cells form a
    tree. *)
Record carved_inv (m : Maze) : Prop := mkCarved {
  ci_interior : forall p, walkable m p -> interior m p;
  ci_not_even : forall p, walkable m p -> Z.Even (X p) -> Z.Even (Y p) -> False;
  ci_horiz : forall p, walkable m p -> Z.Even (X p) ->
    walkable m (mkPoint (X p - 1) (Y p)) /\ walkable m (mkPoint (X p + 1) (Y p));
  ci_vert : forall p, walkable m p -> Z.Even (Y p) ->
    walkable m (mkPoint (X p) (Y p - 1)) /\ walkable m (mkPoint (X p) (Y p + 1));
  ci_tree : tree (walkable m)
}.

(** Every carved passage cell is still on the stack, or all its two-step
    neighbours strictly inside the border are carved. *)
Definition walk_inv (m : Maze) (stack : list Point) : Prop :=
  denWidth m = 0 /\ carved_inv m /\
  Forall (fun p => walkable m p /\ odd_cell p) stack /\
  forall p, walkable m p -> odd_cell p ->
    p ∈ stack \/
    forall dir, dir ∈ carve_directions -> interior m (two_steps p dir) ->
      walkable m (two_steps p dir).

(** ** The corridor search of a named door side *)

(** The invariant of [carvePathToNearest] from the point [s]: the queue
    lists the visited points without repetition; every point after [s] is a
    wall cell strictly inside the border whose recorded parent was queued
    before it. *)
Record carve_inv (m : Maze) (s : Point) (st : carve_state) : Prop := mkCarveInv {
  cv_start : cqueue st !! 0%nat = Some s;
  cv_nodup : NoDup (cqueue st);
  cv_keys : forall p, is_Some (cvisited st !! p) <-> p ∈ cqueue st;
  cv_level : forall i p, (0 < i)%nat -> cqueue st !! i = Some p ->
    interior m p /\ cell_at m p = Ok Wall /\
    exists j q, (j < i)%nat /\ cqueue st !! j = Some q /\ cparent st !! p = Some q
}.

(** ** Constructed and generated examples *)

Definition maze_of (r : result (Maze + error)) : Maze :=
  match r with
  | Ok (inl m) => m
  | _ => mkMaze 0 0 [] (mkPoint 0 0) (mkPoint 0 0) (mkPoint 0 0) 0 0 0 0
  end.

Definition generated_of (r : result (Maze * option error)) : Maze :=
  match r with
  | Ok (m, _) => m
  | _ => mkMaze 0 0 [] (mkPoint 0 0) (mkPoint 0 0) (mkPoint 0 0) 0 0 0 0
  end.

(** [New(5, 5, 0, 0)], [New(7, 7, 3, 3)] and [New(9, 9, 3, 3)]. *)
Definition plain_maze_5 : Maze := Eval vm_compute in maze_of (New 5 5 0 0).
Definition den_maze_7 : Maze := Eval vm_compute in maze_of (New 7 7 3 3).
Definition den_maze_9 : Maze := Eval vm_compute in maze_of (New 9 9 3 3).

(** [plain_maze_5] after [Generate(42, nil, nil, side, 0.5)] with the empty
    side, under the example generator. *)
Definition generated_5 : Maze :=
  Eval vm_compute in
    generated_of (Generate (H := lcg_rand) 200 42 None None EmptyString half plain_maze_5).

(** [den_maze_7] after [Generate(42, &Point{5, 5}, nil, "top", 0.5)], which
    fails: the door would lie on the border. *)
Definition door_failure_7 : Maze :=
  Eval vm_compute in
    generated_of (Generate (H := lcg_rand) 400 42 (Some (mkPoint 5 5)) None "top"
                    half den_maze_7).

(** ** Further vocabulary *)

(** [New(1, 5, 0, 0)]: a maze one cell wide. *)
Definition strip_maze : Maze := Eval vm_compute in maze_of (New 1 5 0 0).

(** The cells the carving walk has to leave alone: the outer border, the
    den, and the cells adjacent to the den. *)
Definition protected (m : Maze) (p : Point) : Prop :=
  ~ interior m p \/ IsInsideDen m p = true \/ IsAdjacentToDen m p = true.

(** The invariant of the carving walk on the maze [m0]: the cells on the
    stack have odd coordinates and lie outside the den, and no protected
    cell has changed. *)
Definition walk_frame (m0 m : Maze) (stack : list Point) : Prop :=
  same_shape m0 m /\
  Forall (fun p => odd_cell p /\ IsInsideDen m0 p = false) stack /\
  forall p, protected m0 p -> cell_at m p = cell_at m0 p.

(** [den_maze_9] after the carving walk from (1, 1), with the state of the
    example generator. *)
Definition walked_9 : Maze * Z :=
  Eval vm_compute in
    match runDFS (H := lcg_rand) 400 (NewSource 42) (mkPoint 1 1) half den_maze_9 with
    | Ok p => p
    | _ => (den_maze_9, 0)
    end.

(** The step from a door on the named side of the den to the cell outside
    it. *)
Definition side_out (side : string) : option Point :=
  if decide (side = "top"%string) then Some (mkPoint 0 (-1))
  else if decide (side = "bottom"%string) then Some (mkPoint 0 1)
  else if decide (side = "left"%string) then Some (mkPoint (-1) 0)
  else if decide (side = "right"%string) then Some (mkPoint 1 0)
  else None.

(** The maze of [walked_9] after a door is asked for on the top side. *)
Definition sided_9 : Maze :=
  Eval vm_compute in generated_of (connectDenAtSide 400 "top" (fst walked_9)).

(** [p] is reached from [s] by steps in the four directions through cells
    strictly inside the border that are not walls: the cells the
    farthest-point search can visit. *)
Inductive inner_reach (m : Maze) (s : Point) : Point -> Prop :=
  | ir_refl : inner_reach m s s
  | ir_step p dir :
      inner_reach m s p -> dir ∈ directions ->
      interior m (move p dir) -> open_cell m (move p dir) ->
      inner_reach m s (move p dir).

(** The first [head] points of the queue have all their open neighbours
    strictly inside the border in the queue. *)
Definition far_closed (m : Maze) (st : far_state) (head : nat) : Prop :=
  forall i p dir, (i < head)%nat -> fqueue st !! i = Some p ->
    dir ∈ directions -> interior m (move p dir) -> open_cell m (move p dir) ->
    move p dir ∈ fqueue st.

(** [den_maze_9] after [Generate(42, nil, nil, side, 0.5)] with the empty
    side, under the example generator. *)
Definition generated_9 : Maze :=
  Eval vm_compute in
    generated_of (Generate (H := lcg_rand) 400 42 None None EmptyString half den_maze_9).

(** [p] is reached from [s] by steps in the four directions through wall
    cells strictly inside the border: the cells the corridor search
    queues. *)
Inductive wall_reach (m : Maze) (s : Point) : Point -> Prop :=
  | wr_refl : wall_reach m s s
  | wr_step p dir :
      wall_reach m s p -> dir ∈ directions ->
      interior m (move p dir) -> cell_at m (move p dir) = Ok Wall ->
      wall_reach m s (move p dir).

(** Every recorded parent is one step away from its child, and every queued
    point is within reach through walls. *)
Definition carve_sound (m : Maze) (s : Point) (st : carve_state) : Prop :=
  (forall p q, cparent st !! p = Some q -> stepped q p) /\
  (forall p, p ∈ cqueue st -> wall_reach m s p).

(** The first [head] points of the queue have no [Path] among their
    neighbours strictly inside the border, and their wall neighbours are
    queued. *)
Definition carve_closed (m : Maze) (st : carve_state) (head : nat) : Prop :=
  forall i p dir, (i < head)%nat -> cqueue st !! i = Some p ->
    dir ∈ directions -> interior m (move p dir) ->
    cell_at m (move p dir) <> Ok Path /\
    (cell_at m (move p dir) = Ok Wall -> move p dir ∈ cqueue st).

(** [p] is reached from [s] in exactly [n] steps through cells strictly
    inside the border that are not walls. *)
Inductive inner_steps (m : Maze) (s : Point) : nat -> Point -> Prop :=
  | is_here : inner_steps m s 0 s
  | is_step n p dir :
      inner_steps m s n p -> dir ∈ directions ->
      interior m (move p dir) -> open_cell m (move p dir) ->
      inner_steps m s (S n) (move p dir).

(** The distances recorded by the farthest-point search while the point of
    index [head] is expanded: each is the length of a walk from the
    reference point, they never decrease along the queue and exceed the
    distance of the expanded point by one at most, and the open neighbours
    of the points already expanded are recorded, one step farther at
    most. *)
Record far_levels (m : Maze) (s : Point) (st : far_state) (head : nat) : Prop :=
  mkFarLevels {
  fl_steps : forall p dp, distances st !! p = Some dp ->
    0 <= dp /\ inner_steps m s (Z.to_nat dp) p;
  fl_mono : forall i j p q dp dq, (i <= j)%nat ->
    fqueue st !! i = Some p -> fqueue st !! j = Some q ->
    distances st !! p = Some dp -> distances st !! q = Some dq -> dp <= dq;
  fl_front : forall cur dc q dq, fqueue st !! head = Some cur ->
    distances st !! cur = Some dc -> distances st !! q = Some dq -> dq <= dc + 1;
  fl_closed : forall i p dir dp, (i < head)%nat -> fqueue st !! i = Some p ->
    distances st !! p = Some dp -> dir ∈ directions ->
    interior m (move p dir) -> open_cell m (move p dir) ->
    exists dn, distances st !! move p dir = Some dn /\ dn <= dp + 1
}.

(** [New(3, 3, 0, 0)], the smallest maze with a cell inside the border, and
    the maze it becomes under [Generate(42, nil, nil, side, 0.5)] with the
    empty side and the example generator. *)
Definition plain_maze_3 : Maze := Eval vm_compute in maze_of (New 3 3 0 0).
Definition generated_3 : Maze :=
  Eval vm_compute in
    generated_of (Generate (H := lcg_rand) 200 42 None None EmptyString half plain_maze_3).

(** A hand-built maze, as the test suite builds them: five by five, every
    cell a [Wall], with a den of one cell at the even position (2, 2). *)
Definition sealed_den_5 : Maze :=
  mkMaze 5 5 (replicate 5 (replicate 5 Wall)) (mkPoint 0 0) (mkPoint 0 0)
         (mkPoint 0 0) 1 1 2 2.

(** [sealed_den_5] after the carving walk of [Generate(42, nil, nil, side,
    0.5)] with the empty side, and after the whole call, under the example
    generator. *)
Definition sealed_walked_5 : Maze :=
  Eval vm_compute in
    match random_start (H := lcg_rand) 400 (NewSource 42) sealed_den_5 with
    | Ok (gs, r1) => generated_of (m ← runDFS 400 r1 gs half sealed_den_5;
                                   Ok (fst m, None))
    | _ => sealed_den_5
    end.
Definition sealed_generated_5 : Maze :=
  Eval vm_compute in
    generated_of (Generate (H := lcg_rand) 400 42 None None EmptyString half sealed_den_5).

(** [n] is the breadth-first distance of [p] from [s]: the number of steps
    of a shortest walk from [s] to [p] through cells strictly inside the
    border that are not walls. *)
Definition bfs_distance (m : Maze) (s p : Point) (n : nat) : Prop :=
  inner_steps m s n p /\ forall k, inner_steps m s k p -> (n <= k)%nat.

(** The queue of [findFarthestPoint] when its loop ends: the cells it
    visited, in the order it visited them. *)
Definition visit_order (fuel : nat) (m : Maze) (s : Point) : result (list Point) :=
  st ← far_search fuel m 0 (mkFar [s] {[s := 0]} s 0);
  Ok (fqueue st).



(** The carving walk on the maze [m0] leaves no passage half explored:
    besides keeping the frame, every carved cell with odd coordinates
    outside the den is still on the stack, or none of its two-step
    neighbours can be carved into any more. *)
Definition walk_closed (m0 m : Maze) (stack : list Point) : Prop :=
  walk_frame m0 m stack /\
  forall p, odd_cell p -> interior m0 p -> IsInsideDen m0 p = false ->
    cell_at m p = Ok Path ->
    p ∈ stack \/ forall dir, dir ∈ carve_directions -> ~ carvable m p dir.

(** The cell [d] is an open door of the den: a [Path] strictly inside the
    border and outside the den, between two cells that are not walls, one
    of them inside the den and the other not. *)
Definition den_door (m : Maze) (d : Point) : Prop :=
  interior m d /\ cell_at m d = Ok Path /\ IsInsideDen m d = false /\
  ((open_cell m (mkPoint (X d - 1) (Y d)) /\ open_cell m (mkPoint (X d + 1) (Y d)) /\
    IsInsideDen m (mkPoint (X d - 1) (Y d)) <> IsInsideDen m (mkPoint (X d + 1) (Y d))) \/
   (open_cell m (mkPoint (X d) (Y d - 1)) /\ open_cell m (mkPoint (X d) (Y d + 1)) /\
    IsInsideDen m (mkPoint (X d) (Y d - 1)) <> IsInsideDen m (mkPoint (X d) (Y d + 1)))).

(** The carving walk from [gs] on the maze [m0] keeps its corridors in one
    piece: besides keeping the frame, the cells on the stack are carved,
    and every carved cell outside the den is reached from [gs]. *)
Definition walk_joined (m0 : Maze) (gs : Point) (m : Maze) (stack : list Point)
  : Prop :=
  walk_frame m0 m stack /\
  Forall (fun p => cell_at m p = Ok Path) stack /\
  forall q, cell_at m q = Ok Path -> IsInsideDen m0 q = false -> reachable m gs q.

(** * Properties *)

(** ** Machine arithmetic *)

Lemma wrap_id (z : Z) : is_int z -> wrap z = z.
Proof.
  unfold is_int, int_min, int_max, wrap. intros Hz.
  rewrite Z.mod_small; lia.
Qed.

Lemma wrap_is_int (z : Z) : is_int (wrap z).
Proof.
  unfold is_int, int_min, int_max, wrap.
  pose proof (Z.mod_pos_bound (z + 2 ^ 63) (2 ^ 64)). lia.
Qed.

Lemma rem64_even (z : Z) : (rem64 z 2 =? 0) = Z.even z.
Proof.
  unfold rem64. rewrite Zeven_rem. reflexivity.
Qed.

(** ** Construction (C3) *)

Lemma adjustToOdd_pos (z : Z) :
  is_int z -> 0 < z -> adjustToOdd z = next_odd z /\ Z.odd (adjustToOdd z) = true.
Proof.
  intros Hz Hpos. unfold adjustToOdd, next_odd. rewrite rem64_even.
  assert (Hlt : (0 <? z) = true) by lia. rewrite Hlt. cbn [andb].
  destruct (Z.even z) eqn:He.
  - assert (z <> int_max).
    { intros ->. vm_compute in He. discriminate. }
    unfold add64. rewrite wrap_id by (unfold is_int in *; lia).
    split; [reflexivity|]. rewrite Z.odd_add, <- Z.negb_even, He. reflexivity.
  - split; [reflexivity|]. rewrite <- Z.negb_even, He. reflexivity.
Qed.

Lemma adjustToOdd_zero : adjustToOdd 0 = 0.
Proof. reflexivity. Qed.

Lemma adjustToOdd_nonneg (z : Z) :
  is_int z -> 0 <= z -> (0 < adjustToOdd z <-> 0 < z) /\
  (0 < z -> adjustToOdd z = next_odd z).
Proof.
  intros Hz Hnn. destruct (Z.eq_dec z 0) as [->|Hne].
  - rewrite adjustToOdd_zero. lia.
  - destruct (adjustToOdd_pos z Hz) as [Heq _]; [lia|].
    split; [|auto]. rewrite Heq. unfold next_odd. destruct (Z.even z); lia.
Qed.

Lemma validate_spec (w h dw dh : Z) :
  is_int w -> is_int h -> is_int dw -> is_int dh ->
  match validateAndAdjustDimensions w h dw dh with
  | inr _ => New_rejects w h dw dh
  | inl (aw, ah, adw, adh) =>
      ~ New_rejects w h dw dh /\
      aw = next_odd w /\ ah = next_odd h /\
      adw = adjustToOdd dw /\ adh = adjustToOdd dh
  end.
Proof.
  intros Hw Hh Hdw Hdh. unfold validateAndAdjustDimensions, New_rejects.
  destruct (orb _ _) eqn:E1; [lia|].
  destruct (orb (dw <? 0) _) eqn:E2; [lia|].
  apply orb_false_iff in E1 as [? ?]. apply orb_false_iff in E2 as [? ?].
  destruct (adjustToOdd_pos w Hw) as [Ew Ow]; [lia|].
  destruct (adjustToOdd_pos h Hh) as [Eh Oh]; [lia|].
  destruct (adjustToOdd_nonneg dw Hdw) as [Pdw Edw]; [lia|].
  destruct (adjustToOdd_nonneg dh Hdh) as [Pdh Edh]; [lia|].
  assert (Sw : sub64 (adjustToOdd w) 2 = next_odd w - 2).
  { unfold sub64. rewrite Ew. apply wrap_id.
    unfold next_odd, is_int, int_min, int_max in *.
    destruct (Z.even w) eqn:He; [|lia].
    assert (w <> 2 ^ 63 - 1) by (intros ->; vm_compute in He; discriminate). lia. }
  assert (Sh : sub64 (adjustToOdd h) 2 = next_odd h - 2).
  { unfold sub64. rewrite Eh. apply wrap_id.
    unfold next_odd, is_int, int_min, int_max in *.
    destruct (Z.even h) eqn:He; [|lia].
    assert (h <> 2 ^ 63 - 1) by (intros ->; vm_compute in He; discriminate). lia. }
  rewrite Sw, Sh.
  destruct (andb (0 <? adjustToOdd dw) _) eqn:E3.
  { apply andb_true_iff in E3 as [? ?]. right; right; right; right; left.
    rewrite <- Edw by lia. lia. }
  destruct (andb (0 <? adjustToOdd dh) _) eqn:E4.
  { apply andb_true_iff in E4 as [? ?]. right; right; right; right; right.
    rewrite <- Edh by lia. lia. }
  apply andb_false_iff in E3, E4.
  repeat split; auto.
  intros [?|[?|[?|[?|[[? ?]|[? ?]]]]]]; lia.
Qed.

Lemma initializeGrid_ok (m : Maze) :
  0 <= height m -> 0 <= width m ->
  exists g, initializeGrid m = Ok (set_grid g m).
Proof.
  intros Hh Hw. unfold initializeGrid.
  assert (E1 : (height m <? 0) = false) by lia.
  assert (E2 : (width m <? 0) = false) by lia.
  rewrite E1, E2, andb_false_r. eauto.
Qed.

(** C3: [New] returns an error exactly when a dimension is non-positive, a
    den dimension is negative, or a positive den dimension, rounded up to an
    odd value, is at least the rounded maze dimension minus two; otherwise it
    returns a maze whose width and height are the inputs with an even value
    incremented by one, hence odd. *)
Theorem New_error_iff (w h dw dh : Z) :
  is_int w -> is_int h -> is_int dw -> is_int dh ->
  ((exists e, New w h dw dh = Ok (inr e)) <-> New_rejects w h dw dh) /\
  (~ New_rejects w h dw dh ->
   exists m, New w h dw dh = Ok (inl m) /\
     width m = next_odd w /\ height m = next_odd h /\
     Z.odd (width m) = true /\ Z.odd (height m) = true).
Proof.
  intros Hw Hh Hdw Hdh.
  pose proof (validate_spec w h dw dh Hw Hh Hdw Hdh) as Hv.
  unfold New. destruct (validateAndAdjustDimensions w h dw dh) as [[[[aw ah] adw] adh]|e].
  - destruct Hv as (Hnr & -> & -> & -> & ->).
    assert (Hpos : 0 < w /\ 0 < h) by (unfold New_rejects in Hnr; lia).
    destruct Hpos as [Hpw Hph].
    destruct (adjustToOdd_pos w Hw Hpw) as [Ew Ow].
    destruct (adjustToOdd_pos h Hh Hph) as [Eh Oh].
    rewrite Ew in Ow. rewrite Eh in Oh.
    match goal with |- context [initializeGrid ?m] =>
      destruct (initializeGrid_ok m) as [g Hg] end.
    { destruct (andb _ _); [destruct (calculateDenPosition _ _ _ _)|]; cbn;
        unfold next_odd; destruct (Z.even h); lia. }
    { destruct (andb _ _); [destruct (calculateDenPosition _ _ _ _)|]; cbn;
        unfold next_odd; destruct (Z.even w); lia. }
    rewrite Hg. cbn. split.
    + split; [intros [e He]; discriminate | intros; contradiction].
    + intros _. eexists. split; [reflexivity|].
      destruct (andb _ _); [destruct (calculateDenPosition _ _ _ _)|]; cbn; auto.
  - split; [split; [auto | eauto] | intros; contradiction].
Qed.

(** The test cases of maze_test.go. *)
Example New_error_iff_witness :
  ((exists e, New 40 20 10 6 = Ok (inr e)) <-> New_rejects 40 20 10 6) /\
  (~ New_rejects 40 20 10 6 ->
   exists m, New 40 20 10 6 = Ok (inl m) /\
     width m = next_odd 40 /\ height m = next_odd 20 /\
     Z.odd (width m) = true /\ Z.odd (height m) = true).
Proof.
  apply (New_error_iff 40 20 10 6); unfold is_int, int_min, int_max; lia.
Defined.

(** ** The solver on the grids of the test suite *)

Example Solve_simple :
  Solve 16 simple_maze = Ok ([mkPoint 1 1; mkPoint 2 1; mkPoint 3 1], true).
Proof. vm_compute. reflexivity. Qed.

Example Solve_unsolvable : Solve 16 unsolvable_maze = Ok ([], false).
Proof. vm_compute. reflexivity. Qed.

Example Solve_prealloc_simple :
  Solve_prealloc 16 simple_maze
  = Ok ([mkPoint 1 1; mkPoint 2 1; mkPoint 3 1], true).
Proof. vm_compute. reflexivity. Qed.

(** ** Two-dimensional slices *)

Section Slices2.
Context {A : Type}.
Implicit Types (g : list (list A)) (a : A).

Lemma idx2_Ok g y x a :
  idx2 g y x = Ok a <->
  0 <= y /\ 0 <= x /\
  exists row, g !! Z.to_nat y = Some row /\ row !! Z.to_nat x = Some a.
Proof.
  unfold idx2. destruct (orb _ _) eqn:E.
  - split; [discriminate|]. intros (? & ? & _). lia.
  - apply orb_false_iff in E as [? ?].
    destruct (g !! Z.to_nat y) as [row|] eqn:Er.
    + destruct (row !! Z.to_nat x) as [b|] eqn:Ex.
      * split.
        -- intros [= ->]. repeat split; try lia. eauto.
        -- intros (_ & _ & row' & [= <-] & Hx). congruence.
      * split; [discriminate|]. intros (_ & _ & row' & [= <-] & Hx). congruence.
    + split; [discriminate|]. intros (_ & _ & row' & Hr & _). discriminate.
Qed.

Lemma idx2_not_fuel g y x : idx2 g y x <> OutOfFuel.
Proof.
  unfold idx2. destruct (orb _ _); [discriminate|].
  destruct (g !! _) as [row|]; [|discriminate].
  destruct (row !! _); discriminate.
Qed.

Lemma dims2_lookup g h w y x :
  dims2 g h w -> 0 <= y < h -> 0 <= x < w -> exists a, idx2 g y x = Ok a.
Proof.
  intros (Hh & Hw & Hlen & Hrows) Hy Hx.
  destruct (lookup_lt_is_Some_2 g (Z.to_nat y)) as [row Hrow]; [lia|].
  assert (Hl : length row = Z.to_nat w).
  { eapply (proj1 (Forall_lookup _ _) Hrows); eauto. }
  destruct (lookup_lt_is_Some_2 row (Z.to_nat x)) as [a Ha]; [lia|].
  exists a. apply idx2_Ok. repeat split; try lia. eauto.
Qed.

Lemma dims2_inside g h w y x a :
  dims2 g h w -> idx2 g y x = Ok a -> 0 <= y < h /\ 0 <= x < w.
Proof.
  intros (Hh & Hw & Hlen & Hrows) (Hy & Hx & row & Hrow & Ha)%idx2_Ok.
  assert (Hl : length row = Z.to_nat w).
  { eapply (proj1 (Forall_lookup _ _) Hrows); eauto. }
  apply lookup_lt_Some in Hrow, Ha. lia.
Qed.

Lemma upd2_Ok g y x a g' :
  upd2 g y x a = Ok g' ->
  idx2 g' y x = Ok a /\
  (forall y' x', (y', x') <> (y, x) -> idx2 g' y' x' = idx2 g y' x') /\
  (forall h w, dims2 g h w -> dims2 g' h w /\ 0 <= y < h /\ 0 <= x < w).
Proof.
  unfold upd2. destruct (orb _ _) eqn:E; [discriminate|].
  apply orb_false_iff in E as [Hy Hx].
  destruct (g !! Z.to_nat y) as [row|] eqn:Er; [|discriminate].
  destruct (Nat.ltb_spec (Z.to_nat x) (length row)) as [Hlt|]; [|discriminate].
  intros [= <-]. pose proof (lookup_lt_Some _ _ _ Er) as Hly.
  split; [|split].
  - apply idx2_Ok. repeat split; try lia.
    exists (<[Z.to_nat x := a]> row). split.
    + apply list_lookup_insert_eq. exact Hly.
    + apply list_lookup_insert_eq. exact Hlt.
  - intros y' x' Hne. unfold idx2.
    destruct (orb (y' <? 0) _) eqn:E'; [reflexivity|].
    apply orb_false_iff in E' as [Hy' Hx'].
    destruct (decide (Z.to_nat y' = Z.to_nat y)) as [Ey|Ney].
    + rewrite Ey, list_lookup_insert_eq, Er by exact Hly.
      assert (Z.to_nat x <> Z.to_nat x').
      { intros Ex. apply Hne. f_equal; lia. }
      rewrite list_lookup_insert_ne by assumption. reflexivity.
    + rewrite list_lookup_insert_ne by congruence. reflexivity.
  - intros h w (Hh & Hw & Hlen & Hrows).
    assert (Hl : length row = Z.to_nat w).
    { eapply (proj1 (Forall_lookup _ _) Hrows); eauto. }
    split; [|lia].
    repeat split; try lia.
    + rewrite length_insert. exact Hlen.
    + apply Forall_insert; [exact Hrows|]. rewrite length_insert. exact Hl.
Qed.

Lemma upd2_dims g h w y x a :
  dims2 g h w -> 0 <= y < h -> 0 <= x < w -> exists g', upd2 g y x a = Ok g'.
Proof.
  intros (Hh & Hw & Hlen & Hrows) Hy Hx. unfold upd2.
  assert (E : (y <? 0) || (x <? 0) = false) by lia. rewrite E.
  destruct (lookup_lt_is_Some_2 g (Z.to_nat y)) as [row Hrow]; [lia|].
  assert (Hl : length row = Z.to_nat w).
  { eapply (proj1 (Forall_lookup _ _) Hrows); eauto. }
  rewrite Hrow.
  destruct (Nat.ltb_spec (Z.to_nat x) (length row)); [eauto|lia].
Qed.

Lemma upd2_not_fuel g y x a : upd2 g y x a <> OutOfFuel.
Proof.
  unfold upd2. destruct (orb _ _); [discriminate|].
  destruct (g !! _) as [row|]; [|discriminate].
  destruct (_ <? _)%nat; discriminate.
Qed.

Lemma make2_Ok h w a g :
  make2 h w a = Ok g ->
  0 <= h /\ (0 < h -> 0 <= w) /\
  g = replicate (Z.to_nat h) (replicate (Z.to_nat w) a).
Proof.
  unfold make2. destruct (h <? 0) eqn:E1; [discriminate|].
  destruct (andb _ _) eqn:E2; [discriminate|].
  intros [= <-]. apply andb_false_iff in E2. repeat split; lia.
Qed.

Lemma make2_dims h w a :
  0 <= h -> 0 <= w ->
  exists g, make2 h w a = Ok g /\ dims2 g h w /\
    forall y x, 0 <= y < h -> 0 <= x < w -> idx2 g y x = Ok a.
Proof.
  intros Hh Hw. unfold make2.
  assert (E1 : (h <? 0) = false) by lia.
  assert (E2 : (w <? 0) = false) by lia.
  rewrite E1, E2, andb_false_r. eexists. split; [reflexivity|]. split.
  - repeat split; try lia.
    + apply length_replicate.
    + apply Forall_replicate. apply length_replicate.
  - intros y x Hy Hx. apply idx2_Ok. repeat split; try lia.
    exists (replicate (Z.to_nat w) a).
    split; apply lookup_replicate; split; try reflexivity; lia.
Qed.

Lemma make2_not_fuel h w a : make2 h w a <> OutOfFuel.
Proof.
  unfold make2. destruct (h <? 0); [discriminate|].
  destruct (andb _ _); discriminate.
Qed.
End Slices2.

(** ** The solver's search *)

Ltac rsimpl := cbn [mbind result_bind mret result_ret].

Lemma inb_check (m : Maze) (p : Point) :
  (X p <? 0) || (width m <=? X p) || (Y p <? 0) || (height m <=? Y p) = false
  <-> inb m p.
Proof. unfold inb. rewrite !orb_false_iff. lia. Qed.

Lemma bfs_ext_refl d st : bfs_ext d st d st.
Proof. split; [exists []; symmetry; apply app_nil_r | auto]. Qed.

Lemma bfs_ext_elem d st d' st' p :
  bfs_ext d st d' st' -> p ∈ queue st -> p ∈ queue st'.
Proof. intros [[suf ->] _] Hp. apply elem_of_app. auto. Qed.

Lemma bfs_ext_trans d1 s1 d2 s2 d3 s3 :
  bfs_ext d1 s1 d2 s2 -> bfs_ext d2 s2 d3 s3 -> bfs_ext d1 s1 d3 s3.
Proof.
  intros H12 H23. split.
  - destruct H12 as [[a Ha] _], H23 as [[b Hb] _].
    exists (a ++ b). rewrite Hb, Ha, app_assoc. reflexivity.
  - intros p Hp. destruct H23 as [_ H23]. rewrite H23.
    + destruct H12 as [_ H12]. auto.
    + eapply bfs_ext_elem; eauto.
Qed.

Lemma closed_at_ext m d st d' st' p :
  bfs_ext d st d' st' -> p ∈ queue st ->
  closed_at m d st p -> closed_at m d' st' p.
Proof.
  intros Hext Hp Hc dir Hdir Hin Hopen.
  destruct (Hc dir Hdir Hin Hopen) as [Hq Hd].
  split; [eapply bfs_ext_elem; eauto|].
  destruct Hext as [_ Hext]. rewrite !Hext; auto.
Qed.

(** One neighbour of the point being expanded. *)
Lemma solve_explore_spec m d c st cur dir :
  bfs_core m d c st -> queue st !! c = Some cur -> dir ∈ directions ->
  match solve_explore m cur st dir with
  | Ok st' =>
      exists d', bfs_core m d' c st' /\ bfs_ext d st d' st' /\
        (inb m (move cur dir) -> open_cell m (move cur dir) ->
         move cur dir ∈ queue st' /\ (d' (move cur dir) <= S (d' cur))%nat)
  | Panic => ~ grid_ok m
  | OutOfFuel => False
  end.
Proof.
  intros Hc Hcur Hdir. unfold solve_explore.
  remember (move cur dir) as next eqn:Hnext.
  destruct (orb _ _) eqn:Eb.
  { exists d. split; [exact Hc|]. split; [apply bfs_ext_refl|].
    intros Hin. apply inb_check in Hin. congruence. }
  apply inb_check in Eb.
  destruct (idx2 (grid m) (Y next) (X next)) as [cell| |] eqn:Ecell; rsimpl.
  2: { intros Hok. destruct (Hok next Eb) as [c' Hc']. congruence. }
  2: { eapply idx2_not_fuel; eauto. }
  destruct (Z.eqb_spec cell Wall) as [->|Hnw].
  { exists d. split; [exact Hc|]. split; [apply bfs_ext_refl|].
    intros _ (c' & Hc' & Hne). congruence. }
  destruct (dims2_lookup _ _ _ (Y next) (X next) (bc_dims _ _ _ _ Hc))
    as [seen Hseen]; [apply Eb..|].
  rewrite Hseen. rsimpl.
  assert (Hcurq : cur ∈ queue st) by (eapply list_elem_of_lookup_2; eauto).
  destruct seen.
  { exists d. split; [exact Hc|]. split; [apply bfs_ext_refl|].
    intros _ _. apply (bc_seen _ _ _ _ Hc) in Hseen; [|exact Eb].
    split; [exact Hseen|]. exact (bc_front _ _ _ _ Hc cur next Hcur Hseen). }
  assert (Hfresh : next ∉ queue st).
  { intros Hq. apply (bc_seen _ _ _ _ Hc) in Hq; [|exact Eb]. congruence. }
  destruct (upd2_dims (visited st) _ _ (Y next) (X next) true
              (bc_dims _ _ _ _ Hc)) as [v' Hv']; [apply Eb..|].
  rewrite Hv'. rsimpl.
  destruct (upd2_Ok _ _ _ _ _ Hv') as (Hget & Hother & Hdims).
  set (d' := fun p => if decide (p = next) then S (d cur) else d p).
  assert (Hd'old : forall p, p ∈ queue st -> d' p = d p).
  { intros p Hp. unfold d'. destruct (decide (p = next)); [subst; contradiction|reflexivity]. }
  assert (Hd'new : d' next = S (d cur)).
  { unfold d'. destruct (decide (next = next)); congruence. }
  exists d'. split; [|split].
  - constructor; cbn [queue visited parent].
    + apply Hdims. apply (bc_dims _ _ _ _ Hc).
    + apply NoDup_app. split; [apply (bc_nodup _ _ _ _ Hc)|]. split.
      * intros x Hx ->%list_elem_of_singleton. contradiction.
      * apply NoDup_singleton.
    + intros p [Hp| ->%list_elem_of_singleton]%elem_of_app; [|exact Eb].
      eapply bc_inb; eauto.
    + intros p Hp. rewrite elem_of_app, list_elem_of_singleton.
      destruct (decide (p = next)) as [->|Hne].
      * split; [auto|]. intros _. exact Hget.
      * rewrite Hother.
        -- rewrite (bc_seen _ _ _ _ Hc p Hp). split; [auto|]. intros [?|?]; [auto|contradiction].
        -- intros [= Ey Ex]. apply Hne. destruct p, next. cbn in *. congruence.
    + rewrite lookup_app_l.
      * apply (bc_start _ _ _ _ Hc).
      * pose proof (lookup_lt_Some _ _ _ (bc_start _ _ _ _ Hc)). assumption.
    + rewrite Hd'old; [apply (bc_d0 _ _ _ _ Hc)|].
      eapply list_elem_of_lookup_2. apply (bc_start _ _ _ _ Hc).
    + intros i p Hi [[Hlt Hp]|[-> <-]]%lookup_snoc_Some.
      * destruct (bc_parent _ _ _ _ Hc i p Hi Hp) as (j & q & Hj & Hq & Hpar & Hst & Hop & Hd).
        exists j, q. split; [exact Hj|]. split.
        { rewrite lookup_app_l; [exact Hq|]. lia. }
        assert (p ∈ queue st) by (eapply list_elem_of_lookup_2; eauto).
        assert (q ∈ queue st) by (eapply list_elem_of_lookup_2; eauto).
        split.
        { rewrite lookup_insert_ne; [exact Hpar|]. intros <-. contradiction. }
        rewrite !Hd'old by assumption. auto.
      * exists c, cur. pose proof (lookup_lt_Some _ _ _ Hcur) as Hlt.
        split; [exact Hlt|]. split.
        { rewrite lookup_app_l; [exact Hcur|exact Hlt]. }
        split; [apply lookup_insert_eq|].
        split; [exists dir; auto|].
        split; [exists cell; auto|].
        rewrite Hd'new, Hd'old by assumption. reflexivity.
    + intros i j p q Hij [[Hlti Hp]|[-> <-]]%lookup_snoc_Some
        [[Hltj Hq]|[-> <-]]%lookup_snoc_Some.
      * assert (p ∈ queue st) by (eapply list_elem_of_lookup_2; eauto).
        assert (q ∈ queue st) by (eapply list_elem_of_lookup_2; eauto).
        rewrite !Hd'old by assumption.
        exact (bc_mono _ _ _ _ Hc i j p q Hij Hp Hq).
      * assert (p ∈ queue st) by (eapply list_elem_of_lookup_2; eauto).
        rewrite Hd'new, Hd'old by assumption.
        exact (bc_front _ _ _ _ Hc cur p Hcur H).
      * lia.
      * lia.
    + intros p q [[Hlt Hp]|[Hlen _]]%lookup_snoc_Some.
      2: { apply lookup_lt_Some in Hcur. lia. }
      assert (p = cur) by congruence. subst p.
      rewrite (Hd'old cur Hcurq).
      intros [Hq| ->%list_elem_of_singleton]%elem_of_app.
      * rewrite Hd'old by assumption. exact (bc_front _ _ _ _ Hc cur q Hcur Hq).
      * rewrite Hd'new. lia.
  - split; [exists [next]; reflexivity | exact Hd'old].
  - intros _ _. cbn [queue]. split.
    + apply elem_of_app. right. apply list_elem_of_singleton. reflexivity.
    + rewrite Hd'new, Hd'old by assumption. lia.
Qed.

(** A duplicate-free list of points of the rectangle is no longer than the
    number of cells. *)
Lemma inb_nodup_length (m : Maze) (l : list Point) :
  NoDup l -> (forall p, p ∈ l -> inb m p) -> (length l <= cells m)%nat.
Proof.
  intros Hnd Hin.
  set (f := fun p : Point => Z.to_nat (Y p * width m + X p)).
  assert (Hnd' : NoDup (f <$> l)).
  { apply NoDup_fmap_2_strong; [|exact Hnd].
    intros p q Hp Hq Hf. apply Hin in Hp, Hq. unfold inb in *. unfold f in Hf.
    apply Z2Nat.inj in Hf; [|nia..].
    assert (Y p = Y q) by nia. assert (X p = X q) by nia.
    destruct p, q; cbn in *; congruence. }
  assert (Hsub : f <$> l ⊆+ seq 0 (cells m)).
  { apply NoDup_submseteq; [exact Hnd'|].
    intros n (p & -> & Hp)%list_elem_of_fmap. apply Hin in Hp.
    apply elem_of_seq. unfold f, cells, inb in *.
    rewrite <- Z2Nat.inj_mul by lia. split; [lia|].
    cbn. apply Z2Nat.inj_lt; nia. }
  apply submseteq_length in Hsub.
  rewrite length_fmap, length_seq in Hsub. exact Hsub.
Qed.

Lemma bfs_core_length m d c st : bfs_core m d c st -> (length (queue st) <= cells m)%nat.
Proof.
  intros Hc. apply inb_nodup_length; [apply (bc_nodup _ _ _ _ Hc)|apply (bc_inb _ _ _ _ Hc)].
Qed.

Lemma bfs_ext_lookup d st d' st' i p :
  bfs_ext d st d' st' -> queue st !! i = Some p -> queue st' !! i = Some p.
Proof.
  intros [[suf ->] _] Hp. rewrite lookup_app_l; [exact Hp|].
  eapply lookup_lt_Some; eauto.
Qed.

(** All four neighbours of the point being expanded. *)
Lemma explore_all_spec m cur c dirs :
  forall d st,
  bfs_core m d c st -> queue st !! c = Some cur ->
  (forall dir, dir ∈ dirs -> dir ∈ directions) ->
  match for_each (solve_explore m cur) dirs st with
  | Ok st' =>
      exists d', bfs_core m d' c st' /\ bfs_ext d st d' st' /\
        forall dir, dir ∈ dirs ->
          inb m (move cur dir) -> open_cell m (move cur dir) ->
          move cur dir ∈ queue st' /\ (d' (move cur dir) <= S (d' cur))%nat
  | Panic => ~ grid_ok m
  | OutOfFuel => False
  end.
Proof.
  induction dirs as [|a dirs IH]; intros d st Hc Hcur Hsub; cbn [for_each].
  - exists d. split; [exact Hc|]. split; [apply bfs_ext_refl|].
    intros dir Hdir. inversion Hdir.
  - pose proof (solve_explore_spec m d c st cur a Hc Hcur) as H1.
    destruct (solve_explore m cur st a) as [st1| |]; rsimpl.
    2: { apply H1, Hsub. left. }
    2: { apply H1, Hsub. left. }
    destruct H1 as (d1 & Hc1 & Hext1 & Ha); [apply Hsub; left|].
    pose proof (bfs_ext_lookup _ _ _ _ _ _ Hext1 Hcur) as Hcur1.
    specialize (IH d1 st1 Hc1 Hcur1).
    destruct (for_each (solve_explore m cur) dirs st1) as [st'| |].
    2: { apply IH. intros; apply Hsub; right; assumption. }
    2: { apply IH. intros; apply Hsub; right; assumption. }
    destruct IH as (d' & Hc' & Hext' & Hall).
    { intros; apply Hsub; right; assumption. }
    exists d'. split; [exact Hc'|]. split; [eapply bfs_ext_trans; eauto|].
    intros dir [->|Hdir]%elem_of_cons Hin Hop; [|auto].
    destruct (Ha Hin Hop) as [Hq Hd].
    split; [eapply bfs_ext_elem; eauto|].
    destruct Hext' as [_ Hold]. rewrite !Hold; [exact Hd| |exact Hq].
    eapply list_elem_of_lookup_2; eauto.
Qed.

(** The search loop keeps the invariant, panics only on a grid that cannot
    be read, and needs at most one unit of fuel per cell, plus one. *)
Lemma solve_search_spec m fuel :
  forall d head st,
  bfs_inv m d head st -> (head <= length (queue st))%nat ->
  match solve_search fuel m head st with
  | Ok (found, st') =>
      exists d' head', bfs_inv m d' head' st' /\
        if found : bool then queue st' !! head' = Some (end_ m)
        else head' = length (queue st')
  | Panic => ~ grid_ok m
  | OutOfFuel => (fuel + head <= cells m)%nat
  end.
Proof.
  induction fuel as [|fuel IH]; intros d head st [Hc Hcl] Hhead; cbn [solve_search].
  - pose proof (bfs_core_length _ _ _ _ Hc). lia.
  - destruct (queue st !! head) as [cur|] eqn:Hcur.
    2: { exists d, head. split; [split; assumption|].
         apply lookup_ge_None in Hcur. lia. }
    destruct (decide (cur = end_ m)) as [->|Hne].
    { exists d, head. split; [split; assumption|exact Hcur]. }
    pose proof (explore_all_spec m cur head directions d st Hc Hcur
                  (fun _ H => H)) as H1.
    destruct (for_each (solve_explore m cur) directions st) as [st1| |]; rsimpl;
      [|exact H1|contradiction].
    destruct H1 as (d1 & Hc1 & Hext1 & Hall).
    pose proof (bfs_ext_lookup _ _ _ _ _ _ Hext1 Hcur) as Hcur1.
    assert (Hinv1 : bfs_inv m d1 (S head) st1).
    { split.
      - destruct Hc1. constructor; try assumption.
        intros p q Hp Hq.
        pose proof (bc_front0 cur q Hcur1 Hq).
        pose proof (bc_mono0 head (S head) cur p ltac:(lia) Hcur1 Hp). lia.
      - intros i p Hi Hp.
        destruct (decide (i = head)) as [->|Hneq].
        + assert (p = cur) by congruence. subst p.
          split; [exact Hne|]. intros dir Hdir. apply Hall. exact Hdir.
        + assert (Hi' : (i < head)%nat) by lia.
          assert (Hp0 : queue st !! i = Some p).
          { destruct Hext1 as [[suf Hsuf] _]. rewrite Hsuf in Hp.
            rewrite lookup_app_l in Hp; [exact Hp|].
            apply lookup_lt_Some in Hcur. lia. }
          destruct (Hcl i p Hi' Hp0) as [Hpe Hpc].
          split; [exact Hpe|].
          eapply closed_at_ext; eauto.
          eapply list_elem_of_lookup_2; eauto. }
    specialize (IH d1 (S head) st1 Hinv1).
    apply lookup_lt_Some in Hcur1.
    destruct (solve_search fuel m (S head) st1) as [[found st']| |].
    + apply IH. lia.
    + apply IH. lia.
    + specialize (IH ltac:(lia)). lia.
Qed.

(** The state in which the search starts. *)
Lemma solve_bfs_spec m fuel :
  match solve_bfs fuel m with
  | Ok (found, st) =>
      inb m (start m) /\
      exists d head, bfs_inv m d head st /\
        if found : bool then queue st !! head = Some (end_ m)
        else head = length (queue st)
  | Panic => ~ inb m (start m) \/ ~ grid_ok m
  | OutOfFuel => (fuel <= cells m)%nat
  end.
Proof.
  unfold solve_bfs.
  destruct (make2 (height m) (width m) false) as [g0| |] eqn:Hmk; rsimpl.
  2: { left. intros [Hx Hy]. unfold make2 in Hmk.
       destruct (height m <? 0) eqn:E1; [lia|].
       destruct (andb _ _) eqn:E2; [|discriminate].
       apply andb_true_iff in E2. lia. }
  2: { exfalso. eapply make2_not_fuel; eauto. }
  destruct (upd2 g0 (Y (start m)) (X (start m)) true) as [g1| |] eqn:Hup; rsimpl.
  2: { left. intros [Hx Hy].
       destruct (make2_dims (height m) (width m) false) as (g & Hg & Hd & _); [lia..|].
       assert (g = g0) by congruence. subst g.
       destruct (upd2_dims g0 _ _ (Y (start m)) (X (start m)) true Hd) as [g' Hg']; [lia..|].
       congruence. }
  2: { exfalso. eapply upd2_not_fuel; eauto. }
  destruct (make2_Ok _ _ _ _ Hmk) as (Hh & Hw & Hg0).
  assert (Hhpos : 0 < height m).
  { destruct (Z.eq_dec (height m) 0) as [E|]; [|lia].
    rewrite E in Hg0. cbn in Hg0. subst g0. unfold upd2 in Hup.
    destruct (orb _ _); discriminate. }
  destruct (make2_dims (height m) (width m) false) as (g & Hg & Hd & Hall); [lia..|].
  assert (g = g0) by congruence. subst g.
  destruct (upd2_Ok _ _ _ _ _ Hup) as (Hget & Hother & Hdims).
  destruct (Hdims _ _ Hd) as (Hd1 & Hsy & Hsx).
  assert (Hs : inb m (start m)) by (split; assumption).
  set (st0 := mkBfs [start m] g1 ∅).
  assert (Hinv : bfs_inv m (fun _ => 0%nat) 0 st0).
  { split.
    - constructor; cbn [queue visited parent st0].
      + exact Hd1.
      + apply NoDup_singleton.
      + intros p ->%list_elem_of_singleton. exact Hs.
      + intros p Hp. rewrite list_elem_of_singleton.
        destruct (decide (p = start m)) as [->|Hne]; [tauto|].
        rewrite Hother.
        * rewrite Hall by apply Hp. split; [discriminate|contradiction].
        * intros [= Ey Ex]. apply Hne. destruct p, (start m). cbn in *. congruence.
      + reflexivity.
      + reflexivity.
      + intros [|i] p Hi Hp; [lia|]. discriminate.
      + intros. lia.
      + intros. lia.
    - intros i p Hi. lia. }
  pose proof (solve_search_spec m fuel _ 0%nat st0 Hinv ltac:(cbn; lia)) as Hss.
  destruct (solve_search fuel m 0 st0) as [[found st]| |].
  - split; [exact Hs|exact Hss].
  - right. exact Hss.
  - lia.
Qed.

(** ** Rebuilding the path *)

Lemma back_route_exists m d c st :
  bfs_core m d c st ->
  forall i p, queue st !! i = Some p ->
    exists l, back_route m (parent st) (start m) p l /\
      length l = S (d p) /\ (length l <= S i)%nat.
Proof.
  intros Hc i. induction i as [i IH] using lt_wf_ind. intros p Hp.
  destruct (decide (i = 0%nat)) as [->|Hne].
  - pose proof (bc_start _ _ _ _ Hc) as Hs.
    assert (p = start m) by congruence. subst p.
    exists [start m]. split; [constructor|].
    rewrite (bc_d0 _ _ _ _ Hc). cbn. lia.
  - destruct (bc_parent _ _ _ _ Hc i p ltac:(lia) Hp)
      as (j & q & Hj & Hq & Hpar & Hst & Hop & Hd).
    destruct (IH j Hj q Hq) as (l & Hl & Hlen & Hle).
    apply lookup_total_correct in Hpar.
    exists (p :: l). split.
    + constructor.
      * intros ->. apply Hne.
        eapply NoDup_lookup; [apply (bc_nodup _ _ _ _ Hc)|exact Hp|].
        apply (bc_start _ _ _ _ Hc).
      * rewrite Hpar. exact Hst.
      * exact Hop.
      * eapply bc_inb; [exact Hc|]. eapply list_elem_of_lookup_2; eauto.
      * rewrite Hpar. exact Hl.
    + cbn [length]. lia.
Qed.

Lemma back_route_unique m par s p l l' :
  back_route m par s p l -> back_route m par s p l' -> l = l'.
Proof.
  intros H. revert l'. induction H as [|p l Hne Hst Hop Hin Hl IH]; intros l' H'.
  - inversion H'; [reflexivity|contradiction].
  - inversion H'; subst; [contradiction|]. f_equal. apply IH. assumption.
Qed.

Lemma backtrack_spec m par s p l :
  back_route m par s p l ->
  forall fuel acc, (length l <= fuel)%nat ->
    backtrack fuel par s p acc = Ok (acc ++ l).
Proof.
  induction 1 as [|p l Hne Hst Hop Hin Hl IH]; intros fuel acc Hf.
  - destruct fuel as [|fuel]; [cbn in Hf; lia|]. cbn [backtrack].
    destruct (decide (s = s)); [reflexivity|contradiction].
  - destruct fuel as [|fuel]; [cbn in Hf; lia|]. cbn [backtrack].
    destruct (decide (p = s)); [contradiction|].
    rewrite IH by (cbn in Hf; lia). rewrite <- app_assoc. reflexivity.
Qed.

Lemma count_path_spec m par s p l :
  back_route m par s p l ->
  forall fuel n, (length l <= fuel)%nat ->
    0 <= n -> n + Z.of_nat (length l) - 1 <= int_max ->
    count_path fuel par s p n = Ok (n + Z.of_nat (length l) - 1).
Proof.
  induction 1 as [|p l Hne Hst Hop Hin Hl IH]; intros fuel n Hf Hn Hmax.
  - destruct fuel as [|fuel]; [cbn in Hf; lia|]. cbn [count_path].
    destruct (decide (s = s)); [|contradiction]. f_equal. cbn. lia.
  - destruct fuel as [|fuel]; [cbn in Hf; lia|]. cbn [count_path].
    destruct (decide (p = s)); [contradiction|].
    assert (Hpos : (0 < length l)%nat) by (inversion Hl; cbn; lia).
    cbn [length] in *. unfold add64.
    rewrite wrap_id by (unfold is_int, int_min, int_max in *; lia).
    rewrite IH by lia. f_equal. lia.
Qed.

Lemma fill_path_spec m par s p l :
  back_route m par s p l ->
  forall fuel buf, (length l < fuel)%nat -> (length l <= length buf)%nat ->
    Z.of_nat (length l) <= int_max ->
    fill_path fuel par (Z.of_nat (length l) - 1) p buf
    = Ok (rev l ++ drop (length l) buf).
Proof.
  induction 1 as [|p l Hne Hst Hop Hin Hl IH]; intros fuel buf Hf Hb Hmax.
  - destruct fuel as [|[|fuel]]; [cbn in Hf; lia..|].
    cbn in Hb. destruct buf as [|b buf]; [cbn in Hb; lia|].
    reflexivity.
  - destruct fuel as [|fuel]; [lia|].
    cbn [length] in *. cbn [fill_path].
    assert (Hpos : (0 < length l)%nat) by (inversion Hl; cbn; lia).
    assert (E1 : (0 <=? Z.of_nat (S (length l)) - 1) = true) by (apply Z.leb_le; lia).
    assert (E2 : (0 <? Z.of_nat (S (length l)) - 1) = true) by (apply Z.ltb_lt; lia).
    rewrite E1, E2.
    replace (Z.to_nat (Z.of_nat (S (length l)) - 1)) with (length l) by lia.
    destruct (Nat.ltb_spec (length l) (length buf)) as [_|]; [|lia].
    unfold sub64. rewrite wrap_id by (unfold is_int, int_min, int_max in *; lia).
    replace (Z.of_nat (S (length l)) - 1 - 1) with (Z.of_nat (length l) - 1) by lia.
    rewrite IH; [|lia|rewrite length_insert; lia|lia].
    f_equal. cbn [rev]. rewrite <- app_assoc. f_equal.
    rewrite (drop_S (<[length l:=p]> buf) p (length l)).
    + cbn. f_equal. rewrite drop_insert_lt by lia. reflexivity.
    + apply list_lookup_insert_eq. lia.
Qed.

Lemma insert_middle {A : Type} (a : list A) (x z : A) (c : list A) :
  <[length a := z]> (a ++ x :: c) = a ++ z :: c.
Proof. induction a as [|y a IH]; cbn; [reflexivity|]. f_equal. exact IH. Qed.

(** The in-place reversal loop reverses the segment between its indices. *)
Lemma reverse_loop_spec (fuel : nat) :
  forall a mid b, (length mid < fuel)%nat ->
    reverse_loop fuel (Z.of_nat (length a))
      (Z.of_nat (length a + length mid) - 1) (a ++ mid ++ b)
    = Ok (a ++ rev mid ++ b).
Proof.
  induction fuel as [|fuel IH]; intros a mid b Hf; [lia|].
  cbn [reverse_loop].
  destruct mid as [|x mid1].
  { cbn [length]. destruct (Z.ltb_spec (Z.of_nat (length a))
      (Z.of_nat (length a + 0) - 1)); [lia|reflexivity]. }
  destruct (decide (mid1 = [])) as [->|Hne].
  { cbn [length]. destruct (Z.ltb_spec (Z.of_nat (length a))
      (Z.of_nat (length a + 1) - 1)); [lia|reflexivity]. }
  destruct (exists_last Hne) as (mid' & y & ->).
  cbn [length] in *. rewrite length_app in *. cbn [length] in *.
  destruct (Z.ltb_spec (Z.of_nat (length a))
      (Z.of_nat (length a + S (length mid' + 1)) - 1)) as [_|]; [|lia].
  rewrite Nat2Z.id.
  replace (Z.to_nat (Z.of_nat (length a + S (length mid' + 1)) - 1))
    with (length (a ++ x :: mid')) by (rewrite length_app; cbn [length]; lia).
  replace (a ++ (x :: mid' ++ [y]) ++ b) with (a ++ x :: (mid' ++ y :: b))
    by (cbn; rewrite <- !app_assoc; reflexivity).
  rewrite (list_lookup_middle a (mid' ++ y :: b) x (length a) eq_refl).
  replace (a ++ x :: mid' ++ y :: b) with ((a ++ x :: mid') ++ y :: b)
    by (rewrite <- app_assoc; reflexivity).
  rewrite (list_lookup_middle (a ++ x :: mid') b y _ eq_refl).
  replace ((a ++ x :: mid') ++ y :: b) with (a ++ x :: (mid' ++ y :: b))
    by (rewrite <- app_assoc; reflexivity).
  rewrite insert_middle.
  replace (length (a ++ x :: mid')) with (length (a ++ y :: mid'))
    by (rewrite !length_app; reflexivity).
  replace (a ++ y :: mid' ++ y :: b) with ((a ++ y :: mid') ++ y :: b)
    by (rewrite <- app_assoc; reflexivity).
  rewrite insert_middle.
  replace ((a ++ y :: mid') ++ x :: b) with ((a ++ [y]) ++ mid' ++ (x :: b))
    by (rewrite <- !app_assoc; reflexivity).
  replace (Z.of_nat (length a) + 1) with (Z.of_nat (length (a ++ [y])))
    by (rewrite length_app; cbn [length]; lia).
  replace (Z.of_nat (length a + S (length mid' + 1)) - 1 - 1)
    with (Z.of_nat (length (a ++ [y]) + length mid') - 1)
    by (rewrite length_app; cbn [length]; lia).
  rewrite IH by lia.
  f_equal. cbn [rev]. rewrite rev_app_distr. cbn [rev app].
  rewrite <- !app_assoc. reflexivity.
Qed.

Lemma reverse_loop_whole (fuel : nat) (l : list Point) :
  (length l < fuel)%nat ->
  reverse_loop fuel 0 (Z.of_nat (length l) - 1) l = Ok (rev l).
Proof.
  intros Hf. pose proof (reverse_loop_spec fuel [] l [] Hf) as H.
  cbn [length app] in H. rewrite !app_nil_r in H. exact H.
Qed.

(** ** Steps and adjacency *)

Lemma move_inb (m : Maze) (p dir : Point) :
  maze_ints m -> inb m p -> dir ∈ directions ->
  move p dir = mkPoint (X p + X dir) (Y p + Y dir).
Proof.
  intros [Hw Hh] [Hx Hy] Hdir. unfold move, add64.
  unfold is_int, int_min, int_max in *.
  assert (Hd : -1 <= X dir <= 1 /\ -1 <= Y dir <= 1).
  { unfold directions in Hdir.
    repeat (apply elem_of_cons in Hdir as [->|Hdir]; [cbn; lia|]).
    inversion Hdir. }
  rewrite !wrap_id by (unfold is_int, int_min, int_max; lia). reflexivity.
Qed.

Lemma stepped_adjacent (m : Maze) (p q : Point) :
  maze_ints m -> inb m p -> stepped p q -> adjacent p q.
Proof.
  intros Hm Hp (dir & Hdir & ->). rewrite (move_inb m) by assumption.
  unfold adjacent, directions in *. cbn [X Y].
  repeat (apply elem_of_cons in Hdir as [->|Hdir]; [cbn; lia|]).
  inversion Hdir.
Qed.

Lemma adjacent_stepped (m : Maze) (p q : Point) :
  maze_ints m -> inb m p -> adjacent p q -> stepped p q.
Proof.
  intros Hm Hp Hadj. unfold adjacent in Hadj.
  assert (Hcases : (X q = X p /\ Y q = Y p - 1) \/ (X q = X p /\ Y q = Y p + 1) \/
                   (X q = X p - 1 /\ Y q = Y p) \/ (X q = X p + 1 /\ Y q = Y p)) by lia.
  assert (Hq : forall dir, dir ∈ directions ->
             X q = X p + X dir -> Y q = Y p + Y dir -> stepped p q).
  { intros dir Hdir Ex Ey. exists dir. split; [exact Hdir|].
    rewrite (move_inb m) by assumption. destruct q; cbn in *; congruence. }
  unfold directions in Hq.
  destruct Hcases as [[? ?]|[[? ?]|[[? ?]|[? ?]]]].
  - apply (Hq (mkPoint 0 (-1))); [set_solver|cbn; lia..].
  - apply (Hq (mkPoint 0 1)); [set_solver|cbn; lia..].
  - apply (Hq (mkPoint (-1) 0)); [set_solver|cbn; lia..].
  - apply (Hq (mkPoint 1 0)); [set_solver|cbn; lia..].
Qed.

(** ** Routes *)

Lemma linked_snoc (l : list Point) (q p : Point) :
  linked l -> last l = Some q -> adjacent q p -> linked (l ++ [p]).
Proof.
  induction l as [|a l IH]; intros Hl Hlast Hadj; [discriminate|].
  destruct l as [|b l].
  - cbn in Hlast. injection Hlast as ->. cbn. auto.
  - destruct Hl as [Hab Hl]. cbn [app linked]. split; [exact Hab|].
    apply IH; [exact Hl|exact Hlast|exact Hadj].
Qed.

Lemma linked_snoc_inv (l : list Point) (p : Point) :
  linked (l ++ [p]) ->
  linked l /\ forall q, last l = Some q -> adjacent q p.
Proof.
  induction l as [|a l IH]; intros Hl.
  - split; [exact I|discriminate].
  - destruct l as [|b l].
    + cbn in Hl. split; [exact I|]. intros q [= <-]. tauto.
    + destruct Hl as [Hab Hl]. destruct (IH Hl) as [Hl' Hq].
      split; [split; assumption|]. intros q Hlast. apply Hq. exact Hlast.
Qed.

Lemma route_single (m : Maze) (a : Point) : inb m a -> route m a a [a].
Proof.
  intros Ha. repeat split; cbn; auto.
Qed.

Lemma route_snoc (m : Maze) (a b c : Point) (l : list Point) :
  route m a b l -> adjacent b c -> inb m c -> open_cell m c ->
  route m a c (l ++ [c]).
Proof.
  intros (Hh & Hl & Hlk & Hin & Hop) Hadj Hc Hoc.
  destruct l as [|x l]; [discriminate|].
  repeat split.
  - exact Hh.
  - apply last_snoc.
  - eapply linked_snoc; eauto.
  - apply Forall_app. split; [exact Hin|]. constructor; [exact Hc|constructor].
  - cbn [app tail] in *. apply Forall_app. split; [exact Hop|].
    constructor; [exact Hoc|constructor].
Qed.

Lemma route_snoc_inv (m : Maze) (a b : Point) (l : list Point) :
  route m a b l ->
  (l = [a] /\ b = a) \/
  exists l' b', l = l' ++ [b] /\ route m a b' l' /\ adjacent b' b /\
    inb m b /\ open_cell m b.
Proof.
  intros (Hh & Hl & Hlk & Hin & Hop).
  destruct (last_Some l b) as [Hex _]. destruct (Hex Hl) as [l' ->].
  destruct l' as [|x l'].
  - left. cbn in Hh. injection Hh as ->. auto.
  - right. cbn [app head] in Hh.
    destruct (last (x :: l')) as [b'|] eqn:Hb'.
    2: { apply last_None in Hb'. discriminate. }
    exists (x :: l'), b'.
    apply linked_snoc_inv in Hlk as [Hlk Hadj].
    apply Forall_app in Hin as [Hin Hb]. cbn [app tail] in Hop.
    apply Forall_app in Hop as [Hop Hob].
    split; [reflexivity|]. split; [repeat split; auto|].
    split; [apply Hadj; exact Hb'|].
    split; [inversion Hb; assumption|inversion Hob; assumption].
Qed.

(** The parent chain, read backwards, is a route. *)
Lemma back_route_route (m : Maze) par s p l :
  maze_ints m -> inb m s ->
  back_route m par s p l -> route m s p (rev l).
Proof.
  intros Hm Hs. induction 1 as [|p l Hne Hst Hop Hin Hl IH].
  - apply route_single. exact Hs.
  - cbn [rev]. eapply route_snoc; eauto.
    eapply stepped_adjacent; eauto.
    destruct IH as (_ & Hlast & _ & Hall & _).
    apply last_Some in Hlast as [l' Hl'].
    rewrite Hl' in Hall. apply Forall_app in Hall as [_ Hq].
    inversion Hq; assumption.
Qed.

(** ** Completeness and minimality of the search *)

(** Along any route from the start, the search either has queued the end
    point of the route at a level below the length of the route, or the
    point at the head of the queue already sits at such a level. *)
Lemma route_level (m : Maze) d head st :
  maze_ints m -> bfs_inv m d head st ->
  forall n l b, length l = n -> route m (start m) b l ->
    (b ∈ queue st /\ (d b < length l)%nat) \/
    (exists e, queue st !! head = Some e /\ (d e < length l)%nat).
Proof.
  intros Hm [Hc Hcl]. induction n as [|n IH]; intros l b Hlen Hr.
  { destruct l; [|discriminate]. destruct Hr as [Hh _]. discriminate. }
  destruct (route_snoc_inv _ _ _ _ Hr) as [[-> ->]|(l' & b' & -> & Hr' & Hadj & Hb & Hob)].
  - left. split.
    + eapply list_elem_of_lookup_2. apply (bc_start _ _ _ _ Hc).
    + rewrite (bc_d0 _ _ _ _ Hc). cbn. lia.
  - rewrite length_app in *. cbn [length] in *.
    destruct (IH l' b' ltac:(lia) Hr') as [[Hq Hd]|(e & He & Hd)].
    2: { right. exists e. split; [exact He|lia]. }
    apply list_elem_of_lookup_1 in Hq as [i Hi].
    destruct (Nat.lt_ge_cases i head) as [Hlt|Hge].
    + destruct (Hcl i b' Hlt Hi) as [_ Hclosed].
      assert (Hb' : inb m b').
      { eapply bc_inb; [exact Hc|]. eapply list_elem_of_lookup_2; eauto. }
      destruct (adjacent_stepped m b' b Hm Hb' Hadj) as (dir & Hdir & ->).
      destruct (Hclosed dir Hdir Hb Hob) as [Hin Hle].
      left. split; [exact Hin|lia].
    + right. pose proof (lookup_lt_Some _ _ _ Hi) as Hil.
      destruct (lookup_lt_is_Some_2 (queue st) head) as [e He]; [lia|].
      exists e. split; [exact He|].
      pose proof (bc_mono _ _ _ _ Hc head i e b' Hge He Hi). lia.
Qed.

(** What the shared search returns, for either version of [Solve]. *)
Lemma solve_bfs_found (m : Maze) (fuel : nat) (st : bfs_state) :
  solve_bfs fuel m = Ok (true, st) ->
  inb m (start m) /\
  exists l, back_route m (parent st) (start m) (end_ m) l /\
    (length l <= cells m)%nat /\
    (maze_ints m -> forall l', route m (start m) (end_ m) l' ->
       (length l <= length l')%nat).
Proof.
  intros Hb. pose proof (solve_bfs_spec m fuel) as Hs. rewrite Hb in Hs.
  destruct Hs as (Hstart & d & head & Hinv & Hend). split; [exact Hstart|].
  destruct Hinv as [Hc Hcl].
  destruct (back_route_exists m d head st Hc head (end_ m) Hend)
    as (l & Hl & Hlen & Hle).
  exists l. split; [exact Hl|]. split.
  - pose proof (bfs_core_length _ _ _ _ Hc).
    apply lookup_lt_Some in Hend. lia.
  - intros Hm l' Hr.
    destruct (route_level m d head st Hm (conj Hc Hcl) (length l') l' (end_ m)
                eq_refl Hr) as [[_ Hd]|(e & He & Hd)].
    + lia.
    + assert (e = end_ m) by congruence. subst e. lia.
Qed.

Lemma solve_bfs_not_found (m : Maze) (fuel : nat) (st : bfs_state) :
  maze_ints m -> solve_bfs fuel m = Ok (false, st) ->
  ~ reachable m (start m) (end_ m).
Proof.
  intros Hm Hb [l Hr]. pose proof (solve_bfs_spec m fuel) as Hs. rewrite Hb in Hs.
  destruct Hs as (Hstart & d & head & Hinv & Hhead).
  destruct (route_level m d head st Hm Hinv (length l) l (end_ m) eq_refl Hr)
    as [[Hq _]|(e & He & _)].
  - apply list_elem_of_lookup_1 in Hq as [i Hi].
    destruct Hinv as [_ Hcl].
    pose proof (lookup_lt_Some _ _ _ Hi) as Hil.
    destruct (Hcl i (end_ m) ltac:(lia) Hi) as [Hne _]. contradiction.
  - apply lookup_lt_Some in He. lia.
Qed.

(** Both versions of [Solve], on the outcome of the shared search. *)
Lemma Solve_outcome (m : Maze) (fuel : nat) :
  (cells m < fuel)%nat ->
  match solve_bfs fuel m with
  | Ok (true, st) =>
      exists l, back_route m (parent st) (start m) (end_ m) l /\
        Solve fuel m = Ok (rev l, true) /\
        (Z.of_nat (cells m) <= int_max ->
         Solve_prealloc fuel m = Ok (rev l, true))
  | Ok (false, st) =>
      Solve fuel m = Ok ([], false) /\ Solve_prealloc fuel m = Ok ([], false)
  | Panic => Solve fuel m = Panic /\ Solve_prealloc fuel m = Panic
  | OutOfFuel => False
  end.
Proof.
  intros Hf. pose proof (solve_bfs_spec m fuel) as Hs.
  unfold Solve, Solve_prealloc.
  destruct (solve_bfs fuel m) as [[[|] st]| |] eqn:Hb; rsimpl.
  - destruct (solve_bfs_found m fuel st Hb) as (_ & l & Hl & Hlen & _).
    exists l. split; [exact Hl|]. split.
    + rewrite (backtrack_spec _ _ _ _ _ Hl) by lia. rsimpl. cbn [app].
      rewrite reverse_loop_whole by lia. reflexivity.
    + intros Hmax.
      rewrite (count_path_spec _ _ _ _ _ Hl) by (unfold int_max in *; lia). rsimpl.
      replace (1 + Z.of_nat (length l) - 1) with (Z.of_nat (length l)) by lia.
      destruct (Z.ltb_spec (Z.of_nat (length l)) 0) as [|_]; [lia|]. rsimpl.
      unfold sub64. rewrite wrap_id by (unfold is_int, int_min, int_max in *; lia).
      rewrite Nat2Z.id.
      rewrite (fill_path_spec _ _ _ _ _ Hl); [|lia|rewrite length_replicate; lia|lia].
      rsimpl. rewrite drop_ge by (rewrite length_replicate; lia).
      rewrite app_nil_r. reflexivity.
  - auto.
  - auto.
  - lia.
Qed.

(** C8: the two versions of [Solve] return the same result, and neither runs
    out of the fuel of one unit per cell, plus one. *)
Theorem Solve_versions_agree (m : Maze) (fuel : nat) :
  (cells m < fuel)%nat -> Z.of_nat (cells m) <= int_max ->
  Solve fuel m = Solve_prealloc fuel m /\ Solve fuel m <> OutOfFuel.
Proof.
  intros Hf Hmax. pose proof (Solve_outcome m fuel Hf) as H.
  destruct (solve_bfs fuel m) as [[[|] st]| |].
  - destruct H as (l & _ & H1 & H2). rewrite H1, H2 by exact Hmax.
    split; [reflexivity|discriminate].
  - destruct H as [-> ->]. split; [reflexivity|discriminate].
  - destruct H as [-> ->]. split; [reflexivity|discriminate].
  - contradiction.
Qed.

(** C10: when start and end coincide inside the rectangle, [Solve] returns
    the one-point path and [true] whatever the grid holds. *)
Theorem Solve_start_is_end (m : Maze) (fuel : nat) :
  inb m (start m) -> end_ m = start m -> (0 < fuel)%nat ->
  Solve fuel m = Ok ([start m], true).
Proof.
  intros [Hx Hy] He Hf. destruct fuel as [|fuel]; [lia|].
  unfold Solve, solve_bfs.
  destruct (make2_dims (height m) (width m) false) as (g0 & -> & Hd & _); [lia..|].
  rsimpl.
  destruct (upd2_dims g0 _ _ (Y (start m)) (X (start m)) true Hd) as [g1 ->]; [lia..|].
  rsimpl. cbn [solve_search queue lookup list_lookup].
  destruct (decide (start m = end_ m)) as [_|Hne]; [|congruence].
  rsimpl. rewrite He. cbn [backtrack app].
  destruct (decide (start m = start m)); [|contradiction].
  rsimpl. reflexivity.
Qed.

(** C1, as the code has it: on a maze whose grid covers the rectangle and
    whose start lies inside it, [Solve] finds a path exactly when the end is
    reachable from the start by cardinal steps through cells that are not
    walls (the cell of the start itself is not looked at); the path is then a
    shortest such route, otherwise the result is the empty path and [false]. *)
Theorem Solve_correct (m : Maze) (fuel : nat) :
  maze_ints m -> grid_ok m -> inb m (start m) -> (cells m < fuel)%nat ->
  exists path found, Solve fuel m = Ok (path, found) /\
    (found = true <-> reachable m (start m) (end_ m)) /\
    (found = true ->
       route m (start m) (end_ m) path /\
       forall l, route m (start m) (end_ m) l -> (length path <= length l)%nat) /\
    (found = false -> path = []).
Proof.
  intros Hm Hg Hs Hf. pose proof (Solve_outcome m fuel Hf) as H.
  pose proof (solve_bfs_spec m fuel) as Hspec.
  destruct (solve_bfs fuel m) as [[[|] st]| |] eqn:Hb.
  - destruct H as (l & Hl & HS & _).
    destruct (solve_bfs_found m fuel st Hb) as (_ & l0 & Hl0 & _ & Hmin).
    assert (l0 = l) by (eapply back_route_unique; eauto). subst l0.
    assert (Hr : route m (start m) (end_ m) (rev l)).
    { apply (back_route_route m (parent st)); assumption. }
    exists (rev l), true. split; [exact HS|]. split; [|split].
    + split; [intros _; exists (rev l); exact Hr|reflexivity].
    + intros _. split; [exact Hr|]. intros l' Hl'.
      pose proof (Hmin Hm l' Hl') as H2.
      rewrite length_rev. exact H2.
    + discriminate.
  - destruct H as [HS _]. exists [], false. split; [exact HS|].
    split; [|split; [discriminate|reflexivity]].
    split; [discriminate|]. intros Hr.
    exfalso. eapply solve_bfs_not_found; eauto.
  - exfalso. destruct Hspec as [Hn|Hn]; [apply Hn, Hs|apply Hn, Hg].
  - contradiction.
Qed.

Lemma dims2_grid_ok (m : Maze) :
  dims2 (grid m) (height m) (width m) -> grid_ok m.
Proof.
  intros Hd p [Hx Hy]. eapply dims2_lookup; eauto.
Qed.

Lemma simple_maze_ok : maze_ints simple_maze /\ grid_ok simple_maze /\
  inb simple_maze (start simple_maze).
Proof.
  split; [|split].
  - split; vm_compute; split; discriminate.
  - apply dims2_grid_ok. repeat split; try (cbn; lia).
    repeat constructor.
  - split; cbn; lia.
Qed.

Lemma Solve_correct_witness :
  exists path found, Solve 16 simple_maze = Ok (path, found) /\
    (found = true <-> reachable simple_maze (start simple_maze) (end_ simple_maze)) /\
    (found = true ->
       route simple_maze (start simple_maze) (end_ simple_maze) path /\
       forall l, route simple_maze (start simple_maze) (end_ simple_maze) l ->
         (length path <= length l)%nat) /\
    (found = false -> path = []).
Proof.
  apply (Solve_correct simple_maze 16).
  - apply simple_maze_ok.
  - apply simple_maze_ok.
  - apply simple_maze_ok.
  - vm_compute. lia.
Defined.

(** The claim of C1 as written fails when the start cell is a wall: the
    returned path begins on that wall. *)
Lemma Solve_wall_on_path :
  maze_ints wall_start_maze /\ grid_ok wall_start_maze /\
  inb wall_start_maze (start wall_start_maze) /\
  exists path, Solve 16 wall_start_maze = Ok (path, true) /\
    ~ Forall (open_cell wall_start_maze) path.
Proof.
  split; [split; vm_compute; split; discriminate|].
  split; [apply dims2_grid_ok; repeat split; try (cbn; lia); repeat constructor|].
  split; [split; cbn; lia|].
  exists [mkPoint 0 0; mkPoint 1 0; mkPoint 2 0]. split.
  - vm_compute. reflexivity.
  - intros H. inversion H as [|? ? (c & Hc & Hne) _]; subst.
    vm_compute in Hc. injection Hc as <-. apply Hne. reflexivity.
Qed.

Lemma Solve_versions_agree_witness :
  Solve 16 simple_maze = Solve_prealloc 16 simple_maze /\
  Solve 16 simple_maze <> OutOfFuel.
Proof.
  apply (Solve_versions_agree simple_maze 16).
  - vm_compute. lia.
  - vm_compute. discriminate.
Defined.

Lemma Solve_start_is_end_witness :
  Solve 16 single_cell_maze = Ok ([start single_cell_maze], true).
Proof.
  apply (Solve_start_is_end single_cell_maze 16).
  - split; cbn; lia.
  - reflexivity.
  - lia.
Defined.

(** ** Generation: validation of the start point (C9, C6) *)

Lemma bind_Ok {A B : Type} (x : result A) (f : A -> result B) (b : B) :
  x ≫= f = Ok b <-> exists a, x = Ok a /\ f a = Ok b.
Proof.
  destruct x as [a| |]; cbn.
  - split; [eauto|]. intros (a' & [= <-] & Hf). exact Hf.
  - split; [discriminate|]. intros (a' & Hx & _). discriminate.
  - split; [discriminate|]. intros (a' & Hx & _). discriminate.
Qed.

Lemma sub64_pred (z : Z) : int_min < z <= int_max -> sub64 z 1 = z - 1.
Proof.
  intros Hz. unfold sub64. apply wrap_id.
  unfold is_int, int_min, int_max in *. lia.
Qed.

Lemma start_rejected_spec (m : Maze) (p : Point) :
  border_ints m ->
  (start_rejected m p = true \/ IsInsideDen m p = true) <-> start_invalid m p.
Proof.
  intros [Hw Hh]. unfold start_rejected, start_invalid.
  rewrite !rem64_even, !sub64_pred by assumption.
  rewrite !orb_true_iff.
  destruct (Z.even (X p)), (Z.even (Y p)), (IsInsideDen m p); intuition lia.
Qed.

(** C9: a supplied start point that fails validation makes [Generate]
    return its error with the maze exactly as it was: the grid, the start,
    the end and the door are untouched. *)
Theorem Generate_invalid_start_atomic `{RandSource} (fuel : nat) (seed : Z)
  (p : Point) (userDoor : option Point) (doorSide : string) (bias : float64)
  (m : Maze) :
  border_ints m -> start_invalid m p ->
  exists m' e, Generate fuel seed (Some p) userDoor doorSide bias m = Ok (m', Some e) /\
    start_error e /\
    grid m' = grid m /\ start m' = start m /\ end_ m' = end_ m /\ door m' = door m.
Proof.
  intros Hb Hinv. apply start_rejected_spec in Hinv; [|exact Hb].
  unfold Generate. destruct (start_rejected m p) eqn:Er.
  - exists m, ErrInvalidStart. unfold start_error. auto 10.
  - destruct Hinv as [Hinv|Hinv]; [discriminate|]. rewrite Hinv.
    exists m, ErrStartInsideDen. unfold start_error. auto 10.
Qed.

(** ** Frame properties of grid updates *)

Lemma regrid_refl (m : Maze) : regrid m m.
Proof. destruct m. reflexivity. Qed.

Lemma regrid_set_grid (m : Maze) (g : list (list Cell)) : regrid m (set_grid g m).
Proof. reflexivity. Qed.

Lemma regrid_trans (m1 m2 m3 : Maze) : regrid m1 m2 -> regrid m2 m3 -> regrid m1 m3.
Proof.
  unfold regrid. intros H12 H23. rewrite H23 at 1. rewrite H12. reflexivity.
Qed.

Lemma regrid_shape (m m' : Maze) : regrid m m' -> same_shape m m'.
Proof. intros ->. repeat split. Qed.

Lemma regrid_points (m m' : Maze) :
  regrid m m' -> start m' = start m /\ end_ m' = end_ m /\ door m' = door m.
Proof. intros ->. repeat split. Qed.

Lemma same_shape_refl (m : Maze) : same_shape m m.
Proof. repeat split. Qed.

Lemma same_shape_trans (m1 m2 m3 : Maze) :
  same_shape m1 m2 -> same_shape m2 m3 -> same_shape m1 m3.
Proof. unfold same_shape. intuition congruence. Qed.

Lemma IsInsideDen_shape (m m' : Maze) (p : Point) :
  same_shape m m' -> IsInsideDen m' p = IsInsideDen m p.
Proof.
  intros (Hw & Hh & Hdw & Hdh & Hx & Hy). unfold IsInsideDen.
  rewrite Hdw, Hdh, Hx, Hy. reflexivity.
Qed.

Lemma IsAdjacentToDen_shape (m m' : Maze) (p : Point) :
  same_shape m m' -> IsAdjacentToDen m' p = IsAdjacentToDen m p.
Proof.
  intros Hs. unfold IsAdjacentToDen.
  rewrite (IsInsideDen_shape m m' p Hs).
  destruct Hs as (Hw & Hh & Hdw & Hdh & Hx & Hy). rewrite Hdw, Hdh.
  destruct (orb _ _); [reflexivity|]. destruct (IsInsideDen m p); [reflexivity|].
  unfold directions. cbn [existsb].
  rewrite !(IsInsideDen_shape m m'); [reflexivity|repeat split; assumption..].
Qed.

Lemma inside_border_shape (m m' : Maze) (p : Point) :
  same_shape m m' -> inside_border m' p = inside_border m p.
Proof.
  intros (Hw & Hh & _). unfold inside_border. rewrite Hw, Hh. reflexivity.
Qed.

Lemma inside_border_spec (m : Maze) (p : Point) :
  border_ints m -> inside_border m p = true <-> interior m p.
Proof.
  intros [Hw Hh]. unfold inside_border, interior.
  rewrite !sub64_pred by assumption. rewrite !andb_true_iff. lia.
Qed.

Lemma maze_wf_border (m : Maze) : maze_wf m -> border_ints m.
Proof.
  intros ((Hh & Hw & _) & Hwm & Hhm). unfold border_ints, int_min. lia.
Qed.

Lemma interior_inb (m : Maze) (p : Point) : interior m p -> inb m p.
Proof. unfold interior, inb. lia. Qed.

Lemma maze_wf_cell (m : Maze) (p : Point) :
  maze_wf m -> inb m p -> exists c, cell_at m p = Ok c.
Proof.
  intros [Hd _] [Hx Hy]. unfold cell_at. eapply dims2_lookup; eauto.
Qed.

Lemma cell_at_inb (m : Maze) (p : Point) (c : Cell) :
  maze_wf m -> cell_at m p = Ok c -> inb m p.
Proof.
  intros [Hd _] Hc. unfold cell_at in Hc.
  destruct (dims2_inside _ _ _ _ _ _ Hd Hc). split; assumption.
Qed.

(** What a successful cell write does. *)
Lemma set_cell_Ok (m : Maze) (p : Point) (c : Cell) (m' : Maze) :
  set_cell m p c = Ok m' ->
  regrid m m' /\ cell_at m' p = Ok c /\
  (forall q, q <> p -> cell_at m' q = cell_at m q) /\
  (maze_wf m -> maze_wf m' /\ inb m p).
Proof.
  unfold set_cell. intros (g & Hg & [= <-])%bind_Ok.
  destruct (upd2_Ok _ _ _ _ _ Hg) as (Hget & Hother & Hdims).
  split; [apply regrid_set_grid|]. split; [exact Hget|]. split.
  - intros q Hne. unfold cell_at. cbn. apply Hother.
    intros [= Ey Ex]. apply Hne. destruct p, q. cbn in *. congruence.
  - intros (Hd & Hw & Hh). destruct (Hdims _ _ Hd) as (Hd' & Hy & Hx).
    split; [|split; assumption]. split; [exact Hd'|]. cbn. auto.
Qed.

(** A cell write inside the rectangle succeeds. *)
Lemma set_cell_total (m : Maze) (p : Point) (c : Cell) :
  maze_wf m -> inb m p -> exists m', set_cell m p c = Ok m'.
Proof.
  intros [Hd _] [Hx Hy]. unfold set_cell.
  destruct (upd2_dims (grid m) _ _ (Y p) (X p) c Hd) as [g Hg]; [lia..|].
  rewrite Hg. rsimpl. eauto.
Qed.

Lemma walkable_set_cell (m : Maze) (p : Point) (c : Cell) (m' : Maze) :
  maze_wf m -> set_cell m p c = Ok m' -> c <> Wall ->
  forall q, walkable m' q <-> q = p \/ walkable m q.
Proof.
  intros Hwf Hset Hc q.
  destruct (set_cell_Ok _ _ _ _ Hset) as (Hre & Hp & Hother & Hwf').
  destruct (Hwf' Hwf) as [_ Hin].
  destruct (regrid_shape _ _ Hre) as (Hw & Hh & _).
  unfold walkable, inb, open_cell. rewrite Hw, Hh.
  fold (cell_at m' q). fold (cell_at m q).
  destruct (decide (q = p)) as [->|Hne].
  - split; [auto|]. intros _. split; [exact Hin|]. exists c. auto.
  - rewrite (Hother q Hne). split; [auto|]. intros [?|?]; [contradiction|assumption].
Qed.

(** ** Freshly constructed mazes *)

Lemma initializeGrid_Ok (m m' : Maze) :
  0 <= height m -> 0 <= width m ->
  initializeGrid m = Ok m' ->
  regrid m m' /\ dims2 (grid m') (height m) (width m) /\
  forall p, inb m p ->
    cell_at m' p = Ok (if IsInsideDen m p then Path else Wall).
Proof.
  intros Hh Hw. unfold initializeGrid.
  destruct (height m <? 0) eqn:E1; [discriminate|].
  destruct (andb _ _) eqn:E2; [discriminate|].
  intros [= <-]. split; [apply regrid_set_grid|]. cbn [grid set_grid]. split.
  - repeat split; try assumption.
    + rewrite length_fmap, length_seqZ. reflexivity.
    + apply Forall_fmap, Forall_forall. intros i _. cbn.
      rewrite length_fmap, length_seqZ. reflexivity.
  - intros p [Hx Hy]. unfold cell_at. cbn [grid set_grid]. apply idx2_Ok.
    split; [lia|]. split; [lia|].
    eexists. split.
    + rewrite list_lookup_fmap, lookup_seqZ_lt by lia. cbn. reflexivity.
    + rewrite list_lookup_fmap, lookup_seqZ_lt by lia. cbn.
      rewrite !Z2Nat.id by lia. destruct p; reflexivity.
Qed.

Lemma fresh_maze_Ok (aw ah adw adh : Z) (m : Maze) :
  0 <= ah -> 0 <= aw ->
  fresh_maze aw ah adw adh = Ok m ->
  width m = aw /\ height m = ah /\ denWidth m = adw /\ denHeight m = adh /\
  start m = mkPoint 0 0 /\ end_ m = mkPoint 0 0 /\ door m = mkPoint 0 0 /\
  ((0 <? adw) && (0 <? adh) = true ->
   (denStartX m, denStartY m) = calculateDenPosition aw adw ah adh) /\
  dims2 (grid m) ah aw /\
  forall p, inb m p -> cell_at m p = Ok (if IsInsideDen m p then Path else Wall).
Proof.
  intros Hh Hw. unfold fresh_maze.
  destruct (andb _ _) eqn:Eden.
  - destruct (calculateDenPosition aw adw ah adh) as [dx dy] eqn:Ecalc.
    intros Hi. apply initializeGrid_Ok in Hi as (Hre & Hd & Hc); [|cbn; lia..].
    unfold regrid in Hre. destruct m. cbn in Hre. injection Hre as -> -> -> -> -> -> -> -> ->.
    cbn [width height denWidth denHeight denStartX denStartY start end_ door grid] in *.
    repeat split; try assumption; try reflexivity; try apply Hd.
  - intros Hi. apply initializeGrid_Ok in Hi as (Hre & Hd & Hc); [|cbn; lia..].
    unfold regrid in Hre. destruct m. cbn in Hre. injection Hre as -> -> -> -> -> -> -> -> ->.
    cbn [width height denWidth denHeight denStartX denStartY start end_ door grid] in *.
    repeat split; try assumption; try reflexivity; try discriminate; try apply Hd.
Qed.

(** [New] validates and adjusts the dimensions, then builds [fresh_maze]. *)
Lemma New_fresh (w h dw dh : Z) (m : Maze) :
  New w h dw dh = Ok (inl m) ->
  exists aw ah adw adh,
    validateAndAdjustDimensions w h dw dh = inl (aw, ah, adw, adh) /\
    fresh_maze aw ah adw adh = Ok m.
Proof.
  unfold New. destruct (validateAndAdjustDimensions w h dw dh)
    as [[[[aw ah] adw] adh]|e]; [|discriminate].
  intros (m' & Hm' & [= <-])%bind_Ok.
  exists aw, ah, adw, adh. split; [reflexivity|].
  unfold fresh_maze. cbn [width height denWidth denHeight grid start end_ door] in *.
  destruct (andb _ _); [|exact Hm'].
  destruct (calculateDenPosition aw adw ah adh). exact Hm'.
Qed.

Lemma next_odd_odd (z : Z) : Z.odd (next_odd z) = true.
Proof.
  unfold next_odd. destruct (Z.even z) eqn:E.
  - rewrite Z.odd_add, <- Z.negb_even, E. reflexivity.
  - rewrite <- Z.negb_even, E. reflexivity.
Qed.

Lemma next_odd_bounds (z : Z) :
  is_int z -> 0 < z -> 0 < next_odd z <= int_max.
Proof.
  intros Hz Hpos. unfold next_odd, is_int, int_min, int_max in *.
  destruct (Z.even z) eqn:E; [|lia].
  assert (z <> 2 ^ 63 - 1) by (intros ->; vm_compute in E; discriminate). lia.
Qed.

Lemma constructed_fresh (m : Maze) :
  constructed m ->
  fresh_maze (width m) (height m) (denWidth m) (denHeight m) = Ok m /\
  0 < width m <= int_max /\ 0 < height m <= int_max /\
  Z.odd (width m) = true /\ Z.odd (height m) = true /\
  (denWidth m = 0 \/
   0 < denWidth m < width m - 2 /\ Z.odd (denWidth m) = true) /\
  (denHeight m = 0 \/
   0 < denHeight m < height m - 2 /\ Z.odd (denHeight m) = true).
Proof.
  intros (w & h & dw & dh & Hw & Hh & Hdw & Hdh & HN).
  destruct (New_fresh _ _ _ _ _ HN) as (aw & ah & adw & adh & Hv & Hf).
  pose proof (validate_spec w h dw dh Hw Hh Hdw Hdh) as Hs. rewrite Hv in Hs.
  destruct Hs as (Hnr & -> & -> & -> & ->). unfold New_rejects in Hnr.
  assert (Hpw : 0 < w) by lia. assert (Hph : 0 < h) by lia.
  pose proof (next_odd_bounds w Hw Hpw). pose proof (next_odd_bounds h Hh Hph).
  destruct (fresh_maze_Ok (next_odd w) (next_odd h) (adjustToOdd dw) (adjustToOdd dh) m)
    as (E1 & E2 & E3 & E4 & _); [lia|lia|exact Hf|].
  rewrite E1, E2, E3, E4. split; [exact Hf|].
  split; [assumption|]. split; [assumption|].
  split; [apply next_odd_odd|]. split; [apply next_odd_odd|].
  destruct (adjustToOdd_nonneg dw Hdw ltac:(lia)) as [Pw Ew].
  destruct (adjustToOdd_nonneg dh Hdh ltac:(lia)) as [Ph Eh].
  split.
  - destruct (Z.eq_dec dw 0) as [->|]; [left; reflexivity|right].
    rewrite Ew by lia. split; [|apply next_odd_odd].
    unfold next_odd in *. destruct (Z.even dw); lia.
  - destruct (Z.eq_dec dh 0) as [->|]; [left; reflexivity|right].
    rewrite Eh by lia. split; [|apply next_odd_odd].
    unfold next_odd in *. destruct (Z.even dh); lia.
Qed.

Lemma constructed_wf (m : Maze) : constructed m -> maze_wf m.
Proof.
  intros Hc. destruct (constructed_fresh m Hc) as (Hf & Hw & Hh & _).
  destruct (fresh_maze_Ok (width m) (height m) (denWidth m) (denHeight m) m)
    as (_ & _ & _ & _ & _ & _ & _ & _ & Hd & _); [lia|lia|exact Hf|].
  split; [exact Hd|lia].
Qed.

Lemma constructed_cells (m : Maze) (p : Point) :
  constructed m -> inb m p ->
  cell_at m p = Ok (if IsInsideDen m p then Path else Wall).
Proof.
  intros Hc. destruct (constructed_fresh m Hc) as (Hf & Hw & Hh & _).
  destruct (fresh_maze_Ok (width m) (height m) (denWidth m) (denHeight m) m)
    as (_ & _ & _ & _ & _ & _ & _ & _ & _ & Hcell); [lia|lia|exact Hf|].
  apply Hcell.
Qed.

Lemma constructed_points (m : Maze) :
  constructed m ->
  start m = mkPoint 0 0 /\ end_ m = mkPoint 0 0 /\ door m = mkPoint 0 0.
Proof.
  intros Hc. destruct (constructed_fresh m Hc) as (Hf & Hw & Hh & _).
  destruct (fresh_maze_Ok (width m) (height m) (denWidth m) (denHeight m) m)
    as (_ & _ & _ & _ & ? & ? & ? & _); [lia|lia|exact Hf|].
  auto.
Qed.

(** ** The carving walk: neighbours and choice *)

Lemma div64_dir :
  div64 0 2 = 0 /\ div64 2 2 = 1 /\ div64 (-2) 2 = -1 /\
  Z.quot 0 2 = 0 /\ Z.quot 2 2 = 1 /\ Z.quot (-2) 2 = -1 /\
  wrap 0 = 0 /\ wrap 2 = 2 /\ wrap (-2) = -2.
Proof. repeat split; reflexivity. Qed.

(** Evaluate the direction arithmetic, then discharge the wrap-around. *)
Ltac dir_arith :=
  destruct div64_dir as (D1 & D2 & D3 & Q1 & Q2 & Q3 & W1 & W2 & W3);
  rewrite ?W1, ?W2, ?W3, ?D1, ?D2, ?D3, ?Q1, ?Q2, ?Q3; unfold add64;
  rewrite ?wrap_id by (unfold is_int, int_min, int_max; lia).

Section Carving.
Context `{RandSource}.

Lemma carve_directions_cases (dir : Point) :
  dir ∈ carve_directions ->
  dir = mkPoint 0 (-2) \/ dir = mkPoint 0 2 \/
  dir = mkPoint (-2) 0 \/ dir = mkPoint 2 0.
Proof.
  unfold carve_directions. intros Hd.
  repeat (apply elem_of_cons in Hd as [->|Hd]; [tauto|]). inversion Hd.
Qed.

Lemma move_two_steps (m : Maze) (p dir : Point) :
  maze_wf m -> interior m p -> dir ∈ carve_directions ->
  move p dir = two_steps p dir /\
  mkPoint (add64 (X p) (div64 (X dir) 2)) (add64 (Y p) (div64 (Y dir) 2))
  = wall_between p dir.
Proof.
  intros (Hd & Hw & Hh) [Hx Hy] Hdir.
  unfold move, two_steps, wall_between. unfold int_max in *.
  apply carve_directions_cases in Hdir as [-> | [-> | [-> | -> ]]]; cbn [X Y];
    dir_arith; split; reflexivity.
Qed.

Lemma valid_neighbor_spec (m : Maze) (p : Point) (ns : list Point) (dir : Point) :
  maze_wf m -> interior m p -> dir ∈ carve_directions ->
  (carvable m p dir /\ valid_neighbor m p ns dir = Ok (ns ++ [two_steps p dir])) \/
  (~ carvable m p dir /\ valid_neighbor m p ns dir = Ok ns).
Proof.
  intros Hwf Hp Hdir. unfold valid_neighbor, carvable.
  destruct (move_two_steps m p dir Hwf Hp Hdir) as [-> ->].
  pose proof (inside_border_spec m (two_steps p dir) (maze_wf_border m Hwf)) as Hib.
  destruct (inside_border m (two_steps p dir)).
  2: { right. split; [|reflexivity]. intros [Hi _]. apply Hib in Hi. discriminate. }
  assert (Hi : interior m (two_steps p dir)) by (apply Hib; reflexivity).
  destruct (maze_wf_cell m (two_steps p dir) Hwf (interior_inb _ _ Hi)) as [c Hc].
  rewrite Hc. rsimpl.
  destruct (Z.eqb_spec c Wall) as [->|Hne].
  2: { right. split; [|reflexivity]. intros (_ & [= E] & _). contradiction. }
  destruct (IsInsideDen m (wall_between p dir)) eqn:E1; cbn [orb].
  { right. split; [|reflexivity]. intros (_ & _ & E & _). discriminate. }
  destruct (IsAdjacentToDen m (two_steps p dir)) eqn:E2.
  { right. split; [|reflexivity]. intros (_ & _ & _ & E). discriminate. }
  left. auto.
Qed.

Lemma valid_neighbors_spec (m : Maze) (p : Point) (dirs : list Point) :
  maze_wf m -> interior m p ->
  (forall dir, dir ∈ dirs -> dir ∈ carve_directions) ->
  forall acc, exists ns,
    for_each (valid_neighbor m p) dirs acc = Ok (acc ++ ns) /\
    forall q, q ∈ ns <->
      exists dir, dir ∈ dirs /\ q = two_steps p dir /\ carvable m p dir.
Proof.
  intros Hwf Hp. induction dirs as [|dir dirs IH]; intros Hsub acc.
  - exists []. cbn. rewrite app_nil_r. split; [reflexivity|].
    intros q. split; [intros Hq; inversion Hq|].
    intros (dir & Hd & _). inversion Hd.
  - cbn [for_each].
    destruct (valid_neighbor_spec m p acc dir Hwf Hp (Hsub dir (list_elem_of_here _ _)))
      as [[Hcv ->]|[Hncv ->]]; rsimpl.
    + destruct (IH (fun d Hd => Hsub d (list_elem_of_further _ _ _ Hd))
                   (acc ++ [two_steps p dir])) as (ns & -> & Hns).
      exists (two_steps p dir :: ns). split.
      { rewrite <- app_assoc. reflexivity. }
      intros q. rewrite elem_of_cons, Hns. split.
      * intros [->|(d & Hd & Hq & Hc)].
        -- exists dir. split; [left|auto].
        -- exists d. split; [right; exact Hd|auto].
      * intros (d & [->|Hd]%elem_of_cons & Hq & Hc); [left; exact Hq|].
        right. exists d. auto.
    + destruct (IH (fun d Hd => Hsub d (list_elem_of_further _ _ _ Hd)) acc)
        as (ns & -> & Hns).
      exists ns. split; [reflexivity|].
      intros q. rewrite Hns. split.
      * intros (d & Hd & Hq & Hc). exists d. split; [right; exact Hd|auto].
      * intros (d & [->|Hd]%elem_of_cons & Hq & Hc); [contradiction|].
        exists d. auto.
Qed.

Lemma findValidNeighbors_spec (m : Maze) (p : Point) :
  maze_wf m -> interior m p ->
  exists ns, findValidNeighbors m p = Ok ns /\
    forall q, q ∈ ns <->
      exists dir, dir ∈ carve_directions /\ q = two_steps p dir /\ carvable m p dir.
Proof.
  intros Hwf Hp. unfold findValidNeighbors.
  destruct (valid_neighbors_spec m p carve_directions Hwf Hp (fun _ Hd => Hd) [])
    as (ns & Hns & Hq).
  exists ns. split; [exact Hns|exact Hq].
Qed.

Lemma find_straight_spec (ns stack : list Point) (ld cur : Point) :
  last stack = Some cur ->
  exists o, find_straight ns stack ld = Ok o /\
    forall n, o = Some n -> n ∈ ns.
Proof.
  intros Hlast. induction ns as [|n ns IH]; cbn [find_straight].
  - exists None. split; [reflexivity|discriminate].
  - rewrite Hlast. destruct (andb _ _).
    + exists (Some n). split; [reflexivity|]. intros n' [= <-]. left.
    + destruct IH as (o & -> & Ho). exists o. split; [reflexivity|].
      intros n' Hn'. right. apply Ho. exact Hn'.
Qed.

Lemma random_neighbor_spec (ns : list Point) (r : Rand) :
  ns <> [] ->
  exists next r', random_neighbor ns r = Ok (next, r') /\ next ∈ ns.
Proof.
  intros Hne. unfold random_neighbor, Intn.
  assert (Hlen : 0 < Z.of_nat (length ns)).
  { destruct ns; [contradiction|cbn; lia]. }
  destruct (Z.leb_spec (Z.of_nat (length ns)) 0) as [|_]; [lia|]. rsimpl.
  pose proof (Intn_range r _ Hlen) as Hr.
  destruct (Intn_raw r (Z.of_nat (length ns))) as [i r']. cbn [fst] in Hr.
  destruct (lookup_lt_is_Some_2 ns (Z.to_nat i)) as [p Hp]; [lia|].
  rewrite Hp. exists p, r'. split; [reflexivity|].
  eapply list_elem_of_lookup_2; eauto.
Qed.

Lemma chooseBiasedNeighbor_spec (ns stack : list Point) (bias : float64)
  (r : Rand) (cur : Point) :
  ns <> [] -> last stack = Some cur ->
  exists next r', chooseBiasedNeighbor ns stack bias r = Ok (next, r') /\
    next ∈ ns.
Proof.
  intros Hne Hlast. unfold chooseBiasedNeighbor.
  assert (Hld : exists ld,
    (if (1 <? length stack)%nat
     then match stack !! (length stack - 2)%nat, stack !! (length stack - 1)%nat with
          | Some previous, Some current =>
              Ok (mkPoint (sub64 (X current) (X previous))
                          (sub64 (Y current) (Y previous)))
          | _, _ => Panic
          end
     else Ok (mkPoint 0 0)) = Ok ld).
  { destruct (Nat.ltb_spec 1 (length stack)) as [Hlt|]; [|eauto].
    destruct (lookup_lt_is_Some_2 stack (length stack - 2)) as [a ->]; [lia|].
    destruct (lookup_lt_is_Some_2 stack (length stack - 1)) as [b ->]; [lia|].
    eauto. }
  destruct Hld as [ld ->]. rsimpl.
  destruct (find_straight_spec ns stack ld cur Hlast) as (o & -> & Ho). rsimpl.
  destruct o as [s|].
  - destruct (Float64 r) as [f r1]. destruct (f64_ltb f bias).
    + exists s, r1. split; [reflexivity|]. apply Ho. reflexivity.
    + apply random_neighbor_spec. exact Hne.
  - apply random_neighbor_spec. exact Hne.
Qed.
End Carving.

(** ** Counting walls *)

Lemma count_walls_row_insert (row : list Cell) (i : nat) (c old : Cell) :
  row !! i = Some old ->
  (count_walls_row (<[i := c]> row) + wall_bit old
   = count_walls_row row + wall_bit c)%nat.
Proof.
  revert i. induction row as [|a row IH]; intros i Hi; [discriminate|].
  destruct i as [|i].
  - cbn in Hi. injection Hi as ->. cbn [insert list_insert count_walls_row]. lia.
  - specialize (IH i Hi).
    change (<[S i := c]> (a :: row)) with (a :: <[i := c]> row).
    cbn [count_walls_row]. lia.
Qed.

Lemma wall_count_insert (g : list (list Cell)) (y : nat) (row row' : list Cell) :
  g !! y = Some row ->
  (wall_count (<[y := row']> g) + count_walls_row row
   = wall_count g + count_walls_row row')%nat.
Proof.
  revert y. induction g as [|a g IH]; intros y Hy; [discriminate|].
  destruct y as [|y].
  - cbn in Hy. injection Hy as ->. cbn [insert list_insert wall_count]. lia.
  - specialize (IH y Hy).
    change (<[S y := row']> (a :: g)) with (a :: <[y := row']> g).
    cbn [wall_count]. lia.
Qed.

Lemma wall_count_upd2 (g g' : list (list Cell)) (y x : Z) (c old : Cell) :
  upd2 g y x c = Ok g' -> idx2 g y x = Ok old ->
  (wall_count g' + wall_bit old = wall_count g + wall_bit c)%nat.
Proof.
  intros Hup (Hy & Hx & row & Hrow & Hold)%idx2_Ok. unfold upd2 in Hup.
  destruct (orb _ _); [discriminate|]. rewrite Hrow in Hup.
  destruct (_ <? _)%nat; [|discriminate]. injection Hup as <-.
  pose proof (wall_count_insert g (Z.to_nat y) row (<[Z.to_nat x := c]> row) Hrow).
  pose proof (count_walls_row_insert row (Z.to_nat x) c old Hold). lia.
Qed.

Lemma count_walls_row_le (row : list Cell) : (count_walls_row row <= length row)%nat.
Proof.
  induction row as [|c row IH]; cbn; [lia|]. unfold wall_bit.
  destruct (c =? Wall); lia.
Qed.

Lemma wall_count_le (g : list (list Cell)) (h w : Z) :
  dims2 g h w -> (wall_count g <= Z.to_nat w * Z.to_nat h)%nat.
Proof.
  intros (Hh & Hw & Hlen & Hrows). rewrite <- Hlen. clear Hlen Hh.
  induction Hrows as [|row g Hrow Hrows IH]; cbn [wall_count length]; [lia|].
  pose proof (count_walls_row_le row). nia.
Qed.

Lemma wall_count_cells (m : Maze) : maze_wf m -> (wall_count (grid m) <= cells m)%nat.
Proof. intros [Hd _]. unfold cells. eapply wall_count_le; eauto. Qed.

(** Carving a cell to [Path] never adds a wall, and removes one when the
    cell was a wall. *)
Lemma wall_count_set_cell (m m' : Maze) (p : Point) (old : Cell) :
  set_cell m p Path = Ok m' -> cell_at m p = Ok old ->
  (wall_count (grid m') + wall_bit old = wall_count (grid m))%nat.
Proof.
  unfold set_cell, cell_at. intros (g & Hg & [= <-])%bind_Ok Hold.
  pose proof (wall_count_upd2 _ _ _ _ _ _ Hg Hold) as Hc.
  cbn [grid set_grid]. unfold wall_bit at 2 in Hc. cbn in Hc. lia.
Qed.

(** ** The carving walk: the loop *)

Lemma interior_shape (m m' : Maze) (p : Point) :
  same_shape m m' -> interior m' p <-> interior m p.
Proof. intros (Hw & Hh & _). unfold interior. rewrite Hw, Hh. tauto. Qed.

Lemma inb_shape (m m' : Maze) (p : Point) :
  same_shape m m' -> inb m' p <-> inb m p.
Proof. intros (Hw & Hh & _). unfold inb. rewrite Hw, Hh. tauto. Qed.

Lemma wall_between_inb (m : Maze) (p dir : Point) :
  interior m p -> dir ∈ carve_directions -> inb m (wall_between p dir).
Proof.
  intros [Hx Hy] Hdir. unfold inb, wall_between.
  apply carve_directions_cases in Hdir as [-> | [-> | [-> | -> ]]]; cbn [X Y];
    dir_arith; lia.
Qed.

Section CarvingLoop.
Context `{RandSource}.

Lemma wallToRemove_eq (m : Maze) (cur dir : Point) :
  maze_wf m -> interior m cur -> dir ∈ carve_directions ->
  mkPoint (add64 (X cur) (div64 (sub64 (X (two_steps cur dir)) (X cur)) 2))
          (add64 (Y cur) (div64 (sub64 (Y (two_steps cur dir)) (Y cur)) 2))
  = wall_between cur dir.
Proof.
  intros (Hd & Hw & Hh) [Hx Hy] Hdir.
  unfold two_steps, wall_between, sub64. cbn [X Y].
  replace (X cur + X dir - X cur) with (X dir) by lia.
  replace (Y cur + Y dir - Y cur) with (Y dir) by lia.
  unfold int_max in *.
  apply carve_directions_cases in Hdir as [-> | [-> | [-> | -> ]]]; cbn [X Y];
    dir_arith; reflexivity.
Qed.

(** An induction principle for the loop of [runDFS]: a property kept by a
    carving step and by a backtracking step holds when the loop ends; the
    loop does not panic, and ends within two units of fuel per wall cell
    plus one per stacked point. *)
Lemma runDFS_loop_rule (I : Maze -> list Point -> Prop) :
  (forall m stack cur dir m1 m2,
     maze_wf m -> Forall (interior m) stack -> I m stack ->
     last stack = Some cur -> dir ∈ carve_directions -> carvable m cur dir ->
     set_cell m (wall_between cur dir) Path = Ok m1 ->
     set_cell m1 (two_steps cur dir) Path = Ok m2 ->
     I m2 (stack ++ [two_steps cur dir])) ->
  (forall m stack cur,
     maze_wf m -> Forall (interior m) stack -> I m stack ->
     last stack = Some cur ->
     (forall dir, dir ∈ carve_directions -> ~ carvable m cur dir) ->
     I m (removelast stack)) ->
  forall fuel r bias m stack,
    maze_wf m -> Forall (interior m) stack -> I m stack ->
    match runDFS_loop fuel r bias m stack with
    | Ok (m', r') => maze_wf m' /\ regrid m m' /\ I m' []
    | Panic => False
    | OutOfFuel => (fuel <= 2 * wall_count (grid m) + length stack)%nat
    end.
Proof.
  intros Hpush Hpop. induction fuel as [|fuel IH]; intros r bias m stack Hwf Hst HI;
    cbn [runDFS_loop]; [lia|].
  destruct (last stack) as [cur|] eqn:Hlast.
  2: { apply last_None in Hlast. subst stack.
       split; [exact Hwf|]. split; [apply regrid_refl|exact HI]. }
  assert (Hcur : interior m cur).
  { apply last_Some in Hlast as [l' ->].
    apply Forall_app in Hst as [_ Hc]. inversion Hc; assumption. }
  destruct (findValidNeighbors_spec m cur Hwf Hcur) as (ns & -> & Hns). rsimpl.
  destruct (Nat.ltb_spec 0 (length ns)) as [Hpos|Hzero].
  - assert (Hne : ns <> []) by (intros ->; cbn in Hpos; lia).
    destruct (chooseBiasedNeighbor_spec ns stack bias r cur Hne Hlast)
      as (next & r' & -> & Hnext). rsimpl.
    apply Hns in Hnext as (dir & Hdir & -> & Hcv).
    rewrite (wallToRemove_eq m cur dir Hwf Hcur Hdir).
    destruct (set_cell_total m (wall_between cur dir) Path Hwf
                (wall_between_inb m cur dir Hcur Hdir)) as [m1 Hm1].
    rewrite Hm1. rsimpl.
    destruct (set_cell_Ok _ _ _ _ Hm1) as (Hre1 & Hc1 & Ho1 & Hwf1').
    destruct (Hwf1' Hwf) as [Hwf1 _].
    destruct Hcv as (Hin & Hwall & Hden & Hadj).
    assert (Hin1 : inb m1 (two_steps cur dir)).
    { apply (inb_shape m m1); [apply regrid_shape; exact Hre1|].
      apply interior_inb. exact Hin. }
    destruct (set_cell_total m1 (two_steps cur dir) Path Hwf1 Hin1) as [m2 Hm2].
    rewrite Hm2. rsimpl.
    destruct (set_cell_Ok _ _ _ _ Hm2) as (Hre2 & Hc2 & Ho2 & Hwf2').
    destruct (Hwf2' Hwf1) as [Hwf2 _].
    assert (Hre : regrid m m2) by (eapply regrid_trans; eauto).
    assert (Hst2 : Forall (interior m2) (stack ++ [two_steps cur dir])).
    { apply Forall_app. split.
      - eapply Forall_impl; [exact Hst|]. intros p Hp.
        apply (interior_shape m m2); [apply regrid_shape; exact Hre|exact Hp].
      - constructor; [|constructor].
        apply (interior_shape m m2); [apply regrid_shape; exact Hre|exact Hin]. }
    assert (HI2 : I m2 (stack ++ [two_steps cur dir])).
    { apply (Hpush m stack cur dir m1 m2); try assumption.
      repeat split; try assumption; apply Hin. }
    specialize (IH r' bias m2 _ Hwf2 Hst2 HI2).
    destruct (runDFS_loop fuel r' bias m2 (stack ++ [two_steps cur dir]))
      as [[m' r'']| |].
    + destruct IH as (Hwf' & Hre' & HI'). split; [exact Hwf'|].
      split; [eapply regrid_trans; eauto|exact HI'].
    + exact IH.
    + rewrite length_app in IH. cbn [length] in IH.
      assert (Hwb : wall_between cur dir <> two_steps cur dir).
      { unfold wall_between, two_steps.
        apply carve_directions_cases in Hdir as [-> | [-> | [-> | -> ]]];
          cbn [X Y]; dir_arith; intros E; injection E; lia. }
      assert (Hwall1 : cell_at m1 (two_steps cur dir) = Ok Wall).
      { rewrite Ho1; [exact Hwall|]. auto. }
      pose proof (wall_count_set_cell _ _ _ _ Hm2 Hwall1) as Hc.
      destruct (maze_wf_cell m (wall_between cur dir) Hwf
                  (wall_between_inb m cur dir Hcur Hdir)) as [old Hold].
      pose proof (wall_count_set_cell _ _ _ _ Hm1 Hold) as Hc'.
      unfold wall_bit at 1 in Hc. cbn in Hc. lia.
  - assert (ns = []) by (destruct ns; [reflexivity|cbn in Hzero; lia]). subst ns.
    assert (Hst' : Forall (interior m) (removelast stack)).
    { apply last_Some in Hlast as [l' ->]. rewrite removelast_last.
      apply Forall_app in Hst as [Hl _]. exact Hl. }
    assert (HI' : I m (removelast stack)).
    { eapply Hpop; eauto. intros dir Hdir Hcv.
      assert (Hq : two_steps cur dir ∈ @nil Point).
      { apply Hns. exists dir. auto. }
      inversion Hq. }
    specialize (IH r bias m _ Hwf Hst' HI').
    destruct (runDFS_loop fuel r bias m (removelast stack)) as [[m' r'']| |].
    + exact IH.
    + exact IH.
    + apply last_Some in Hlast as [l' ->]. rewrite removelast_last in IH.
      rewrite length_app. cbn [length]. lia.
Qed.
End CarvingLoop.

(** ** The farthest-point search *)

Lemma far_inv_length (m : Maze) (s : Point) (st : far_state) :
  far_inv m s st -> (length (fqueue st) <= S (cells m))%nat.
Proof.
  intros Hi. pose proof (fi_nodup _ _ _ Hi) as Hnd.
  destruct (fqueue st) as [|a l] eqn:Hq; [cbn; lia|].
  apply NoDup_cons in Hnd as [_ Hnd]. cbn [length].
  apply le_n_S. apply inb_nodup_length; [exact Hnd|].
  intros p Hp. apply list_elem_of_lookup_1 in Hp as [i Hp].
  destruct (fi_level _ _ _ Hi (S i) p ltac:(lia)) as (Hin & _).
  - rewrite Hq. exact Hp.
  - apply interior_inb. exact Hin.
Qed.

Lemma far_explore_spec (m : Maze) (s cur : Point) (c : nat) (st : far_state)
  (dir : Point) :
  maze_wf m -> Z.of_nat (cells m) < int_max ->
  far_inv m s st -> fqueue st !! c = Some cur -> dir ∈ directions ->
  exists st', far_explore m cur st dir = Ok st' /\ far_inv m s st' /\
    exists suf, fqueue st' = fqueue st ++ suf.
Proof.
  intros Hwf Hcells Hi Hcur Hdir. unfold far_explore.
  remember (move cur dir) as next eqn:Hnext.
  pose proof (inside_border_spec m next (maze_wf_border m Hwf)) as Hib.
  destruct (inside_border m next).
  2: { exists st. split; [reflexivity|]. split; [exact Hi|].
       exists []. symmetry. apply app_nil_r. }
  assert (Hin : interior m next) by (apply Hib; reflexivity).
  destruct (maze_wf_cell m next Hwf (interior_inb _ _ Hin)) as [cell Hcell].
  rewrite Hcell. rsimpl.
  destruct (Z.eqb_spec cell Wall) as [->|Hnw]; cbn [negb].
  { exists st. split; [reflexivity|]. split; [exact Hi|].
    exists []. symmetry. apply app_nil_r. }
  destruct (distances st !! next) as [dn|] eqn:Hdn.
  { exists st. split; [reflexivity|]. split; [exact Hi|].
    exists []. symmetry. apply app_nil_r. }
  assert (Hfresh : next ∉ fqueue st).
  { intros Hq. apply (fi_keys _ _ _ Hi) in Hq as [x Hx]. congruence. }
  assert (Hcurq : cur ∈ fqueue st) by (eapply list_elem_of_lookup_2; eauto).
  destruct (proj2 (fi_keys _ _ _ Hi cur) Hcurq) as [dc Hdc].
  pose proof (fi_range _ _ _ Hi c cur dc Hcur Hdc) as Hrange.
  pose proof (lookup_lt_Some _ _ _ Hcur) as Hclt.
  pose proof (far_inv_length m s st Hi) as Hlen.
  rewrite Hdc. cbn [default from_option]. unfold id.
  assert (Hdist : add64 dc 1 = dc + 1).
  { unfold add64. apply wrap_id. unfold is_int, int_min, int_max in *. lia. }
  rewrite Hdist.
  assert (Hold : forall p, p ∈ fqueue st ->
            <[next := dc + 1]> (distances st) !! p = distances st !! p).
  { intros p Hp. apply lookup_insert_ne. intros <-. contradiction. }
  assert (Hnew : <[next := dc + 1]> (distances st) !! next = Some (dc + 1))
    by apply lookup_insert_eq.
  assert (Hfar_in : farthestPoint st ∈ fqueue st).
  { apply (fi_keys _ _ _ Hi). rewrite (fi_far _ _ _ Hi). eauto. }
  assert (Hs_in : s ∈ fqueue st).
  { eapply list_elem_of_lookup_2. apply (fi_start _ _ _ Hi). }
  (* the invariants that do not depend on the farthest point *)
  assert (Hcommon :
    forall fp md,
      <[next := dc + 1]> (distances st) !! fp = Some md ->
      ((fp = s /\ md = 0) \/
       (exists j, (0 < j)%nat /\ (fqueue st ++ [next]) !! j = Some fp /\
          qualifies m fp /\ 0 < md /\
          forall i q dq, (0 < i < j)%nat -> (fqueue st ++ [next]) !! i = Some q ->
            qualifies m q -> <[next := dc + 1]> (distances st) !! q = Some dq ->
            dq < md)) ->
      (forall i q dq, (0 < i)%nat -> (fqueue st ++ [next]) !! i = Some q ->
         qualifies m q -> <[next := dc + 1]> (distances st) !! q = Some dq ->
         dq <= md) ->
      far_inv m s (mkFar (fqueue st ++ [next]) (<[next := dc + 1]> (distances st)) fp md)).
  { intros fp md Hfp Hch Hmx. constructor; cbn [fqueue distances farthestPoint maxDistance].
    - rewrite lookup_app_l; [apply (fi_start _ _ _ Hi)|lia].
    - apply NoDup_app. split; [apply (fi_nodup _ _ _ Hi)|]. split.
      + intros x Hx ->%list_elem_of_singleton. contradiction.
      + apply NoDup_singleton.
    - intros p. rewrite elem_of_app, list_elem_of_singleton.
      destruct (decide (p = next)) as [->|Hne].
      + rewrite Hnew. split; [auto|eauto].
      + rewrite lookup_insert_ne by congruence.
        rewrite (fi_keys _ _ _ Hi p). tauto.
    - rewrite Hold by exact Hs_in. apply (fi_dist0 _ _ _ Hi).
    - intros i p dp [[Hlt Hp]|[-> <-]]%lookup_snoc_Some Hd.
      + rewrite Hold in Hd by (eapply list_elem_of_lookup_2; eauto).
        eapply fi_range; eauto.
      + rewrite Hnew in Hd. injection Hd as <-. lia.
    - intros i p Hpos [[Hlt Hp]|[-> <-]]%lookup_snoc_Some.
      + destruct (fi_level _ _ _ Hi i p Hpos Hp)
          as (Hpi & Hpo & j & q & dq & Hj & Hq & Hst & Hdq & Hdp).
        split; [exact Hpi|]. split; [exact Hpo|].
        exists j, q, dq. split; [exact Hj|]. split.
        { rewrite lookup_app_l; [exact Hq|lia]. }
        split; [exact Hst|].
        rewrite !Hold by (eapply list_elem_of_lookup_2; eauto). auto.
      + split; [exact Hin|]. split; [exists cell; auto|].
        exists c, cur, dc. split; [exact Hclt|]. split.
        { rewrite lookup_app_l; [exact Hcur|exact Hclt]. }
        split; [exists dir; auto|].
        rewrite Hold by exact Hcurq. auto.
    - exact Hfp.
    - exact Hch.
    - exact Hmx. }
  assert (Hmax_old : forall md, maxDistance st <= md ->
    forall i q dq, (i < length (fqueue st))%nat -> (0 < i)%nat ->
      fqueue st !! i = Some q -> qualifies m q ->
      <[next := dc + 1]> (distances st) !! q = Some dq -> dq <= md).
  { intros md Hmd i q dq Hlt Hpos Hq Hql Hdq.
    rewrite Hold in Hdq by (eapply list_elem_of_lookup_2; eauto).
    pose proof (fi_max _ _ _ Hi i q dq Hpos Hq Hql Hdq). lia. }
  destruct ((maxDistance st <? dc + 1) && negb (IsInsideDen m next) &&
            negb (IsAdjacentToDen m next)) eqn:Eupd.
  - apply andb_true_iff in Eupd as [[Hlt Hnd]%andb_true_iff Hna].
    apply negb_true_iff in Hnd, Hna. apply Z.ltb_lt in Hlt.
    eexists. split; [reflexivity|]. split; [|exists [next]; reflexivity].
    apply Hcommon.
    + exact Hnew.
    + right. exists (length (fqueue st)).
      split; [lia|]. split; [apply list_lookup_middle; reflexivity|].
      split; [split; assumption|]. split; [lia|].
      intros i q dq [Hpos Hilt] Hq Hql Hdq.
      rewrite lookup_app_l in Hq by exact Hilt.
      pose proof (Hmax_old (maxDistance st) ltac:(lia) i q dq Hilt Hpos Hq Hql Hdq).
      lia.
    + intros i q dq Hpos [[Hilt Hq]|[-> <-]]%lookup_snoc_Some Hql Hdq.
      * pose proof (Hmax_old (maxDistance st) ltac:(lia) i q dq Hilt Hpos Hq Hql Hdq).
        lia.
      * rewrite Hnew in Hdq. injection Hdq as <-. lia.
  - eexists. split; [reflexivity|]. split; [|exists [next]; reflexivity].
    apply Hcommon.
    + rewrite Hold by exact Hfar_in. apply (fi_far _ _ _ Hi).
    + destruct (fi_choice _ _ _ Hi) as [Hl|(j & Hj & Hfj & Hql & Hmd & Hfirst)];
        [left; exact Hl|right].
      pose proof (lookup_lt_Some _ _ _ Hfj) as Hjlt.
      exists j. split; [exact Hj|]. split.
      { rewrite lookup_app_l; [exact Hfj|exact Hjlt]. }
      split; [exact Hql|]. split; [exact Hmd|].
      intros i q dq Hij Hq Hqq Hdq.
      rewrite lookup_app_l in Hq by lia.
      rewrite Hold in Hdq by (eapply list_elem_of_lookup_2; eauto).
      eapply Hfirst; eauto.
    + intros i q dq Hpos [[Hilt Hq]|[-> <-]]%lookup_snoc_Some Hql Hdq.
      * eapply (Hmax_old (maxDistance st)); eauto. lia.
      * rewrite Hnew in Hdq. injection Hdq as <-.
        destruct Hql as [Hq1 Hq2]. rewrite Hq1, Hq2 in Eupd. cbn in Eupd.
        rewrite !andb_true_r in Eupd. apply Z.ltb_ge in Eupd. exact Eupd.
Qed.

Lemma far_explore_all (m : Maze) (s cur : Point) (c : nat) (dirs : list Point) :
  maze_wf m -> Z.of_nat (cells m) < int_max ->
  (forall dir, dir ∈ dirs -> dir ∈ directions) ->
  forall st, far_inv m s st -> fqueue st !! c = Some cur ->
  exists st', for_each (far_explore m cur) dirs st = Ok st' /\ far_inv m s st' /\
    exists suf, fqueue st' = fqueue st ++ suf.
Proof.
  intros Hwf Hcells. induction dirs as [|dir dirs IH]; intros Hsub st Hi Hcur.
  - exists st. split; [reflexivity|]. split; [exact Hi|].
    exists []. symmetry. apply app_nil_r.
  - cbn [for_each].
    destruct (far_explore_spec m s cur c st dir Hwf Hcells Hi Hcur)
      as (st1 & -> & Hi1 & suf1 & Hq1); [apply Hsub; left|]. rsimpl.
    destruct (IH (fun d Hd => Hsub d (list_elem_of_further _ _ _ Hd)) st1 Hi1)
      as (st' & Hst' & Hi' & suf' & Hq').
    { rewrite Hq1. rewrite lookup_app_l; [exact Hcur|].
      eapply lookup_lt_Some; eauto. }
    exists st'. split; [exact Hst'|]. split; [exact Hi'|].
    exists (suf1 ++ suf'). rewrite Hq', Hq1, app_assoc. reflexivity.
Qed.

(** The search loop keeps the invariant, does not panic on a well-formed
    maze, and ends within one unit of fuel per cell, plus two. *)
Lemma far_search_spec (m : Maze) (s : Point) (fuel : nat) :
  maze_wf m -> Z.of_nat (cells m) < int_max ->
  forall head st, far_inv m s st -> (head <= length (fqueue st))%nat ->
  match far_search fuel m head st with
  | Ok st' => far_inv m s st'
  | Panic => False
  | OutOfFuel => (fuel + head <= S (cells m))%nat
  end.
Proof.
  intros Hwf Hcells. induction fuel as [|fuel IH]; intros head st Hi Hhead;
    cbn [far_search].
  - pose proof (far_inv_length m s st Hi). lia.
  - destruct (fqueue st !! head) as [cur|] eqn:Hcur; [|exact Hi].
    destruct (far_explore_all m s cur head directions Hwf Hcells (fun _ Hd => Hd)
                st Hi Hcur) as (st1 & -> & Hi1 & suf & Hq1). rsimpl.
    apply lookup_lt_Some in Hcur.
    specialize (IH (S head) st1 Hi1).
    assert (Hh1 : (S head <= length (fqueue st1))%nat).
    { rewrite Hq1, length_app. lia. }
    specialize (IH Hh1).
    destruct (far_search fuel m (S head) st1); [exact IH|exact IH|lia].
Qed.

Lemma far_inv_init (m : Maze) (s : Point) :
  far_inv m s (mkFar [s] {[s := 0]} s 0).
Proof.
  constructor; cbn [fqueue distances farthestPoint maxDistance].
  - reflexivity.
  - apply NoDup_singleton.
  - intros p. rewrite list_elem_of_singleton. split.
    + intros [x Hx]. apply lookup_singleton_Some in Hx as [<- _]. reflexivity.
    + intros ->. rewrite lookup_singleton_eq. eauto.
  - apply lookup_singleton_eq.
  - intros [|i] p dp Hp Hd; [|discriminate].
    injection Hp as <-. rewrite lookup_singleton_eq in Hd. injection Hd as <-. lia.
  - intros [|i] p Hpos Hp; [lia|discriminate].
  - apply lookup_singleton_eq.
  - left. auto.
  - intros [|i] q dq Hpos Hq; [lia|discriminate].
Qed.

(** [findFarthestPoint] returns, and what it returns comes from a state
    satisfying the invariant. *)
Lemma findFarthestPoint_spec (m : Maze) (s : Point) (fuel : nat) :
  maze_wf m -> Z.of_nat (cells m) < int_max -> (S (cells m) < fuel)%nat ->
  exists st, far_search fuel m 0 (mkFar [s] {[s := 0]} s 0) = Ok st /\
    findFarthestPoint fuel m s = Ok (farthestPoint st, maxDistance st) /\
    far_inv m s st.
Proof.
  intros Hwf Hcells Hf.
  pose proof (far_search_spec m s fuel Hwf Hcells 0 _ (far_inv_init m s)
                ltac:(cbn; lia)) as Hs.
  unfold findFarthestPoint.
  destruct (far_search fuel m 0 (mkFar [s] {[s := 0]} s 0)) as [st| |];
    [|contradiction|lia].
  exists st. rsimpl. auto.
Qed.

(** Whenever it returns, the invariant holds of the final state. *)
Lemma findFarthestPoint_Ok (m : Maze) (s : Point) (fuel : nat) (p : Point) (d : Z) :
  maze_wf m -> Z.of_nat (cells m) < int_max ->
  findFarthestPoint fuel m s = Ok (p, d) ->
  exists st, far_search fuel m 0 (mkFar [s] {[s := 0]} s 0) = Ok st /\
    p = farthestPoint st /\ d = maxDistance st /\ far_inv m s st.
Proof.
  intros Hwf Hcells. unfold findFarthestPoint.
  intros (st & Hst & [= <- <-])%bind_Ok.
  pose proof (far_search_spec m s fuel Hwf Hcells 0 _ (far_inv_init m s)
                ltac:(cbn; lia)) as Hs.
  rewrite Hst in Hs. exists st. auto.
Qed.

(** ** The carving walk as a whole *)

Lemma only_carved_refl (m : Maze) : only_carved m m.
Proof. intros p. right. reflexivity. Qed.

Lemma only_carved_trans (m1 m2 m3 : Maze) :
  only_carved m1 m2 -> only_carved m2 m3 -> only_carved m1 m3.
Proof.
  intros H12 H23 p. destruct (H23 p) as [?|E]; [left; assumption|].
  rewrite E. apply H12.
Qed.

Lemma only_carved_set_cell (m m' : Maze) (p : Point) :
  set_cell m p Path = Ok m' -> only_carved m m'.
Proof.
  intros Hs q. destruct (set_cell_Ok _ _ _ _ Hs) as (_ & Hp & Ho & _).
  destruct (decide (q = p)) as [->|Hne]; [left; exact Hp|right; apply Ho; exact Hne].
Qed.

Lemma only_carved_path (m m' : Maze) (p : Point) :
  only_carved m m' -> cell_at m p = Ok Path -> cell_at m' p = Ok Path.
Proof. intros H Hp. destruct (H p) as [?|E]; [assumption|congruence]. Qed.

Section CarvingWalk.
Context `{RandSource}.

(** On a well-formed maze and from a start strictly inside the border,
    [runDFS] returns within two units of fuel per cell, plus two; it only
    carves cells to [Path], the start among them. *)
Lemma runDFS_spec (fuel : nat) (r : Rand) (s : Point) (bias : float64) (m : Maze) :
  maze_wf m -> interior m s ->
  match runDFS fuel r s bias m with
  | Ok (m', r') =>
      maze_wf m' /\ regrid m m' /\ only_carved m m' /\ cell_at m' s = Ok Path
  | Panic => False
  | OutOfFuel => (fuel <= 2 * cells m + 1)%nat
  end.
Proof.
  intros Hwf Hs. unfold runDFS.
  destruct (set_cell_total m s Path Hwf (interior_inb _ _ Hs)) as [m1 Hm1].
  rewrite Hm1. rsimpl.
  destruct (set_cell_Ok _ _ _ _ Hm1) as (Hre1 & Hc1 & Ho1 & Hwf1').
  destruct (Hwf1' Hwf) as [Hwf1 _].
  pose proof (runDFS_loop_rule (fun m' _ => only_carved m1 m')) as Hrule.
  assert (Hst1 : Forall (interior m1) [s]).
  { constructor; [|constructor].
    apply (interior_shape m m1); [apply regrid_shape; exact Hre1|exact Hs]. }
  specialize (Hrule
    ltac:(intros m0 stack cur dir ma mb _ _ HI _ _ _ Ha Hb;
          eapply only_carved_trans; [exact HI|];
          eapply only_carved_trans; eapply only_carved_set_cell; eauto)
    ltac:(intros m0 stack cur _ _ HI _ _; exact HI)
    fuel r bias m1 [s] Hwf1 Hst1 (only_carved_refl m1)).
  destruct (runDFS_loop fuel r bias m1 [s]) as [[m' r']| |].
  - destruct Hrule as (Hwf' & Hre' & Hoc).
    split; [exact Hwf'|]. split; [eapply regrid_trans; eauto|].
    split.
    + eapply only_carved_trans; [|exact Hoc].
      eapply only_carved_set_cell; eauto.
    + eapply only_carved_path; eauto.
  - exact Hrule.
  - cbn [length] in Hrule. pose proof (wall_count_cells m1 Hwf1) as Hc.
    assert (cells m1 = cells m).
    { unfold cells. destruct (regrid_shape _ _ Hre1) as (-> & -> & _). reflexivity. }
    lia.
Qed.

(** The random start is a cell strictly inside the border with odd
    coordinates, outside the den. *)
Lemma random_start_Ok (fuel : nat) (r : Rand) (m : Maze) (p : Point) (r' : Rand) :
  maze_wf m ->
  random_start fuel r m = Ok (p, r') ->
  interior m p /\ Z.odd (X p) = true /\ Z.odd (Y p) = true /\
  IsInsideDen m p = false.
Proof.
  intros Hwf. pose proof (maze_wf_border m Hwf) as [Hbw Hbh].
  destruct Hwf as ((Hh & Hw & _) & Hwm & Hhm).
  revert r. induction fuel as [|fuel IH]; intros r; [discriminate|].
  cbn [random_start]. unfold Intn.
  rewrite !sub64_pred by assumption.
  assert (Hqw : div64 (width m - 1) 2 = Z.quot (width m - 1) 2).
  { unfold div64. apply wrap_id. unfold is_int, int_min, int_max in *.
    destruct (Z.eq_dec (width m) 0) as [->|]; [change ((0 - 1) ÷ 2) with 0; lia|].
    pose proof (Z.quot_pos (width m - 1) 2). 
    pose proof (Z.quot_le_upper_bound (width m - 1) 2 (width m)). lia. }
  assert (Hqh : div64 (height m - 1) 2 = Z.quot (height m - 1) 2).
  { unfold div64. apply wrap_id. unfold is_int, int_min, int_max in *.
    destruct (Z.eq_dec (height m) 0) as [->|]; [change ((0 - 1) ÷ 2) with 0; lia|].
    pose proof (Z.quot_pos (height m - 1) 2). 
    pose proof (Z.quot_le_upper_bound (height m - 1) 2 (height m)). lia. }
  rewrite Hqw, Hqh.
  destruct (Z.leb_spec (Z.quot (width m - 1) 2) 0) as [|Hpw]; [discriminate|].
  rsimpl. pose proof (Intn_range r _ Hpw) as Ha.
  destruct (Intn_raw r (Z.quot (width m - 1) 2)) as [a r1]. cbn [fst] in Ha.
  destruct (Z.leb_spec (Z.quot (height m - 1) 2) 0) as [|Hph]; [discriminate|].
  rsimpl. pose proof (Intn_range r1 _ Hph) as Hb.
  destruct (Intn_raw r1 (Z.quot (height m - 1) 2)) as [b r2]. cbn [fst] in Hb.
  assert (Hw1 : 0 <= width m - 1).
  { destruct (Z.eq_dec (width m) 0) as [E|]; [|lia].
    rewrite E in Hpw. change ((0 - 1) ÷ 2) with 0 in Hpw. lia. }
  assert (Hh1 : 0 <= height m - 1).
  { destruct (Z.eq_dec (height m) 0) as [E|]; [|lia].
    rewrite E in Hph. change ((0 - 1) ÷ 2) with 0 in Hph. lia. }
  assert (Hw2 : 2 * Z.quot (width m - 1) 2 <= width m - 1).
  { rewrite Z.quot_div_nonneg by lia. apply Z.mul_div_le. lia. }
  assert (Hh2 : 2 * Z.quot (height m - 1) 2 <= height m - 1).
  { rewrite Z.quot_div_nonneg by lia. apply Z.mul_div_le. lia. }
  assert (Ex : add64 (mul64 a 2) 1 = 2 * a + 1).
  { unfold add64, mul64. unfold int_max in *.
    rewrite (wrap_id (a * 2)) by (unfold is_int, int_min, int_max; lia).
    rewrite wrap_id by (unfold is_int, int_min, int_max; lia). lia. }
  assert (Ey : add64 (mul64 b 2) 1 = 2 * b + 1).
  { unfold add64, mul64. unfold int_max in *.
    rewrite (wrap_id (b * 2)) by (unfold is_int, int_min, int_max; lia).
    rewrite wrap_id by (unfold is_int, int_min, int_max; lia). lia. }
  rewrite Ex, Ey.
  destruct (IsInsideDen m (mkPoint (2 * a + 1) (2 * b + 1))) eqn:Eden; cbn [negb].
  - apply IH.
  - intros [= <- <-]. cbn [X Y]. split; [unfold interior; cbn; lia|].
    split; [|split; [|exact Eden]].
    + rewrite Z.add_comm, Z.odd_add_mul_2. reflexivity.
    + rewrite Z.add_comm, Z.odd_add_mul_2. reflexivity.
Qed.
End CarvingWalk.

(** ** The geometry of the den *)

Lemma odd_half (z : Z) : Z.odd z = true -> exists k, z = 2 * k + 1.
Proof. intros Hz. apply Z.odd_spec in Hz. exact Hz. Qed.

Lemma den_axis_spec (w dw : Z) :
  0 < dw < w - 2 -> w <= int_max -> Z.odd w = true -> Z.odd dw = true ->
  Z.odd (den_axis w dw) = true /\ 1 <= den_axis w dw /\
  den_axis w dw + dw <= w - 2.
Proof.
  intros Hdw Hw Ow Odw.
  destruct (odd_half w Ow) as [a Ha]. destruct (odd_half dw Odw) as [b Hb].
  unfold den_axis, int_max in *.
  assert (E1 : sub64 w dw = (a - b) * 2).
  { unfold sub64. rewrite wrap_id by (unfold is_int, int_min, int_max; lia). lia. }
  rewrite E1. unfold div64. rewrite Z.quot_mul by lia.
  rewrite wrap_id by (unfold is_int, int_min, int_max; lia).
  rewrite rem64_even.
  destruct (Z.ltb_spec 0 (a - b)) as [_|]; [|lia]. cbn [andb].
  destruct (Z.even (a - b)) eqn:Ev.
  - apply Z.even_spec in Ev as [c Hc].
    unfold sub64. rewrite wrap_id by (unfold is_int, int_min, int_max; lia).
    split; [|lia]. rewrite Hc.
    replace (2 * c - 1) with (1 + 2 * (c - 1)) by lia.
    rewrite Z.odd_add_mul_2. reflexivity.
  - split; [|lia]. rewrite <- Z.negb_even, Ev. reflexivity.
Qed.

Lemma constructed_den (m : Maze) : constructed m -> has_den m -> den_aligned m.
Proof.
  intros Hc [Hdw Hdh].
  destruct (constructed_fresh m Hc) as (Hf & Hw & Hh & Ow & Oh & Dw & Dh).
  destruct Dw as [E|[Bw Odw]]; [lia|]. destruct Dh as [E|[Bh Odh]]; [lia|].
  destruct (fresh_maze_Ok (width m) (height m) (denWidth m) (denHeight m) m)
    as (_ & _ & _ & _ & _ & _ & _ & Hpos & _); [lia|lia|exact Hf|].
  assert (Eden : (0 <? denWidth m) && (0 <? denHeight m) = true).
  { apply andb_true_iff. split; apply Z.ltb_lt; assumption. }
  specialize (Hpos Eden). unfold calculateDenPosition in Hpos.
  fold (den_axis (width m) (denWidth m)) in Hpos.
  fold (den_axis (height m) (denHeight m)) in Hpos.
  injection Hpos as Ex Ey.
  destruct (den_axis_spec (width m) (denWidth m)) as (? & ? & ?); try assumption; [lia|].
  destruct (den_axis_spec (height m) (denHeight m)) as (? & ? & ?); try assumption; [lia|].
  unfold den_aligned. rewrite Ex, Ey. auto 10.
Qed.

Lemma den_aligned_shape (m m' : Maze) :
  same_shape m m' -> den_aligned m -> den_aligned m'.
Proof.
  intros (Hw & Hh & Hdw & Hdh & Hx & Hy). unfold den_aligned.
  rewrite Hw, Hh, Hdw, Hdh, Hx, Hy. tauto.
Qed.

Lemma has_den_shape (m m' : Maze) : same_shape m m' -> has_den m -> has_den m'.
Proof.
  intros (Hw & Hh & Hdw & Hdh & Hx & Hy). unfold has_den.
  rewrite Hdw, Hdh. tauto.
Qed.

Lemma IsInsideDen_spec (m : Maze) (p : Point) :
  maze_wf m -> has_den m -> den_aligned m ->
  IsInsideDen m p = true <->
  denStartX m <= X p < denStartX m + denWidth m /\
  denStartY m <= Y p < denStartY m + denHeight m.
Proof.
  intros (_ & Hw & Hh) [Hdw Hdh] (_ & _ & _ & _ & Hx1 & Hx2 & Hy1 & Hy2).
  unfold IsInsideDen, add64, int_max in *.
  rewrite !wrap_id by (unfold is_int, int_min, int_max; lia).
  destruct (Z.leb_spec (denWidth m) 0); [lia|].
  destruct (Z.leb_spec (denHeight m) 0); [lia|]. cbn [orb].
  rewrite !andb_true_iff. lia.
Qed.

(** A cell with odd coordinates strictly inside the border is never
    adjacent to the den. *)
Lemma odd_not_adjacent (m : Maze) (p : Point) :
  maze_wf m -> has_den m -> den_aligned m -> interior m p ->
  Z.odd (X p) = true -> Z.odd (Y p) = true ->
  IsAdjacentToDen m p = false.
Proof.
  intros Hwf Hden Hal Hp Ox Oy.
  pose proof (IsInsideDen_spec m) as Hspec.
  assert (Hm : maze_ints m).
  { destruct Hwf as ((? & ? & _) & ? & ?). unfold maze_ints, is_int, int_min. lia. }
  unfold IsAdjacentToDen.
  destruct Hden as [Hdw Hdh].
  destruct (Z.leb_spec (denWidth m) 0); [lia|].
  destruct (Z.leb_spec (denHeight m) 0); [lia|]. cbn [orb].
  destruct (IsInsideDen m p) eqn:Ein; [reflexivity|].
  apply not_true_iff_false. intros Hex.
  apply existsb_exists in Hex as (dir & Hdir & Hin).
  apply list_elem_of_In in Hdir.
  rewrite (move_inb m p dir Hm (interior_inb _ _ Hp) Hdir) in Hin.
  apply Hspec in Hin; [|assumption|split; assumption|assumption].
  assert (Hnot : ~ (denStartX m <= X p < denStartX m + denWidth m /\
                    denStartY m <= Y p < denStartY m + denHeight m)).
  { intros Hc. apply Hspec in Hc; [congruence|assumption|split; assumption|assumption]. }
  destruct Hal as (O1 & O2 & O3 & O4 & _).
  destruct (odd_half _ O1) as [k1 E1]. destruct (odd_half _ O2) as [k2 E2].
  destruct (odd_half _ O3) as [k3 E3]. destruct (odd_half _ O4) as [k4 E4].
  destruct (odd_half _ Ox) as [kx Ex]. destruct (odd_half _ Oy) as [ky Ey].
  cbn [X Y] in Hin.
  unfold directions in Hdir.
  repeat (apply elem_of_cons in Hdir as [->|Hdir]; [cbn [X Y] in Hin; lia|]).
  inversion Hdir.
Qed.

(** ** Placing the start and the end *)

Lemma far_inv_tail_level (m : Maze) (s : Point) (st : far_state) :
  far_inv m s st ->
  forall i q dq, (0 < i)%nat -> fqueue st !! i = Some q ->
    distances st !! q = Some dq -> 1 <= dq.
Proof.
  intros Hi i q dq Hpos Hq Hdq.
  destruct (fi_level _ _ _ Hi i q Hpos Hq) as (_ & _ & j & q' & dq' & Hj & Hq' & _ & Hd' & Hd).
  pose proof (fi_range _ _ _ Hi j q' dq' Hq' Hd'). 
  assert (dq = dq' + 1) by congruence. lia.
Qed.

(** The point returned is the reference point or a qualifying open cell
    strictly inside the border. *)
Lemma findFarthestPoint_result (m : Maze) (s : Point) (fuel : nat) (p : Point) (d : Z) :
  maze_wf m -> Z.of_nat (cells m) < int_max ->
  findFarthestPoint fuel m s = Ok (p, d) ->
  p = s \/ (qualifies m p /\ interior m p /\ open_cell m p).
Proof.
  intros Hwf Hcells Hf.
  destruct (findFarthestPoint_Ok m s fuel p d Hwf Hcells Hf) as (st & _ & -> & -> & Hi).
  destruct (fi_choice _ _ _ Hi) as [[E _]|(j & Hj & Hfj & Hq & _)]; [left; exact E|right].
  destruct (fi_level _ _ _ Hi j _ Hj Hfj) as (Hin & Hop & _). auto.
Qed.

Lemma findFarthestPoint_set_start (fuel : nat) (m : Maze) (q s : Point) :
  findFarthestPoint fuel (set_start q m) s = findFarthestPoint fuel m s.
Proof.
  unfold findFarthestPoint. f_equal.
  generalize (mkFar [s] {[s := 0]} s 0). generalize 0%nat.
  induction fuel as [|fuel IH]; intros head st; [reflexivity|].
  cbn [far_search]. destruct (fqueue st !! head) as [cur|]; [|reflexivity].
  change (far_explore (set_start q m)) with (far_explore m).
  destruct (for_each (far_explore m cur) directions st); rsimpl; auto.
Qed.

Lemma maze_wf_shape (m m' : Maze) :
  same_shape m m' -> grid m' = grid m -> maze_wf m -> maze_wf m'.
Proof.
  intros (Hw & Hh & _) Hg. unfold maze_wf. rewrite Hw, Hh, Hg. tauto.
Qed.

(** What [placeStartAndEnd] leaves behind when it returns. *)
Lemma placeStartAndEnd_Ok (fuel : nat) (gs : Point) (use : bool) (m m' : Maze) :
  placeStartAndEnd fuel gs use m = Ok m' ->
  exists s e ds de m3,
    (if use then s = gs /\ ds = 0 else findFarthestPoint fuel m gs = Ok (s, ds)) /\
    findFarthestPoint fuel m s = Ok (e, de) /\
    set_cell (set_end e (set_start s m)) s Start = Ok m3 /\
    set_cell m3 e End = Ok m' /\
    start m' = s /\ end_ m' = e /\ door m' = door m /\ same_shape m m'.
Proof.
  unfold placeStartAndEnd. intros (m1 & Hm1 & H1)%bind_Ok.
  assert (Hs : exists s ds, m1 = set_start s m /\
            (if use then s = gs /\ ds = 0 else findFarthestPoint fuel m gs = Ok (s, ds))).
  { destruct use.
    - injection Hm1 as <-. exists gs, 0. auto.
    - apply bind_Ok in Hm1 as ([p d] & Hf & [= <-]). exists p, d. auto. }
  destruct Hs as (s & ds & -> & Hs).
  apply bind_Ok in H1 as ([e de] & He & H1).
  cbn [start set_start] in He. rewrite findFarthestPoint_set_start in He.
  apply bind_Ok in H1 as (m3 & Hm3 & Hm').
  cbn [start set_end set_start] in Hm3.
  destruct (set_cell_Ok _ _ _ _ Hm3) as (Hre3 & _).
  destruct (regrid_points _ _ Hre3) as (Es3 & Ee3 & Ed3).
  cbn [start end_ door set_end set_start] in Es3, Ee3, Ed3.
  rewrite Ee3 in Hm'.
  destruct (set_cell_Ok _ _ _ _ Hm') as (Hre' & _).
  destruct (regrid_points _ _ Hre') as (Es' & Ee' & Ed').
  exists s, e, ds, de, m3. repeat split; try assumption; try congruence.
  all: pose proof (regrid_shape _ _ Hre3) as S3;
       pose proof (regrid_shape _ _ Hre') as S'; unfold same_shape in *;
       cbn [width height denWidth denHeight denStartX denStartY set_end set_start] in S3;
       intuition congruence.
Qed.

(** ** The den connection step: frame and errors *)

Lemma door_step_refl (m : Maze) : door_step m m.
Proof.
  split; [apply same_shape_refl|]. split; [reflexivity|]. split; [reflexivity|].
  split; [apply only_carved_refl|auto].
Qed.

Lemma door_step_trans (m1 m2 m3 : Maze) :
  door_step m1 m2 -> door_step m2 m3 -> door_step m1 m3.
Proof.
  intros (S1 & A1 & B1 & C1 & W1) (S2 & A2 & B2 & C2 & W2).
  split; [eapply same_shape_trans; eauto|].
  split; [congruence|]. split; [congruence|].
  split; [eapply only_carved_trans; eauto|auto].
Qed.

Lemma door_step_set_cell (m m' : Maze) (p : Point) :
  set_cell m p Path = Ok m' -> door_step m m'.
Proof.
  intros Hs. destruct (set_cell_Ok _ _ _ _ Hs) as (Hre & _ & _ & Hwf).
  destruct (regrid_points _ _ Hre) as (? & ? & _).
  split; [apply regrid_shape; exact Hre|]. split; [assumption|].
  split; [assumption|]. split; [eapply only_carved_set_cell; eauto|].
  intros Hw. apply Hwf. exact Hw.
Qed.

Lemma door_step_set_door (m : Maze) (d : Point) : door_step m (set_door d m).
Proof.
  split; [repeat split|]. split; [reflexivity|]. split; [reflexivity|].
  split; [intros p; right; reflexivity|]. intros Hwf. exact Hwf.
Qed.

Lemma open_door_Ok (m m' : Maze) (d : Point) :
  open_door m d = Ok m' ->
  door_step m m' /\ door m' = d /\ cell_at m' d = Ok Path /\
  (forall q, q <> d -> cell_at m' q = cell_at m q) /\
  (maze_wf m -> inb m d).
Proof.
  unfold open_door. intros (m1 & Hm1 & [= <-])%bind_Ok.
  destruct (set_cell_Ok _ _ _ _ Hm1) as (Hre & Hc & Ho & Hwf).
  split.
  - eapply door_step_trans; [eapply door_step_set_cell; eauto|].
    apply door_step_set_door.
  - split; [reflexivity|]. split; [exact Hc|]. split; [exact Ho|].
    intros Hw. apply Hwf. exact Hw.
Qed.

Lemma carve_back_Ok (fuel : nat) (par : gmap Point Point) (s p : Point) (m m' : Maze) :
  carve_back fuel par s p m = Ok m' -> door_step m m'.
Proof.
  revert p m. induction fuel as [|fuel IH]; intros p m; [discriminate|].
  cbn [carve_back]. destruct (decide (p = s)).
  - intros [= <-]. apply door_step_refl.
  - intros (m1 & Hm1 & Hrec)%bind_Ok.
    eapply door_step_trans; [eapply door_step_set_cell; eauto|].
    eapply IH; eauto.
Qed.

Section DoorFrame.
Context `{RandSource}.

Lemma carvePathToNearest_Ok (fuel : nat) (s : Point) (m m' : Maze) (err : option error) :
  carvePathToNearest fuel s m = Ok (m', err) -> door_step m m'.
Proof.
  unfold carvePathToNearest. intros ([st target] & _ & Hrest)%bind_Ok.
  destruct target as [t|].
  - apply bind_Ok in Hrest as (m1 & Hm1 & [= <- <-]).
    eapply carve_back_Ok; eauto.
  - injection Hrest as <- <-. apply door_step_refl.
Qed.

Lemma connectDenAtSide_Ok (fuel : nat) (side : string) (m m' : Maze)
  (err : option error) :
  connectDenAtSide fuel side m = Ok (m', err) ->
  door_step m m' /\ (forall e, err = Some e -> door_error e).
Proof.
  unfold connectDenAtSide, door_error.
  destruct (side_door m side) as [[d nb]|].
  2: { intros [= <- <-]. split; [apply door_step_refl|]. intros e [= <-]. auto. }
  destruct (orb _ _).
  { intros [= <- <-]. split; [apply door_step_refl|]. intros e [= <-]. auto. }
  intros (cell & _ & Hrest)%bind_Ok.
  destruct (cell =? Path).
  - apply bind_Ok in Hrest as (m1 & Hm1 & [= <- <-]).
    split; [apply (open_door_Ok _ _ _ Hm1)|discriminate].
  - apply bind_Ok in Hrest as ([m1 e1] & Hc & Hrest).
    pose proof (carvePathToNearest_Ok _ _ _ _ _ Hc) as Hs1.
    destruct e1 as [e1|].
    + injection Hrest as <- <-. split; [exact Hs1|]. intros e [= <-]. auto.
    + apply bind_Ok in Hrest as (m2 & Hm2 & [= <- <-]).
      split; [|discriminate].
      eapply door_step_trans; [exact Hs1|apply (open_door_Ok _ _ _ Hm2)].
Qed.

Lemma connectDenAtPoint_Ok (d : Point) (m m' : Maze) (err : option error) :
  connectDenAtPoint d m = Ok (m', err) ->
  door_step m m' /\ (forall e, err = Some e -> door_error e).
Proof.
  unfold connectDenAtPoint, door_error.
  destruct (negb (inside_border m d)).
  { intros [= <- <-]. split; [apply door_step_refl|]. intros e [= <-]. auto 10. }
  intros (cell & _ & Hrest)%bind_Ok.
  destruct (negb (cell =? Wall)).
  { injection Hrest as <- <-. split; [apply door_step_refl|]. intros e [= <-]. auto 10. }
  apply bind_Ok in Hrest as (h & _ & Hrest). destruct h.
  { apply bind_Ok in Hrest as (m1 & Hm1 & [= <- <-]).
    split; [apply (open_door_Ok _ _ _ Hm1)|discriminate]. }
  apply bind_Ok in Hrest as (v & _ & Hrest). destruct v.
  { apply bind_Ok in Hrest as (m1 & Hm1 & [= <- <-]).
    split; [apply (open_door_Ok _ _ _ Hm1)|discriminate]. }
  injection Hrest as <- <-. split; [apply door_step_refl|]. intros e [= <-]. auto 10.
Qed.

Lemma connectRandomDenDoor_Ok_frame (r : Rand) (m m' : Maze) (err : option error) :
  connectRandomDenDoor r m = Ok (m', err) -> door_step m m' /\ err = None.
Proof.
  unfold connectRandomDenDoor. intros (doors & _ & Hrest)%bind_Ok.
  destruct (0 <? length doors)%nat.
  - apply bind_Ok in Hrest as ([i r'] & _ & Hrest).
    destruct (doors !! Z.to_nat i) as [d|]; [|discriminate].
    apply bind_Ok in Hrest as (m1 & Hm1 & [= <- <-]).
    split; [apply (open_door_Ok _ _ _ Hm1)|reflexivity].
  - injection Hrest as <- <-. split; [apply door_step_refl|reflexivity].
Qed.

Lemma connectDen_Ok (fuel : nat) (r : Rand) (userDoor : option Point)
  (side : string) (m m' : Maze) (err : option error) :
  connectDen fuel r userDoor side m = Ok (m', err) ->
  door_step m m' /\ (forall e, err = Some e -> door_error e).
Proof.
  unfold connectDen. destruct (orb _ _).
  { intros [= <- <-]. split; [apply door_step_refl|discriminate]. }
  destruct (negb (String.eqb side EmptyString)).
  { apply connectDenAtSide_Ok. }
  destruct userDoor as [d|].
  { apply connectDenAtPoint_Ok. }
  intros Hc. destruct (connectRandomDenDoor_Ok_frame _ _ _ _ Hc) as [Hs ->].
  split; [exact Hs|discriminate].
Qed.

(** The phases of a call of [Generate] that returns. *)
Lemma Generate_Ok (fuel : nat) (seed : Z) (s userDoor : option Point)
  (side : string) (bias : float64) (m m' : Maze) (e : option error) :
  Generate fuel seed s userDoor side bias m = Ok (m', e) ->
  (exists p err, s = Some p /\ e = Some err /\ start_error err /\ m' = m /\
     (start_rejected m p = true \/ IsInsideDen m p = true)) \/
  (exists gs r1 m1 r2 m2 err,
     match s with
     | Some p => p = gs /\ start_rejected m p = false /\
                 IsInsideDen m p = false /\ r1 = NewSource seed
     | None => random_start fuel (NewSource seed) m = Ok (gs, r1)
     end /\
     runDFS fuel r1 gs bias m = Ok (m1, r2) /\
     connectDen fuel r2 userDoor side m1 = Ok (m2, err) /\
     match err with
     | Some de => e = Some de /\ m' = m2
     | None => e = None /\
         placeStartAndEnd fuel gs (match s with Some _ => true | None => false end)
           m2 = Ok m'
     end).
Proof.
  unfold Generate, start_error. intros HG.
  destruct s as [p|].
  - destruct (start_rejected m p) eqn:Er.
    { injection HG as <- <-. left. exists p, ErrInvalidStart. auto 10. }
    destruct (IsInsideDen m p) eqn:Ed.
    { injection HG as <- <-. left. exists p, ErrStartInsideDen. auto 10. }
    cbn [mbind result_bind] in HG. right.
    apply bind_Ok in HG as ([m1 r2] & Hdfs & HG).
    apply bind_Ok in HG as ([m2 err] & Hcd & HG).
    exists p, (NewSource seed), m1, r2, m2, err.
    split; [auto|]. split; [exact Hdfs|]. split; [exact Hcd|].
    destruct err as [de|].
    + injection HG as <- <-. auto.
    + apply bind_Ok in HG as (m3 & Hp & [= <- <-]). auto.
  - right.
    apply bind_Ok in HG as ([gs r1] & Hrs & HG).
    apply bind_Ok in HG as ([m1 r2] & Hdfs & HG).
    apply bind_Ok in HG as ([m2 err] & Hcd & HG).
    exists gs, r1, m1, r2, m2, err.
    split; [exact Hrs|]. split; [exact Hdfs|]. split; [exact Hcd|].
    destruct err as [de|].
    + injection HG as <- <-. auto.
    + apply bind_Ok in HG as (m3 & Hp & [= <- <-]). auto.
Qed.
End DoorFrame.

(** ** The farthest point and the placed endpoints (C5) *)

Lemma far_inv_index (m : Maze) (s : Point) (st : far_state) (q : Point) :
  far_inv m s st -> q ∈ fqueue st -> q <> s ->
  exists i, (0 < i)%nat /\ fqueue st !! i = Some q.
Proof.
  intros Hi Hq Hne. apply list_elem_of_lookup_1 in Hq as [i Hq].
  exists i. split; [|exact Hq].
  destruct i; [|lia]. pose proof (fi_start _ _ _ Hi). congruence.
Qed.

Lemma far_inv_positive (m : Maze) (s : Point) (st : far_state) (i : nat) (q : Point) :
  far_inv m s st -> (0 < i)%nat -> fqueue st !! i = Some q -> q <> s.
Proof.
  intros Hi Hpos Hq ->.
  pose proof (NoDup_lookup _ _ _ _ (fi_nodup _ _ _ Hi) Hq (fi_start _ _ _ Hi)). lia.
Qed.

Lemma qualifies_shape (m m' : Maze) (p : Point) :
  same_shape m m' -> qualifies m' p <-> qualifies m p.
Proof.
  intros Hs. unfold qualifies.
  rewrite (IsInsideDen_shape m m' p Hs), (IsAdjacentToDen_shape m m' p Hs). tauto.
Qed.

Lemma start_rejected_false (m : Maze) (p : Point) :
  border_ints m -> start_rejected m p = false ->
  interior m p /\ Z.odd (X p) = true /\ Z.odd (Y p) = true.
Proof.
  intros [Hw Hh]. unfold start_rejected, interior.
  rewrite !rem64_even, !sub64_pred by assumption.
  rewrite !orb_false_iff. intros [[[[[? ?] ?] ?] Ex] Ey].
  rewrite <- !Z.negb_even, Ex, Ey. repeat split; lia.
Qed.

Section Endpoints.
Context `{RandSource}.

(** The point from which the maze is carved. *)
Lemma generation_start_facts (fuel : nat) (seed : Z) (s : option Point)
  (m : Maze) (gs : Point) (r1 : Rand) :
  maze_wf m ->
  match s with
  | Some p => p = gs /\ start_rejected m p = false /\
              IsInsideDen m p = false /\ r1 = NewSource seed
  | None => random_start fuel (NewSource seed) m = Ok (gs, r1)
  end ->
  interior m gs /\ Z.odd (X gs) = true /\ Z.odd (Y gs) = true /\
  IsInsideDen m gs = false.
Proof.
  intros Hwf Hs. destruct s as [p|].
  - destruct Hs as (-> & Hr & Hd & _).
    destruct (start_rejected_false m gs (maze_wf_border m Hwf) Hr) as (? & ? & ?).
    auto.
  - eapply random_start_Ok; eauto.
Qed.

(** The start and end placed by [Generate] on a constructed maze with a
    den are neither inside nor adjacent to the den. *)
Lemma generated_endpoints_qualify (m : Maze) (fuel : nat) (seed : Z)
  (s userDoor : option Point) (side : string) (bias : float64) (m' : Maze) :
  maze_wf m -> Z.of_nat (cells m) < int_max ->
  constructed m -> has_den m ->
  Generate fuel seed s userDoor side bias m = Ok (m', None) ->
  qualifies m' (start m') /\ qualifies m' (end_ m').
Proof.
  intros Hwf Hcells Hcon Hden HG.
  pose proof (constructed_den m Hcon Hden) as Hal.
  destruct (Generate_Ok _ _ _ _ _ _ _ _ _ HG)
    as [(p & err & _ & [=] & _)|(gs & r1 & m1 & r2 & m2 & err & Hs & Hdfs & Hcd & Hrest)].
  destruct (generation_start_facts fuel seed s m gs r1 Hwf Hs) as (Hgi & Ox & Oy & Hgd).
  pose proof (runDFS_spec fuel r1 gs bias m Hwf Hgi) as Hr. rewrite Hdfs in Hr.
  destruct Hr as (Hwf1 & Hre1 & _).
  destruct (connectDen_Ok _ _ _ _ _ _ _ Hcd) as [(Hsh2 & _ & _ & _ & Hwf2) _].
  specialize (Hwf2 Hwf1).
  destruct err as [de|]; [destruct Hrest as [[=] _]|].
  destruct Hrest as [_ Hplace].
  destruct (placeStartAndEnd_Ok _ _ _ _ _ Hplace)
    as (ps & pe & ds & de & m3 & Hps & Hpe & _ & _ & Es & Ee & _ & Hsh').
  assert (Hsh02 : same_shape m m2).
  { eapply same_shape_trans; [apply regrid_shape; exact Hre1|exact Hsh2]. }
  assert (Hcells2 : Z.of_nat (cells m2) < int_max).
  { unfold cells. destruct Hsh02 as (-> & -> & _). exact Hcells. }
  assert (Hqgs : qualifies m2 gs).
  { apply (qualifies_shape m m2 gs Hsh02). split; [exact Hgd|].
    apply odd_not_adjacent; assumption. }
  assert (Hqs : qualifies m2 ps).
  { destruct s as [p|].
    - destruct Hps as [-> _]. exact Hqgs.
    - destruct (findFarthestPoint_result m2 gs fuel ps ds Hwf2 Hcells2 Hps)
        as [->|[Hq _]]; assumption. }
  assert (Hqe : qualifies m2 pe).
  { destruct (findFarthestPoint_result m2 ps fuel pe de Hwf2 Hcells2 Hpe)
      as [->|[Hq _]]; assumption. }
  rewrite Es, Ee. split; apply (qualifies_shape m2 m' _ Hsh'); assumption.
Qed.

End Endpoints.

(** ** The random door (C7) *)

Lemma both_path_spec (m : Maze) (p1 p2 : Point) :
  maze_wf m -> inb m p1 -> inb m p2 ->
  exists b, both_path m p1 p2 = Ok b /\
    (b = true <-> cell_at m p1 = Ok Path /\ cell_at m p2 = Ok Path).
Proof.
  intros Hwf H1 H2. unfold both_path.
  destruct (maze_wf_cell m p1 Hwf H1) as [c1 Hc1].
  destruct (maze_wf_cell m p2 Hwf H2) as [c2 Hc2].
  rewrite Hc1. rsimpl. destruct (Z.eqb_spec c1 Path) as [->|Hne1].
  - rewrite Hc2. rsimpl. exists (c2 =? Path). split; [reflexivity|].
    rewrite Z.eqb_eq. split; [intros ->; auto|]. intros [_ [= ->]]. reflexivity.
  - exists false. split; [reflexivity|]. split; [discriminate|].
    intros [[= E] _]. contradiction.
Qed.

Lemma separates_spec (m : Maze) (p1 p2 : Point) :
  maze_wf m -> inb m p1 -> inb m p2 ->
  exists b, separates m p1 p2 = Ok b /\
    (b = true <-> cell_at m p1 = Ok Path /\ cell_at m p2 = Ok Path /\
                  IsInsideDen m p1 <> IsInsideDen m p2).
Proof.
  intros Hwf H1 H2. unfold separates.
  destruct (both_path_spec m p1 p2 Hwf H1 H2) as (b & -> & Hb). rsimpl.
  eexists. split; [reflexivity|].
  rewrite andb_true_iff, Hb.
  destruct (IsInsideDen m p1), (IsInsideDen m p2); cbn; intuition congruence.
Qed.

Lemma door_candidate_spec (m : Maze) (p : Point) :
  maze_wf m -> interior m p ->
  exists b, door_candidate m p = Ok b /\ (b = true <-> door_seam m p).
Proof.
  intros Hwf Hp. pose proof Hwf as ((_ & _ & _) & Hwm & Hhm).
  destruct Hp as [Hx Hy]. unfold door_candidate, door_seam, interior.
  unfold sub64, add64, int_max in *.
  rewrite !wrap_id by (unfold is_int, int_min, int_max; lia).
  destruct (maze_wf_cell m p Hwf) as [c Hc]; [unfold inb; lia|].
  rewrite Hc. rsimpl.
  destruct (Z.eqb_spec c Wall) as [->|Hne]; cbn [negb].
  2: { exists false. split; [reflexivity|]. split; [discriminate|].
       intros (_ & [= E] & _). contradiction. }
  destruct (separates_spec m (mkPoint (X p - 1) (Y p)) (mkPoint (X p + 1) (Y p)) Hwf)
    as (h & -> & Hh); [unfold inb; cbn; lia..|]. rsimpl.
  destruct h.
  { exists true. split; [reflexivity|]. split; [|reflexivity]. intros _.
    split; [lia|]. split; [reflexivity|]. left. apply Hh. reflexivity. }
  destruct (separates_spec m (mkPoint (X p) (Y p - 1)) (mkPoint (X p) (Y p + 1)) Hwf)
    as (v & -> & Hv); [unfold inb; cbn; lia..|].
  exists v. split; [reflexivity|]. rewrite Hv. split.
  - intros Hs. split; [lia|]. split; [reflexivity|]. right. exact Hs.
  - intros (_ & _ & [Hs|Hs]); [|exact Hs].
    apply Hh in Hs. discriminate.
Qed.

Lemma interior_scan_spec (m : Maze) (p : Point) :
  maze_wf m -> p ∈ interior_scan m <-> interior m p.
Proof.
  intros Hwf. destruct (maze_wf_border m Hwf) as [Hbw Hbh].
  unfold interior_scan, interior. rewrite !sub64_pred by assumption.
  rewrite list_elem_of_bind. split.
  - intros (y & Hin & Hy). apply list_elem_of_bind in Hin as (x & Hin & Hx).
    apply list_elem_of_singleton in Hin as ->. cbn.
    apply elem_of_seqZ in Hx, Hy. lia.
  - intros [Hx Hy]. exists (Y p). split; [|apply elem_of_seqZ; lia].
    apply list_elem_of_bind. exists (X p). split; [|apply elem_of_seqZ; lia].
    apply list_elem_of_singleton. destruct p; reflexivity.
Qed.

(** The scan collects exactly the cells that pass the test. *)
Lemma for_each_collect {A : Type} (f : A -> result bool) (P : A -> Prop)
  (l : list A) :
  (forall a, a ∈ l -> exists b, f a = Ok b /\ (b = true <-> P a)) ->
  forall acc, exists found,
    for_each (fun doors a => b ← f a; if b : bool then Ok (doors ++ [a]) else Ok doors)
      l acc = Ok (acc ++ found) /\
    forall a, a ∈ found <-> a ∈ l /\ P a.
Proof.
  induction l as [|x l IH]; intros Hf acc.
  - exists []. rewrite app_nil_r. split; [reflexivity|].
    intros a. split; [intros Ha; inversion Ha|]. intros [Ha _]. inversion Ha.
  - cbn [for_each]. destruct (Hf x (list_elem_of_here _ _)) as (b & -> & Hb). rsimpl.
    assert (Hf' : forall a, a ∈ l -> exists b, f a = Ok b /\ (b = true <-> P a)).
    { intros a Ha. apply Hf. right. exact Ha. }
    destruct b; rsimpl.
    + destruct (IH Hf' (acc ++ [x])) as (found & -> & Hfound).
      exists (x :: found). split; [rewrite <- app_assoc; reflexivity|].
      intros a. rewrite !elem_of_cons, Hfound. split.
      * intros [->|[? ?]]; [split; [auto|apply Hb; reflexivity]|auto].
      * intros [[->|?] ?]; auto.
    + destruct (IH Hf' acc) as (found & -> & Hfound).
      exists found. split; [reflexivity|].
      intros a. rewrite elem_of_cons, Hfound. split; [intros [? ?]; auto|].
      intros [[->|?] HP]; [|auto]. apply Hb in HP. discriminate.
Qed.

Lemma potentialDoors_spec (m : Maze) :
  maze_wf m ->
  exists doors, potentialDoors m = Ok doors /\
    forall p, p ∈ doors <-> door_seam m p.
Proof.
  intros Hwf. unfold potentialDoors.
  destruct (for_each_collect (door_candidate m) (door_seam m) (interior_scan m)) with (acc := @nil Point)
    as (found & Hfound & Hmem).
  { intros p Hp. apply door_candidate_spec; [exact Hwf|].
    apply interior_scan_spec; assumption. }
  exists found. split; [exact Hfound|].
  intros p. rewrite Hmem, interior_scan_spec by exact Hwf.
  split; [tauto|]. intros Hs. split; [apply Hs|exact Hs].
Qed.

Section RandomDoor.
Context `{RandSource}.

(** The random door strategy never fails: with no seam the maze is left as
    it is; otherwise one seam is carved to [Path] and recorded as the door,
    and no other cell changes. *)
Lemma connectRandomDenDoor_spec (r : Rand) (m : Maze) :
  maze_wf m ->
  exists m', connectRandomDenDoor r m = Ok (m', None) /\
    ((forall p, ~ door_seam m p) -> m' = m) /\
    ((exists p, door_seam m p) ->
       door_seam m (door m') /\ cell_at m' (door m') = Ok Path /\
       forall q, q <> door m' -> cell_at m' q = cell_at m q).
Proof.
  intros Hwf. unfold connectRandomDenDoor.
  destruct (potentialDoors_spec m Hwf) as (doors & -> & Hdoors). rsimpl.
  destruct (Nat.ltb_spec 0 (length doors)) as [Hpos|Hzero].
  - unfold Intn.
    destruct (Z.leb_spec (Z.of_nat (length doors)) 0) as [|Hlen]; [lia|]. rsimpl.
    pose proof (Intn_range r _ Hlen) as Hr.
    destruct (Intn_raw r (Z.of_nat (length doors))) as [i r']. cbn [fst] in Hr.
    destruct (lookup_lt_is_Some_2 doors (Z.to_nat i)) as [d Hd]; [lia|].
    rewrite Hd.
    assert (Hseam : door_seam m d).
    { apply Hdoors. eapply list_elem_of_lookup_2; eauto. }
    unfold open_door.
    destruct (set_cell_total m d Path Hwf) as [m1 Hm1].
    { apply interior_inb. apply Hseam. }
    rewrite Hm1. rsimpl.
    destruct (set_cell_Ok _ _ _ _ Hm1) as (_ & Hc & Ho & _).
    eexists. split; [reflexivity|]. split.
    + intros Hno. exfalso. apply (Hno d). exact Hseam.
    + intros _. cbn [door set_door]. auto.
  - exists m. split; [reflexivity|]. split; [reflexivity|].
    intros [p Hp]. apply Hdoors in Hp.
    destruct doors; [inversion Hp|cbn in Hzero; lia].
Qed.
End RandomDoor.

(** ** The random door inside [Generate] *)

Lemma placeStartAndEnd_cells (fuel : nat) (gs : Point) (use : bool) (m m' : Maze) :
  placeStartAndEnd fuel gs use m = Ok m' ->
  forall q, q <> start m' -> q <> end_ m' -> cell_at m' q = cell_at m q.
Proof.
  intros Hp q Hs He.
  destruct (placeStartAndEnd_Ok _ _ _ _ _ Hp)
    as (ps & pe & ds & de & m3 & _ & _ & H3 & H' & Es & Ee & _).
  destruct (set_cell_Ok _ _ _ _ H3) as (_ & _ & Ho3 & _).
  destruct (set_cell_Ok _ _ _ _ H') as (_ & _ & Ho' & _).
  rewrite Ho' by congruence. rewrite Ho3 by congruence. reflexivity.
Qed.

Lemma placeStartAndEnd_total (fuel : nat) (gs : Point) (use : bool) (m : Maze) :
  maze_wf m -> Z.of_nat (cells m) < int_max -> (S (cells m) < fuel)%nat ->
  interior m gs ->
  exists m', placeStartAndEnd fuel gs use m = Ok m'.
Proof.
  intros Hwf Hcells Hf Hgs. unfold placeStartAndEnd.
  assert (Hs : exists s,
    (if use then Ok (set_start gs m)
     else findFarthestPoint fuel m gs ≫= λ '(p, _), Ok (set_start p m))
    = Ok (set_start s m) /\ inb m s).
  { destruct use.
    - exists gs. split; [reflexivity|apply interior_inb; exact Hgs].
    - destruct (findFarthestPoint_spec m gs fuel Hwf Hcells Hf) as (st & _ & Hfp & _).
      rewrite Hfp. rsimpl. eexists. split; [reflexivity|].
      destruct (findFarthestPoint_result m gs fuel _ _ Hwf Hcells Hfp)
        as [->|(_ & Hi & _)]; apply interior_inb; assumption. }
  destruct Hs as (s & -> & Hsin). rsimpl.
  cbn [start set_start]. rewrite findFarthestPoint_set_start.
  destruct (findFarthestPoint_spec m s fuel Hwf Hcells Hf) as (st & _ & Hfp & _).
  rewrite Hfp. rsimpl.
  assert (Hein : inb m (farthestPoint st)).
  { destruct (findFarthestPoint_result m s fuel _ _ Hwf Hcells Hfp)
      as [->|(_ & Hi & _)]; [exact Hsin|apply interior_inb; exact Hi]. }
  cbn [start set_end set_start].
  destruct (set_cell_total (set_end (farthestPoint st) (set_start s m)) s Start Hwf Hsin)
    as [m3 Hm3].
  rewrite Hm3. rsimpl.
  destruct (set_cell_Ok _ _ _ _ Hm3) as (Hre3 & _ & _ & Hwf3).
  destruct (Hwf3 Hwf) as [Hwf3' _].
  destruct (regrid_points _ _ Hre3) as (_ & Ee3 & _).
  cbn [end_ set_end set_start] in Ee3. rewrite Ee3.
  apply set_cell_total; [exact Hwf3'|].
  apply (inb_shape _ _ _ (regrid_shape _ _ Hre3)). exact Hein.
Qed.

Lemma inside_den_interior (m : Maze) (p : Point) :
  maze_wf m -> has_den m -> den_aligned m ->
  IsInsideDen m p = true -> interior m p.
Proof.
  intros Hwf Hden Hal Hin. apply IsInsideDen_spec in Hin; try assumption.
  destruct Hal as (_ & _ & _ & _ & ? & ? & ? & ?). unfold interior. lia.
Qed.

(** A seam is adjacent to the den, provided the den cells are paths. *)
Lemma door_seam_adjacent (m : Maze) (d : Point) :
  maze_wf m -> has_den m -> den_aligned m ->
  (forall p, IsInsideDen m p = true -> cell_at m p = Ok Path) ->
  door_seam m d -> IsAdjacentToDen m d = true.
Proof.
  intros Hwf Hden Hal Hpath (Hint & Hwall & Hpair).
  assert (Hm : maze_ints m).
  { destruct Hwf as ((? & ? & _) & ? & ?). unfold maze_ints, is_int, int_min. lia. }
  assert (Hout : IsInsideDen m d = false).
  { destruct (IsInsideDen m d) eqn:E; [|reflexivity].
    apply Hpath in E. rewrite Hwall in E. discriminate. }
  unfold IsAdjacentToDen. destruct Hden as [Hdw Hdh].
  destruct (Z.leb_spec (denWidth m) 0); [lia|].
  destruct (Z.leb_spec (denHeight m) 0); [lia|]. cbn [orb].
  rewrite Hout. apply existsb_exists.
  assert (Hdir : forall dir, dir ∈ directions ->
            IsInsideDen m (mkPoint (X d + X dir) (Y d + Y dir)) = true ->
            exists x, In x directions /\ IsInsideDen m (move d x) = true).
  { intros dir Hd Hi. exists dir. split; [apply list_elem_of_In; exact Hd|].
    rewrite (move_inb m d dir Hm (interior_inb _ _ Hint) Hd). exact Hi. }
  unfold directions in Hdir.
  destruct Hpair as [(_ & _ & Hne)|(_ & _ & Hne)].
  - destruct (IsInsideDen m (mkPoint (X d - 1) (Y d))) eqn:E1.
    + apply (Hdir (mkPoint (-1) 0)); [set_solver|]. cbn [X Y].
      replace (X d + -1) with (X d - 1) by lia.
      replace (Y d + 0) with (Y d) by lia. exact E1.
    + destruct (IsInsideDen m (mkPoint (X d + 1) (Y d))) eqn:E2; [|congruence].
      apply (Hdir (mkPoint 1 0)); [set_solver|]. cbn [X Y].
      replace (Y d + 0) with (Y d) by lia. exact E2.
  - destruct (IsInsideDen m (mkPoint (X d) (Y d - 1))) eqn:E1.
    + apply (Hdir (mkPoint 0 (-1))); [set_solver|]. cbn [X Y].
      replace (Y d + -1) with (Y d - 1) by lia.
      replace (X d + 0) with (X d) by lia. exact E1.
    + destruct (IsInsideDen m (mkPoint (X d) (Y d + 1))) eqn:E2; [|congruence].
      apply (Hdir (mkPoint 0 1)); [set_solver|]. cbn [X Y].
      replace (X d + 0) with (X d) by lia. exact E2.
Qed.

Section RandomDoorGenerate.
Context `{RandSource}.

Lemma connectDen_random (fuel : nat) (r : Rand) (m : Maze) :
  has_den m ->
  connectDen fuel r None EmptyString m = connectRandomDenDoor r m.
Proof.
  intros [Hdw Hdh]. unfold connectDen.
  destruct (Z.leb_spec (denWidth m) 0); [lia|].
  destruct (Z.leb_spec (denHeight m) 0); [lia|]. reflexivity.
Qed.

End RandomDoorGenerate.

(** ** Corridor graphs: growing a tree by a leaf *)

Lemma adjacent_sym (p q : Point) : adjacent p q -> adjacent q p.
Proof. unfold adjacent. lia. Qed.

Lemma adjacent_irrefl (p : Point) : ~ adjacent p p.
Proof. unfold adjacent. lia. Qed.

Lemma linked_app_inv (l1 l2 : list Point) :
  linked (l1 ++ l2) ->
  linked l1 /\ linked l2 /\
  forall x y, last l1 = Some x -> head l2 = Some y -> adjacent x y.
Proof.
  induction l1 as [|a l1 IH]; intros Hl.
  - cbn in *. split; [exact I|]. split; [exact Hl|]. discriminate.
  - destruct l1 as [|b l1].
    + cbn [app] in Hl. destruct l2 as [|c l2].
      * split; [exact I|]. split; [exact I|]. discriminate.
      * destruct Hl as [Hac Hl]. split; [exact I|]. split; [exact Hl|].
        intros x y [= <-] [= <-]. exact Hac.
    + destruct Hl as [Hab Hl]. destruct (IH Hl) as (H1 & H2 & H3).
      split; [split; assumption|]. split; [exact H2|].
      intros x y Hx Hy. apply H3; assumption.
Qed.

Lemma linked_app (l1 l2 : list Point) :
  linked l1 -> linked l2 ->
  (forall x y, last l1 = Some x -> head l2 = Some y -> adjacent x y) ->
  linked (l1 ++ l2).
Proof.
  induction l1 as [|a l1 IH]; intros H1 H2 H3; [exact H2|].
  destruct l1 as [|b l1].
  - cbn [app]. destruct l2 as [|c l2]; [exact I|].
    split; [apply H3; reflexivity|exact H2].
  - destruct H1 as [Hab H1]. cbn [app linked]. split; [exact Hab|].
    apply IH; [exact H1|exact H2|]. intros x y Hx Hy. apply H3; assumption.
Qed.

Lemma linked_rev (l : list Point) : linked l -> linked (rev l).
Proof.
  induction l as [|a l IH]; intros Hl; [exact I|].
  cbn [rev]. destruct l as [|b l].
  - exact I.
  - destruct Hl as [Hab Hl]. apply linked_app; [apply IH; exact Hl|exact I|].
    intros x y Hx [= <-]. cbn [rev] in Hx. rewrite last_snoc in Hx.
    injection Hx as <-. apply adjacent_sym. exact Hab.
Qed.

Lemma head_rev (l : list Point) : head (rev l) = last l.
Proof.
  induction l as [|a l IH] using rev_ind; [reflexivity|].
  rewrite rev_app_distr, last_snoc. reflexivity.
Qed.

Lemma last_rev (l : list Point) : last (rev l) = head l.
Proof.
  destruct l as [|a l]; [reflexivity|]. cbn [rev]. apply last_snoc.
Qed.

Lemma simple_path_rev (S : Point -> Prop) (a b : Point) (l : list Point) :
  simple_path S a b l -> simple_path S b a (rev l).
Proof.
  intros (Hh & Hl & Hlk & Hnd & Hall). repeat split.
  - rewrite head_rev. exact Hl.
  - rewrite last_rev. exact Hh.
  - apply linked_rev. exact Hlk.
  - apply NoDup_ListNoDup, List.NoDup_rev, NoDup_ListNoDup. exact Hnd.
  - apply Forall_forall. intros x Hx. apply list_elem_of_In, in_rev in Hx.
    apply (proj1 (Forall_forall _ _) Hall). apply list_elem_of_In. exact Hx.
Qed.

(** Uniqueness of the simple path is symmetric in its end points. *)
Lemma unique_path_sym (S : Point -> Prop) (a b : Point) :
  (exists l, simple_path S a b l /\ forall l', simple_path S a b l' -> l' = l) ->
  exists l, simple_path S b a l /\ forall l', simple_path S b a l' -> l' = l.
Proof.
  intros (l & Hl & Hu). exists (rev l). split; [apply simple_path_rev; exact Hl|].
  intros l' Hl'. apply simple_path_rev in Hl'. apply Hu in Hl'.
  rewrite <- Hl', rev_involutive. reflexivity.
Qed.

Lemma tree_ext (S S' : Point -> Prop) :
  (forall p, S p <-> S' p) -> tree S -> tree S'.
Proof.
  intros Heq Ht a b Ha Hb.
  destruct (Ht a b (proj2 (Heq a) Ha) (proj2 (Heq b) Hb)) as (l & (H1 & H2 & H3 & H4 & H5) & Hu).
  exists l. split.
  - repeat split; try assumption. eapply Forall_impl; [exact H5|]. intros p. apply Heq.
  - intros l' (G1 & G2 & G3 & G4 & G5). apply Hu. repeat split; try assumption.
    eapply Forall_impl; [exact G5|]. intros p. apply Heq.
Qed.

Lemma tree_single (s : Point) : tree (fun p => p = s).
Proof.
  intros a b -> ->. exists [s]. split.
  - repeat split; try reflexivity; try exact I.
    + apply NoDup_singleton.
    + constructor; [reflexivity|constructor].
  - intros l' (Hh & Hl & _ & Hnd & Hall).
    destruct l' as [|x l']; [discriminate|]. injection Hh as ->.
    destruct l' as [|y l']; [reflexivity|]. exfalso.
    inversion Hall as [|? ? _ Hall']; subst.
    inversion Hall' as [|? ? Hy _]; subst.
    apply NoDup_cons in Hnd as [Hnin _]. apply Hnin. left.
Qed.

Section Leaf.
Variable S : Point -> Prop.
Variables u v : Point.
Hypothesis HS : tree S.
Hypothesis Hu : S u.
Hypothesis Hv : ~ S v.
Hypothesis Huv : adjacent u v.
Hypothesis Honly : forall w, S w -> adjacent w v -> w = u.

Let S' : Point -> Prop := fun p => S p \/ p = v.

Lemma leaf_avoid (a b : Point) (l : list Point) :
  simple_path S' a b l -> v ∉ l -> simple_path S a b l.
Proof.
  intros (H1 & H2 & H3 & H4 & H5) Hnin. repeat split; try assumption.
  apply Forall_forall. intros x Hx.
  destruct (proj1 (Forall_forall _ _) H5 x Hx) as [?| ->]; [assumption|contradiction].
Qed.

Lemma leaf_weaken (a b : Point) (l : list Point) :
  simple_path S a b l -> simple_path S' a b l.
Proof.
  intros (H1 & H2 & H3 & H4 & H5). repeat split; try assumption.
  eapply Forall_impl; [exact H5|]. intros x Hx. left. exact Hx.
Qed.

(** A simple path that starts at the leaf continues through [u]. *)
Lemma leaf_from (b : Point) (l : list Point) :
  simple_path S' v b l -> b <> v ->
  exists l', l = v :: l' /\ simple_path S u b l'.
Proof.
  intros (H1 & H2 & H3 & H4 & H5) Hb.
  destruct l as [|x l]; [discriminate|]. injection H1 as ->.
  destruct l as [|y l].
  { cbn in H2. congruence. }
  exists (y :: l). split; [reflexivity|].
  destruct H3 as [Hvy H3].
  apply NoDup_cons in H4 as [Hnin H4].
  inversion H5 as [|? ? _ H5']; subst.
  assert (Hy : y = u).
  { apply Honly; [|apply adjacent_sym; exact Hvy].
    inversion H5' as [|? ? [?| ->] _]; subst; [assumption|].
    exfalso. apply Hnin. left. }
  subst y. apply leaf_avoid; [|exact Hnin].
  repeat split; try assumption; try reflexivity.
Qed.

(** The leaf is never in the middle of a simple path. *)
Lemma leaf_not_inside (a b : Point) (l : list Point) :
  simple_path S' a b l -> a <> v -> b <> v -> v ∉ l.
Proof.
  intros (H1 & H2 & H3 & H4 & H5) Ha Hb Hin.
  apply list_elem_of_split in Hin as (l1 & l2 & ->).
  (* the point before the leaf *)
  destruct (last l1) as [x|] eqn:Hx.
  2: { apply last_None in Hx. subst l1. cbn in H1. congruence. }
  (* the point after the leaf *)
  destruct l2 as [|y l2].
  { rewrite last_snoc in H2. congruence. }
  apply linked_app_inv in H3 as (_ & H3 & Hxv).
  specialize (Hxv x v Hx eq_refl). destruct H3 as [Hvy _].
  apply last_Some in Hx as [l1' ->].
  rewrite <- app_assoc in H4, H5. cbn [app] in H4, H5.
  apply NoDup_app in H4 as (_ & _ & H4).
  apply NoDup_cons in H4 as [Hx1 H4]. apply NoDup_cons in H4 as [Hv1 _].
  apply Forall_app in H5 as [_ H5].
  inversion H5 as [|? ? Sx H5']; subst.
  inversion H5' as [|? ? _ H5'']; subst.
  inversion H5'' as [|? ? Sy _]; subst.
  assert (x = u).
  { apply Honly; [|exact Hxv]. destruct Sx as [?| ->]; [assumption|].
    exfalso. apply Hx1. left. }
  assert (y = u).
  { apply Honly; [|apply adjacent_sym; exact Hvy]. destruct Sy as [?| ->]; [assumption|].
    exfalso. apply Hv1. left. }
  subst x y. apply Hx1. right. left.
Qed.

Lemma leaf_path_from (b : Point) :
  S b ->
  exists l, simple_path S' v b l /\ forall l', simple_path S' v b l' -> l' = l.
Proof.
  intros Hb. destruct (HS u b Hu Hb) as (l0 & Hl0 & Huniq).
  assert (Hbv : b <> v) by (intros ->; contradiction).
  exists (v :: l0). split.
  - destruct Hl0 as (H1 & H2 & H3 & H4 & H5).
    destruct l0 as [|x l0]; [discriminate|]. injection H1 as ->.
    split; [reflexivity|]. split; [exact H2|]. split; [|split].
    + split; [apply adjacent_sym; exact Huv|exact H3].
    + apply NoDup_cons. split; [|exact H4].
      intros Hin. apply Hv. apply (proj1 (Forall_forall _ _) H5 v Hin).
    + constructor; [right; reflexivity|].
      eapply Forall_impl; [exact H5|]. intros y Hy. left. exact Hy.
  - intros l' Hl'. destruct (leaf_from b l' Hl' Hbv) as (l'' & -> & Hl'').
    f_equal. apply Huniq. exact Hl''.
Qed.

(** Adding a leaf to a tree gives a tree. *)
Lemma tree_leaf : tree S'.
Proof.
  intros a b Ha Hb.
  destruct (decide (a = v)) as [->|Hav]; destruct (decide (b = v)) as [->|Hbv].
  - exists [v]. split.
    + repeat split; try reflexivity; try exact I.
      * apply NoDup_singleton.
      * constructor; [right; reflexivity|constructor].
    + intros l' (H1 & H2 & _ & H4 & _).
      destruct l' as [|x l']; [discriminate|]. injection H1 as ->.
      destruct l' as [|y l']; [reflexivity|]. exfalso.
      apply NoDup_cons in H4 as [Hnin _]. apply Hnin.
      change (last (v :: y :: l')) with (last (y :: l')) in H2.
      apply last_Some in H2 as [l'' E]. rewrite E.
      apply elem_of_app. right. left.
  - apply leaf_path_from. destruct Hb as [?|?]; [assumption|contradiction].
  - apply unique_path_sym. apply leaf_path_from.
    destruct Ha as [?|?]; [assumption|contradiction].
  - assert (Sa : S a) by (destruct Ha as [?|?]; [assumption|contradiction]).
    assert (Sb : S b) by (destruct Hb as [?|?]; [assumption|contradiction]).
    destruct (HS a b Sa Sb) as (l & Hl & Huniq).
    exists l. split; [apply leaf_weaken; exact Hl|].
    intros l' Hl'. apply Huniq. apply leaf_avoid; [exact Hl'|].
    eapply leaf_not_inside; eauto.
Qed.
End Leaf.

(** ** The carving walk without a den: a spanning tree *)

Ltac parity :=
  repeat match goal with
  | H : Z.Odd _ |- _ => destruct H as [? H]
  | H : Z.Even _ |- _ => destruct H as [? H]
  | H : odd_cell _ |- _ => destruct H as [? ?]
  end.

Ltac solve_parity :=
  match goal with
  | |- Z.Odd ?e => destruct (Z.Even_or_Odd e) as [[? ?]|?]; [exfalso; lia|assumption]
  | |- Z.Even ?e => destruct (Z.Even_or_Odd e) as [?|[? ?]]; [assumption|exfalso; lia]
  end.

Ltac par_contra :=
  match goal with
  | H1 : Z.Even ?e, H2 : Z.Odd ?e |- _ =>
      exact (False_ind _ (Z.Even_Odd_False e H1 H2))
  end.

Lemma point_eq (p : Point) (x y : Z) : X p = x -> Y p = y -> p = mkPoint x y.
Proof. destruct p. cbn. congruence. Qed.

Lemma point_ext (p q : Point) : X p = X q -> Y p = Y q -> p = q.
Proof. destruct p, q. cbn. congruence. Qed.

(** A carved cell adjacent to a passage cell has that passage cell carved. *)
Lemma carved_end (m : Maze) (q q' : Point) :
  carved_inv m -> walkable m q -> adjacent q q' -> odd_cell q' -> walkable m q'.
Proof.
  intros Hci Hq Hadj [Ox Oy]. unfold adjacent in Hadj.
  destruct (Z.eq_dec (Y q) (Y q')) as [Ey|Ney].
  - assert (Hev : Z.Even (X q)) by (parity; solve_parity).
    destruct (ci_horiz _ Hci q Hq Hev) as [Hl Hr].
    destruct (Z.eq_dec (X q') (X q - 1)) as [E|].
    + rewrite (point_eq q' (X q - 1) (Y q)) by lia. exact Hl.
    + rewrite (point_eq q' (X q + 1) (Y q)) by lia. exact Hr.
  - assert (Hev : Z.Even (Y q)) by (parity; solve_parity).
    destruct (ci_vert _ Hci q Hq Hev) as [Hl Hr].
    destruct (Z.eq_dec (Y q') (Y q - 1)) as [E|].
    + rewrite (point_eq q' (X q) (Y q - 1)) by lia. exact Hl.
    + rewrite (point_eq q' (X q) (Y q + 1)) by lia. exact Hr.
Qed.

(** The carved neighbours of a cell between two passage cells are those two
    passage cells. *)
Lemma carved_between (m : Maze) (q w a b : Point) :
  carved_inv m -> walkable m q -> adjacent q w ->
  odd_cell a -> odd_cell b -> adjacent a w -> adjacent w b -> a <> b ->
  q = a \/ q = b.
Proof.
  intros Hci Hq Hadj Oa Ob Haw Hwb Hab. unfold adjacent in *.
  destruct (Z.Even_or_Odd (X q)) as [Ex|Ox];
    destruct (Z.Even_or_Odd (Y q)) as [Ey|Oy].
  - exfalso. eapply ci_not_even; eauto.
  - exfalso. parity. lia.
  - exfalso. parity. lia.
  - assert (Hne : ~ (X a = X b /\ Y a = Y b)).
    { intros [? ?]. apply Hab. apply point_ext; assumption. }
    destruct (Z.eq_dec (X q) (X a)) as [E1|N1];
      destruct (Z.eq_dec (Y q) (Y a)) as [E2|N2].
    + left. apply point_ext; assumption.
    + right. apply point_ext; parity; lia.
    + right. apply point_ext; parity; lia.
    + exfalso. parity. lia.
Qed.

(** The geometry of a carving step from a passage cell. *)
Lemma carve_geometry (cur dir : Point) :
  dir ∈ carve_directions -> odd_cell cur ->
  odd_cell (two_steps cur dir) /\
  adjacent cur (wall_between cur dir) /\
  adjacent (wall_between cur dir) (two_steps cur dir) /\
  cur <> two_steps cur dir /\
  wall_between cur dir <> two_steps cur dir /\
  ((Z.Even (X (wall_between cur dir)) /\ Z.Odd (Y (wall_between cur dir))) \/
   (Z.Odd (X (wall_between cur dir)) /\ Z.Even (Y (wall_between cur dir)))).
Proof.
  intros Hdir [Ox Oy]. unfold two_steps, wall_between, adjacent, odd_cell.
  destruct div64_dir as (_ & _ & _ & Q1 & Q2 & Q3 & _).
  apply carve_directions_cases in Hdir as [-> | [-> | [-> | -> ]]]; cbn [X Y];
    rewrite ?Q1, ?Q2, ?Q3;
    (split; [split; parity; solve_parity|]);
    (split; [lia|]); (split; [lia|]);
    (split; [intros E; pose proof (f_equal X E); pose proof (f_equal Y E);
             cbn [X Y] in *; lia|]);
    (split; [intros E; pose proof (f_equal X E); pose proof (f_equal Y E);
             cbn [X Y] in *; lia|]).
  - right. split; parity; solve_parity.
  - right. split; parity; solve_parity.
  - left. split; parity; solve_parity.
  - left. split; parity; solve_parity.
Qed.

Lemma wall_between_interior (m : Maze) (cur dir : Point) :
  dir ∈ carve_directions -> interior m cur -> interior m (two_steps cur dir) ->
  interior m (wall_between cur dir).
Proof.
  intros Hdir [Hx Hy] [Hnx Hny]. unfold interior, two_steps, wall_between in *.
  destruct div64_dir as (_ & _ & _ & Q1 & Q2 & Q3 & _).
  apply carve_directions_cases in Hdir as [-> | [-> | [-> | -> ]]]; cbn [X Y] in *;
    rewrite ?Q1, ?Q2, ?Q3; lia.
Qed.

Lemma den_free_inside (m : Maze) (p : Point) : denWidth m = 0 -> IsInsideDen m p = false.
Proof. intros E. unfold IsInsideDen. rewrite E. reflexivity. Qed.

Lemma den_free_adjacent (m : Maze) (p : Point) :
  denWidth m = 0 -> IsAdjacentToDen m p = false.
Proof. intros E. unfold IsAdjacentToDen. rewrite E. reflexivity. Qed.

Lemma wall_not_walkable (m : Maze) (p : Point) :
  cell_at m p = Ok Wall -> ~ walkable m p.
Proof.
  intros Hw [_ (c & Hc & Hne)]. unfold cell_at in Hw. congruence.
Qed.

Lemma walk_push (m : Maze) (stack : list Point) (cur dir : Point) (m1 m2 : Maze) :
  maze_wf m -> Forall (interior m) stack -> walk_inv m stack ->
  last stack = Some cur -> dir ∈ carve_directions -> carvable m cur dir ->
  set_cell m (wall_between cur dir) Path = Ok m1 ->
  set_cell m1 (two_steps cur dir) Path = Ok m2 ->
  walk_inv m2 (stack ++ [two_steps cur dir]).
Proof.
  intros Hwf Hint (Hden & Hci & Hstack & Hfin) Hlast Hdir (Hnin & Hnwall & _ & _) Hm1 Hm2.
  set (w := wall_between cur dir) in *. set (n := two_steps cur dir) in *.
  assert (Hcur : walkable m cur /\ odd_cell cur /\ interior m cur).
  { apply last_Some in Hlast as [l' ->].
    apply Forall_app in Hstack as [_ Hc]. apply Forall_app in Hint as [_ Hi].
    inversion Hc; subst. inversion Hi; subst. tauto. }
  destruct Hcur as (Hcw & Hco & Hcint).
  destruct (carve_geometry cur dir Hdir Hco) as (Hno & Hcw_adj & Hwn_adj & Hcn & Hwn & Hwpar).
  fold w in Hcw_adj, Hwn_adj, Hwn, Hwpar. fold n in Hno, Hwn_adj, Hcn, Hwn.
  destruct (set_cell_Ok _ _ _ _ Hm1) as (Hre1 & _ & _ & Hwf1').
  destruct (Hwf1' Hwf) as [Hwf1 _].
  destruct (set_cell_Ok _ _ _ _ Hm2) as (Hre2 & _ & _ & _).
  assert (Hre : regrid m m2) by (eapply regrid_trans; eauto).
  pose proof (regrid_shape _ _ Hre) as Hsh.
  assert (Path_ne : Path <> Wall) by discriminate.
  pose proof (walkable_set_cell m w Path m1 Hwf Hm1 Path_ne) as F1.
  pose proof (walkable_set_cell m1 n Path m2 Hwf1 Hm2 Path_ne) as F2.
  assert (F : forall q, walkable m2 q <-> q = n \/ q = w \/ walkable m q).
  { intros q. rewrite F2, F1. tauto. }
  assert (Hn_not : ~ walkable m n) by (apply wall_not_walkable; exact Hnwall).
  assert (Hw_not : ~ walkable m w).
  { intros Hw. apply Hn_not. eapply carved_end; eauto. }
  assert (Hwint : interior m w) by (apply wall_between_interior; assumption).
  (* the tree grows by two leaves *)
  assert (Htree : tree (walkable m2)).
  { pose proof (tree_leaf (walkable m) cur w (ci_tree _ Hci) Hcw Hw_not Hcw_adj) as T1.
    assert (Honly1 : forall q, walkable m q -> adjacent q w -> q = cur).
    { intros q Hq Hadj.
      destruct (carved_between m q w cur n Hci Hq Hadj Hco Hno Hcw_adj Hwn_adj Hcn)
        as [->| ->]; [reflexivity|contradiction]. }
    specialize (T1 Honly1).
    pose proof (tree_leaf (fun p => walkable m p \/ p = w) w n T1) as T2.
    assert (Honly2 : forall q, (walkable m q \/ q = w) -> adjacent q n -> q = w).
    { intros q [Hq| ->] Hadj; [|reflexivity].
      exfalso. apply Hn_not. eapply carved_end; eauto. }
    specialize (T2 (or_intror eq_refl)
                   ltac:(intros [?|E]; [contradiction|apply Hwn; symmetry; exact E])
                   Hwn_adj Honly2).
    eapply tree_ext; [|exact T2]. intros q. cbn beta. rewrite F. tauto. }
  split; [destruct Hsh as (_ & _ & -> & _); exact Hden|].
  split; [|split].
  - constructor.
    + intros q [->|[->|Hq]]%F; apply (interior_shape m m2 _ Hsh); auto.
      apply (ci_interior _ Hci). exact Hq.
    + intros q [->|[->|Hq]]%F Ex Ey.
      * destruct Hno as [Ox _]. par_contra.
      * destruct Hwpar as [[_ Oy]|[Ox _]]; par_contra.
      * eapply ci_not_even; eauto.
    + intros q [->|[->|Hq]]%F Ex.
      * destruct Hno as [Ox _]. par_contra.
      * destruct Hwpar as [[_ Oy]|[Ox _]]; [|par_contra].
        assert (Hends : (cur = mkPoint (X w - 1) (Y w) /\ n = mkPoint (X w + 1) (Y w)) \/
                        (cur = mkPoint (X w + 1) (Y w) /\ n = mkPoint (X w - 1) (Y w))).
        { unfold adjacent in Hcw_adj, Hwn_adj. destruct Hco, Hno.
          assert (Hc : X cur <> X n \/ Y cur <> Y n).
          { destruct (Z.eq_dec (X cur) (X n)); [|auto].
            destruct (Z.eq_dec (Y cur) (Y n)); [|auto].
            exfalso. apply Hcn. apply point_ext; assumption. }
          destruct (Z.eq_dec (X cur) (X w - 1)).
          - left. split; apply point_eq; parity; lia.
          - right. split; apply point_eq; parity; lia. }
        destruct Hends as [[<- <-]|[<- <-]]; split; apply F; tauto.
      * destruct (ci_horiz _ Hci q Hq Ex). split; apply F; tauto.
    + intros q [->|[->|Hq]]%F Ey.
      * destruct Hno as [_ Oy]. par_contra.
      * destruct Hwpar as [[_ Oy]|[Ox _]]; [par_contra|].
        assert (Hends : (cur = mkPoint (X w) (Y w - 1) /\ n = mkPoint (X w) (Y w + 1)) \/
                        (cur = mkPoint (X w) (Y w + 1) /\ n = mkPoint (X w) (Y w - 1))).
        { unfold adjacent in Hcw_adj, Hwn_adj. destruct Hco, Hno.
          assert (Hc : X cur <> X n \/ Y cur <> Y n).
          { destruct (Z.eq_dec (X cur) (X n)); [|auto].
            destruct (Z.eq_dec (Y cur) (Y n)); [|auto].
            exfalso. apply Hcn. apply point_ext; assumption. }
          destruct (Z.eq_dec (Y cur) (Y w - 1)).
          - left. split; apply point_eq; parity; lia.
          - right. split; apply point_eq; parity; lia. }
        destruct Hends as [[<- <-]|[<- <-]]; split; apply F; tauto.
      * destruct (ci_vert _ Hci q Hq Ey). split; apply F; tauto.
    + exact Htree.
  - apply Forall_app. split.
    + eapply Forall_impl; [exact Hstack|]. intros q [Hq Ho]. split; [apply F; tauto|exact Ho].
    + constructor; [|constructor]. split; [apply F; tauto|exact Hno].
  - intros q [->|[->|Hq]]%F Ho.
    + left. apply elem_of_app. right. left.
    + exfalso. destruct Ho as [Ox Oy].
      destruct Hwpar as [[Ex _]|[_ Ey]]; par_contra.
    + destruct (Hfin q Hq Ho) as [Hin|Hdone].
      * left. apply elem_of_app. left. exact Hin.
      * right. intros d Hd Hi. apply F. right. right. apply Hdone; [exact Hd|].
        apply (interior_shape m m2 _ Hsh). exact Hi.
Qed.

Lemma walk_pop (m : Maze) (stack : list Point) (cur : Point) :
  maze_wf m -> Forall (interior m) stack -> walk_inv m stack ->
  last stack = Some cur ->
  (forall dir, dir ∈ carve_directions -> ~ carvable m cur dir) ->
  walk_inv m (removelast stack).
Proof.
  intros Hwf Hint (Hden & Hci & Hstack & Hfin) Hlast Hnone.
  apply last_Some in Hlast as [l' ->]. rewrite removelast_last.
  apply Forall_app in Hstack as [Hl' Hc].
  split; [exact Hden|]. split; [exact Hci|]. split; [exact Hl'|].
  intros q Hq Ho. destruct (Hfin q Hq Ho) as [Hin|Hdone]; [|right; exact Hdone].
  apply elem_of_app in Hin as [Hin| ->%list_elem_of_singleton]; [left; exact Hin|].
  right. intros dir Hdir Hi.
  destruct (maze_wf_cell m (two_steps cur dir) Hwf (interior_inb _ _ Hi)) as [c Hc'].
  split; [apply interior_inb; exact Hi|]. exists c. split; [exact Hc'|].
  intros ->. apply (Hnone dir Hdir).
  split; [exact Hi|]. split; [exact Hc'|].
  split; [apply den_free_inside; exact Hden|apply den_free_adjacent; exact Hden].
Qed.

(** The passage cells are connected by two-step moves: a set of cells that
    contains one passage cell and is closed under two-step moves inside the
    border contains them all. *)
Lemma lattice_span (m : Maze) (S : Point -> Prop) (s : Point) :
  interior m s -> odd_cell s -> S s ->
  (forall p, S p -> odd_cell p -> forall dir, dir ∈ carve_directions ->
     interior m (two_steps p dir) -> S (two_steps p dir)) ->
  forall p, interior m p -> odd_cell p -> S p.
Proof.
  intros Hs Hso HSs Hclosed.
  assert (Hind : forall k p, (Z.to_nat (Z.abs (X p - X s) + Z.abs (Y p - Y s)) <= k)%nat ->
            interior m p -> odd_cell p -> S p).
  { induction k as [|k IH]; intros p Hk Hp Hpo.
    - assert (p = s) by (apply point_ext; lia). subst p. exact HSs.
    - destruct (Z.eq_dec (X p) (X s)) as [Ex|Nx].
      + destruct (Z.eq_dec (Y p) (Y s)) as [Ey|Ny].
        * assert (p = s) by (apply point_ext; assumption). subst p. exact HSs.
        * destruct (Z_lt_le_dec (Y s) (Y p)) as [Hlt|Hge].
          -- assert (Hq : S (mkPoint (X p) (Y p - 2))).
             { destruct Hp, Hs, Hpo, Hso. unfold interior in *.
               apply IH; cbn [X Y]; [parity; lia|parity; lia|].
               split; cbn [X Y]; [assumption|parity; solve_parity]. }
             replace p with (two_steps (mkPoint (X p) (Y p - 2)) (mkPoint 0 2)).
             2: { apply point_ext; cbn; lia. }
             apply Hclosed; [exact Hq| |set_solver|].
             ++ destruct Hpo. split; cbn [X Y]; [assumption|parity; solve_parity].
             ++ replace (two_steps (mkPoint (X p) (Y p - 2)) (mkPoint 0 2)) with p;
                  [exact Hp|apply point_ext; cbn; lia].
          -- assert (Hq : S (mkPoint (X p) (Y p + 2))).
             { destruct Hp, Hs, Hpo, Hso. unfold interior in *.
               apply IH; cbn [X Y]; [parity; lia|parity; lia|].
               split; cbn [X Y]; [assumption|parity; solve_parity]. }
             replace p with (two_steps (mkPoint (X p) (Y p + 2)) (mkPoint 0 (-2))).
             2: { apply point_ext; cbn; lia. }
             apply Hclosed; [exact Hq| |set_solver|].
             ++ destruct Hpo. split; cbn [X Y]; [assumption|parity; solve_parity].
             ++ replace (two_steps (mkPoint (X p) (Y p + 2)) (mkPoint 0 (-2))) with p;
                  [exact Hp|apply point_ext; cbn; lia].
      + destruct (Z_lt_le_dec (X s) (X p)) as [Hlt|Hge].
        * assert (Hq : S (mkPoint (X p - 2) (Y p))).
          { destruct Hp, Hs, Hpo, Hso. unfold interior in *.
            apply IH; cbn [X Y]; [parity; lia|parity; lia|].
            split; cbn [X Y]; [parity; solve_parity|assumption]. }
          replace p with (two_steps (mkPoint (X p - 2) (Y p)) (mkPoint 2 0)).
          2: { apply point_ext; cbn; lia. }
          apply Hclosed; [exact Hq| |set_solver|].
          -- destruct Hpo. split; cbn [X Y]; [parity; solve_parity|assumption].
          -- replace (two_steps (mkPoint (X p - 2) (Y p)) (mkPoint 2 0)) with p;
               [exact Hp|apply point_ext; cbn; lia].
        * assert (Hq : S (mkPoint (X p + 2) (Y p))).
          { destruct Hp, Hs, Hpo, Hso. unfold interior in *.
            apply IH; cbn [X Y]; [parity; lia|parity; lia|].
            split; cbn [X Y]; [parity; solve_parity|assumption]. }
          replace p with (two_steps (mkPoint (X p + 2) (Y p)) (mkPoint (-2) 0)).
          2: { apply point_ext; cbn; lia. }
          apply Hclosed; [exact Hq| |set_solver|].
          -- destruct Hpo. split; cbn [X Y]; [parity; solve_parity|assumption].
          -- replace (two_steps (mkPoint (X p + 2) (Y p)) (mkPoint (-2) 0)) with p;
               [exact Hp|apply point_ext; cbn; lia]. }
  intros p Hp Hpo. eapply Hind; eauto.
Qed.

Lemma odd_spec_cell (p : Point) :
  Z.odd (X p) = true -> Z.odd (Y p) = true -> odd_cell p.
Proof. intros Hx Hy. split; apply Z.odd_spec; assumption. Qed.

Lemma constructed_den_free_walls (m : Maze) (p : Point) :
  constructed m -> denWidth m = 0 -> ~ walkable m p.
Proof.
  intros Hc Hd [Hin (c & Hcell & Hne)].
  pose proof (constructed_cells m p Hc Hin) as Hw.
  rewrite den_free_inside in Hw by exact Hd. unfold cell_at in Hw. congruence.
Qed.

Lemma walkable_shape_grid (m m' : Maze) (p : Point) :
  same_shape m m' -> grid m' = grid m -> walkable m' p <-> walkable m p.
Proof.
  intros (Hw & Hh & _) Hg. unfold walkable, inb, open_cell. rewrite Hw, Hh, Hg. tauto.
Qed.

Section SpanningTree.
Context `{RandSource}.

(** On a freshly constructed maze without a den, the carving walk leaves a
    tree of carved cells that contains every passage cell. *)
Lemma runDFS_tree (fuel : nat) (r : Rand) (gs : Point) (bias : float64)
  (m m1 : Maze) (r' : Rand) :
  constructed m -> denWidth m = 0 -> interior m gs -> odd_cell gs ->
  runDFS fuel r gs bias m = Ok (m1, r') ->
  maze_wf m1 /\ regrid m m1 /\ carved_inv m1 /\ walkable m1 gs /\
  forall p, interior m1 p -> odd_cell p -> walkable m1 p.
Proof.
  intros Hcon Hden Hgi Hgo Hrun.
  pose proof (constructed_wf m Hcon) as Hwf.
  unfold runDFS in Hrun. apply bind_Ok in Hrun as (m0 & Hm0 & Hloop).
  destruct (set_cell_Ok _ _ _ _ Hm0) as (Hre0 & _ & _ & Hwf0').
  destruct (Hwf0' Hwf) as [Hwf0 _].
  pose proof (regrid_shape _ _ Hre0) as Hsh0.
  assert (Path_ne : Path <> Wall) by discriminate.
  assert (F0 : forall q, walkable m0 q <-> q = gs).
  { intros q. rewrite (walkable_set_cell m gs Path m0 Hwf Hm0 Path_ne). split; [|auto].
    intros [?|Hq]; [assumption|]. exfalso.
    eapply constructed_den_free_walls; eauto. }
  assert (Hinv0 : walk_inv m0 [gs]).
  { split; [destruct Hsh0 as (_ & _ & -> & _); exact Hden|]. split; [|split].
    - constructor.
      + intros q ->%F0. apply (interior_shape m m0 _ Hsh0). exact Hgi.
      + intros q ->%F0 Ex Ey. destruct Hgo. par_contra.
      + intros q ->%F0 Ex. destruct Hgo. par_contra.
      + intros q ->%F0 Ey. destruct Hgo. par_contra.
      + eapply tree_ext; [|apply (tree_single gs)]. intros q. cbn beta.
        rewrite F0. tauto.
    - constructor; [|constructor]. split; [apply F0; reflexivity|exact Hgo].
    - intros q ->%F0 _. left. left. }
  assert (Hst0 : Forall (interior m0) [gs]).
  { constructor; [|constructor]. apply (interior_shape m m0 _ Hsh0). exact Hgi. }
  pose proof (runDFS_loop_rule walk_inv walk_push walk_pop fuel r bias m0 [gs]
                Hwf0 Hst0 Hinv0) as Hrule.
  rewrite Hloop in Hrule. destruct Hrule as (Hwf1 & Hre1 & (Hden1 & Hci & _ & Hfin)).
  assert (Hre : regrid m m1) by (eapply regrid_trans; eauto).
  pose proof (regrid_shape _ _ Hre1) as Hsh1.
  assert (Hgs1 : walkable m1 gs).
  { split.
    - apply (inb_shape m m1 _ (regrid_shape _ _ Hre)). apply interior_inb. exact Hgi.
    - pose proof (runDFS_spec fuel r gs bias m Hwf Hgi) as Hs.
      unfold runDFS in Hs. rewrite Hm0 in Hs. cbn [mbind result_bind] in Hs.
      rewrite Hloop in Hs. destruct Hs as (_ & _ & _ & Hp).
      exists Path. split; [exact Hp|exact Path_ne]. }
  split; [exact Hwf1|]. split; [exact Hre|]. split; [exact Hci|].
  split; [exact Hgs1|].
  apply (lattice_span m1 (walkable m1) gs).
  - apply (interior_shape m m1 _ (regrid_shape _ _ Hre)). exact Hgi.
  - exact Hgo.
  - exact Hgs1.
  - intros p Hp Hpo dir Hdir Hi.
    destruct (Hfin p Hp Hpo) as [Hin|Hdone]; [inversion Hin|].
    apply Hdone; assumption.
Qed.

Lemma connectDen_no_den (fuel : nat) (r : Rand) (userDoor : option Point)
  (side : string) (m : Maze) :
  denWidth m = 0 -> connectDen fuel r userDoor side m = Ok (m, None).
Proof. intros E. unfold connectDen. rewrite E. reflexivity. Qed.

Lemma random_start_den_free (fuel : nat) (r : Rand) (m : Maze) :
  maze_wf m -> denWidth m = 0 -> 3 <= width m -> 3 <= height m ->
  exists gs r1, random_start (S fuel) r m = Ok (gs, r1).
Proof.
  intros Hwf Hden Hw Hh. pose proof (maze_wf_border m Hwf) as [Hbw Hbh].
  destruct Hwf as (_ & Hwm & Hhm).
  cbn [random_start]. unfold Intn. rewrite !sub64_pred by assumption.
  assert (Hq : forall z, 3 <= z <= int_max -> div64 (z - 1) 2 = Z.quot (z - 1) 2 /\
                                             0 < Z.quot (z - 1) 2).
  { intros z Hz. unfold int_max in *.
    assert (Hpos : 0 < Z.quot (z - 1) 2).
    { rewrite Z.quot_div_nonneg by lia. apply Z.div_str_pos. lia. }
    split; [|exact Hpos]. unfold div64. apply wrap_id.
    pose proof (Z.quot_le_upper_bound (z - 1) 2 z).
    unfold is_int, int_min, int_max. lia. }
  destruct (Hq (width m)) as [-> Hpw]; [lia|].
  destruct (Hq (height m)) as [-> Hph]; [lia|].
  destruct (Z.leb_spec (Z.quot (width m - 1) 2) 0); [lia|]. rsimpl.
  destruct (Intn_raw r (Z.quot (width m - 1) 2)) as [a r1].
  destruct (Z.leb_spec (Z.quot (height m - 1) 2) 0); [lia|]. rsimpl.
  destruct (Intn_raw r1 (Z.quot (height m - 1) 2)) as [b r2].
  rewrite den_free_inside by exact Hden. cbn [negb]. eauto.
Qed.
End SpanningTree.

(** The start and end markers overwrite cells that were already open. *)
Lemma placeStartAndEnd_walkable (fuel : nat) (gs : Point) (use : bool) (m m' : Maze) :
  maze_wf m -> Z.of_nat (cells m) < int_max -> walkable m gs ->
  placeStartAndEnd fuel gs use m = Ok m' ->
  walkable m (start m') /\ walkable m (end_ m') /\
  forall q, walkable m' q <-> walkable m q.
Proof.
  intros Hwf Hcells Hgs Hp.
  destruct (placeStartAndEnd_Ok _ _ _ _ _ Hp)
    as (s & e & ds & de & m3 & Hs & He & H3 & H' & Es & Ee & _ & _).
  assert (Hsw : walkable m s).
  { destruct use.
    - destruct Hs as [-> _]. exact Hgs.
    - destruct (findFarthestPoint_result m gs fuel s ds Hwf Hcells Hs)
        as [->|(_ & Hi & Ho)]; [exact Hgs|].
      split; [apply interior_inb; exact Hi|exact Ho]. }
  assert (Hew : walkable m e).
  { destruct (findFarthestPoint_result m s fuel e de Hwf Hcells He)
      as [->|(_ & Hi & Ho)]; [exact Hsw|].
    split; [apply interior_inb; exact Hi|exact Ho]. }
  rewrite Es, Ee. split; [exact Hsw|]. split; [exact Hew|].
  assert (S_ne : Start <> Wall) by discriminate.
  assert (E_ne : End <> Wall) by discriminate.
  pose proof (walkable_set_cell (set_end e (set_start s m)) s Start m3 Hwf H3 S_ne) as F3.
  destruct (set_cell_Ok _ _ _ _ H3) as (_ & _ & _ & Hwf3).
  destruct (Hwf3 Hwf) as [Hwf3' _].
  pose proof (walkable_set_cell m3 e End m' Hwf3' H' E_ne) as F'.
  intros q. rewrite F', F3.
  change (walkable (set_end e (set_start s m)) q) with (walkable m q).
  split; [|auto]. intros [->|[->|?]]; assumption.
Qed.

Lemma simple_path_route (m : Maze) (a b : Point) (l : list Point) :
  simple_path (walkable m) a b l -> route m a b l.
Proof.
  intros (H1 & H2 & H3 & _ & H5). repeat split; try assumption.
  - eapply Forall_impl; [exact H5|]. intros p [Hp _]. exact Hp.
  - destruct l as [|x l]; [constructor|]. cbn [tail].
    inversion H5; subst. eapply Forall_impl; [eassumption|]. intros p [_ Hp]. exact Hp.
Qed.

Section Perfect.
Context `{RandSource}.

(** C2, as the code has it: a maze constructed without a den and generated
    without error has every cell with two odd coordinates carved, every
    carved cell reachable from the start, and exactly one simple path
    between any two carved cells; the carved cells lie strictly inside the
    border and none of them has two even coordinates (so the cells at even
    coordinates inside the border remain walls and are not reachable).
    Such a call returns, without error, given a valid supplied start, or no
    start and a maze at least three cells wide and high, and two units of
    fuel per cell, plus three. *)
Theorem generated_maze_spanning_tree (fuel : nat) (seed : Z)
  (s userDoor : option Point) (side : string) (bias : float64) (m : Maze) :
  constructed m -> denWidth m = 0 -> denHeight m = 0 ->
  Z.of_nat (cells m) < int_max ->
  (forall m', Generate fuel seed s userDoor side bias m = Ok (m', None) ->
     (forall p, inb m' p -> odd_cell p -> walkable m' p) /\
     (forall p, walkable m' p -> reachable m' (start m') p) /\
     tree (walkable m') /\
     (forall p, walkable m' p ->
        interior m' p /\ ~ (Z.Even (X p) /\ Z.Even (Y p)))) /\
  (match s with
   | Some p => ~ start_invalid m p
   | None => 3 <= width m /\ 3 <= height m
   end ->
   (2 * cells m + 2 < fuel)%nat ->
   exists m', Generate fuel seed s userDoor side bias m = Ok (m', None)).
Proof.
  intros Hcon Hdw Hdh Hcells.
  pose proof (constructed_wf m Hcon) as Hwf.
  destruct (constructed_fresh m Hcon) as (_ & Hw & Hh & Ow & Oh & _).
  split.
  - intros m' HG.
    destruct (Generate_Ok _ _ _ _ _ _ _ _ _ HG)
      as [(p & err & _ & [=] & _)
         |(gs & r1 & m1 & r2 & m2 & err & Hs & Hdfs & Hcd & Hrest)].
    destruct (generation_start_facts fuel seed s m gs r1 Hwf Hs) as (Hgi & Ox & Oy & _).
    pose proof (odd_spec_cell gs Ox Oy) as Hgo.
    destruct (runDFS_tree fuel r1 gs bias m m1 r2 Hcon Hdw Hgi Hgo Hdfs)
      as (Hwf1 & Hre1 & Hci & Hgs1 & Hall).
    pose proof (regrid_shape _ _ Hre1) as Hsh1.
    rewrite connectDen_no_den in Hcd
      by (destruct Hsh1 as (_ & _ & -> & _); exact Hdw).
    injection Hcd as <- <-. destruct Hrest as [_ Hplace].
    assert (Hcells1 : Z.of_nat (cells m1) < int_max).
    { unfold cells. destruct Hsh1 as (-> & -> & _). exact Hcells. }
    destruct (placeStartAndEnd_walkable _ _ _ _ _ Hwf1 Hcells1 Hgs1 Hplace)
      as (Hsw & Hew & Fw).
    destruct (placeStartAndEnd_Ok _ _ _ _ _ Hplace)
      as (_ & _ & _ & _ & _ & _ & _ & _ & _ & _ & _ & _ & Hsh').
    assert (Htree : tree (walkable m')).
    { eapply tree_ext; [|apply (ci_tree _ Hci)]. intros q. symmetry. apply Fw. }
    split; [|split; [|split]].
    + intros p Hp Hpo. apply Fw. apply Hall; [|exact Hpo].
      apply (inb_shape m1 m' _ Hsh') in Hp.
      apply (inb_shape m m1 _ Hsh1) in Hp.
      apply (interior_shape m m1 _ Hsh1).
      destruct Hp as [Hx Hy]. destruct Hpo as [Opx Opy].
      apply Z.odd_spec in Ow, Oh. unfold interior. parity. lia.
    + intros p Hp.
      destruct (Htree (start m') p) as (l & Hl & _); [apply Fw; exact Hsw|exact Hp|].
      exists l. apply simple_path_route. exact Hl.
    + exact Htree.
    + intros p Hp. apply Fw in Hp. split.
      * apply (interior_shape m1 m' _ Hsh'). apply (ci_interior _ Hci). exact Hp.
      * intros [Ex Ey]. eapply ci_not_even; eauto.
  - intros Hstart Hf. unfold Generate.
    assert (Hchosen : exists gs r1,
      match s with
      | Some p =>
          if start_rejected m p then inr ErrInvalidStart
          else if IsInsideDen m p then inr ErrStartInsideDen
          else inl (Ok (p, NewSource seed))
      | None => inl (random_start fuel (NewSource seed) m)
      end = inl (Ok (gs, r1)) /\ interior m gs).
    { destruct s as [p|].
      - assert (Hr : start_rejected m p = false /\ IsInsideDen m p = false).
        { destruct (start_rejected m p) eqn:E1, (IsInsideDen m p) eqn:E2; auto;
            exfalso; apply Hstart;
            apply (start_rejected_spec m p (maze_wf_border m Hwf)); auto. }
        destruct Hr as [Hr Hd]. rewrite Hr, Hd.
        exists p, (NewSource seed). split; [reflexivity|].
        apply (start_rejected_false m p (maze_wf_border m Hwf) Hr).
      - destruct fuel as [|fuel]; [lia|].
        destruct (random_start_den_free fuel (NewSource seed) m Hwf Hdw)
          as (gs & r1 & Hrs); [lia..|].
        rewrite Hrs. exists gs, r1. split; [reflexivity|].
        eapply random_start_Ok; eauto. }
    destruct Hchosen as (gs & r1 & -> & Hgi). rsimpl.
    pose proof (runDFS_spec fuel r1 gs bias m Hwf Hgi) as Hr.
    destruct (runDFS fuel r1 gs bias m) as [[m1 r2]| |]; [|contradiction|lia].
    destruct Hr as (Hwf1 & Hre1 & _). rsimpl.
    pose proof (regrid_shape _ _ Hre1) as Hsh1.
    rewrite connectDen_no_den by (destruct Hsh1 as (_ & _ & -> & _); exact Hdw).
    rsimpl.
    assert (Ecells : cells m1 = cells m).
    { unfold cells. destruct Hsh1 as (-> & -> & _). reflexivity. }
    destruct (placeStartAndEnd_total fuel gs
                (match s with Some _ => true | None => false end) m1)
      as [m' Hm']; try assumption.
    + rewrite Ecells. exact Hcells.
    + rewrite Ecells. lia.
    + apply (interior_shape m m1 gs Hsh1). exact Hgi.
    + rewrite Hm'. rsimpl. eauto.
Qed.
End Perfect.

(** ** The den connection step returns *)

Lemma carve_inv_length (m : Maze) (s : Point) (st : carve_state) :
  carve_inv m s st -> (length (cqueue st) <= S (cells m))%nat.
Proof.
  intros Hi. pose proof (cv_nodup _ _ _ Hi) as Hnd.
  destruct (cqueue st) as [|a l] eqn:Hq; [cbn; lia|].
  apply NoDup_cons in Hnd as [_ Hnd]. cbn [length].
  apply le_n_S. apply inb_nodup_length; [exact Hnd|].
  intros p Hp. apply list_elem_of_lookup_1 in Hp as [i Hp].
  destruct (cv_level _ _ _ Hi (S i) p ltac:(lia)) as (Hin & _).
  - rewrite Hq. exact Hp.
  - apply interior_inb. exact Hin.
Qed.

Lemma carve_inv_interior (m : Maze) (s : Point) (st : carve_state) (j : nat)
  (q : Point) :
  carve_inv m s st -> interior m s -> cqueue st !! j = Some q -> interior m q.
Proof.
  intros Hi Hs Hq. destruct j as [|j].
  - rewrite (cv_start _ _ _ Hi) in Hq. injection Hq as <-. exact Hs.
  - destruct (cv_level _ _ _ Hi (S j) q ltac:(lia) Hq) as (Hin & _). exact Hin.
Qed.

Lemma carve_explore_spec (m : Maze) (s cur : Point) (c : nat) (dirs : list Point) :
  maze_wf m ->
  forall st, carve_inv m s st -> cqueue st !! c = Some cur ->
  exists st' target, carve_explore m cur dirs st = Ok (st', target) /\
    carve_inv m s st' /\ (exists suf, cqueue st' = cqueue st ++ suf) /\
    forall t, target = Some t ->
      exists j q, cqueue st' !! j = Some q /\ cparent st' !! t = Some q.
Proof.
  intros Hwf. destruct (maze_wf_border m Hwf) as [Hbw Hbh].
  induction dirs as [|dir dirs IH]; intros st Hi Hcur; cbn [carve_explore].
  - exists st, None. split; [reflexivity|]. split; [exact Hi|].
    split; [exists []; symmetry; apply app_nil_r|discriminate].
  - remember (move cur dir) as next eqn:Hnext.
    rewrite !sub64_pred by assumption.
    destruct (orb _ _) eqn:Eb; [apply IH; assumption|].
    apply orb_false_iff in Eb as [[[E1 E2]%orb_false_iff E3]%orb_false_iff E4].
    apply Z.leb_gt in E1, E2, E3, E4.
    assert (Hin : interior m next) by (unfold interior; lia).
    destruct (maze_wf_cell m next Hwf (interior_inb _ _ Hin)) as [cell Hcell].
    rewrite Hcell. rsimpl.
    pose proof (lookup_lt_Some _ _ _ Hcur) as Hclt.
    destruct (Z.eqb_spec cell Path) as [->|Hnp].
    { eexists _, (Some next). split; [reflexivity|]. split; [|split].
      - constructor; cbn [cqueue cvisited cparent].
        + apply (cv_start _ _ _ Hi).
        + apply (cv_nodup _ _ _ Hi).
        + apply (cv_keys _ _ _ Hi).
        + intros i p Hpos Hp.
          destruct (cv_level _ _ _ Hi i p Hpos Hp) as (Hpi & Hpw & j & q & Hj & Hq & Hpar).
          split; [exact Hpi|]. split; [exact Hpw|].
          exists j, q. split; [exact Hj|]. split; [exact Hq|].
          rewrite lookup_insert_ne; [exact Hpar|].
          intros <-. rewrite Hcell in Hpw. discriminate.
      - exists []. cbn [cqueue]. symmetry. apply app_nil_r.
      - intros t [= <-]. exists c, cur. cbn [cqueue cparent].
        split; [exact Hcur|apply lookup_insert_eq]. }
    destruct (Z.eqb_spec cell Wall) as [->|Hnw]; [|apply IH; assumption].
    destruct (cvisited st !! next) as [b|] eqn:Hv; [apply IH; assumption|].
    assert (Hfresh : next ∉ cqueue st).
    { intros Hq. apply (cv_keys _ _ _ Hi) in Hq as [x Hx]. congruence. }
    destruct (IH (mkCarve (cqueue st ++ [next]) (<[next := true]> (cvisited st))
                    (<[next := cur]> (cparent st))))
      as (st' & target & Hrun & Hi' & [suf Hsuf] & Ht).
    { constructor; cbn [cqueue cvisited cparent].
      - rewrite lookup_app_l; [apply (cv_start _ _ _ Hi)|lia].
      - apply NoDup_app. split; [apply (cv_nodup _ _ _ Hi)|]. split.
        + intros x Hx ->%list_elem_of_singleton. contradiction.
        + apply NoDup_singleton.
      - intros p. rewrite elem_of_app, list_elem_of_singleton.
        destruct (decide (p = next)) as [->|Hne].
        + rewrite lookup_insert_eq. split; [auto|eauto].
        + rewrite lookup_insert_ne by congruence.
          rewrite (cv_keys _ _ _ Hi p). tauto.
      - intros i p Hpos [[Hlt Hp]|[-> <-]]%lookup_snoc_Some.
        + destruct (cv_level _ _ _ Hi i p Hpos Hp) as (Hpi & Hpw & j & q & Hj & Hq & Hpar).
          split; [exact Hpi|]. split; [exact Hpw|].
          exists j, q. split; [exact Hj|]. split.
          { rewrite lookup_app_l; [exact Hq|lia]. }
          rewrite lookup_insert_ne; [exact Hpar|].
          intros <-. apply Hfresh. eapply list_elem_of_lookup_2; eauto.
        + split; [exact Hin|]. split; [exact Hcell|].
          exists c, cur. split; [exact Hclt|]. split.
          { rewrite lookup_app_l; [exact Hcur|exact Hclt]. }
          apply lookup_insert_eq. }
    { cbn [cqueue]. rewrite lookup_app_l; [exact Hcur|exact Hclt]. }
    exists st', target. split; [exact Hrun|]. split; [exact Hi'|].
    split; [|exact Ht]. exists ([next] ++ suf). rewrite Hsuf. cbn [cqueue].
    rewrite app_assoc. reflexivity.
Qed.

Lemma carve_search_spec (m : Maze) (s : Point) (fuel : nat) :
  maze_wf m ->
  forall head st, carve_inv m s st -> (head <= length (cqueue st))%nat ->
  match carve_search fuel m head st with
  | Ok (st', target) =>
      carve_inv m s st' /\
      forall t, target = Some t ->
        exists j q, cqueue st' !! j = Some q /\ cparent st' !! t = Some q
  | Panic => False
  | OutOfFuel => (fuel + head <= S (cells m))%nat
  end.
Proof.
  intros Hwf. induction fuel as [|fuel IH]; intros head st Hi Hhead;
    cbn [carve_search].
  - pose proof (carve_inv_length m s st Hi). lia.
  - destruct (cqueue st !! head) as [cur|] eqn:Hcur.
    2: { split; [exact Hi|discriminate]. }
    destruct (carve_explore_spec m s cur head directions Hwf st Hi Hcur)
      as (st' & target & -> & Hi' & [suf Hsuf] & Ht). rsimpl.
    destruct target as [t|]; [split; [exact Hi'|exact Ht]|].
    pose proof (lookup_lt_Some _ _ _ Hcur) as Hlt.
    specialize (IH (S head) st' Hi').
    assert (Hh' : (S head <= length (cqueue st'))%nat).
    { rewrite Hsuf, length_app. lia. }
    specialize (IH Hh').
    destruct (carve_search fuel m (S head) st') as [[st'' target]| |];
      [exact IH|exact IH|lia].
Qed.

Lemma carve_back_total (m0 : Maze) (s : Point) (st : carve_state) :
  carve_inv m0 s st -> interior m0 s ->
  forall i p m fuel, cqueue st !! i = Some p -> maze_wf m -> same_shape m0 m ->
    (i < fuel)%nat ->
    exists m', carve_back fuel (cparent st) s p m = Ok m'.
Proof.
  intros Hi Hs i. induction (lt_wf i) as [i _ IH]. intros p m fuel Hp Hwf Hsh Hf.
  destruct fuel as [|fuel]; [lia|]. cbn [carve_back].
  destruct (decide (p = s)) as [->|Hne]; [eauto|].
  destruct i as [|i].
  { rewrite (cv_start _ _ _ Hi) in Hp. congruence. }
  destruct (cv_level _ _ _ Hi (S i) p ltac:(lia) Hp)
    as (_ & _ & j & q & Hj & Hq & Hpar).
  rewrite (lookup_total_correct _ _ _ Hpar).
  assert (Hqin : inb m q).
  { apply (inb_shape m0 m q Hsh). apply interior_inb.
    eapply carve_inv_interior; eauto. }
  destruct (set_cell_total m q Path Hwf Hqin) as [m1 Hm1]. rewrite Hm1. rsimpl.
  destruct (set_cell_Ok _ _ _ _ Hm1) as (Hre & _ & _ & Hwf1).
  apply (IH j Hj q m1 fuel Hq).
  - apply Hwf1. exact Hwf.
  - eapply same_shape_trans; [exact Hsh|apply regrid_shape; exact Hre].
  - lia.
Qed.

Lemma carvePathToNearest_total (fuel : nat) (s : Point) (m : Maze) :
  maze_wf m -> interior m s -> (S (cells m) < fuel)%nat ->
  exists m' err, carvePathToNearest fuel s m = Ok (m', err).
Proof.
  intros Hwf Hs Hf. unfold carvePathToNearest.
  assert (Hi0 : carve_inv m s (mkCarve [s] {[s := true]} ∅)).
  { constructor; cbn [cqueue cvisited cparent].
    - reflexivity.
    - apply NoDup_singleton.
    - intros p. rewrite list_elem_of_singleton. split.
      + intros [x Hx]. apply lookup_singleton_Some in Hx as [<- _]. reflexivity.
      + intros ->. rewrite lookup_singleton_eq. eauto.
    - intros i p Hpos Hp. destruct i as [|i]; [lia|]. discriminate. }
  pose proof (carve_search_spec m s fuel Hwf 0%nat _ Hi0 ltac:(cbn; lia)) as Hsp.
  destruct (carve_search fuel m 0 (mkCarve [s] {[s := true]} ∅))
    as [[st target]| |]; [|contradiction|lia].
  destruct Hsp as [Hi Ht]. rsimpl.
  destruct target as [t|]; [|eauto].
  destruct (Ht t eq_refl) as (j & q & Hq & Hpar).
  assert (Hback : exists m', carve_back fuel (cparent st) s t m = Ok m').
  { destruct fuel as [|fuel]; [lia|]. cbn [carve_back].
    destruct (decide (t = s)); [eauto|].
    rewrite (lookup_total_correct _ _ _ Hpar).
    assert (Hqin : inb m q).
    { apply interior_inb. eapply carve_inv_interior; eauto. }
    destruct (set_cell_total m q Path Hwf Hqin) as [m1 Hm1]. rewrite Hm1. rsimpl.
    destruct (set_cell_Ok _ _ _ _ Hm1) as (Hre & _ & _ & Hwf1).
    apply (carve_back_total m s st Hi Hs j q m1 fuel Hq).
    - apply Hwf1. exact Hwf.
    - apply regrid_shape. exact Hre.
    - pose proof (lookup_lt_Some _ _ _ Hq).
      pose proof (carve_inv_length m s st Hi). lia. }
  destruct Hback as [m' ->]. rsimpl. eauto.
Qed.

Lemma open_door_total (m : Maze) (d : Point) :
  maze_wf m -> inb m d -> exists m', open_door m d = Ok m'.
Proof.
  intros Hwf Hd. unfold open_door.
  destruct (set_cell_total m d Path Hwf Hd) as [m1 ->]. rsimpl. eauto.
Qed.

Section DoorTotal.
Context `{RandSource}.

Lemma connectDenAtSide_total (fuel : nat) (side : string) (m : Maze) :
  maze_wf m -> (S (cells m) < fuel)%nat ->
  exists m' err, connectDenAtSide fuel side m = Ok (m', err).
Proof.
  intros Hwf Hf. unfold connectDenAtSide.
  destruct (side_door m side) as [[d nb]|]; [|eauto].
  pose proof (inside_border_spec m d (maze_wf_border m Hwf)) as Hd.
  pose proof (inside_border_spec m nb (maze_wf_border m Hwf)) as Hn.
  destruct (inside_border m d); cbn [negb orb]; [|eauto].
  destruct (inside_border m nb); cbn [negb orb]; [|eauto].
  assert (Hdi : interior m d) by (apply Hd; reflexivity).
  assert (Hni : interior m nb) by (apply Hn; reflexivity).
  destruct (maze_wf_cell m nb Hwf (interior_inb _ _ Hni)) as [cell ->]. rsimpl.
  destruct (cell =? Path).
  - destruct (open_door_total m d Hwf (interior_inb _ _ Hdi)) as [m' ->].
    rsimpl. eauto.
  - destruct (carvePathToNearest_total fuel nb m Hwf Hni Hf) as (m1 & e1 & Hc).
    rewrite Hc. rsimpl.
    destruct (carvePathToNearest_Ok _ _ _ _ _ Hc) as (Hsh & _ & _ & _ & Hwf1).
    destruct e1 as [e1|]; [eauto|].
    destruct (open_door_total m1 d (Hwf1 Hwf)) as [m' ->].
    + apply (inb_shape m m1 d Hsh). apply interior_inb. exact Hdi.
    + rsimpl. eauto.
Qed.

Lemma connectDenAtPoint_total (d : Point) (m : Maze) :
  maze_wf m -> exists m' err, connectDenAtPoint d m = Ok (m', err).
Proof.
  intros Hwf. unfold connectDenAtPoint.
  pose proof (inside_border_spec m d (maze_wf_border m Hwf)) as Hd.
  destruct (inside_border m d); cbn [negb]; [|eauto].
  assert (Hdi : interior m d) by (apply Hd; reflexivity).
  destruct (maze_wf_cell m d Hwf (interior_inb _ _ Hdi)) as [cell ->]. rsimpl.
  destruct (negb (cell =? Wall)); [eauto|].
  pose proof Hwf as (Hdims & Hw & Hh).
  assert (Hx1 : sub64 (X d) 1 = X d - 1).
  { unfold sub64. apply wrap_id. unfold interior, is_int, int_min, int_max in *. lia. }
  assert (Hx2 : add64 (X d) 1 = X d + 1).
  { unfold add64. apply wrap_id. unfold interior, is_int, int_min, int_max in *. lia. }
  assert (Hy1 : sub64 (Y d) 1 = Y d - 1).
  { unfold sub64. apply wrap_id. unfold interior, is_int, int_min, int_max in *. lia. }
  assert (Hy2 : add64 (Y d) 1 = Y d + 1).
  { unfold add64. apply wrap_id. unfold interior, is_int, int_min, int_max in *. lia. }
  rewrite Hx1, Hx2, Hy1, Hy2.
  destruct (separates_spec m (mkPoint (X d - 1) (Y d)) (mkPoint (X d + 1) (Y d)) Hwf)
    as (h & -> & _); try (unfold inb, interior in *; cbn [X Y]; lia). rsimpl.
  destruct h.
  { destruct (open_door_total m d Hwf (interior_inb _ _ Hdi)) as [m' ->].
    rsimpl. eauto. }
  destruct (separates_spec m (mkPoint (X d) (Y d - 1)) (mkPoint (X d) (Y d + 1)) Hwf)
    as (v & -> & _); try (unfold inb, interior in *; cbn [X Y]; lia). rsimpl.
  destruct v; [|eauto].
  destruct (open_door_total m d Hwf (interior_inb _ _ Hdi)) as [m' ->].
  rsimpl. eauto.
Qed.

Lemma connectDen_total (fuel : nat) (r : Rand) (userDoor : option Point)
  (side : string) (m : Maze) :
  maze_wf m -> (S (cells m) < fuel)%nat ->
  exists m' err, connectDen fuel r userDoor side m = Ok (m', err).
Proof.
  intros Hwf Hf. unfold connectDen.
  destruct (orb _ _); [eauto|].
  destruct (negb (String.eqb side EmptyString)).
  { apply connectDenAtSide_total; assumption. }
  destruct userDoor as [d|].
  { apply connectDenAtPoint_total; assumption. }
  destruct (connectRandomDenDoor_spec r m Hwf) as (m' & Hm' & _). eauto.
Qed.

(** With a valid supplied start and two units of fuel per cell, plus three,
    [Generate] returns: with no error, or with the error of the den
    connection step. *)
Lemma Generate_supplied_total (fuel : nat) (seed : Z) (p : Point)
  (userDoor : option Point) (side : string) (bias : float64) (m : Maze) :
  maze_wf m -> Z.of_nat (cells m) < int_max -> ~ start_invalid m p ->
  (2 * cells m + 2 < fuel)%nat ->
  exists m' err, Generate fuel seed (Some p) userDoor side bias m = Ok (m', err).
Proof.
  intros Hwf Hcells Hv Hf. unfold Generate.
  assert (Hr : start_rejected m p = false /\ IsInsideDen m p = false).
  { destruct (start_rejected m p) eqn:E1, (IsInsideDen m p) eqn:E2; auto;
      exfalso; apply Hv;
      apply (start_rejected_spec m p (maze_wf_border m Hwf)); auto. }
  destruct Hr as [Hr Hd]. rewrite Hr, Hd. rsimpl.
  destruct (start_rejected_false m p (maze_wf_border m Hwf) Hr) as (Hgi & _).
  pose proof (runDFS_spec fuel (NewSource seed) p bias m Hwf Hgi) as Hrun.
  destruct (runDFS fuel (NewSource seed) p bias m) as [[m1 r2]| |];
    [|contradiction|lia].
  destruct Hrun as (Hwf1 & Hre1 & _). rsimpl.
  pose proof (regrid_shape _ _ Hre1) as Hsh1.
  assert (Ecells1 : cells m1 = cells m).
  { unfold cells. destruct Hsh1 as (-> & -> & _). reflexivity. }
  destruct (connectDen_total fuel r2 userDoor side m1 Hwf1) as (m2 & err & Hcd).
  { rewrite Ecells1. lia. }
  rewrite Hcd. rsimpl.
  destruct (connectDen_Ok _ _ _ _ _ _ _ Hcd) as [(Hsh2 & _ & _ & _ & Hwf2) _].
  destruct err as [e|]; [eauto|].
  assert (Hsh02 : same_shape m m2) by (eapply same_shape_trans; eauto).
  assert (Ecells : cells m2 = cells m).
  { unfold cells. destruct Hsh02 as (-> & -> & _). reflexivity. }
  destruct (placeStartAndEnd_total fuel p true m2) as [m' Hm'].
  - apply Hwf2. exact Hwf1.
  - rewrite Ecells. exact Hcells.
  - rewrite Ecells. lia.
  - apply (interior_shape m m2 p Hsh02). exact Hgi.
  - rewrite Hm'. rsimpl. eauto.
Qed.
End DoorTotal.

(** ** A supplied start point (C6) *)

Section SuppliedStart.
Context `{RandSource}.

Lemma error_kinds_disjoint (e : error) : start_error e -> door_error e -> False.
Proof.
  unfold start_error, door_error.
  intros [->| ->] [?|[?|[?|[?|?]]]]; discriminate.
Qed.

(** C6, as the code has it: with a supplied start point, [Generate]
    returns a start validation error exactly when a coordinate of the point
    is even, or the point is not strictly inside the outer border, or it
    lies inside the den, and the maze is then untouched; otherwise the only
    errors are those of the den connection step, which leave the start
    field as it was, and a call that returns without error has made that
    exact point the start of the maze.  With a valid point and two units of
    fuel per cell, plus three, the call returns, in one of these two ways. *)
Theorem Generate_start_validation (fuel : nat) (seed : Z) (p : Point)
  (userDoor : option Point) (side : string) (bias : float64) (m : Maze) :
  maze_wf m ->
  ((exists m' e, Generate fuel seed (Some p) userDoor side bias m = Ok (m', Some e) /\
                 start_error e) <-> start_invalid m p) /\
  (start_invalid m p ->
     exists e, Generate fuel seed (Some p) userDoor side bias m = Ok (m, Some e) /\
               start_error e) /\
  (forall m' e, Generate fuel seed (Some p) userDoor side bias m = Ok (m', Some e) ->
     ~ start_invalid m p -> door_error e /\ start m' = start m) /\
  (forall m', Generate fuel seed (Some p) userDoor side bias m = Ok (m', None) ->
     ~ start_invalid m p /\ start m' = p) /\
  (~ start_invalid m p -> Z.of_nat (cells m) < int_max ->
   (2 * cells m + 2 < fuel)%nat ->
   exists m' err, Generate fuel seed (Some p) userDoor side bias m = Ok (m', err) /\
     match err with
     | Some e => door_error e /\ start m' = start m
     | None => start m' = p
     end).
Proof.
  intros Hwf. pose proof (maze_wf_border m Hwf) as Hb.
  assert (Hinv : start_invalid m p ->
    exists e, Generate fuel seed (Some p) userDoor side bias m = Ok (m, Some e) /\
              start_error e).
  { intros Hi. apply start_rejected_spec in Hi; [|exact Hb].
    unfold Generate, start_error. destruct (start_rejected m p) eqn:Er.
    - exists ErrInvalidStart. auto.
    - destruct Hi as [Hi|Hi]; [discriminate|]. rewrite Hi.
      exists ErrStartInsideDen. auto. }
  assert (Hlater : forall m' e,
    Generate fuel seed (Some p) userDoor side bias m = Ok (m', e) ->
    ~ start_invalid m p ->
    match e with
    | Some de => door_error de /\ start m' = start m
    | None => start m' = p
    end).
  { intros m' e HG Hv.
    destruct (Generate_Ok _ _ _ _ _ _ _ _ _ HG)
      as [(p' & err & [= <-] & _ & _ & _ & Hrej)
         |(gs & r1 & m1 & r2 & m2 & err & (-> & Hr & Hd & _) & Hdfs & Hcd & Hrest)].
    { exfalso. apply Hv. apply start_rejected_spec; assumption. }
    destruct (start_rejected_false m gs Hb Hr) as (Hgi & _).
    pose proof (runDFS_spec fuel r1 gs bias m Hwf Hgi) as Hrun. rewrite Hdfs in Hrun.
    destruct Hrun as (_ & Hre1 & _).
    destruct (regrid_points _ _ Hre1) as (Es1 & _).
    destruct (connectDen_Ok _ _ _ _ _ _ _ Hcd) as [(_ & Es2 & _) Herr].
    destruct err as [de|].
    - destruct Hrest as [-> ->]. split; [apply Herr; reflexivity|congruence].
    - destruct Hrest as [-> Hplace].
      destruct (placeStartAndEnd_Ok _ _ _ _ _ Hplace)
        as (ps & pe & ds & de & m3 & [-> _] & _ & _ & _ & Es & _).
      exact Es. }
  split; [|split; [exact Hinv|split; [|split]]].
  - split.
    + intros (m' & e & HG & He).
      destruct (start_rejected_spec m p Hb) as [Hto _].
      destruct (Generate_Ok _ _ _ _ _ _ _ _ _ HG)
        as [(p' & err & [= <-] & _ & _ & _ & Hrej)
           |(gs & r1 & m1 & r2 & m2 & err & _ & _ & Hcd & Hrest)].
      { apply Hto. exact Hrej. }
      destruct (connectDen_Ok _ _ _ _ _ _ _ Hcd) as [_ Herr].
      destruct err as [de|]; [|destruct Hrest as [[=] _]].
      destruct Hrest as [[= ->] _]. exfalso.
      eapply error_kinds_disjoint; [exact He|]. apply Herr. reflexivity.
    + intros Hi. destruct (Hinv Hi) as (e & HG & He). eauto.
  - intros m' e HG Hv. apply (Hlater m' (Some e) HG Hv).
  - intros m' HG.
    assert (Hv : ~ start_invalid m p).
    { intros Hi. destruct (Hinv Hi) as (e & HG' & _). congruence. }
    split; [exact Hv|]. apply (Hlater m' None HG Hv).
  - intros Hv Hcells Hf.
    destruct (Generate_supplied_total fuel seed p userDoor side bias m
                Hwf Hcells Hv Hf) as (m' & err & HG).
    exists m', err. split; [exact HG|]. apply (Hlater m' err HG Hv).
Qed.
End SuppliedStart.

(** ** Examples, witnesses and counterexamples *)

Lemma small_is_int (z : Z) : -1000 <= z <= 1000 -> is_int z.
Proof. unfold is_int, int_min, int_max. lia. Qed.

Lemma plain_maze_5_constructed : constructed plain_maze_5.
Proof.
  exists 5, 5, 0, 0. repeat split; try (apply small_is_int; lia).
Qed.

Lemma den_maze_7_constructed : constructed den_maze_7.
Proof.
  exists 7, 7, 3, 3. repeat split; try (apply small_is_int; lia).
Qed.

Lemma den_maze_9_constructed : constructed den_maze_9.
Proof.
  exists 8, 8, 2, 2. repeat split; try (apply small_is_int; lia).
Qed.

Example generated_5_ok :
  Generate (H := lcg_rand) 200 42 None None EmptyString half plain_maze_5
  = Ok (generated_5, None).
Proof. vm_compute. reflexivity. Qed.

Example door_failure_7_ok :
  Generate (H := lcg_rand) 400 42 (Some (mkPoint 5 5)) None "top" half den_maze_7
  = Ok (door_failure_7, Some ErrDoorTooClose).
Proof. vm_compute. reflexivity. Qed.

(** A failed door specification leaves the grid carved. *)
Example door_failure_carves : grid door_failure_7 <> grid den_maze_7.
Proof. vm_compute. discriminate. Qed.

(** The claim of C2 as written fails: the cell (2, 2) of a generated
    five-by-five maze lies strictly inside the border and cannot be reached
    from the start. *)
Lemma interior_wall_unreachable :
  constructed plain_maze_5 /\ denWidth plain_maze_5 = 0 /\ denHeight plain_maze_5 = 0 /\
  Generate (H := lcg_rand) 200 42 None None EmptyString half plain_maze_5
  = Ok (generated_5, None) /\
  interior generated_5 (mkPoint 2 2) /\
  ~ reachable generated_5 (start generated_5) (mkPoint 2 2).
Proof.
  split; [apply plain_maze_5_constructed|]. split; [reflexivity|].
  split; [reflexivity|]. split; [apply generated_5_ok|]. split.
  - split; cbn; lia.
  - intros [l Hr].
    destruct (route_snoc_inv _ _ _ _ Hr) as [[_ E]|(l' & b' & _ & _ & _ & _ & (c & Hc & Hne))].
    + vm_compute in E. discriminate.
    + vm_compute in Hc. injection Hc as <-. apply Hne. reflexivity.
Qed.

Lemma generated_maze_spanning_tree_witness :
  (forall p, inb generated_5 p -> odd_cell p -> walkable generated_5 p) /\
  (forall p, walkable generated_5 p -> reachable generated_5 (start generated_5) p) /\
  tree (walkable generated_5) /\
  (forall p, walkable generated_5 p ->
     interior generated_5 p /\ ~ (Z.Even (X p) /\ Z.Even (Y p))) /\
  exists m', Generate (H := lcg_rand) 200 42 None None EmptyString half plain_maze_5
             = Ok (m', None).
Proof.
  destruct (generated_maze_spanning_tree (H := lcg_rand) 200 42 None None EmptyString
              half plain_maze_5) as [Hgen Htotal].
  - apply plain_maze_5_constructed.
  - reflexivity.
  - reflexivity.
  - vm_compute. reflexivity.
  - destruct (Hgen generated_5 generated_5_ok) as (A & B & C & D).
    split; [exact A|]. split; [exact B|]. split; [exact C|]. split; [exact D|].
    apply Htotal; [cbn; lia|vm_compute; lia].
Defined.

(** The claim of C5 as written fails for a reference point inside the den
    from which no cell outside is reached: the point returned is inside the
    den. *)
Lemma farthest_point_inside_den :
  has_den den_maze_7 /\ maze_wf den_maze_7 /\
  findFarthestPoint 100 den_maze_7 (mkPoint 2 2) = Ok (mkPoint 2 2, 0) /\
  IsInsideDen den_maze_7 (mkPoint 2 2) = true.
Proof.
  split; [split; reflexivity|]. split; [apply constructed_wf, den_maze_7_constructed|].
  split; vm_compute; reflexivity.
Qed.

(** The claim of C6 as written fails when the den connection step fails: the
    start point is valid, an error is returned, and the start is not set. *)
Lemma valid_start_door_failure :
  maze_wf den_maze_7 /\ ~ start_invalid den_maze_7 (mkPoint 5 5) /\
  Generate (H := lcg_rand) 400 42 (Some (mkPoint 5 5)) None "top" half den_maze_7
  = Ok (door_failure_7, Some ErrDoorTooClose) /\
  start door_failure_7 <> mkPoint 5 5.
Proof.
  split; [apply constructed_wf, den_maze_7_constructed|]. split; [|split].
  - intros [E|[E|[E|E]]]; try (vm_compute in E; discriminate).
    apply E. cbn. lia.
  - apply door_failure_7_ok.
  - vm_compute. discriminate.
Qed.

Lemma Generate_start_validation_witness :
  ((exists m' e, Generate (H := lcg_rand) 400 42 (Some (mkPoint 5 5)) None EmptyString half den_maze_7
                 = Ok (m', Some e) /\ start_error e)
   <-> start_invalid den_maze_7 (mkPoint 5 5)) /\
  (forall m' e, Generate (H := lcg_rand) 400 42 (Some (mkPoint 5 5)) None EmptyString half den_maze_7
                = Ok (m', Some e) ->
     door_error e /\ start m' = start den_maze_7) /\
  (forall m', Generate (H := lcg_rand) 400 42 (Some (mkPoint 5 5)) None EmptyString half den_maze_7
              = Ok (m', None) ->
     start m' = mkPoint 5 5) /\
  (exists m' err,
     Generate (H := lcg_rand) 400 42 (Some (mkPoint 5 5)) None EmptyString half den_maze_7
     = Ok (m', err) /\
     match err with
     | Some e => door_error e /\ start m' = start den_maze_7
     | None => start m' = mkPoint 5 5
     end).
Proof.
  assert (Hv : ~ start_invalid den_maze_7 (mkPoint 5 5)).
  { intros [E|[E|[E|E]]]; try (vm_compute in E; discriminate).
    apply E. cbn. lia. }
  destruct (Generate_start_validation (H := lcg_rand) 400 42 (mkPoint 5 5) None
              EmptyString half den_maze_7) as (Hiff & _ & Herr & Hok & Htotal).
  - apply constructed_wf, den_maze_7_constructed.
  - split; [exact Hiff|]. split; [|split].
    + intros m' e HG. apply (Herr m' e HG Hv).
    + intros m' HG. apply (Hok m' HG).
    + apply Htotal; [exact Hv|vm_compute; reflexivity|vm_compute; lia].
Defined.

Lemma Generate_invalid_start_atomic_witness :
  exists m' e,
    Generate (H := lcg_rand) 400 42 (Some (mkPoint 2 2)) None EmptyString half den_maze_7
    = Ok (m', Some e) /\
    start_error e /\
    grid m' = grid den_maze_7 /\ start m' = start den_maze_7 /\
    end_ m' = end_ den_maze_7 /\ door m' = door den_maze_7.
Proof.
  apply (Generate_invalid_start_atomic (H := lcg_rand) 400 42 (mkPoint 2 2) None EmptyString half
           den_maze_7).
  - apply maze_wf_border, constructed_wf, den_maze_7_constructed.
  - left. reflexivity.
Defined.
(** * Further properties of the package *)

(** ** Construction *)

Lemma adjustToOdd_fixed (z : Z) : z <= 0 -> adjustToOdd z = z.
Proof.
  intros Hz. unfold adjustToOdd.
  destruct (Z.ltb_spec 0 z); [lia|reflexivity].
Qed.

Lemma adjustToOdd_idem (z : Z) :
  is_int z -> adjustToOdd (adjustToOdd z) = adjustToOdd z.
Proof.
  intros Hz. destruct (Z_lt_le_dec 0 z) as [Hp|Hn].
  - destruct (adjustToOdd_pos z Hz Hp) as [_ Hodd].
    unfold adjustToOdd at 1. rewrite rem64_even, <- Z.negb_odd, Hodd.
    rewrite andb_false_r. reflexivity.
  - rewrite !adjustToOdd_fixed; [reflexivity|lia|].
    rewrite adjustToOdd_fixed; lia.
Qed.

Lemma adjustToOdd_sign (z : Z) :
  is_int z ->
  (adjustToOdd z <=? 0) = (z <=? 0) /\ (adjustToOdd z <? 0) = (z <? 0).
Proof.
  intros Hz. destruct (Z_lt_le_dec 0 z) as [Hp|Hn].
  - destruct (adjustToOdd_pos z Hz Hp) as [E _]. rewrite E.
    unfold next_odd. destruct (Z.even z); split;
      repeat match goal with
             | |- context [?a <=? ?b] => destruct (Z.leb_spec a b)
             | |- context [?a <? ?b] => destruct (Z.ltb_spec a b)
             end; try reflexivity; lia.
  - rewrite adjustToOdd_fixed by lia. auto.
Qed.

Lemma adjustToOdd_is_int (z : Z) : is_int z -> is_int (adjustToOdd z).
Proof.
  intros Hz. unfold adjustToOdd. destruct (_ && _); [|exact Hz].
  unfold add64. apply wrap_is_int.
Qed.

(** X1: [New] depends on the requested dimensions only through their
    rounding to odd values: a request and its rounded form build the same
    maze, or fail with the same error. *)
Theorem New_adjusted (w h dw dh : Z) :
  is_int w -> is_int h -> is_int dw -> is_int dh ->
  New (adjustToOdd w) (adjustToOdd h) (adjustToOdd dw) (adjustToOdd dh)
  = New w h dw dh.
Proof.
  intros Hw Hh Hdw Hdh. unfold New.
  assert (E : validateAndAdjustDimensions (adjustToOdd w) (adjustToOdd h)
                (adjustToOdd dw) (adjustToOdd dh)
              = validateAndAdjustDimensions w h dw dh).
  { unfold validateAndAdjustDimensions.
    destruct (adjustToOdd_sign w Hw) as [-> _].
    destruct (adjustToOdd_sign h Hh) as [-> _].
    destruct (adjustToOdd_sign dw Hdw) as [_ ->].
    destruct (adjustToOdd_sign dh Hdh) as [_ ->].
    rewrite !adjustToOdd_idem by assumption. reflexivity. }
  rewrite E. reflexivity.
Qed.

Lemma New_adjusted_witness :
  New (adjustToOdd 40) (adjustToOdd 20) (adjustToOdd 10) (adjustToOdd 6)
  = New 40 20 10 6.
Proof.
  apply (New_adjusted 40 20 10 6); unfold is_int, int_min, int_max; lia.
Defined.

(** X2: a maze returned by [New] has its start, end and door at the zero
    point, and [Cell] reads [Path] on the den, [Wall] on every other cell of
    the rectangle, and the zero value with [false] outside it. *)
Theorem New_cells (w h dw dh : Z) (m : Maze) :
  is_int w -> is_int h -> is_int dw -> is_int dh ->
  New w h dw dh = Ok (inl m) ->
  start m = mkPoint 0 0 /\ end_ m = mkPoint 0 0 /\ door m = mkPoint 0 0 /\
  forall x y,
    Maze_Cell m x y =
    if (0 <=? x) && (x <? width m) && (0 <=? y) && (y <? height m)
    then Ok (if IsInsideDen m (mkPoint x y) then Path else Wall, true)
    else Ok (0, false).
Proof.
  intros Hw Hh Hdw Hdh HN.
  assert (Hc : constructed m) by (exists w, h, dw, dh; auto).
  destruct (constructed_points m Hc) as (Es & Ee & Ed).
  split; [exact Es|]. split; [exact Ee|]. split; [exact Ed|].
  intros x y. unfold Maze_Cell.
  destruct (Z.ltb_spec x 0), (Z.leb_spec (width m) x), (Z.ltb_spec y 0),
    (Z.leb_spec (height m) y), (Z.leb_spec 0 x), (Z.ltb_spec x (width m)),
    (Z.leb_spec 0 y), (Z.ltb_spec y (height m)); try lia; cbn [orb andb];
    try reflexivity.
  pose proof (constructed_cells m (mkPoint x y) Hc) as Hcell.
  unfold cell_at in Hcell. cbn [X Y] in Hcell. rewrite Hcell.
  - reflexivity.
  - split; cbn [X Y]; lia.
Qed.

Lemma New_cells_witness :
  start den_maze_7 = mkPoint 0 0 /\ end_ den_maze_7 = mkPoint 0 0 /\
  door den_maze_7 = mkPoint 0 0 /\
  forall x y,
    Maze_Cell den_maze_7 x y =
    if (0 <=? x) && (x <? width den_maze_7) && (0 <=? y) && (y <? height den_maze_7)
    then Ok (if IsInsideDen den_maze_7 (mkPoint x y) then Path else Wall, true)
    else Ok (0, false).
Proof.
  apply (New_cells 7 7 3 3 den_maze_7); try (unfold is_int, int_min, int_max; lia).
  vm_compute. reflexivity.
Defined.

(** X3: the den of a constructed maze starts on odd coordinates, at most
    one cell left of and above the centred position, and every cell inside
    it lies strictly inside the outer border, at least two cells away from
    the right and bottom edges. *)
Theorem den_position (m : Maze) :
  constructed m -> has_den m ->
  Z.odd (denStartX m) = true /\ Z.odd (denStartY m) = true /\
  (width m - denWidth m) / 2 - 1 <= denStartX m <= (width m - denWidth m) / 2 /\
  (height m - denHeight m) / 2 - 1 <= denStartY m <= (height m - denHeight m) / 2 /\
  forall p, IsInsideDen m p = true <->
    (denStartX m <= X p < denStartX m + denWidth m /\
     denStartY m <= Y p < denStartY m + denHeight m) /\
    0 < X p < width m - 2 /\ 0 < Y p < height m - 2.
Proof.
  intros Hc Hd. pose proof (constructed_den m Hc Hd) as Hal.
  pose proof (constructed_wf m Hc) as Hwf.
  destruct (constructed_fresh m Hc) as (Hf & Hw & Hh & How & Hoh & Hdw & Hdh).
  destruct (fresh_maze_Ok (width m) (height m) (denWidth m) (denHeight m) m)
    as (_ & _ & _ & _ & _ & _ & _ & Hpos & _); [lia|lia|exact Hf|].
  destruct Hd as [Hd1 Hd2].
  assert (Hb : (0 <? denWidth m) && (0 <? denHeight m) = true).
  { apply andb_true_iff. split; apply Z.ltb_lt; assumption. }
  specialize (Hpos Hb). unfold calculateDenPosition in Hpos.
  injection Hpos as Ex Ey.
  destruct Hal as (A1 & A2 & A3 & A4 & A5 & A6 & A7 & A8).
  assert (Haxis : forall a da, 0 < da < a - 2 -> 0 < a <= int_max ->
    let d := div64 (sub64 a da) 2 in
    (a - da) / 2 - 1 <= (if (0 <? d) && (rem64 d 2 =? 0) then sub64 d 1 else d)
      <= (a - da) / 2).
  { intros a da Hda Ha d.
    assert (Es : sub64 a da = a - da).
    { unfold sub64. apply wrap_id. unfold is_int, int_min, int_max in *. lia. }
    assert (Eq : Z.quot (a - da) 2 = (a - da) / 2) by (apply Z.quot_div_nonneg; lia).
    assert (Hq : 0 <= (a - da) / 2 <= a) by (Z.div_mod_to_equations; lia).
    assert (Ed : d = (a - da) / 2).
    { unfold d, div64. rewrite Es, Eq. apply wrap_id.
      unfold is_int, int_min, int_max in *. lia. }
    rewrite Ed.
    match goal with |- context [if ?b then _ else _] => destruct b end; [|lia].
    unfold sub64. rewrite wrap_id; [lia|].
    unfold is_int, int_min, int_max in *. lia. }
  split; [exact A1|]. split; [exact A2|].
  split. { rewrite Ex. apply Haxis; lia. }
  split. { rewrite Ey. apply Haxis; lia. }
  intros p. rewrite (IsInsideDen_spec m p Hwf (conj Hd1 Hd2)
                       (conj A1 (conj A2 (conj A3 (conj A4 (conj A5 (conj A6 (conj A7 A8)))))))).
  split; [intros Hin; split; [exact Hin|lia]|intros [Hin _]; exact Hin].
Qed.

Lemma den_position_witness :
  Z.odd (denStartX den_maze_9) = true /\ Z.odd (denStartY den_maze_9) = true /\
  (width den_maze_9 - denWidth den_maze_9) / 2 - 1 <= denStartX den_maze_9
    <= (width den_maze_9 - denWidth den_maze_9) / 2 /\
  (height den_maze_9 - denHeight den_maze_9) / 2 - 1 <= denStartY den_maze_9
    <= (height den_maze_9 - denHeight den_maze_9) / 2 /\
  forall p, IsInsideDen den_maze_9 p = true <->
    (denStartX den_maze_9 <= X p < denStartX den_maze_9 + denWidth den_maze_9 /\
     denStartY den_maze_9 <= Y p < denStartY den_maze_9 + denHeight den_maze_9) /\
    0 < X p < width den_maze_9 - 2 /\ 0 < Y p < height den_maze_9 - 2.
Proof.
  apply (den_position den_maze_9).
  - apply den_maze_9_constructed.
  - split; reflexivity.
Defined.

(** ** The den helpers *)

Lemma add64_band (a d lo hi : Z) :
  is_int a -> -1 <= d <= 1 -> int_min < lo -> hi <= int_max ->
  (lo <= add64 a d < hi) <-> (lo <= a + d < hi).
Proof.
  intros Ha Hd Hlo Hhi. unfold add64.
  destruct (Z_le_dec int_min (a + d)) as [H1|H1];
    [destruct (Z_le_dec (a + d) int_max) as [H2|H2]|].
  - rewrite wrap_id by (split; assumption). reflexivity.
  - assert (E : a + d = int_max + 1) by (unfold is_int in Ha; lia).
    rewrite E. change (wrap (int_max + 1)) with int_min. lia.
  - assert (E : a + d = int_min - 1) by (unfold is_int in Ha; lia).
    rewrite E. change (wrap (int_min - 1)) with int_max. lia.
Qed.

(** The four bands along the sides of the den. *)
Lemma IsAdjacentToDen_spec (m : Maze) (p : Point) :
  maze_wf m -> has_den m -> den_aligned m -> is_int (X p) -> is_int (Y p) ->
  IsAdjacentToDen m p = true <->
  ((X p = denStartX m - 1 \/ X p = denStartX m + denWidth m) /\
   denStartY m <= Y p < denStartY m + denHeight m) \/
  ((Y p = denStartY m - 1 \/ Y p = denStartY m + denHeight m) /\
   denStartX m <= X p < denStartX m + denWidth m).
Proof.
  intros Hwf Hd Hal Hx Hy.
  pose proof (IsInsideDen_spec m p Hwf Hd Hal) as Hp.
  pose proof (fun dir => IsInsideDen_spec m (move p dir) Hwf Hd Hal) as Hn.
  destruct Hwf as (_ & Hw & Hh).
  destruct Hal as (_ & _ & _ & _ & A5 & A6 & A7 & A8).
  unfold IsAdjacentToDen.
  destruct Hd as [Hd1 Hd2].
  destruct (Z.leb_spec (denWidth m) 0); [lia|].
  destruct (Z.leb_spec (denHeight m) 0); [lia|]. cbn [orb].
  assert (Hband : forall a d lo hi, is_int a -> -1 <= d <= 1 -> 1 <= lo ->
            hi <= int_max -> (lo <= add64 a d < hi) <-> (lo <= a + d < hi)).
  { intros. apply add64_band; try assumption. unfold int_min. lia. }
  destruct (IsInsideDen m p) eqn:Ein.
  { split; [discriminate|]. intros Hb. exfalso.
    assert (Hin : denStartX m <= X p < denStartX m + denWidth m /\
                  denStartY m <= Y p < denStartY m + denHeight m)
      by (apply Hp; reflexivity).
    lia. }
  assert (Hout : ~ (denStartX m <= X p < denStartX m + denWidth m /\
                    denStartY m <= Y p < denStartY m + denHeight m)).
  { intros Hin. apply Hp in Hin. congruence. }
  unfold directions. cbn [existsb]. rewrite orb_false_r.
  rewrite !orb_true_iff, !Hn. unfold move. cbn [X Y].
  rewrite !(Hband (X p)), !(Hband (Y p)) by (assumption || lia).
  lia.
Qed.

(** X4: on a constructed maze with a den, a point is adjacent to the den
    exactly when it lies in one of the four one-cell bands along the sides
    of the den rectangle; the four diagonal corners and the den cells
    themselves are not adjacent. *)
Theorem IsAdjacentToDen_bands (m : Maze) (p : Point) :
  constructed m -> has_den m -> is_int (X p) -> is_int (Y p) ->
  IsAdjacentToDen m p = true <->
  ((X p = denStartX m - 1 \/ X p = denStartX m + denWidth m) /\
   denStartY m <= Y p < denStartY m + denHeight m) \/
  ((Y p = denStartY m - 1 \/ Y p = denStartY m + denHeight m) /\
   denStartX m <= X p < denStartX m + denWidth m).
Proof.
  intros Hc Hd Hx Hy. apply IsAdjacentToDen_spec; try assumption.
  - apply constructed_wf. exact Hc.
  - apply constructed_den; assumption.
Qed.

Lemma IsAdjacentToDen_bands_witness :
  IsAdjacentToDen den_maze_9 (mkPoint 2 2) = true <->
  ((X (mkPoint 2 2) = denStartX den_maze_9 - 1 \/
    X (mkPoint 2 2) = denStartX den_maze_9 + denWidth den_maze_9) /\
   denStartY den_maze_9 <= Y (mkPoint 2 2)
     < denStartY den_maze_9 + denHeight den_maze_9) \/
  ((Y (mkPoint 2 2) = denStartY den_maze_9 - 1 \/
    Y (mkPoint 2 2) = denStartY den_maze_9 + denHeight den_maze_9) /\
   denStartX den_maze_9 <= X (mkPoint 2 2)
     < denStartX den_maze_9 + denWidth den_maze_9).
Proof.
  apply (IsAdjacentToDen_bands den_maze_9 (mkPoint 2 2)).
  - apply den_maze_9_constructed.
  - split; reflexivity.
  - unfold is_int, int_min, int_max. cbn. lia.
  - unfold is_int, int_min, int_max. cbn. lia.
Defined.

(** ** The solver at the edge of the grid *)

(** X5: when the start point lies outside the width-by-height rectangle,
    both versions of [Solve] panic on the first write to the visited grid;
    this is the case of the zero [Maze]. *)
Theorem Solve_start_outside (m : Maze) (fuel : nat) :
  ~ inb m (start m) ->
  Solve fuel m = Panic /\ Solve_prealloc fuel m = Panic.
Proof.
  intros Hout.
  assert (E : solve_bfs fuel m = Panic).
  { unfold solve_bfs, make2.
    destruct (Z.ltb_spec (height m) 0) as [Hh|Hh]; [reflexivity|].
    destruct ((0 <? height m) && (width m <? 0)) eqn:Eb; [reflexivity|]. rsimpl.
    unfold upd2.
    destruct ((Y (start m) <? 0) || (X (start m) <? 0)) eqn:En; [reflexivity|].
    apply orb_false_iff in En as [Hy Hx]. apply Z.ltb_ge in Hy, Hx.
    destruct (replicate (Z.to_nat (height m)) (replicate (Z.to_nat (width m)) false)
                !! Z.to_nat (Y (start m))) as [row|] eqn:Hrow; [|reflexivity].
    apply lookup_replicate in Hrow as [-> Hlt].
    rewrite length_replicate.
    destruct (Nat.ltb_spec (Z.to_nat (X (start m))) (Z.to_nat (width m)));
      [|reflexivity].
    exfalso. apply Hout. unfold inb. lia. }
  unfold Solve, Solve_prealloc. rewrite E. split; reflexivity.
Qed.

Lemma Solve_start_outside_witness :
  Solve 8 (mkMaze 0 0 [] (mkPoint 0 0) (mkPoint 0 0) (mkPoint 0 0) 0 0 0 0) = Panic /\
  Solve_prealloc 8 (mkMaze 0 0 [] (mkPoint 0 0) (mkPoint 0 0) (mkPoint 0 0) 0 0 0 0)
  = Panic.
Proof.
  apply (Solve_start_outside
           (mkMaze 0 0 [] (mkPoint 0 0) (mkPoint 0 0) (mkPoint 0 0) 0 0 0 0) 8).
  unfold inb. cbn. lia.
Defined.

(** ** Errors of the generator *)

Lemma quot2_bounds (z : Z) :
  (0 <= z -> 2 * Z.quot z 2 <= z <= 2 * Z.quot z 2 + 1) /\
  (z <= 0 -> 2 * Z.quot z 2 - 1 <= z <= 2 * Z.quot z 2).
Proof.
  split; intros Hz.
  - rewrite Z.quot_div_nonneg by lia. Z.div_mod_to_equations. lia.
  - replace z with (- (- z)) by lia. rewrite Z.quot_opp_l by lia.
    rewrite Z.quot_div_nonneg by lia. Z.div_mod_to_equations. lia.
Qed.

Section GeneratorErrors.
Context `{RandSource}.

(** X6: the den connection step changes the maze only when it succeeds:
    whenever [connectDen] returns an error, whatever the door strategy, the
    grid and the door are as they were (a failed corridor search carves
    nothing). *)
Theorem connectDen_error_atomic (fuel : nat) (r : Rand) (userDoor : option Point)
  (side : string) (m m' : Maze) (e : error) :
  connectDen fuel r userDoor side m = Ok (m', Some e) ->
  m' = m /\ door_error e.
Proof.
  intros Hc. split; [|apply (connectDen_Ok _ _ _ _ _ _ _ Hc); reflexivity].
  revert Hc. unfold connectDen.
  destruct (orb _ _); [discriminate|].
  destruct (negb (String.eqb side EmptyString)).
  - unfold connectDenAtSide.
    destruct (side_door m side) as [[d nb]|]; [|intros [= <- _]; reflexivity].
    destruct (orb _ _); [intros [= <- _]; reflexivity|].
    intros (cell & _ & Hrest)%bind_Ok.
    destruct (cell =? Path).
    + apply bind_Ok in Hrest as (m1 & _ & [=]).
    + apply bind_Ok in Hrest as ([m1 e1] & Hcp & Hrest).
      destruct e1 as [e1|].
      * injection Hrest as <- _. revert Hcp. unfold carvePathToNearest.
        intros ([st target] & _ & Hrest)%bind_Ok.
        destruct target as [t|].
        -- apply bind_Ok in Hrest as (m2 & _ & [=]).
        -- injection Hrest as <-. reflexivity.
      * apply bind_Ok in Hrest as (m2 & _ & [=]).
  - destruct userDoor as [d|].
    + unfold connectDenAtPoint.
      destruct (negb (inside_border m d)); [intros [= <- _]; reflexivity|].
      intros (cell & _ & Hrest)%bind_Ok.
      destruct (negb (cell =? Wall)); [injection Hrest as <- _; reflexivity|].
      apply bind_Ok in Hrest as (h & _ & Hrest). destruct h.
      { apply bind_Ok in Hrest as (m1 & _ & [=]). }
      apply bind_Ok in Hrest as (v & _ & Hrest). destruct v.
      { apply bind_Ok in Hrest as (m1 & _ & [=]). }
      injection Hrest as <- _. reflexivity.
    + intros Hc. destruct (connectRandomDenDoor_Ok_frame _ _ _ _ Hc) as [_ [=]].
Qed.

(** X7: a maze less than three cells wide or high has no cell strictly
    inside its border: [Generate] without a start point panics ([Intn] is
    called with zero), and with a start point it refuses every point. *)
Theorem Generate_no_interior (fuel : nat) (seed : Z) (userDoor : option Point)
  (side : string) (bias : float64) (m : Maze) :
  border_ints m -> width m < 3 \/ height m < 3 ->
  Generate (S fuel) seed None userDoor side bias m = Panic /\
  forall p, Generate fuel seed (Some p) userDoor side bias m
            = Ok (m, Some ErrInvalidStart).
Proof.
  intros [Hbw Hbh] Hsmall.
  assert (Hhalf : forall a, int_min < a <= int_max ->
            (a < 3 -> div64 (sub64 a 1) 2 <= 0) /\
            (3 <= a -> 0 < div64 (sub64 a 1) 2)).
  { intros a Ha. rewrite sub64_pred by exact Ha. unfold div64.
    pose proof (quot2_bounds (a - 1)) as (Hq1 & Hq2).
    rewrite wrap_id
      by (unfold is_int, int_min, int_max in *;
          destruct (Z_le_dec 0 (a - 1)); [specialize (Hq1 ltac:(lia))|
                                         specialize (Hq2 ltac:(lia))]; lia).
    split; intros Hlt.
    - destruct (Z_le_dec 0 (a - 1));
        [specialize (Hq1 ltac:(lia))|specialize (Hq2 ltac:(lia))]; lia.
    - specialize (Hq1 ltac:(lia)). lia. }
  destruct (Hhalf (width m) Hbw) as [Hw1 Hw2].
  destruct (Hhalf (height m) Hbh) as [Hh1 Hh2].
  split.
  - unfold Generate. cbn [random_start]. unfold Intn.
    destruct (Z.leb_spec (div64 (sub64 (width m) 1) 2) 0) as [|Hwpos];
      [reflexivity|]. rsimpl.
    destruct (Intn_raw (NewSource seed) (div64 (sub64 (width m) 1) 2)) as [a r1].
    destruct (Z.leb_spec (div64 (sub64 (height m) 1) 2) 0) as [|Hhpos];
      [reflexivity|].
    exfalso. destruct Hsmall as [Hs|Hs].
    + specialize (Hw1 Hs). lia.
    + specialize (Hh1 Hs). lia.
  - intros p. unfold Generate.
    assert (Er : start_rejected m p = true).
    { unfold start_rejected. rewrite !sub64_pred by assumption.
      destruct (Z.leb_spec (X p) 0), (Z.leb_spec (width m - 1) (X p)),
        (Z.leb_spec (Y p) 0), (Z.leb_spec (height m - 1) (Y p));
        cbn [orb]; try reflexivity; lia. }
    rewrite Er. reflexivity.
Qed.
End GeneratorErrors.

Lemma connectDen_error_atomic_witness :
  den_maze_7 = den_maze_7 /\ door_error ErrDoorTooClose.
Proof.
  apply (connectDen_error_atomic (H := lcg_rand) 100 (NewSource 42) None "top"
           den_maze_7 den_maze_7 ErrDoorTooClose).
  vm_compute. reflexivity.
Defined.

Lemma Generate_no_interior_witness :
  Generate (H := lcg_rand) 1 42 None None EmptyString half
    strip_maze = Panic /\
  forall p, Generate (H := lcg_rand) 0 42 (Some p) None EmptyString half
              strip_maze
            = Ok (maze_of (New 1 5 0 0), Some ErrInvalidStart).
Proof.
  apply (Generate_no_interior (H := lcg_rand) 0 42 None EmptyString half
           strip_maze).
  - vm_compute. repeat split; (reflexivity || discriminate).
  - left. vm_compute. reflexivity.
Defined.

(** ** The door arguments *)

Lemma set_cell_den (m m' : Maze) (p : Point) (c : Cell) :
  set_cell m p c = Ok m' ->
  denWidth m' = denWidth m /\ denHeight m' = denHeight m.
Proof.
  unfold set_cell. intros (g & _ & [= <-])%bind_Ok. split; reflexivity.
Qed.

Section DoorArguments.
Context `{RandSource}.

Lemma runDFS_loop_den (fuel : nat) (r r' : Rand) (bias : float64) (m m' : Maze)
  (stack : list Point) :
  runDFS_loop fuel r bias m stack = Ok (m', r') ->
  denWidth m' = denWidth m /\ denHeight m' = denHeight m.
Proof.
  revert r m stack. induction fuel as [|fuel IH]; intros r m stack; [discriminate|].
  cbn [runDFS_loop]. destruct (last stack) as [cur|]; [|intros [= <- _]; auto].
  intros (ns & _ & Hrest)%bind_Ok.
  destruct (0 <? length ns)%nat.
  - apply bind_Ok in Hrest as ([next r1] & _ & Hrest).
    apply bind_Ok in Hrest as (m1 & Hm1 & Hrest).
    apply bind_Ok in Hrest as (m2 & Hm2 & Hrest).
    destruct (set_cell_den _ _ _ _ Hm1) as [E1 E2].
    destruct (set_cell_den _ _ _ _ Hm2) as [E3 E4].
    destruct (IH _ _ _ Hrest) as [E5 E6]. split; congruence.
  - apply (IH _ _ _ Hrest).
Qed.

Lemma runDFS_den (fuel : nat) (r r' : Rand) (s : Point) (bias : float64)
  (m m' : Maze) :
  runDFS fuel r s bias m = Ok (m', r') ->
  denWidth m' = denWidth m /\ denHeight m' = denHeight m.
Proof.
  unfold runDFS. intros (m1 & Hm1 & Hrest)%bind_Ok.
  destruct (set_cell_den _ _ _ _ Hm1) as [E1 E2].
  destruct (runDFS_loop_den _ _ _ _ _ _ _ Hrest) as [E3 E4]. split; congruence.
Qed.

(** X8: without a den the door point and the door side are never looked at:
    [Generate] returns the same result whatever they are, an unknown side
    name included. *)
Theorem Generate_door_ignored (fuel : nat) (seed : Z) (s d1 d2 : option Point)
  (side1 side2 : string) (bias : float64) (m : Maze) :
  denWidth m <= 0 \/ denHeight m <= 0 ->
  Generate fuel seed s d1 side1 bias m = Generate fuel seed s d2 side2 bias m.
Proof.
  intros Hno. unfold Generate.
  destruct (match s with
            | Some p =>
                if start_rejected m p then inr ErrInvalidStart
                else if IsInsideDen m p then inr ErrStartInsideDen
                else inl (Ok (p, NewSource seed))
            | None => inl (random_start fuel (NewSource seed) m)
            end) as [chosen|e]; [|reflexivity].
  destruct chosen as [[gs r1]| |]; try reflexivity. rsimpl.
  destruct (runDFS fuel r1 gs bias m) as [[m1 r2]| |] eqn:Hdfs; try reflexivity.
  rsimpl. destruct (runDFS_den _ _ _ _ _ _ _ Hdfs) as [E1 E2].
  assert (Hg : (denWidth m1 <=? 0) || (denHeight m1 <=? 0) = true).
  { rewrite E1, E2. apply orb_true_iff.
    destruct Hno; [left|right]; apply Z.leb_le; assumption. }
  unfold connectDen. rewrite Hg. reflexivity.
Qed.

(** X9: with a den, a door side that is none of the four names makes
    [Generate] fail with the invalid-side error, but only after the
    corridors are carved: the maze returned is the one the carving walk
    leaves, with no start, end or door recorded. *)
Theorem Generate_unknown_side (fuel : nat) (seed : Z) (p : Point)
  (userDoor : option Point) (side : string) (bias : float64) (m : Maze) :
  maze_wf m -> has_den m -> ~ start_invalid m p ->
  (2 * cells m + 1 < fuel)%nat ->
  side <> EmptyString -> side <> "top"%string -> side <> "bottom"%string ->
  side <> "left"%string -> side <> "right"%string ->
  exists m1 r2,
    runDFS fuel (NewSource seed) p bias m = Ok (m1, r2) /\
    Generate fuel seed (Some p) userDoor side bias m
    = Ok (m1, Some ErrInvalidDoorSide) /\
    cell_at m1 p = Ok Path /\
    start m1 = start m /\ end_ m1 = end_ m /\ door m1 = door m.
Proof.
  intros Hwf Hden Hv Hf Hs0 Hs1 Hs2 Hs3 Hs4. unfold Generate.
  assert (Hr : start_rejected m p = false /\ IsInsideDen m p = false).
  { destruct (start_rejected m p) eqn:E1, (IsInsideDen m p) eqn:E2; auto;
      exfalso; apply Hv;
      apply (start_rejected_spec m p (maze_wf_border m Hwf)); auto. }
  destruct Hr as [Hr Hd]. rewrite Hr, Hd. rsimpl.
  destruct (start_rejected_false m p (maze_wf_border m Hwf) Hr) as (Hgi & _).
  pose proof (runDFS_spec fuel (NewSource seed) p bias m Hwf Hgi) as Hrun.
  destruct (runDFS fuel (NewSource seed) p bias m) as [[m1 r2]| |];
    [|contradiction|lia].
  destruct Hrun as (Hwf1 & Hre1 & _ & Hcell). rsimpl.
  exists m1, r2. split; [reflexivity|].
  destruct (regrid_points _ _ Hre1) as (Es & Ee & Ed).
  split; [|auto].
  pose proof (has_den_shape _ _ (regrid_shape _ _ Hre1) Hden) as [Hd1 Hd2].
  unfold connectDen.
  destruct (Z.leb_spec (denWidth m1) 0); [lia|].
  destruct (Z.leb_spec (denHeight m1) 0); [lia|]. cbn [orb].
  destruct (String.eqb_spec side EmptyString) as [|_]; [contradiction|]. cbn [negb].
  unfold connectDenAtSide, side_door.
  repeat (destruct (decide _) as [|_]; [contradiction|]).
  reflexivity.
Qed.
End DoorArguments.

Lemma Generate_door_ignored_witness :
  Generate (H := lcg_rand) 200 42 None (Some (mkPoint 2 1)) "sideways" half plain_maze_5
  = Generate (H := lcg_rand) 200 42 None None EmptyString half plain_maze_5.
Proof.
  apply (Generate_door_ignored (H := lcg_rand) 200 42 None (Some (mkPoint 2 1)) None
           "sideways" EmptyString half plain_maze_5).
  left. vm_compute. discriminate.
Defined.

Lemma Generate_unknown_side_witness :
  exists m1 r2,
    runDFS (H := lcg_rand) 200 (NewSource 42) (mkPoint 5 5) half den_maze_7 = Ok (m1, r2) /\
    Generate (H := lcg_rand) 200 42 (Some (mkPoint 5 5)) None "sideways" half den_maze_7
    = Ok (m1, Some ErrInvalidDoorSide) /\
    cell_at m1 (mkPoint 5 5) = Ok Path /\
    start m1 = start den_maze_7 /\ end_ m1 = end_ den_maze_7 /\
    door m1 = door den_maze_7.
Proof.
  apply (Generate_unknown_side (H := lcg_rand) 200 42 (mkPoint 5 5) None "sideways"
           half den_maze_7).
  - apply constructed_wf, den_maze_7_constructed.
  - split; reflexivity.
  - intros [E|[E|[E|E]]]; try (vm_compute in E; discriminate).
    apply E. cbn. lia.
  - vm_compute. lia.
  - discriminate.
  - discriminate.
  - discriminate.
  - discriminate.
  - discriminate.
Defined.

(** ** A door at a given point *)

Section DoorAtPoint.
Context `{RandSource}.

(** X10: [connectDenAtPoint] accepts exactly the cells that the random door
    strategy lists as candidates: wall cells strictly inside the border
    with a path on both sides of one axis, exactly one of the two inside
    the den.  An accepted cell becomes a [Path] and the recorded door, and
    nothing else changes; a refused one leaves the maze as it was, with the
    not-a-wall error when it is not a wall strictly inside the border and
    the no-connection error otherwise. *)
Theorem connectDenAtPoint_seam (d : Point) (m : Maze) :
  maze_wf m ->
  (door_seam m d ->
     exists m', connectDenAtPoint d m = Ok (m', None) /\
       door m' = d /\ cell_at m' d = Ok Path /\
       forall q, q <> d -> cell_at m' q = cell_at m q) /\
  (~ door_seam m d ->
     (interior m d /\ cell_at m d = Ok Wall ->
        connectDenAtPoint d m = Ok (m, Some ErrDoorNoConnection)) /\
     (~ (interior m d /\ cell_at m d = Ok Wall) ->
        connectDenAtPoint d m = Ok (m, Some ErrDoorNotWall))) /\
  exists doors, potentialDoors m = Ok doors /\
    (d ∈ doors <-> door_seam m d).
Proof.
  intros Hwf.
  assert (Hcases :
    (door_seam m d /\
     exists m', connectDenAtPoint d m = Ok (m', None) /\
       door m' = d /\ cell_at m' d = Ok Path /\
       forall q, q <> d -> cell_at m' q = cell_at m q) \/
    (~ door_seam m d /\
     (interior m d /\ cell_at m d = Ok Wall ->
        connectDenAtPoint d m = Ok (m, Some ErrDoorNoConnection)) /\
     (~ (interior m d /\ cell_at m d = Ok Wall) ->
        connectDenAtPoint d m = Ok (m, Some ErrDoorNotWall)))).
  { unfold connectDenAtPoint.
    pose proof (inside_border_spec m d (maze_wf_border m Hwf)) as Hd.
    destruct (inside_border m d); cbn [negb andb].
    2: { right. split; [|split; [|reflexivity]].
         - intros (Hi & _). apply Hd in Hi. discriminate.
         - intros (Hi & _). apply Hd in Hi. discriminate. }
    assert (Hdi : interior m d) by (apply Hd; reflexivity).
    destruct (maze_wf_cell m d Hwf (interior_inb _ _ Hdi)) as [cell Hcell].
    rewrite Hcell. rsimpl.
    destruct (Z.eqb_spec cell Wall) as [->|Hnw]; cbn [negb].
    2: { right. split; [|split; [|reflexivity]].
         - intros (_ & Hw & _). congruence.
         - intros (_ & Hw). congruence. }
    pose proof Hwf as (Hdims & Hw & Hh).
    assert (Hx1 : sub64 (X d) 1 = X d - 1).
    { unfold sub64. apply wrap_id. unfold interior, is_int, int_min, int_max in *. lia. }
    assert (Hx2 : add64 (X d) 1 = X d + 1).
    { unfold add64. apply wrap_id. unfold interior, is_int, int_min, int_max in *. lia. }
    assert (Hy1 : sub64 (Y d) 1 = Y d - 1).
    { unfold sub64. apply wrap_id. unfold interior, is_int, int_min, int_max in *. lia. }
    assert (Hy2 : add64 (Y d) 1 = Y d + 1).
    { unfold add64. apply wrap_id. unfold interior, is_int, int_min, int_max in *. lia. }
    rewrite Hx1, Hx2, Hy1, Hy2.
    assert (Hopen : exists m', open_door m d = Ok m' /\
              door m' = d /\ cell_at m' d = Ok Path /\
              forall q, q <> d -> cell_at m' q = cell_at m q).
    { destruct (open_door_total m d Hwf (interior_inb _ _ Hdi)) as [m' Hm'].
      exists m'. split; [exact Hm'|].
      destruct (open_door_Ok _ _ _ Hm') as (_ & A & B & C & _). auto. }
    destruct (separates_spec m (mkPoint (X d - 1) (Y d)) (mkPoint (X d + 1) (Y d)) Hwf)
      as (h & -> & Hh'); try (unfold inb, interior in *; cbn [X Y]; lia). rsimpl.
    destruct h.
    { left. split.
      - split; [exact Hdi|]. split; [exact Hcell|]. left. apply Hh'. reflexivity.
      - destruct Hopen as (m' & -> & Hrest). rsimpl. eauto. }
    destruct (separates_spec m (mkPoint (X d) (Y d - 1)) (mkPoint (X d) (Y d + 1)) Hwf)
      as (v & -> & Hv'); try (unfold inb, interior in *; cbn [X Y]; lia). rsimpl.
    destruct v.
    { left. split.
      - split; [exact Hdi|]. split; [exact Hcell|]. right. apply Hv'. reflexivity.
      - destruct Hopen as (m' & -> & Hrest). rsimpl. eauto. }
    right. split; [|split; [reflexivity|]].
    - intros (_ & _ & [Hs|Hs]).
      + apply Hh' in Hs. discriminate.
      + apply Hv' in Hs. discriminate.
    - intros Hn. exfalso. apply Hn. split; [exact Hdi|reflexivity]. }
  split; [|split].
  - intros Hs. destruct Hcases as [[_ Hok]|[Hno _]]; [exact Hok|contradiction].
  - intros Hno. destruct Hcases as [[Hs _]|[_ Herr]]; [contradiction|exact Herr].
  - destruct (potentialDoors_spec m Hwf) as (doors & Hd & Hiff).
    exists doors. split; [exact Hd|apply Hiff].
Qed.
End DoorAtPoint.

Lemma connectDenAtPoint_seam_witness :
  (door_seam den_maze_7 (mkPoint 2 4) ->
     exists m', connectDenAtPoint (mkPoint 2 4) den_maze_7 = Ok (m', None) /\
       door m' = mkPoint 2 4 /\ cell_at m' (mkPoint 2 4) = Ok Path /\
       forall q, q <> mkPoint 2 4 -> cell_at m' q = cell_at den_maze_7 q) /\
  (~ door_seam den_maze_7 (mkPoint 2 4) ->
     (interior den_maze_7 (mkPoint 2 4) /\ cell_at den_maze_7 (mkPoint 2 4) = Ok Wall ->
        connectDenAtPoint (mkPoint 2 4) den_maze_7
        = Ok (den_maze_7, Some ErrDoorNoConnection)) /\
     (~ (interior den_maze_7 (mkPoint 2 4) /\
         cell_at den_maze_7 (mkPoint 2 4) = Ok Wall) ->
        connectDenAtPoint (mkPoint 2 4) den_maze_7
        = Ok (den_maze_7, Some ErrDoorNotWall))) /\
  exists doors, potentialDoors den_maze_7 = Ok doors /\
    (mkPoint 2 4 ∈ doors <-> door_seam den_maze_7 (mkPoint 2 4)).
Proof.
  apply (connectDenAtPoint_seam (mkPoint 2 4) den_maze_7).
  apply constructed_wf, den_maze_7_constructed.
Defined.

(** ** The choice of the next cell *)

Lemma find_straight_find (ns stack : list Point) (ld cur : Point) :
  last stack = Some cur ->
  find_straight ns stack ld
  = Ok (List.find (fun n => (sub64 (X n) (X cur) =? X ld) &&
                            (sub64 (Y n) (Y cur) =? Y ld)) ns).
Proof.
  intros Hl. induction ns as [|n ns IH]; [reflexivity|].
  cbn [find_straight List.find]. rewrite Hl.
  destruct (_ && _); [reflexivity|exact IH].
Qed.

Section Choice.
Context `{RandSource}.

(** X11: [chooseBiasedNeighbor] panics on an empty list of neighbours
    ([Intn] of zero) and on an empty stack; otherwise it returns one of the
    neighbours.  When some neighbour continues the last move of the stack
    and the draw falls below the bias, the neighbour returned continues
    that move, and only the draw of [Float64] is consumed. *)
Theorem chooseBiasedNeighbor_cases (ns stack : list Point) (bias : float64)
  (r : Rand) :
  (ns = [] -> chooseBiasedNeighbor ns stack bias r = Panic) /\
  (ns <> [] -> stack = [] -> chooseBiasedNeighbor ns stack bias r = Panic) /\
  (forall cur, ns <> [] -> last stack = Some cur ->
     exists next r', chooseBiasedNeighbor ns stack bias r = Ok (next, r') /\
       next ∈ ns /\
       forall st prev, stack = st ++ [prev; cur] ->
         f64_ltb (fst (Float64 r)) bias = true ->
         (exists n, n ∈ ns /\
            sub64 (X n) (X cur) = sub64 (X cur) (X prev) /\
            sub64 (Y n) (Y cur) = sub64 (Y cur) (Y prev)) ->
         sub64 (X next) (X cur) = sub64 (X cur) (X prev) /\
         sub64 (Y next) (Y cur) = sub64 (Y cur) (Y prev) /\
         r' = snd (Float64 r)).
Proof.
  split; [|split].
  - intros ->. unfold chooseBiasedNeighbor.
    assert (Hld : exists ld,
      (if (1 <? length stack)%nat
       then match stack !! (length stack - 2)%nat, stack !! (length stack - 1)%nat with
            | Some previous, Some current =>
                Ok (mkPoint (sub64 (X current) (X previous))
                            (sub64 (Y current) (Y previous)))
            | _, _ => Panic
            end
       else Ok (mkPoint 0 0)) = Ok ld).
    { destruct (Nat.ltb_spec 1 (length stack)) as [Hlt|_]; [|eauto].
      destruct (lookup_lt_is_Some_2 stack (length stack - 2)%nat ltac:(lia)) as [a ->].
      destruct (lookup_lt_is_Some_2 stack (length stack - 1)%nat ltac:(lia)) as [b ->].
      eauto. }
    destruct Hld as [ld ->]. rsimpl. cbn [find_straight]. rsimpl.
    unfold random_neighbor, Intn. cbn [length]. reflexivity.
  - intros Hns ->. unfold chooseBiasedNeighbor. cbn [length Nat.ltb Nat.leb]. rsimpl.
    destruct ns as [|n ns]; [contradiction|]. reflexivity.
  - intros cur Hns Hlast.
    destruct (chooseBiasedNeighbor_spec ns stack bias r cur Hns Hlast)
      as (next & r' & Hch & Hin).
    exists next, r'. split; [exact Hch|]. split; [exact Hin|].
    intros st prev -> Hlt (n & Hn & Hx & Hy).
    revert Hch. unfold chooseBiasedNeighbor.
    rewrite !length_app. cbn [length].
    replace (length st + 2 - 2)%nat with (length st) by lia.
    replace (length st + 2 - 1)%nat with (S (length st)) by lia.
    destruct (Nat.ltb_spec 1 (length st + 2)) as [_|]; [|lia].
    rewrite (list_lookup_middle st [cur] prev (length st) eq_refl).
    replace (st ++ [prev; cur]) with ((st ++ [prev]) ++ [cur])
      by (rewrite <- app_assoc; reflexivity).
    rewrite (list_lookup_middle (st ++ [prev]) [] cur (S (length st)))
      by (rewrite length_app; cbn; lia).
    rsimpl.
    rewrite (find_straight_find ns _ _ cur) by (apply last_snoc).
    rsimpl. cbn [X Y].
    destruct (List.find _ ns) as [s|] eqn:Hfind.
    + apply List.find_some in Hfind as [_ Hb].
      apply andb_true_iff in Hb as [Hb1 Hb2].
      apply Z.eqb_eq in Hb1, Hb2.
      destruct (Float64 r) as [f r1]. cbn [fst snd] in *. rewrite Hlt.
      intros [= <- <-]. auto.
    + exfalso. pose proof (List.find_none _ _ Hfind n) as Hnone.
      cbn beta in Hnone. rewrite Hx, Hy, !Z.eqb_refl in Hnone.
      specialize (Hnone ltac:(apply list_elem_of_In; exact Hn)). discriminate.
Qed.
End Choice.

(** ** The shape of a solution *)

(** A route that visits a point twice can be shortened. *)
Lemma route_shorten (m : Maze) (l : list Point) :
  forall a b, route m a b l -> ~ NoDup l ->
    exists l', route m a b l' /\ (length l' < length l)%nat.
Proof.
  induction l as [|x l0 IH]; intros a b (Hh & Hl & Hlk & Hin & Hop) Hnd;
    [discriminate|].
  injection Hh as ->.
  destruct (decide (a ∈ l0)) as [Hmem|Hnot].
  - apply list_elem_of_split in Hmem as (l1 & l2 & ->).
    exists (a :: l2). split.
    + split; [reflexivity|]. split.
      { rewrite <- Hl. rewrite app_comm_cons, last_app_cons. reflexivity. }
      split.
      { rewrite app_comm_cons in Hlk. apply linked_app_inv in Hlk as (_ & H2 & _).
        exact H2. }
      split.
      { rewrite app_comm_cons in Hin. apply Forall_app in Hin as [_ H2]. exact H2. }
      cbn [tail] in *. apply Forall_app in Hop as [_ H2].
      apply Forall_cons in H2 as [_ H3]. exact H3.
    + cbn [length]. rewrite length_app. cbn [length]. lia.
  - assert (Hnd0 : ~ NoDup l0).
    { intros H0. apply Hnd. apply NoDup_cons. split; assumption. }
    destruct l0 as [|y l00]; [exfalso; apply Hnd0; constructor|].
    cbn [tail] in Hop.
    destruct (IH y b) as (l' & (Hh' & Hl' & Hlk' & Hin' & Hop') & Hlen).
    { split; [reflexivity|]. split; [rewrite <- Hl; apply eq_sym, last_cons_cons|].
      destruct Hlk as [_ Hlk]. split; [exact Hlk|].
      apply Forall_cons in Hin as [_ Hin]. split; [exact Hin|].
      cbn [tail]. apply Forall_cons in Hop as [_ Hop]. exact Hop. }
    { exact Hnd0. }
    destruct l' as [|y' l'']; [discriminate|]. injection Hh' as ->.
    exists (a :: y :: l''). split.
    + split; [reflexivity|]. split; [rewrite last_cons_cons; exact Hl'|].
      split; [split; [apply Hlk|exact Hlk']|].
      split.
      { apply Forall_cons. split; [|exact Hin'].
        apply Forall_cons in Hin as [Ha _]. exact Ha. }
      cbn [tail] in *. apply Forall_cons. split; [|exact Hop'].
      apply Forall_cons in Hop as [Hy _]. exact Hy.
    + cbn [length] in *. lia.
Qed.

(** X12: a path returned by [Solve] never visits a cell twice, stays inside
    the rectangle, and has at most as many points as the maze has cells. *)
Theorem Solve_path_simple (m : Maze) (fuel : nat) (path : list Point) :
  maze_ints m -> (cells m < fuel)%nat ->
  Solve fuel m = Ok (path, true) ->
  NoDup path /\ Forall (inb m) path /\ (length path <= cells m)%nat /\
  head path = Some (start m) /\ last path = Some (end_ m).
Proof.
  intros Hints Hf HS.
  pose proof (Solve_outcome m fuel Hf) as Hout.
  destruct (solve_bfs fuel m) as [[[|] st]| |] eqn:Hbfs.
  - destruct Hout as (l & Hbr & HS' & _).
    rewrite HS in HS'. injection HS' as ->.
    destruct (solve_bfs_found m fuel st Hbfs) as (Hs & l' & Hbr' & Hlen & Hmin).
    pose proof (back_route_unique _ _ _ _ _ _ Hbr Hbr') as <-.
    pose proof (back_route_route m (parent st) _ _ l Hints Hs Hbr) as Hr.
    split.
    { destruct (decide (NoDup (rev l))) as [Hnd|Hnd]; [exact Hnd|exfalso].
      destruct (route_shorten m (rev l) _ _ Hr Hnd) as (l2 & Hr2 & Hlt).
      specialize (Hmin Hints l2 Hr2). rewrite length_rev in Hlt. lia. }
    destruct Hr as (Hh & Hl & _ & Hin & _).
    split; [exact Hin|]. split; [rewrite length_rev; exact Hlen|].
    split; assumption.
  - destruct Hout as [HS' _]. rewrite HS in HS'. discriminate.
  - destruct Hout as [HS' _]. rewrite HS in HS'. discriminate.
  - contradiction.
Qed.

Lemma Solve_path_simple_witness :
  NoDup [mkPoint 1 1; mkPoint 2 1; mkPoint 3 1] /\
  Forall (inb simple_maze) [mkPoint 1 1; mkPoint 2 1; mkPoint 3 1] /\
  (length [mkPoint 1 1; mkPoint 2 1; mkPoint 3 1] <= cells simple_maze)%nat /\
  head [mkPoint 1 1; mkPoint 2 1; mkPoint 3 1] = Some (start simple_maze) /\
  last [mkPoint 1 1; mkPoint 2 1; mkPoint 3 1] = Some (end_ simple_maze).
Proof.
  apply (Solve_path_simple simple_maze 16 [mkPoint 1 1; mkPoint 2 1; mkPoint 3 1]).
  - split; vm_compute; split; discriminate.
  - vm_compute. lia.
  - vm_compute. reflexivity.
Defined.

(** ** A generated maze can be solved *)

Lemma maze_wf_ints (m : Maze) : maze_wf m -> maze_ints m.
Proof.
  intros ((Hh & Hw & _) & Hwm & Hhm).
  split; unfold is_int, int_min; lia.
Qed.

(** Every point visited by the farthest-point search is reached from the
    reference point by a route. *)
Lemma far_inv_reachable (m : Maze) (s : Point) (st : far_state) :
  maze_wf m -> inb m s -> far_inv m s st ->
  forall i p, fqueue st !! i = Some p -> inb m p /\ reachable m s p.
Proof.
  intros Hwf Hs Hi i. induction (lt_wf i) as [i _ IH]. intros p Hp.
  destruct i as [|i].
  - rewrite (fi_start _ _ _ Hi) in Hp. injection Hp as <-.
    split; [exact Hs|]. exists [s]. apply route_single. exact Hs.
  - destruct (fi_level _ _ _ Hi (S i) p ltac:(lia) Hp)
      as (Hpi & Hpo & j & q & dq & Hj & Hq & Hst & _).
    destruct (IH j Hj q Hq) as (Hqin & l & Hl).
    split; [apply interior_inb; exact Hpi|].
    exists (l ++ [p]). eapply route_snoc; [exact Hl| |apply interior_inb; exact Hpi|exact Hpo].
    eapply stepped_adjacent; [apply maze_wf_ints; exact Hwf|exact Hqin|exact Hst].
Qed.

Lemma route_walkable (m m' : Maze) (a b : Point) (l : list Point) :
  (forall q, inb m' q <-> inb m q) ->
  (forall q, walkable m q -> walkable m' q) ->
  route m a b l -> route m' a b l.
Proof.
  intros Hinb Hw (Hh & Hl & Hlk & Hin & Hop).
  split; [exact Hh|]. split; [exact Hl|]. split; [exact Hlk|]. split.
  - eapply Forall_impl; [exact Hin|]. intros q Hq. apply Hinb. exact Hq.
  - destruct l as [|x l]; [constructor|]. cbn [tail] in *.
    apply Forall_cons in Hin as [_ Hin].
    apply Forall_forall. intros q Hq.
    apply (Hw q). split.
    + apply (proj1 (Forall_forall _ _) Hin q Hq).
    + apply (proj1 (Forall_forall _ _) Hop q Hq).
Qed.

Section Solvable.
Context `{RandSource}.

(** X13: a maze on which [Generate] returned without error carries the
    [End] marker on its end cell and the [Start] marker on its start cell
    (when the two differ), and [Solve] finds a path on it, whatever the
    seed, the start, the door strategy and the bias. *)
Theorem generated_maze_solvable (fuel fuel' : nat) (seed : Z)
  (s userDoor : option Point) (side : string) (bias : float64) (m m' : Maze) :
  maze_wf m -> Z.of_nat (cells m) < int_max ->
  Generate fuel seed s userDoor side bias m = Ok (m', None) ->
  (cells m < fuel')%nat ->
  cell_at m' (end_ m') = Ok End /\
  (start m' <> end_ m' -> cell_at m' (start m') = Ok Start) /\
  exists path, Solve fuel' m' = Ok (path, true) /\
    head path = Some (start m') /\ last path = Some (end_ m').
Proof.
  intros Hwf Hcells HG Hf.
  destruct (Generate_Ok _ _ _ _ _ _ _ _ _ HG)
    as [(p & err & _ & [=] & _)
       |(gs & r1 & m1 & r2 & m2 & err & Hs & Hdfs & Hcd & Hrest)].
  destruct (generation_start_facts fuel seed s m gs r1 Hwf Hs) as (Hgi & _).
  pose proof (runDFS_spec fuel r1 gs bias m Hwf Hgi) as Hr. rewrite Hdfs in Hr.
  destruct Hr as (Hwf1 & Hre1 & _ & Hgs1).
  pose proof (regrid_shape _ _ Hre1) as Hsh1.
  destruct (connectDen_Ok _ _ _ _ _ _ _ Hcd) as [(Hsh2 & _ & _ & Hoc2 & Hwf2) Herr].
  specialize (Hwf2 Hwf1).
  destruct err as [de|]; [destruct Hrest as [[=] _]|].
  destruct Hrest as [_ Hplace].
  assert (Hsh02 : same_shape m m2) by (eapply same_shape_trans; eauto).
  assert (Ecells : cells m2 = cells m).
  { unfold cells. destruct Hsh02 as (-> & -> & _). reflexivity. }
  assert (Hcells2 : Z.of_nat (cells m2) < int_max) by (rewrite Ecells; exact Hcells).
  assert (Hgi2 : interior m2 gs) by (apply (interior_shape m m2 gs Hsh02); exact Hgi).
  assert (Hgw : walkable m2 gs).
  { split; [apply interior_inb; exact Hgi2|].
    exists Path. split; [|discriminate].
    eapply only_carved_path; [exact Hoc2|exact Hgs1]. }
  destruct (placeStartAndEnd_walkable fuel gs _ m2 m' Hwf2 Hcells2 Hgw Hplace)
    as (Hws & Hwe & Hwiff).
  destruct (placeStartAndEnd_Ok _ _ _ _ _ Hplace)
    as (ps & pe & ds & de & m3 & Hps & Hpe & Hm3 & Hm' & Es & Ee & _ & Hsh').
  rewrite Es, Ee in *.
  destruct (set_cell_Ok _ _ _ _ Hm3) as (Hre3 & Hc3 & Ho3 & Hwf3).
  destruct (set_cell_Ok _ _ _ _ Hm') as (Hre' & Hc' & Ho' & Hwf').
  assert (Hwfse : maze_wf (set_end pe (set_start ps m2))).
  { eapply maze_wf_shape; [|reflexivity|exact Hwf2]. repeat split. }
  destruct (Hwf3 Hwfse) as [Hwf3' _]. destruct (Hwf' Hwf3') as [Hwfm' _].
  split; [exact Hc'|]. split.
  { intros Hne. rewrite Ho' by exact Hne. exact Hc3. }
  (* the end is reached from the start on the maze before the markers *)
  destruct (findFarthestPoint_Ok m2 ps fuel pe de Hwf2 Hcells2 Hpe)
    as (st & _ & -> & _ & Hfi).
  assert (Hein : farthestPoint st ∈ fqueue st).
  { apply (fi_keys _ _ _ Hfi). rewrite (fi_far _ _ _ Hfi). eauto. }
  apply list_elem_of_lookup_1 in Hein as [i Hi].
  destruct Hws as [Hpsin _].
  destruct (far_inv_reachable m2 ps st Hwf2 Hpsin Hfi i _ Hi) as (_ & l & Hl).
  assert (Hinb : forall q, inb m' q <-> inb m2 q) by (intros q; apply inb_shape; exact Hsh').
  assert (Hreach : reachable m' ps (farthestPoint st)).
  { exists l. eapply route_walkable; [exact Hinb| |exact Hl].
    intros q Hq. apply Hwiff. exact Hq. }
  assert (Ecells' : cells m' = cells m).
  { rewrite <- Ecells. unfold cells. destruct Hsh' as (-> & -> & _). reflexivity. }
  pose proof (Solve_outcome m' fuel' ltac:(rewrite Ecells'; exact Hf)) as Hout.
  pose proof (solve_bfs_spec m' fuel') as Hspec.
  destruct (solve_bfs fuel' m') as [[[|] bst]| |] eqn:Hbfs.
  - destruct Hout as (lb & Hbr & HS & _).
    destruct Hspec as (Hsin & _).
    pose proof (back_route_route m' (parent bst) _ _ lb (maze_wf_ints m' Hwfm') Hsin Hbr)
      as (Hh & Hlast & _).
    rewrite Es, Ee in *. exists (rev lb). auto.
  - exfalso. eapply solve_bfs_not_found; [apply maze_wf_ints; exact Hwfm'|exact Hbfs|].
    rewrite Es, Ee. exact Hreach.
  - exfalso. destruct Hspec as [Hn|Hn]; apply Hn.
    + rewrite Es. apply Hinb. exact Hpsin.
    + apply dims2_grid_ok. apply Hwfm'.
  - rewrite Ecells' in Hspec. lia.
Qed.
End Solvable.

Lemma generated_maze_solvable_witness :
  cell_at generated_5 (end_ generated_5) = Ok End /\
  (start generated_5 <> end_ generated_5 ->
   cell_at generated_5 (start generated_5) = Ok Start) /\
  exists path, Solve 30 generated_5 = Ok (path, true) /\
    head path = Some (start generated_5) /\ last path = Some (end_ generated_5).
Proof.
  apply (generated_maze_solvable (H := lcg_rand) 200 30 42 None None EmptyString half
           plain_maze_5 generated_5).
  - apply constructed_wf, plain_maze_5_constructed.
  - vm_compute. reflexivity.
  - apply generated_5_ok.
  - vm_compute. lia.
Defined.

(** ** What the carving walk leaves alone *)

Lemma no_den_flags (m : Maze) (p : Point) :
  ~ has_den m -> IsInsideDen m p = false /\ IsAdjacentToDen m p = false.
Proof.
  intros Hn. unfold IsAdjacentToDen, IsInsideDen.
  destruct (Z.leb_spec (denWidth m) 0); [auto|].
  destruct (Z.leb_spec (denHeight m) 0); [auto|].
  exfalso. apply Hn. split; assumption.
Qed.

Lemma classic_has_den (m : Maze) : has_den m \/ ~ has_den m.
Proof.
  unfold has_den. destruct (Z_lt_dec 0 (denWidth m)), (Z_lt_dec 0 (denHeight m));
    auto; right; intros [? ?]; contradiction.
Qed.

Lemma wall_between_unprotected (m : Maze) (cur dir : Point) :
  maze_wf m -> (has_den m -> den_aligned m) ->
  dir ∈ carve_directions ->
  interior m cur -> odd_cell cur -> IsInsideDen m cur = false ->
  interior m (two_steps cur dir) -> IsInsideDen m (two_steps cur dir) = false ->
  IsInsideDen m (wall_between cur dir) = false ->
  ~ protected m (wall_between cur dir).
Proof.
  intros Hwf Hal Hdir Hci [Hox Hoy] Hcin Hni Hnin Hwin [Hp|[Hp|Hp]].
  - apply Hp. apply wall_between_interior; assumption.
  - congruence.
  - destruct (classic_has_den m) as [Hd|Hd].
    2: { destruct (no_den_flags m (wall_between cur dir) Hd) as [_ E]. congruence. }
    specialize (Hal Hd).
    pose proof (wall_between_interior m cur dir Hdir Hci Hni) as Hwi.
    pose proof Hwf as (_ & Hwm & Hhm).
    apply (IsAdjacentToDen_spec m _ Hwf Hd Hal) in Hp;
      try (unfold interior, is_int, int_min, int_max in *; lia).
    assert (Hc' : ~ (denStartX m <= X cur < denStartX m + denWidth m /\
                     denStartY m <= Y cur < denStartY m + denHeight m)).
    { intros E. apply (IsInsideDen_spec m cur Hwf Hd Hal) in E. congruence. }
    assert (Hn' : ~ (denStartX m <= X (two_steps cur dir) < denStartX m + denWidth m /\
                     denStartY m <= Y (two_steps cur dir) < denStartY m + denHeight m)).
    { intros E. apply (IsInsideDen_spec m _ Hwf Hd Hal) in E. congruence. }
    destruct Hal as (A1 & A2 & A3 & A4 & _). destruct Hd as [Hd1 Hd2].
    apply Z.odd_spec in A1 as [k1 E1], A2 as [k2 E2], A3 as [k3 E3], A4 as [k4 E4].
    destruct Hox as [kx Ex], Hoy as [ky Ey].
    revert Hp Hn'. unfold wall_between, two_steps.
    destruct (carve_directions_cases dir Hdir) as [-> | [-> | [-> | -> ]]];
      cbn [X Y];
      [replace (Z.quot 0 2) with 0 by reflexivity;
       replace (Z.quot (-2) 2) with (-1) by reflexivity
      |replace (Z.quot 0 2) with 0 by reflexivity;
       replace (Z.quot 2 2) with 1 by reflexivity
      |replace (Z.quot 0 2) with 0 by reflexivity;
       replace (Z.quot (-2) 2) with (-1) by reflexivity
      |replace (Z.quot 0 2) with 0 by reflexivity;
       replace (Z.quot 2 2) with 1 by reflexivity];
      intros Hp Hn'; lia.
Qed.

Lemma protected_shape (m m' : Maze) (p : Point) :
  same_shape m m' -> protected m' p <-> protected m p.
Proof.
  intros Hsh. unfold protected.
  rewrite (interior_shape m m' p Hsh), (IsInsideDen_shape m m' p Hsh),
    (IsAdjacentToDen_shape m m' p Hsh). reflexivity.
Qed.

Lemma odd_cell_unprotected (m : Maze) (p : Point) :
  maze_wf m -> (has_den m -> den_aligned m) ->
  interior m p -> odd_cell p -> IsInsideDen m p = false -> ~ protected m p.
Proof.
  intros Hwf Hal Hi [Hx Hy] Hin [Hp|[Hp|Hp]]; [contradiction|congruence|].
  destruct (classic_has_den m) as [Hd|Hd].
  - rewrite (odd_not_adjacent m p Hwf Hd (Hal Hd) Hi) in Hp; [discriminate| |];
      apply Z.odd_spec; assumption.
  - destruct (no_den_flags m p Hd) as [_ E]. congruence.
Qed.

Section WalkFrame.
Context `{RandSource}.
Variable m0 : Maze.
Hypothesis Hcon : constructed m0.

Lemma walk_frame_push (m : Maze) (stack : list Point) (cur dir : Point)
  (m1 m2 : Maze) :
  maze_wf m -> Forall (interior m) stack -> walk_frame m0 m stack ->
  last stack = Some cur -> dir ∈ carve_directions -> carvable m cur dir ->
  set_cell m (wall_between cur dir) Path = Ok m1 ->
  set_cell m1 (two_steps cur dir) Path = Ok m2 ->
  walk_frame m0 m2 (stack ++ [two_steps cur dir]).
Proof.
  intros Hwf Hst (Hsh & Hodd & Hfr) Hlast Hdir (Hni & Hnw & Hwin & Hnadj) Hm1 Hm2.
  pose proof (constructed_wf m0 Hcon) as Hwf0.
  assert (Hal0 : has_den m0 -> den_aligned m0) by (apply constructed_den; exact Hcon).
  apply last_Some in Hlast as [st' ->].
  apply Forall_app in Hst as [_ Hci]. apply Forall_cons in Hci as [Hci _].
  pose proof Hodd as Hodd'.
  apply Forall_app in Hodd' as [_ Hoc]. apply Forall_cons in Hoc as [[Hoc Hcin] _].
  destruct (carve_geometry cur dir Hdir Hoc) as (Hno & _).
  assert (Hci0 : interior m0 cur) by (apply (interior_shape m0 m cur Hsh); exact Hci).
  assert (Hni0 : interior m0 (two_steps cur dir))
    by (apply (interior_shape m0 m _ Hsh); exact Hni).
  assert (Hnin : IsInsideDen m0 (two_steps cur dir) = false).
  { destruct (IsInsideDen m0 (two_steps cur dir)) eqn:E; [exfalso|reflexivity].
    rewrite Hfr in Hnw by (right; left; exact E).
    rewrite (constructed_cells m0 _ Hcon (interior_inb _ _ Hni0)), E in Hnw.
    discriminate. }
  rewrite (IsInsideDen_shape m0 m _ Hsh) in Hwin.
  destruct (set_cell_Ok _ _ _ _ Hm1) as (Hre1 & _ & Ho1 & _).
  destruct (set_cell_Ok _ _ _ _ Hm2) as (Hre2 & _ & Ho2 & _).
  split; [|split].
  - eapply same_shape_trans; [exact Hsh|].
    eapply same_shape_trans; apply regrid_shape; eassumption.
  - apply Forall_app. split; [exact Hodd|].
    apply Forall_cons. split; [split; assumption|constructor].
  - intros p Hp.
    assert (Hp1 : p <> wall_between cur dir).
    { intros ->. revert Hp.
      apply (wall_between_unprotected m0 cur dir); assumption. }
    assert (Hp2 : p <> two_steps cur dir).
    { intros ->. revert Hp.
      apply (odd_cell_unprotected m0 _ Hwf0 Hal0 Hni0 Hno Hnin). }
    rewrite Ho2 by exact Hp2. rewrite Ho1 by exact Hp1. apply Hfr. exact Hp.
Qed.

Lemma walk_frame_pop (m : Maze) (stack : list Point) (cur : Point) :
  walk_frame m0 m stack -> last stack = Some cur ->
  walk_frame m0 m (removelast stack).
Proof.
  intros (Hsh & Hodd & Hfr) Hlast.
  apply last_Some in Hlast as [st' ->]. rewrite removelast_last.
  apply Forall_app in Hodd as [Hodd _].
  split; [exact Hsh|]. split; [exact Hodd|exact Hfr].
Qed.

Lemma runDFS_frame (fuel : nat) (r r' : Rand) (gs : Point) (bias : float64)
  (m1 : Maze) :
  interior m0 gs -> odd_cell gs -> IsInsideDen m0 gs = false ->
  runDFS fuel r gs bias m0 = Ok (m1, r') ->
  walk_frame m0 m1 [].
Proof.
  intros Hgi Hgo Hgin. unfold runDFS. intros (ma & Hma & Hloop)%bind_Ok.
  pose proof (constructed_wf m0 Hcon) as Hwf0.
  assert (Hal0 : has_den m0 -> den_aligned m0) by (apply constructed_den; exact Hcon).
  destruct (set_cell_Ok _ _ _ _ Hma) as (Hrea & _ & Hoa & Hwfa).
  destruct (Hwfa Hwf0) as [Hwfa' _].
  pose proof (regrid_shape _ _ Hrea) as Hsha.
  pose proof (runDFS_loop_rule (walk_frame m0)
                (fun m stack cur dir m1 m2 Hw Hs HI Hl Hd Hc H1 H2 =>
                   walk_frame_push m stack cur dir m1 m2 Hw Hs HI Hl Hd Hc H1 H2)
                (fun m stack cur _ _ HI Hl _ => walk_frame_pop m stack cur HI Hl)
                fuel r bias ma [gs] Hwfa') as Hrule.
  rewrite Hloop in Hrule.
  destruct Hrule as (_ & _ & Hfr).
  - constructor; [|constructor]. apply (interior_shape m0 ma gs Hsha). exact Hgi.
  - split; [exact Hsha|]. split.
    + constructor; [split; assumption|constructor].
    + intros p Hp. apply Hoa. intros ->. revert Hp.
      apply (odd_cell_unprotected m0 gs Hwf0 Hal0 Hgi Hgo Hgin).
  - exact Hfr.
Qed.

(** X14: on a constructed maze, the carving walk from a cell with odd
    coordinates outside the den changes no cell of the outer border, no
    cell of the den and no cell adjacent to the den: the den stays open
    inside and sealed all round, and the maze stays enclosed. *)
Theorem runDFS_protects (fuel : nat) (r r' : Rand) (gs : Point) (bias : float64)
  (m1 : Maze) :
  interior m0 gs -> odd_cell gs -> IsInsideDen m0 gs = false ->
  runDFS fuel r gs bias m0 = Ok (m1, r') ->
  forall p, protected m0 p -> cell_at m1 p = cell_at m0 p.
Proof.
  intros Hgi Hgo Hgin Hrun.
  destruct (runDFS_frame fuel r r' gs bias m1 Hgi Hgo Hgin Hrun) as (_ & _ & Hfr).
  exact Hfr.
Qed.
End WalkFrame.

Lemma runDFS_protects_witness :
  protected den_maze_9 (mkPoint 4 2) /\
  cell_at (fst walked_9) (mkPoint 4 2) = cell_at den_maze_9 (mkPoint 4 2).
Proof.
  assert (Hp : protected den_maze_9 (mkPoint 4 2)) by (right; right; reflexivity).
  split; [exact Hp|].
  apply (runDFS_protects (H := lcg_rand) den_maze_9 den_maze_9_constructed 400
           (NewSource 42) (snd walked_9) (mkPoint 1 1) half (fst walked_9)).
  - split; cbn; lia.
  - split; [exists 0|exists 0]; reflexivity.
  - reflexivity.
  - vm_compute. reflexivity.
  - exact Hp.
Defined.

(** ** The outer border *)

Lemma carve_back_frame (m0 : Maze) (s : Point) (st : carve_state) :
  carve_inv m0 s st -> interior m0 s ->
  forall fuel i p m m', cqueue st !! i = Some p ->
    carve_back fuel (cparent st) s p m = Ok m' ->
    forall q, ~ interior m0 q -> cell_at m' q = cell_at m q.
Proof.
  intros Hi Hs fuel. induction fuel as [|fuel IH]; intros i p m m' Hp; [discriminate|].
  cbn [carve_back]. destruct (decide (p = s)) as [->|Hne].
  { intros [= <-] q _. reflexivity. }
  destruct i as [|i].
  { rewrite (cv_start _ _ _ Hi) in Hp. congruence. }
  destruct (cv_level _ _ _ Hi (S i) p ltac:(lia) Hp)
    as (_ & _ & j & x & Hj & Hx & Hpar).
  rewrite (lookup_total_correct _ _ _ Hpar).
  intros (m1 & Hm1 & Hrec)%bind_Ok q Hq.
  destruct (set_cell_Ok _ _ _ _ Hm1) as (_ & _ & Ho & _).
  rewrite (IH j x m1 m' Hx Hrec q Hq). apply Ho.
  intros ->. apply Hq. eapply carve_inv_interior; eauto.
Qed.

Lemma carve_inv_init (m : Maze) (s : Point) :
  carve_inv m s (mkCarve [s] {[s := true]} ∅).
Proof.
  constructor; cbn [cqueue cvisited cparent].
  - reflexivity.
  - apply NoDup_singleton.
  - intros p. rewrite list_elem_of_singleton. split.
    + intros [x Hx]. apply lookup_singleton_Some in Hx as [<- _]. reflexivity.
    + intros ->. rewrite lookup_singleton_eq. eauto.
  - intros i p Hpos Hp. destruct i as [|i]; [lia|]. discriminate.
Qed.

Section Border.
Context `{RandSource}.

Lemma carvePathToNearest_frame (fuel : nat) (s : Point) (m m' : Maze)
  (err : option error) :
  maze_wf m -> interior m s ->
  carvePathToNearest fuel s m = Ok (m', err) ->
  forall q, ~ interior m q -> cell_at m' q = cell_at m q.
Proof.
  intros Hwf Hs. unfold carvePathToNearest.
  intros ([st target] & Hsearch & Hrest)%bind_Ok.
  pose proof (carve_search_spec m s fuel Hwf 0%nat _ (carve_inv_init m s)
                ltac:(cbn; lia)) as Hsp.
  rewrite Hsearch in Hsp. destruct Hsp as [Hi Ht].
  destruct target as [t|]; [|injection Hrest as <- _; reflexivity].
  apply bind_Ok in Hrest as (m1 & Hback & [= <- _]).
  destruct (Ht t eq_refl) as (j & x & Hx & Hpar).
  destruct fuel as [|fuel]; [discriminate|]. cbn [carve_back] in Hback.
  destruct (decide (t = s)) as [->|Hne].
  { injection Hback as <-. reflexivity. }
  rewrite (lookup_total_correct _ _ _ Hpar) in Hback.
  apply bind_Ok in Hback as (m2 & Hm2 & Hrec).
  intros q Hq.
  destruct (set_cell_Ok _ _ _ _ Hm2) as (_ & _ & Ho & _).
  rewrite (carve_back_frame m s st Hi Hs fuel j x m2 m1 Hx Hrec q Hq).
  apply Ho. intros ->. apply Hq. eapply carve_inv_interior; eauto.
Qed.

Lemma open_door_frame (m m' : Maze) (d : Point) :
  interior m d -> open_door m d = Ok m' ->
  forall q, ~ interior m q -> cell_at m' q = cell_at m q.
Proof.
  intros Hd Ho q Hq. destruct (open_door_Ok _ _ _ Ho) as (_ & _ & _ & Hoth & _).
  apply Hoth. intros ->. contradiction.
Qed.

Lemma connectDen_frame (fuel : nat) (r : Rand) (userDoor : option Point)
  (side : string) (m m' : Maze) (err : option error) :
  maze_wf m -> connectDen fuel r userDoor side m = Ok (m', err) ->
  forall q, ~ interior m q -> cell_at m' q = cell_at m q.
Proof.
  intros Hwf. pose proof (maze_wf_border m Hwf) as Hb. unfold connectDen.
  destruct (orb _ _); [intros [= <- _]; reflexivity|].
  destruct (negb (String.eqb side EmptyString)).
  - unfold connectDenAtSide.
    destruct (side_door m side) as [[d nb]|]; [|intros [= <- _]; reflexivity].
    pose proof (inside_border_spec m d Hb) as Hd.
    pose proof (inside_border_spec m nb Hb) as Hn.
    destruct (inside_border m d); cbn [negb orb]; [|intros [= <- _]; reflexivity].
    destruct (inside_border m nb); cbn [negb orb]; [|intros [= <- _]; reflexivity].
    assert (Hdi : interior m d) by (apply Hd; reflexivity).
    assert (Hni : interior m nb) by (apply Hn; reflexivity).
    intros (cell & _ & Hrest)%bind_Ok.
    destruct (cell =? Path).
    + apply bind_Ok in Hrest as (m1 & Hm1 & [= <- _]).
      apply (open_door_frame m m1 d Hdi Hm1).
    + apply bind_Ok in Hrest as ([m1 e1] & Hcp & Hrest).
      pose proof (carvePathToNearest_frame _ _ _ _ _ Hwf Hni Hcp) as Hf1.
      destruct (carvePathToNearest_Ok _ _ _ _ _ Hcp) as (Hsh & _).
      destruct e1 as [e1|]; [injection Hrest as <- _; exact Hf1|].
      apply bind_Ok in Hrest as (m2 & Hm2 & [= <- _]).
      intros q Hq. rewrite <- (Hf1 q Hq).
      apply (open_door_frame m1 m2 d); [|exact Hm2|].
      * apply (interior_shape m m1 d Hsh). exact Hdi.
      * rewrite (interior_shape m m1 q Hsh). exact Hq.
  - destruct userDoor as [d|].
    + unfold connectDenAtPoint.
      pose proof (inside_border_spec m d Hb) as Hd.
      destruct (inside_border m d); cbn [negb]; [|intros [= <- _]; reflexivity].
      assert (Hdi : interior m d) by (apply Hd; reflexivity).
      intros (cell & _ & Hrest)%bind_Ok.
      destruct (negb (cell =? Wall)); [injection Hrest as <- _; reflexivity|].
      apply bind_Ok in Hrest as (h & _ & Hrest). destruct h.
      { apply bind_Ok in Hrest as (m1 & Hm1 & [= <- _]).
        apply (open_door_frame m m1 d Hdi Hm1). }
      apply bind_Ok in Hrest as (v & _ & Hrest). destruct v.
      { apply bind_Ok in Hrest as (m1 & Hm1 & [= <- _]).
        apply (open_door_frame m m1 d Hdi Hm1). }
      injection Hrest as <- _. reflexivity.
    + unfold connectRandomDenDoor.
      intros (doors & Hdoors & Hrest)%bind_Ok.
      destruct (potentialDoors_spec m Hwf) as (doors' & Hd' & Hiff).
      rewrite Hdoors in Hd'. injection Hd' as <-.
      destruct (0 <? length doors)%nat; [|injection Hrest as <- _; reflexivity].
      apply bind_Ok in Hrest as ([i r'] & _ & Hrest).
      destruct (doors !! Z.to_nat i) as [d|] eqn:Hd; [|discriminate].
      apply bind_Ok in Hrest as (m1 & Hm1 & [= <- _]).
      assert (Hseam : door_seam m d).
      { apply Hiff. eapply list_elem_of_lookup_2; eauto. }
      destruct Hseam as (Hdi & _).
      apply (open_door_frame m m1 d Hdi Hm1).
Qed.

(** No phase of [Generate] writes outside the cells strictly inside the
    border. *)
Lemma Generate_outside (fuel : nat) (seed : Z) (s userDoor : option Point)
  (side : string) (bias : float64) (m m' : Maze) (e : option error) :
  constructed m -> Z.of_nat (cells m) < int_max ->
  Generate fuel seed s userDoor side bias m = Ok (m', e) ->
  same_shape m m' /\ maze_wf m' /\
  forall p, ~ interior m p -> cell_at m' p = cell_at m p.
Proof.
  intros Hcon Hcells HG.
  pose proof (constructed_wf m Hcon) as Hwf.
  destruct (Generate_Ok _ _ _ _ _ _ _ _ _ HG)
    as [(p' & err & _ & _ & _ & -> & _)
       |(gs & r1 & m1 & r2 & m2 & err & Hs & Hdfs & Hcd & Hrest)].
  { split; [apply same_shape_refl|]. split; [exact Hwf|reflexivity]. }
  destruct (generation_start_facts fuel seed s m gs r1 Hwf Hs) as (Hgi & Hgx & Hgy & Hgd).
  pose proof (runDFS_spec fuel r1 gs bias m Hwf Hgi) as Hr. rewrite Hdfs in Hr.
  destruct Hr as (Hwf1 & Hre1 & _ & Hgs1).
  pose proof (regrid_shape _ _ Hre1) as Hsh1.
  assert (H1 : forall p, ~ interior m p -> cell_at m1 p = cell_at m p).
  { intros p Hnp.
    destruct (runDFS_frame m Hcon fuel r1 r2 gs bias m1 Hgi) as (_ & _ & Hfr1);
      try assumption.
    - split; apply Z.odd_spec; assumption.
    - apply Hfr1. left. exact Hnp. }
  destruct (connectDen_Ok _ _ _ _ _ _ _ Hcd) as [(Hsh2 & _ & _ & Hoc2 & Hwf2) _].
  specialize (Hwf2 Hwf1).
  assert (Hsh02 : same_shape m m2) by (eapply same_shape_trans; eauto).
  assert (H2 : forall p, ~ interior m p -> cell_at m2 p = cell_at m p).
  { intros p Hnp. rewrite <- (H1 p Hnp).
    apply (connectDen_frame _ _ _ _ _ _ _ Hwf1 Hcd).
    rewrite (interior_shape m m1 p Hsh1). exact Hnp. }
  destruct err as [de|].
  { destruct Hrest as [_ ->]. split; [exact Hsh02|]. split; [exact Hwf2|exact H2]. }
  destruct Hrest as [_ Hplace].
  assert (Hcells2 : Z.of_nat (cells m2) < int_max).
  { replace (cells m2) with (cells m); [exact Hcells|].
    unfold cells. destruct Hsh02 as (-> & -> & _). reflexivity. }
  assert (Hgi2 : interior m2 gs) by (apply (interior_shape m m2 gs Hsh02); exact Hgi).
  destruct (placeStartAndEnd_Ok _ _ _ _ _ Hplace)
    as (ps & pe & ds & de & m3 & Hps & Hpe & Hm3 & Hm' & Es & Ee & _ & Hsh').
  assert (Hpsi : interior m2 ps).
  { destruct s as [p0|].
    - destruct Hps as [-> _]. exact Hgi2.
    - destruct (findFarthestPoint_result m2 gs fuel ps ds Hwf2 Hcells2 Hps)
        as [->|(_ & Hi & _)]; assumption. }
  assert (Hpei : interior m2 pe).
  { destruct (findFarthestPoint_result m2 ps fuel pe de Hwf2 Hcells2 Hpe)
      as [->|(_ & Hi & _)]; assumption. }
  split; [eapply same_shape_trans; eauto|]. split.
  { destruct (set_cell_Ok _ _ _ _ Hm3) as (_ & _ & _ & Hwf3).
    destruct (set_cell_Ok _ _ _ _ Hm') as (_ & _ & _ & Hwf').
    apply Hwf'. apply Hwf3.
    eapply maze_wf_shape; [|reflexivity|exact Hwf2]. repeat split. }
  intros p Hnp.
  assert (Hnp2 : ~ interior m2 p) by (rewrite (interior_shape m m2 p Hsh02); exact Hnp).
  rewrite (placeStartAndEnd_cells _ _ _ _ _ Hplace p); [apply H2; exact Hnp| |].
  - rewrite Es. intros ->. contradiction.
  - rewrite Ee. intros ->. contradiction.
Qed.

(** X15: [Generate] never opens the outer border: on a constructed maze,
    whether it returns without error or with one, every cell of the first
    and last row and column is still a [Wall]. *)
Theorem Generate_border (fuel : nat) (seed : Z) (s userDoor : option Point)
  (side : string) (bias : float64) (m m' : Maze) (e : option error) :
  constructed m -> Z.of_nat (cells m) < int_max ->
  Generate fuel seed s userDoor side bias m = Ok (m', e) ->
  forall p, inb m p -> ~ interior m p -> cell_at m' p = Ok Wall.
Proof.
  intros Hcon Hcells HG p Hp Hnp.
  pose proof (constructed_wf m Hcon) as Hwf.
  destruct (Generate_outside _ _ _ _ _ _ _ _ _ Hcon Hcells HG) as (_ & _ & Hout).
  rewrite (Hout p Hnp), (constructed_cells m p Hcon Hp).
  destruct (IsInsideDen m p) eqn:E; [exfalso|reflexivity].
  destruct (classic_has_den m) as [Hd|Hd].
  - apply Hnp. apply (inside_den_interior m p Hwf Hd (constructed_den m Hcon Hd) E).
  - destruct (no_den_flags m p Hd) as [E' _]. congruence.
Qed.
End Border.

Lemma Generate_border_witness :
  cell_at door_failure_7 (mkPoint 6 3) = Ok Wall.
Proof.
  apply (Generate_border (H := lcg_rand) 400 42 (Some (mkPoint 5 5)) None "top" half
           den_maze_7 door_failure_7 (Some ErrDoorTooClose)).
  - apply den_maze_7_constructed.
  - vm_compute. reflexivity.
  - apply door_failure_7_ok.
  - split; cbn; lia.
  - unfold interior. cbn. lia.
Defined.

(** ** A door on a named side *)

Lemma carve_explore_target (m : Maze) (cur : Point) (dirs : list Point)
  (st st' : carve_state) (t : Point) :
  carve_explore m cur dirs st = Ok (st', Some t) -> cell_at m t = Ok Path.
Proof.
  revert st. induction dirs as [|dir dirs IH]; intros st; cbn [carve_explore];
    [discriminate|].
  destruct (orb _ _); [apply IH|].
  intros (cell & Hcell & Hrest)%bind_Ok.
  destruct (Z.eqb_spec cell Path) as [->|_].
  { injection Hrest as _ <-. exact Hcell. }
  destruct (cell =? Wall); [|apply (IH _ Hrest)].
  destruct (cvisited st !! _); apply (IH _ Hrest).
Qed.

Lemma carve_search_target (fuel : nat) (m : Maze) (head : nat)
  (st st' : carve_state) (t : Point) :
  carve_search fuel m head st = Ok (st', Some t) -> cell_at m t = Ok Path.
Proof.
  revert head st. induction fuel as [|fuel IH]; intros head st; [discriminate|].
  cbn [carve_search]. destruct (cqueue st !! head) as [cur|]; [|discriminate].
  intros ([st1 target] & Hex & Hrest)%bind_Ok.
  destruct target as [t'|].
  - injection Hrest as <- <-. eapply carve_explore_target; eauto.
  - eapply IH; eauto.
Qed.

(** The backward walk ends on [s], the last cell it carves. *)
Lemma carve_back_sets (fuel : nat) (par : gmap Point Point) (s p : Point)
  (m m' : Maze) :
  carve_back fuel par s p m = Ok m' -> p <> s -> cell_at m' s = Ok Path.
Proof.
  revert p m. induction fuel as [|fuel IH]; intros p m; [discriminate|].
  cbn [carve_back]. destruct (decide (p = s)) as [->|_]; [contradiction|].
  intros (m1 & Hm1 & Hrec)%bind_Ok _.
  destruct (decide (par !!! p = s)) as [E|Hne].
  - rewrite E in *. destruct fuel as [|fuel]; [discriminate|].
    cbn [carve_back] in Hrec. destruct (decide (s = s)); [|contradiction].
    injection Hrec as <-. apply (set_cell_Ok _ _ _ _ Hm1).
  - eapply IH; eauto.
Qed.

Lemma side_door_spec (m : Maze) (side : string) (d nb : Point) :
  maze_wf m -> has_den m -> den_aligned m ->
  side_door m side = Some (d, nb) -> interior m d ->
  exists out, side_out side = Some out /\
    nb = mkPoint (X d + X out) (Y d + Y out) /\
    IsInsideDen m (mkPoint (X d - X out) (Y d - Y out)) = true /\
    IsInsideDen m d = false.
Proof.
  intros Hwf Hd Hal Hside Hdi.
  pose proof (fun p => IsInsideDen_spec m p Hwf Hd Hal) as Hin.
  assert (Hout : forall p, ~ (denStartX m <= X p < denStartX m + denWidth m /\
                              denStartY m <= Y p < denStartY m + denHeight m) ->
                           IsInsideDen m p = false).
  { intros p Hp. destruct (IsInsideDen m p) eqn:E; [|reflexivity].
    exfalso. apply Hp. apply Hin. exact E. }
  pose proof Hwf as (_ & Hwm & Hhm).
  destruct Hal as (_ & _ & _ & _ & A5 & A6 & A7 & A8). destruct Hd as [Hd1 Hd2].
  pose proof (quot2_bounds (denWidth m)) as [Qw _]. specialize (Qw ltac:(lia)).
  pose proof (quot2_bounds (denHeight m)) as [Qh _]. specialize (Qh ltac:(lia)).
  assert (Ew : div64 (denWidth m) 2 = Z.quot (denWidth m) 2).
  { unfold div64. apply wrap_id. unfold is_int, int_min, int_max in *. lia. }
  assert (Eh : div64 (denHeight m) 2 = Z.quot (denHeight m) 2).
  { unfold div64. apply wrap_id. unfold is_int, int_min, int_max in *. lia. }
  assert (Hadd : forall a b, 0 <= a -> 0 <= b -> a + b <= int_max -> add64 a b = a + b).
  { intros a b Ha Hb Hab. unfold add64. apply wrap_id.
    unfold is_int, int_min, int_max in *. lia. }
  assert (Hsub : forall a, 0 < a <= int_max -> sub64 a 1 = a - 1).
  { intros a Ha. unfold sub64. apply wrap_id.
    unfold is_int, int_min, int_max in *. lia. }
  revert Hside. unfold side_door, side_out. rewrite Ew, Eh.
  destruct (decide (side = "top"%string)) as [_|_];
    [|destruct (decide (side = "bottom"%string)) as [_|_];
      [|destruct (decide (side = "left"%string)) as [_|_];
        [|destruct (decide (side = "right"%string)) as [_|_]; [|discriminate]]]];
    intros [= <- <-]; eexists; (split; [reflexivity|]);
    revert Hdi; unfold interior; cbn [X Y];
    rewrite ?Hadd, ?Hsub by lia; intros Hdi;
    rewrite ?Hadd, ?Hsub by lia;
    (split; [f_equal; lia|]);
    (split; [apply Hin; cbn [X Y]; lia|apply Hout; cbn [X Y]; lia]).
Qed.

Section DoorAtSide.
Context `{RandSource}.

(** X16: when [connectDenAtSide] succeeds, the recorded door is a [Path]
    strictly inside the border and outside the den, the cell behind it in
    the direction away from the named side is inside the den, and the cell
    in front of it is a [Path] too, whether it was one before or was carved
    by the corridor search. *)
Theorem connectDenAtSide_door (fuel : nat) (side : string) (m m' : Maze) :
  maze_wf m -> has_den m -> den_aligned m ->
  connectDenAtSide fuel side m = Ok (m', None) ->
  exists out, side_out side = Some out /\
    interior m (door m') /\ IsInsideDen m (door m') = false /\
    cell_at m' (door m') = Ok Path /\
    cell_at m' (mkPoint (X (door m') + X out) (Y (door m') + Y out)) = Ok Path /\
    IsInsideDen m (mkPoint (X (door m') - X out) (Y (door m') - Y out)) = true.
Proof.
  intros Hwf Hd Hal. pose proof (maze_wf_border m Hwf) as Hb.
  unfold connectDenAtSide.
  destruct (side_door m side) as [[d nb]|] eqn:Hside; [|discriminate].
  pose proof (inside_border_spec m d Hb) as Hdb.
  pose proof (inside_border_spec m nb Hb) as Hnb.
  destruct (inside_border m d); cbn [negb orb]; [|discriminate].
  destruct (inside_border m nb); cbn [negb orb]; [|discriminate].
  assert (Hdi : interior m d) by (apply Hdb; reflexivity).
  assert (Hni : interior m nb) by (apply Hnb; reflexivity).
  destruct (side_door_spec m side d nb Hwf Hd Hal Hside Hdi)
    as (out & Hout & Enb & Hinner & Hdout).
  assert (Hne : nb <> d).
  { intros E. rewrite E in Enb. revert Hout Enb. unfold side_out.
    repeat destruct (decide _); intros [= <-]; destruct d as [dx dy]; cbn [X Y];
      intros [=]; lia. }
  intros (cell & Hcell & Hrest)%bind_Ok.
  assert (Hfinal : forall m1, cell_at m1 nb = Ok Path -> open_door m1 d = Ok m' ->
    exists out, side_out side = Some out /\
      interior m (door m') /\ IsInsideDen m (door m') = false /\
      cell_at m' (door m') = Ok Path /\
      cell_at m' (mkPoint (X (door m') + X out) (Y (door m') + Y out)) = Ok Path /\
      IsInsideDen m (mkPoint (X (door m') - X out) (Y (door m') - Y out)) = true).
  { intros m1 Hnp Ho. destruct (open_door_Ok _ _ _ Ho) as (_ & Ed & Hc & Hoth & _).
    exists out. rewrite Ed. split; [exact Hout|]. split; [exact Hdi|].
    split; [exact Hdout|]. split; [exact Hc|]. split; [|exact Hinner].
    rewrite <- Enb. rewrite (Hoth nb Hne). exact Hnp. }
  destruct (Z.eqb_spec cell Path) as [->|Hnp].
  - apply bind_Ok in Hrest as (m1 & Hm1 & [= <-]).
    apply (Hfinal m Hcell Hm1).
  - apply bind_Ok in Hrest as ([m1 e1] & Hcp & Hrest).
    destruct e1 as [e1|]; [discriminate|].
    apply bind_Ok in Hrest as (m2 & Hm2 & [= <-]).
    apply (Hfinal m1); [|exact Hm2].
    revert Hcp. unfold carvePathToNearest.
    intros ([st target] & Hsearch & Hrest)%bind_Ok.
    destruct target as [t|]; [|discriminate].
    apply bind_Ok in Hrest as (m3 & Hback & [= <-]).
    eapply carve_back_sets; [exact Hback|].
    intros ->. pose proof (carve_search_target _ _ _ _ _ _ Hsearch) as Ht.
    rewrite Hcell in Ht. congruence.
Qed.
End DoorAtSide.

Lemma walked_9_wf : maze_wf (fst walked_9).
Proof.
  split; [|split; vm_compute; discriminate].
  repeat split; try (cbn; lia). repeat constructor.
Qed.

Lemma connectDenAtSide_door_witness :
  exists out, side_out "top" = Some out /\
    interior (fst walked_9) (door sided_9) /\
    IsInsideDen (fst walked_9) (door sided_9) = false /\
    cell_at sided_9 (door sided_9) = Ok Path /\
    cell_at sided_9 (mkPoint (X (door sided_9) + X out) (Y (door sided_9) + Y out))
    = Ok Path /\
    IsInsideDen (fst walked_9)
      (mkPoint (X (door sided_9) - X out) (Y (door sided_9) - Y out)) = true.
Proof.
  apply (connectDenAtSide_door 400 "top" (fst walked_9) sided_9).
  - apply walked_9_wf.
  - split; reflexivity.
  - repeat split; vm_compute; try reflexivity; discriminate.
  - vm_compute. reflexivity.
Defined.

(** ** The cells the farthest-point search visits *)

Lemma far_explore_enq (m : Maze) (s cur : Point) (st st' : far_state) (dir : Point) :
  maze_wf m -> far_inv m s st ->
  far_explore m cur st dir = Ok st' ->
  interior m (move cur dir) -> open_cell m (move cur dir) ->
  move cur dir ∈ fqueue st'.
Proof.
  intros Hwf Hi. unfold far_explore. intros Hex Hin (c & Hc & Hnw).
  apply (inside_border_spec m _ (maze_wf_border m Hwf)) in Hin.
  rewrite Hin in Hex. unfold cell_at in Hex. rewrite Hc in Hex.
  cbn [mbind result_bind] in Hex.
  destruct (Z.eqb_spec c Wall) as [|_]; [contradiction|]. cbn [negb] in Hex.
  destruct (distances st !! move cur dir) as [dn|] eqn:Hd.
  - injection Hex as <-. apply (fi_keys _ _ _ Hi). eauto.
  - destruct (_ && _); injection Hex as <-; cbn [fqueue];
      apply elem_of_app; right; apply list_elem_of_singleton; reflexivity.
Qed.

Lemma far_explore_all_enq (m : Maze) (s cur : Point) (c : nat) (dirs : list Point) :
  maze_wf m -> Z.of_nat (cells m) < int_max ->
  (forall dir, dir ∈ dirs -> dir ∈ directions) ->
  forall st st', far_inv m s st -> fqueue st !! c = Some cur ->
  for_each (far_explore m cur) dirs st = Ok st' ->
  forall dir, dir ∈ dirs -> interior m (move cur dir) -> open_cell m (move cur dir) ->
    move cur dir ∈ fqueue st'.
Proof.
  intros Hwf Hcells. induction dirs as [|d dirs IH]; intros Hsub st st' Hi Hcur Hfe dir Hdir.
  - inversion Hdir.
  - cbn [for_each] in Hfe. apply bind_Ok in Hfe as (st1 & H1 & Hrest).
    destruct (far_explore_spec m s cur c st d Hwf Hcells Hi Hcur)
      as (st1' & H1' & Hi1 & suf1 & Hq1); [apply Hsub; left|].
    rewrite H1 in H1'. injection H1' as <-.
    assert (Hcur1 : fqueue st1 !! c = Some cur).
    { rewrite Hq1. rewrite lookup_app_l; [exact Hcur|eapply lookup_lt_Some; eauto]. }
    destruct (far_explore_all m s cur c dirs Hwf Hcells
                (fun d' Hd' => Hsub d' (list_elem_of_further _ _ _ Hd')) st1 Hi1 Hcur1)
      as (st'' & Hst'' & _ & suf' & Hq').
    rewrite Hrest in Hst''. injection Hst'' as <-.
    apply elem_of_cons in Hdir as [->|Hdir].
    + intros Hin Hop. rewrite Hq'. apply elem_of_app. left.
      apply (far_explore_enq m s cur st st1 d Hwf Hi H1 Hin Hop).
    + eapply (IH (fun d' Hd' => Hsub d' (list_elem_of_further _ _ _ Hd')) st1 st');
        eauto.
Qed.

Lemma far_search_closed (m : Maze) (s : Point) :
  maze_wf m -> Z.of_nat (cells m) < int_max ->
  forall fuel head st st', far_inv m s st -> (head <= length (fqueue st))%nat ->
    far_closed m st head ->
    far_search fuel m head st = Ok st' ->
    far_inv m s st' /\ far_closed m st' (length (fqueue st')).
Proof.
  intros Hwf Hcells fuel. induction fuel as [|fuel IH]; intros head st st' Hi Hh Hcl;
    [discriminate|].
  cbn [far_search]. destruct (fqueue st !! head) as [cur|] eqn:Hcur.
  2: { intros [= <-]. apply lookup_ge_None in Hcur.
       replace (length (fqueue st)) with head by lia. auto. }
  intros (st1 & Hfe & Hrec)%bind_Ok.
  destruct (far_explore_all m s cur head directions Hwf Hcells (fun _ Hd => Hd) st Hi Hcur)
    as (st1' & Hst1 & Hi1 & suf & Hq).
  rewrite Hfe in Hst1. injection Hst1 as <-.
  pose proof (lookup_lt_Some _ _ _ Hcur) as Hlt.
  apply (IH (S head) st1 st' Hi1); [rewrite Hq, length_app; lia| |exact Hrec].
  intros i p dir Hil Hp Hdir Hin Hop.
  destruct (decide (i = head)) as [->|Hne].
  - rewrite Hq, lookup_app_l in Hp by exact Hlt.
    rewrite Hcur in Hp. injection Hp as <-.
    apply (far_explore_all_enq m s cur head directions Hwf Hcells (fun _ Hd => Hd)
             st st1 Hi Hcur Hfe dir Hdir Hin Hop).
  - assert (Hil' : (i < head)%nat) by lia.
    rewrite Hq, lookup_app_l in Hp by lia.
    rewrite Hq. apply elem_of_app. left. eapply Hcl; eauto.
Qed.

Lemma far_inv_inner (m : Maze) (s : Point) (st : far_state) :
  far_inv m s st -> forall i p, fqueue st !! i = Some p -> inner_reach m s p.
Proof.
  intros Hi i. induction (lt_wf i) as [i _ IH]. intros p Hp.
  destruct i as [|i].
  - rewrite (fi_start _ _ _ Hi) in Hp. injection Hp as <-. constructor.
  - destruct (fi_level _ _ _ Hi (S i) p ltac:(lia) Hp)
      as (Hpi & Hpo & j & q & dq & Hj & Hq & (dir & Hdir & ->) & _).
    apply ir_step; [eapply IH; eauto|exact Hdir|exact Hpi|exact Hpo].
Qed.

Lemma far_closed_inner (m : Maze) (s : Point) (st : far_state) :
  far_inv m s st -> far_closed m st (length (fqueue st)) ->
  forall p, inner_reach m s p -> p ∈ fqueue st.
Proof.
  intros Hi Hcl p Hr. induction Hr as [|p dir _ IH Hdir Hin Hop].
  - eapply list_elem_of_lookup_2. apply (fi_start _ _ _ Hi).
  - apply list_elem_of_lookup_1 in IH as [i Hp].
    eapply Hcl; eauto. eapply lookup_lt_Some; eauto.
Qed.

(** The search visits exactly the cells within reach, and returns the
    reference point only when no other cell within reach qualifies. *)
Lemma findFarthestPoint_reach (m : Maze) (s : Point) (fuel : nat) (p : Point) (d : Z) :
  maze_wf m -> Z.of_nat (cells m) < int_max ->
  findFarthestPoint fuel m s = Ok (p, d) ->
  inner_reach m s p /\
  (p = s <-> forall q, inner_reach m s q -> q <> s -> ~ qualifies m q) /\
  (p <> s -> qualifies m p /\ 0 < d).
Proof.
  intros Hwf Hcells Hf.
  destruct (findFarthestPoint_Ok m s fuel p d Hwf Hcells Hf) as (st & Hs & -> & -> & _).
  destruct (far_search_closed m s Hwf Hcells fuel 0%nat _ st (far_inv_init m s))
    as [Hi Hcl]; [cbn; lia|intros i q dir Hlt; lia|exact Hs|].
  assert (Hfar_in : farthestPoint st ∈ fqueue st).
  { apply (fi_keys _ _ _ Hi). rewrite (fi_far _ _ _ Hi). eauto. }
  split.
  { apply list_elem_of_lookup_1 in Hfar_in as [i Hfi]. eapply far_inv_inner; eauto. }
  destruct (fi_choice _ _ _ Hi) as [[E0 Em]|(j & Hj & Hfj & Hql & Hmd & _)].
  - split; [|intros Hne; contradiction].
    split; [|intros _; exact E0].
    intros _ q Hq Hne Hqual.
    pose proof (far_closed_inner m s st Hi Hcl q Hq) as Hqin.
    destruct (far_inv_index m s st q Hi Hqin Hne) as (i & Hpos & Hqi).
    destruct (proj2 (fi_keys _ _ _ Hi q) Hqin) as [dq Hdq].
    pose proof (fi_max _ _ _ Hi i q dq Hpos Hqi Hqual Hdq).
    pose proof (far_inv_tail_level m s st Hi i q dq Hpos Hqi Hdq). lia.
  - pose proof (far_inv_positive m s st j _ Hi Hj Hfj) as Hne.
    split; [|intros _; split; assumption].
    split; [intros E; contradiction|].
    intros Hall. exfalso. apply (Hall (farthestPoint st)); try assumption.
    eapply far_inv_inner; eauto.
Qed.

(** X17: [findFarthestPoint] searches exactly the cells reached from the
    reference point through non-wall cells strictly inside the border: it
    returns such a cell, and it returns the reference point itself exactly
    when no other cell within reach is outside the den and not adjacent to
    it; otherwise the point returned is such a cell, at a positive
    distance. *)
Theorem findFarthestPoint_within_reach (m : Maze) (s : Point) (fuel : nat) :
  maze_wf m -> Z.of_nat (cells m) < int_max -> (S (cells m) < fuel)%nat ->
  exists p d, findFarthestPoint fuel m s = Ok (p, d) /\
    inner_reach m s p /\
    (p = s <-> forall q, inner_reach m s q -> q <> s -> ~ qualifies m q) /\
    (p <> s -> qualifies m p /\ 0 < d).
Proof.
  intros Hwf Hcells Hf.
  destruct (findFarthestPoint_spec m s fuel Hwf Hcells Hf) as (st & _ & Hfp & _).
  exists (farthestPoint st), (maxDistance st). split; [exact Hfp|].
  apply (findFarthestPoint_reach m s fuel _ _ Hwf Hcells Hfp).
Qed.

Lemma findFarthestPoint_within_reach_witness :
  exists p d, findFarthestPoint 100 generated_5 (mkPoint 1 1) = Ok (p, d) /\
    inner_reach generated_5 (mkPoint 1 1) p /\
    (p = mkPoint 1 1 <->
     forall q, inner_reach generated_5 (mkPoint 1 1) q -> q <> mkPoint 1 1 ->
       ~ qualifies generated_5 q) /\
    (p <> mkPoint 1 1 -> qualifies generated_5 p /\ 0 < d).
Proof.
  apply (findFarthestPoint_within_reach generated_5 (mkPoint 1 1) 100).
  - split; [|split; vm_compute; discriminate].
    repeat split; try (cbn; lia). repeat constructor.
  - vm_compute. reflexivity.
  - vm_compute. lia.
Defined.

(** ** When the start and the end coincide *)

Section Coincide.
Context `{RandSource}.

(** X18: on a maze constructed without a den and generated without error,
    the start and the end are the same cell exactly when the maze is three
    cells wide and three cells high; that cell then carries the [End]
    marker and no cell carries the [Start] marker. *)
Theorem start_end_coincide (fuel : nat) (seed : Z) (s userDoor : option Point)
  (side : string) (bias : float64) (m m' : Maze) :
  constructed m -> denWidth m = 0 -> Z.of_nat (cells m) < int_max ->
  Generate fuel seed s userDoor side bias m = Ok (m', None) ->
  (start m' = end_ m' <-> width m = 3 /\ height m = 3) /\
  (start m' = end_ m' ->
   cell_at m' (end_ m') = Ok End /\ forall p, cell_at m' p <> Ok Start).
Proof.
  intros Hcon Hden Hcells HG.
  pose proof (constructed_wf m Hcon) as Hwf.
  destruct (Generate_Ok _ _ _ _ _ _ _ _ _ HG)
    as [(p' & err & _ & [=] & _)
       |(gs & r1 & m1 & r2 & m2 & err & Hs & Hdfs & Hcd & Hrest)].
  destruct (generation_start_facts fuel seed s m gs r1 Hwf Hs) as (Hgi & Hgx & Hgy & _).
  assert (Hgo : odd_cell gs) by (split; apply Z.odd_spec; assumption).
  destruct (runDFS_tree fuel r1 gs bias m m1 r2 Hcon Hden Hgi Hgo Hdfs)
    as (Hwf1 & Hre1 & Hinv & Hgw & Hall).
  pose proof (regrid_shape _ _ Hre1) as Hsh1.
  assert (Hden1 : denWidth m1 = 0) by (destruct Hsh1 as (_ & _ & -> & _); exact Hden).
  rewrite (connectDen_no_den fuel r2 userDoor side m1 Hden1) in Hcd.
  injection Hcd as <- <-. destruct Hrest as [_ Hplace].
  assert (Hcells1 : Z.of_nat (cells m1) < int_max).
  { replace (cells m1) with (cells m); [exact Hcells|].
    unfold cells. destruct Hsh1 as (-> & -> & _). reflexivity. }
  destruct (placeStartAndEnd_walkable fuel gs _ m1 m' Hwf1 Hcells1 Hgw Hplace)
    as (Hws & Hwe & Hwiff).
  destruct (placeStartAndEnd_Ok _ _ _ _ _ Hplace)
    as (ps & pe & ds & de & m3 & Hps & Hpe & Hm3 & Hm' & Es & Ee & _ & Hsh').
  rewrite Es, Ee in *.
  pose proof (ci_interior _ Hinv ps Hws) as Hpsi.
  pose proof (ci_interior _ Hinv pe Hwe) as Hpei.
  destruct Hsh1 as (Ew & Eh & _).
  assert (Hiff : ps = pe <-> width m = 3 /\ height m = 3).
  { split.
    - intros <-.
      destruct (Z_le_dec 5 (width m)) as [Hw5|Hw5];
        [|destruct (Z_le_dec 5 (height m)) as [Hh5|Hh5]].
      3: { destruct (constructed_fresh m Hcon) as (_ & _ & _ & How & Hoh & _).
           apply Z.odd_spec in How as [kw Ekw], Hoh as [kh Ekh].
           unfold interior in Hgi. lia. }
      all: exfalso.
      all: assert (Ha : walkable m1 (mkPoint 1 1))
             by (apply Hall; [unfold interior in *; cbn [X Y]; lia
                             |split; exists 0; reflexivity]).
      1: assert (Hother : exists c, walkable m1 c /\ c <> ps).
      { assert (Hb : walkable m1 (mkPoint 3 1))
          by (apply Hall; [unfold interior in *; cbn [X Y]; lia
                          |split; [exists 1|exists 0]; reflexivity]).
        destruct (decide (mkPoint 1 1 = ps)) as [Ea|Ea];
          [exists (mkPoint 3 1); split; [exact Hb|]; rewrite <- Ea; discriminate
          |exists (mkPoint 1 1); split; [exact Ha|exact Ea]]. }
      2: assert (Hother : exists c, walkable m1 c /\ c <> ps).
      2: { assert (Hb : walkable m1 (mkPoint 1 3))
             by (apply Hall; [unfold interior in *; cbn [X Y]; lia
                             |split; [exists 0|exists 1]; reflexivity]).
           destruct (decide (mkPoint 1 1 = ps)) as [Ea|Ea];
             [exists (mkPoint 1 3); split; [exact Hb|]; rewrite <- Ea; discriminate
             |exists (mkPoint 1 1); split; [exact Ha|exact Ea]]. }
      all: destruct Hother as (c & Hc & Hcne).
      all: destruct (ci_tree _ Hinv ps c Hws Hc) as (l & (Hh & Hl & Hlk & Hnd & Hfa) & _).
      all: destruct l as [|x l]; [discriminate|]; injection Hh as ->.
      all: destruct l as [|q l]; [cbn in Hl; congruence|].
      all: destruct Hlk as [Hadj _].
      all: apply Forall_cons in Hfa as [_ Hfa]; apply Forall_cons in Hfa as [Hq _].
      all: pose proof (ci_interior _ Hinv q Hq) as Hqi.
      all: destruct (adjacent_stepped m1 ps q (maze_wf_ints m1 Hwf1)
                       (interior_inb _ _ Hpsi) Hadj) as (dir & Hdir & Eq).
      all: destruct (findFarthestPoint_reach m1 ps fuel ps de Hwf1 Hcells1 Hpe)
             as (_ & [Hto _] & _).
      all: apply (Hto eq_refl q).
      all: try (rewrite Eq; apply ir_step;
                [constructor|exact Hdir|rewrite <- Eq; exact Hqi
                |rewrite <- Eq; apply Hq]).
      all: try (intros ->; eapply adjacent_irrefl; eauto).
      all: split; [apply den_free_inside|apply den_free_adjacent]; exact Hden1.
    - intros [E3w E3h]. unfold interior in Hpsi, Hpei.
      destruct ps as [sx sy], pe as [ex ey]. cbn [X Y] in *. f_equal; lia. }
  split; [exact Hiff|].
  destruct (set_cell_Ok _ _ _ _ Hm3) as (_ & _ & Ho3 & _).
  destruct (set_cell_Ok _ _ _ _ Hm') as (_ & Hc' & Ho' & _).
  intros E. split; [exact Hc'|].
  intros p Hp. rewrite <- E in *.
  destruct (decide (p = ps)) as [->|Hne].
  - rewrite Hc' in Hp. discriminate.
  - rewrite Ho', Ho3 in Hp by exact Hne.
    assert (Hcell : cell_at m1 p = Ok Start) by exact Hp.
    assert (Hpw : walkable m1 p).
    { split; [|exists Start; split; [exact Hcell|discriminate]].
      apply (cell_at_inb m1 p Start Hwf1 Hcell). }
    (* no cell of the carved maze holds a marker *)
    pose proof (runDFS_spec fuel r1 gs bias m Hwf Hgi) as Hr. rewrite Hdfs in Hr.
    destruct Hr as (_ & _ & Hoc & _).
    destruct (Hoc p) as [E1|E1]; [rewrite E1 in Hcell; discriminate|].
    rewrite E1 in Hcell.
    assert (Hpin : inb m p).
    { destruct Hpw as [[Hx Hy] _]. split; lia. }
    rewrite (constructed_cells m p Hcon Hpin) in Hcell.
    destruct (IsInsideDen m p); discriminate.
Qed.
End Coincide.

Lemma start_end_coincide_witness :
  start generated_3 = end_ generated_3 /\
  cell_at generated_3 (end_ generated_3) = Ok End /\
  forall p, cell_at generated_3 p <> Ok Start.
Proof.
  destruct (start_end_coincide (H := lcg_rand) 200 42 None None EmptyString half
              plain_maze_3 generated_3) as [Hiff Hmark].
  - exists 3, 3, 0, 0. repeat split; try (apply small_is_int; lia).
  - reflexivity.
  - vm_compute. reflexivity.
  - vm_compute. reflexivity.
  - assert (E : start generated_3 = end_ generated_3)
      by (apply Hiff; split; reflexivity).
    split; [exact E|]. apply Hmark. exact E.
Defined.

(** ** The cells of a generated maze *)

Section Markers.
Context `{RandSource}.

(** X19: a maze constructed by [New] and generated without error holds
    exactly one [End] marker, on its end cell, and at most one [Start]
    marker, on its start cell (none when the start is the end); every
    other cell of the rectangle is a [Wall] or a [Path], no cell is a
    [SolutionPath], and every cell of the den is still a [Path]. *)
Theorem generated_cells (fuel : nat) (seed : Z) (s userDoor : option Point)
  (side : string) (bias : float64) (m m' : Maze) :
  constructed m -> Z.of_nat (cells m) < int_max ->
  Generate fuel seed s userDoor side bias m = Ok (m', None) ->
  (forall p, cell_at m' p = Ok End <-> p = end_ m') /\
  (forall p, cell_at m' p = Ok Start <-> p = start m' /\ start m' <> end_ m') /\
  (forall p, inb m' p -> p <> start m' -> p <> end_ m' ->
     cell_at m' p = Ok Wall \/ cell_at m' p = Ok Path) /\
  (forall p, IsInsideDen m' p = true -> cell_at m' p = Ok Path).
Proof.
  intros Hcon Hcells HG.
  pose proof (constructed_wf m Hcon) as Hwf.
  destruct (Generate_Ok _ _ _ _ _ _ _ _ _ HG)
    as [(p' & err & _ & [=] & _)
       |(gs & r1 & m1 & r2 & m2 & err & Hs & Hdfs & Hcd & Hrest)].
  destruct (generation_start_facts fuel seed s m gs r1 Hwf Hs) as (Hgi & _).
  pose proof (runDFS_spec fuel r1 gs bias m Hwf Hgi) as Hr. rewrite Hdfs in Hr.
  destruct Hr as (Hwf1 & Hre1 & Hoc1 & _).
  pose proof (regrid_shape _ _ Hre1) as Hsh1.
  destruct (connectDen_Ok _ _ _ _ _ _ _ Hcd) as [(Hsh2 & _ & _ & Hoc2 & Hwf2) _].
  specialize (Hwf2 Hwf1).
  destruct err as [de|]; [destruct Hrest as [[=] _]|].
  destruct Hrest as [_ Hplace].
  assert (Hsh02 : same_shape m m2) by (eapply same_shape_trans; eauto).
  pose proof (only_carved_trans _ _ _ Hoc1 Hoc2) as Hoc.
  assert (Hplain : forall p c, cell_at m2 p = Ok c -> c = Wall \/ c = Path).
  { intros p c Hc.
    assert (Hpin : inb m p).
    { apply (inb_shape m m2 p Hsh02). eapply cell_at_inb; eauto. }
    destruct (Hoc p) as [E|E]; rewrite E in Hc.
    - injection Hc as <-. auto.
    - rewrite (constructed_cells m p Hcon Hpin) in Hc. injection Hc as <-.
      destruct (IsInsideDen m p); auto. }
  destruct (placeStartAndEnd_Ok _ _ _ _ _ Hplace)
    as (ps & pe & ds & de & m3 & _ & _ & Hm3 & Hm' & Es & Ee & _ & Hsh').
  rewrite Es, Ee.
  destruct (set_cell_Ok _ _ _ _ Hm3) as (_ & Hc3 & Ho3 & _).
  destruct (set_cell_Ok _ _ _ _ Hm') as (_ & Hc' & Ho' & _).
  assert (Hm2 : forall p, cell_at (set_end pe (set_start ps m2)) p = cell_at m2 p)
    by reflexivity.
  assert (Hcellm' : forall p, cell_at m' p =
            if decide (p = pe) then Ok End
            else if decide (p = ps) then Ok Start else cell_at m2 p).
  { intros p. destruct (decide (p = pe)) as [->|Hne]; [exact Hc'|].
    rewrite Ho' by exact Hne.
    destruct (decide (p = ps)) as [->|Hns]; [exact Hc3|].
    rewrite Ho3 by exact Hns. apply Hm2. }
  split; [|split; [|split]].
  - intros p. rewrite Hcellm'.
    destruct (decide (p = pe)); [tauto|].
    destruct (decide (p = ps)); [split; [discriminate|contradiction]|].
    split; [|contradiction]. intros Hc. destruct (Hplain p End Hc); discriminate.
  - intros p. rewrite Hcellm'.
    destruct (decide (p = pe)) as [->|Hne].
    { split; [discriminate|]. intros [-> Hn]. contradiction. }
    destruct (decide (p = ps)) as [->|Hns]; [split; [auto|reflexivity]|].
    split; [|intros [? _]; contradiction].
    intros Hc. destruct (Hplain p Start Hc); discriminate.
  - intros p Hp Hns Hne. rewrite Hcellm'.
    destruct (decide (p = pe)); [contradiction|].
    destruct (decide (p = ps)); [contradiction|].
    assert (Hp2 : inb m2 p) by (apply (inb_shape m2 m' p Hsh'); exact Hp).
    destruct (maze_wf_cell m2 p Hwf2 Hp2) as [c Hc]. rewrite Hc.
    destruct (Hplain p c Hc) as [-> | ->]; auto.
  - intros p Hp.
    assert (Hsh0' : same_shape m m') by (eapply same_shape_trans; eauto).
    rewrite (IsInsideDen_shape m m' p Hsh0') in Hp.
    destruct (classic_has_den m) as [Hd|Hd].
    2: { destruct (no_den_flags m p Hd) as [E _]. congruence. }
    pose proof (constructed_den m Hcon Hd) as Hal.
    pose proof (inside_den_interior m p Hwf Hd Hal Hp) as Hpi.
    destruct (generated_endpoints_qualify m fuel seed s userDoor side bias m'
                Hwf Hcells Hcon Hd HG) as [[Hqs _] [Hqe _]].
    rewrite Es, (IsInsideDen_shape m m' ps Hsh0') in Hqs.
    rewrite Ee, (IsInsideDen_shape m m' pe Hsh0') in Hqe.
    rewrite Hcellm'.
    destruct (decide (p = pe)) as [->|_]; [congruence|].
    destruct (decide (p = ps)) as [->|_]; [congruence|].
    eapply only_carved_path; [exact Hoc|].
    rewrite (constructed_cells m p Hcon (interior_inb _ _ Hpi)), Hp. reflexivity.
Qed.
End Markers.

Lemma generated_cells_witness :
  (forall p, cell_at generated_9 p = Ok End <-> p = end_ generated_9) /\
  (forall p, cell_at generated_9 p = Ok Start <->
     p = start generated_9 /\ start generated_9 <> end_ generated_9) /\
  (forall p, inb generated_9 p -> p <> start generated_9 -> p <> end_ generated_9 ->
     cell_at generated_9 p = Ok Wall \/ cell_at generated_9 p = Ok Path) /\
  (forall p, IsInsideDen generated_9 p = true -> cell_at generated_9 p = Ok Path).
Proof.
  apply (generated_cells (H := lcg_rand) 400 42 None None EmptyString half
           den_maze_9 generated_9).
  - apply den_maze_9_constructed.
  - vm_compute. reflexivity.
  - vm_compute. reflexivity.
Defined.

(** ** The corridor search *)

Lemma carve_explore_sound (m : Maze) (s cur : Point) (c : nat) (dirs : list Point) :
  maze_wf m -> (forall dir, dir ∈ dirs -> dir ∈ directions) ->
  forall st st' target, carve_inv m s st -> carve_sound m s st ->
  cqueue st !! c = Some cur ->
  carve_explore m cur dirs st = Ok (st', target) ->
  carve_sound m s st' /\
  match target with
  | Some t => exists dir, dir ∈ directions /\ t = move cur dir /\ interior m t /\
                cell_at m t = Ok Path /\ cparent st' !! t = Some cur
  | None => forall dir, dir ∈ dirs -> interior m (move cur dir) ->
              cell_at m (move cur dir) <> Ok Path /\
              (cell_at m (move cur dir) = Ok Wall -> move cur dir ∈ cqueue st')
  end.
Proof.
  intros Hwf. destruct (maze_wf_border m Hwf) as [Hbw Hbh].
  induction dirs as [|dir dirs IH]; intros Hsub st st' target Hi Hso Hcur;
    cbn [carve_explore].
  - intros [= <- <-]. split; [exact Hso|]. intros dir Hdir. inversion Hdir.
  - assert (Hsub' : forall d, d ∈ dirs -> d ∈ directions)
      by (intros d Hd; apply Hsub; right; exact Hd).
    assert (Hdirin : dir ∈ directions) by (apply Hsub; left).
    assert (Hcurq : cur ∈ cqueue st) by (eapply list_elem_of_lookup_2; eauto).
    remember (move cur dir) as next eqn:Hnext.
    rewrite !sub64_pred by assumption.
    destruct (orb _ _) eqn:Eb.
    { intros Hex. destruct (IH Hsub' st st' target Hi Hso Hcur Hex) as [Hso' Ht].
      split; [exact Hso'|]. destruct target as [t|]; [exact Ht|].
      intros d [->|Hd]%elem_of_cons; [|apply Ht; exact Hd].
      rewrite <- Hnext. intros Hin. exfalso.
      apply orb_true_iff in Eb as [[[E|E]%orb_true_iff|E]%orb_true_iff|E];
        apply Z.leb_le in E; unfold interior in Hin; lia. }
    apply orb_false_iff in Eb as [[[E1 E2]%orb_false_iff E3]%orb_false_iff E4].
    apply Z.leb_gt in E1, E2, E3, E4.
    assert (Hin : interior m next) by (unfold interior; lia).
    destruct (maze_wf_cell m next Hwf (interior_inb _ _ Hin)) as [cell Hcell].
    rewrite Hcell. rsimpl.
    destruct (Z.eqb_spec cell Path) as [->|Hnp].
    { intros [= <- <-]. split.
      - destruct Hso as [Hst Hre]. split; [|exact Hre].
        cbn [cparent]. intros p q Hpq.
        destruct (decide (p = next)) as [->|Hne].
        + rewrite lookup_insert_eq in Hpq. injection Hpq as <-.
          exists dir. split; [exact Hdirin|exact Hnext].
        + rewrite lookup_insert_ne in Hpq by congruence. apply Hst. exact Hpq.
      - exists dir. split; [exact Hdirin|]. split; [exact Hnext|].
        split; [exact Hin|]. split; [exact Hcell|]. cbn [cparent].
        apply lookup_insert_eq. }
    assert (Hstep : forall st1, carve_inv m s st1 -> carve_sound m s st1 ->
              cqueue st1 !! c = Some cur ->
              (cell = Wall -> next ∈ cqueue st1) ->
              carve_explore m cur dirs st1 = Ok (st', target) ->
              carve_sound m s st' /\
              match target with
              | Some t => exists dir0, dir0 ∈ directions /\ t = move cur dir0 /\
                            interior m t /\ cell_at m t = Ok Path /\
                            cparent st' !! t = Some cur
              | None => forall dir0, dir0 ∈ dir :: dirs -> interior m (move cur dir0) ->
                          cell_at m (move cur dir0) <> Ok Path /\
                          (cell_at m (move cur dir0) = Ok Wall ->
                           move cur dir0 ∈ cqueue st')
              end).
    { intros st1 Hi1 Hso1 Hcur1 Hq Hex.
      destruct (IH Hsub' st1 st' target Hi1 Hso1 Hcur1 Hex) as [Hso' Ht].
      split; [exact Hso'|]. destruct target as [t|]; [exact Ht|].
      intros d [->|Hd]%elem_of_cons; [|apply Ht; exact Hd].
      rewrite <- Hnext. intros _. rewrite Hcell. split; [congruence|].
      intros [= ->].
      destruct (carve_explore_spec m s cur c dirs Hwf st1 Hi1 Hcur1)
        as (st2 & t2 & Hex2 & _ & [suf Hsuf] & _).
      rewrite Hex in Hex2. injection Hex2 as <- _.
      rewrite Hsuf. apply elem_of_app. left. apply Hq. reflexivity. }
    destruct (Z.eqb_spec cell Wall) as [->|Hnw].
    2: { apply Hstep; try assumption. intros E. contradiction. }
    destruct (cvisited st !! next) as [b|] eqn:Hv.
    { apply Hstep; try assumption. intros _.
      apply (cv_keys _ _ _ Hi). eauto. }
    assert (Hfresh : next ∉ cqueue st).
    { intros Hq. apply (cv_keys _ _ _ Hi) in Hq as [x Hx]. congruence. }
    pose proof (lookup_lt_Some _ _ _ Hcur) as Hclt.
    apply Hstep.
    + (* the invariant of the search, as in its specification *)
      constructor; cbn [cqueue cvisited cparent].
      * rewrite lookup_app_l; [apply (cv_start _ _ _ Hi)|lia].
      * apply NoDup_app. split; [apply (cv_nodup _ _ _ Hi)|]. split.
        -- intros x Hx ->%list_elem_of_singleton. contradiction.
        -- apply NoDup_singleton.
      * intros p. rewrite elem_of_app, list_elem_of_singleton.
        destruct (decide (p = next)) as [->|Hne].
        -- rewrite lookup_insert_eq. split; [auto|eauto].
        -- rewrite lookup_insert_ne by congruence.
           rewrite (cv_keys _ _ _ Hi p). tauto.
      * intros i p Hpos [[Hlt Hp]|[-> <-]]%lookup_snoc_Some.
        -- destruct (cv_level _ _ _ Hi i p Hpos Hp)
             as (Hpi & Hpw & j & q & Hj & Hq & Hpar).
           split; [exact Hpi|]. split; [exact Hpw|].
           exists j, q. split; [exact Hj|]. split.
           { rewrite lookup_app_l; [exact Hq|lia]. }
           rewrite lookup_insert_ne; [exact Hpar|].
           intros <-. apply Hfresh. eapply list_elem_of_lookup_2; eauto.
        -- split; [exact Hin|]. split; [exact Hcell|].
           exists c, cur. split; [exact Hclt|]. split.
           { rewrite lookup_app_l; [exact Hcur|exact Hclt]. }
           apply lookup_insert_eq.
    + destruct Hso as [Hst Hre]. split; cbn [cqueue cparent].
      * intros p q Hpq. destruct (decide (p = next)) as [->|Hne].
        -- rewrite lookup_insert_eq in Hpq. injection Hpq as <-.
           exists dir. split; [exact Hdirin|exact Hnext].
        -- rewrite lookup_insert_ne in Hpq by congruence. apply Hst. exact Hpq.
      * intros p [Hp| ->%list_elem_of_singleton]%elem_of_app; [apply Hre; exact Hp|].
        rewrite Hnext. apply wr_step; [apply Hre; exact Hcurq|exact Hdirin| |];
          rewrite <- Hnext; assumption.
    + cbn [cqueue]. rewrite lookup_app_l; [exact Hcur|exact Hclt].
    + intros _. cbn [cqueue]. apply elem_of_app. right.
      apply list_elem_of_singleton. reflexivity.
Qed.

Lemma carve_search_sound (m : Maze) (s : Point) :
  maze_wf m ->
  forall fuel head st st' target, carve_inv m s st -> carve_sound m s st ->
    (head <= length (cqueue st))%nat -> carve_closed m st head ->
    carve_search fuel m head st = Ok (st', target) ->
    carve_inv m s st' /\ carve_sound m s st' /\
    match target with
    | Some t => exists cur dir, cur ∈ cqueue st' /\ dir ∈ directions /\
                  t = move cur dir /\ interior m t /\ cell_at m t = Ok Path /\
                  cparent st' !! t = Some cur
    | None => carve_closed m st' (length (cqueue st'))
    end.
Proof.
  intros Hwf fuel. induction fuel as [|fuel IH];
    intros head st st' target Hi Hso Hh Hcl; [discriminate|].
  cbn [carve_search]. destruct (cqueue st !! head) as [cur|] eqn:Hcur.
  2: { intros [= <- <-]. apply lookup_ge_None in Hcur.
       replace (length (cqueue st)) with head by lia. auto. }
  intros ([st1 t1] & Hex & Hrest)%bind_Ok.
  destruct (carve_explore_spec m s cur head directions Hwf st Hi Hcur)
    as (st1' & t1' & Hex' & Hi1 & [suf Hsuf] & _).
  rewrite Hex in Hex'. injection Hex' as <- <-.
  destruct (carve_explore_sound m s cur head directions Hwf (fun _ Hd => Hd)
              st st1 t1 Hi Hso Hcur Hex) as [Hso1 Ht1].
  pose proof (lookup_lt_Some _ _ _ Hcur) as Hlt.
  destruct t1 as [t|].
  - injection Hrest as <- <-. split; [exact Hi1|]. split; [exact Hso1|].
    destruct Ht1 as (dir & Hdir & Et & Hrest). exists cur, dir.
    split; [|split; [exact Hdir|split; [exact Et|exact Hrest]]].
    rewrite Hsuf. apply elem_of_app. left. eapply list_elem_of_lookup_2; eauto.
  - apply (IH (S head) st1 st' target Hi1 Hso1);
      [rewrite Hsuf, length_app; lia| |exact Hrest].
    intros i p dir Hil Hp Hdir Hin.
    destruct (decide (i = head)) as [->|Hne].
    + rewrite Hsuf, lookup_app_l in Hp by exact Hlt.
      rewrite Hcur in Hp. injection Hp as <-. apply Ht1; assumption.
    + rewrite Hsuf, lookup_app_l in Hp by lia.
      destruct (Hcl i p dir ltac:(lia) Hp Hdir Hin) as [Hnp Hw].
      split; [exact Hnp|]. intros Hwall. rewrite Hsuf. apply elem_of_app. left.
      apply Hw. exact Hwall.
Qed.

Lemma carve_closed_reach (m : Maze) (s : Point) (st : carve_state) :
  carve_inv m s st -> carve_closed m st (length (cqueue st)) ->
  forall p, wall_reach m s p -> p ∈ cqueue st.
Proof.
  intros Hi Hcl p Hr. induction Hr as [|p dir _ IH Hdir Hin Hw].
  - eapply list_elem_of_lookup_2. apply (cv_start _ _ _ Hi).
  - apply list_elem_of_lookup_1 in IH as [i Hp].
    apply (Hcl i p dir (lookup_lt_Some _ _ _ Hp) Hp Hdir Hin). exact Hw.
Qed.

(** The backward walk leaves [p] within reach of [s] through the carved
    cells, and changes only queued cells. *)
Lemma carve_back_reach (m0 : Maze) (s : Point) (st : carve_state) :
  carve_inv m0 s st -> carve_sound m0 s st -> interior m0 s ->
  forall fuel i p m m', cqueue st !! i = Some p -> same_shape m0 m ->
    carve_back fuel (cparent st) s p m = Ok m' ->
    (p = s \/ cell_at m p = Ok Path) ->
    inner_reach m' s p /\
    forall q, q ∉ cqueue st -> cell_at m' q = cell_at m q.
Proof.
  intros Hi [Hst _] Hs fuel. induction fuel as [|fuel IH]; intros i p m m' Hp Hsh;
    [discriminate|].
  cbn [carve_back]. destruct (decide (p = s)) as [->|Hne].
  { intros [= <-] _. split; [constructor|reflexivity]. }
  intros Hback [E|Hpath]; [contradiction|].
  destruct i as [|i].
  { rewrite (cv_start _ _ _ Hi) in Hp. congruence. }
  destruct (cv_level _ _ _ Hi (S i) p ltac:(lia) Hp)
    as (Hpi & _ & j & q & Hj & Hq & Hpar).
  rewrite (lookup_total_correct _ _ _ Hpar) in Hback.
  apply bind_Ok in Hback as (m1 & Hm1 & Hrec).
  destruct (set_cell_Ok _ _ _ _ Hm1) as (Hre1 & Hc1 & Ho1 & _).
  pose proof (regrid_shape _ _ Hre1) as Hsh1.
  destruct (carve_back_Ok _ _ _ _ _ _ Hrec) as (Hsh' & _ & _ & Hoc' & _).
  destruct (IH j q m1 m' Hq (same_shape_trans _ _ _ Hsh Hsh1) Hrec (or_intror Hc1))
    as [Hrq Hfr].
  split.
  - destruct (Hst p q Hpar) as (dir & Hdir & ->).
    apply ir_step; [exact Hrq|exact Hdir| |].
    + apply (interior_shape m0 m' _ (same_shape_trans _ _ _
               (same_shape_trans _ _ _ Hsh Hsh1) Hsh')). exact Hpi.
    + exists Path. split; [|discriminate].
      eapply only_carved_path; [exact Hoc'|].
      eapply only_carved_path; [eapply only_carved_set_cell; exact Hm1|exact Hpath].
  - intros x Hx. rewrite (Hfr x Hx). apply Ho1.
    intros ->. apply Hx. eapply list_elem_of_lookup_2; eauto.
Qed.

Section Corridor.
Context `{RandSource}.

(** X20: from a point strictly inside the border, [carvePathToNearest]
    succeeds exactly when some cell reached from the point through walls
    strictly inside the border has a [Path] neighbour there: it then
    changes only wall cells within that reach and the point itself, each to
    a [Path], and leaves the point connected through non-wall cells to such
    a neighbour.  Otherwise it fails with the no-path error and changes
    nothing. *)
Theorem carvePathToNearest_corridor (fuel : nat) (s : Point) (m : Maze) :
  maze_wf m -> interior m s -> (S (cells m) < fuel)%nat ->
  (exists m' t, carvePathToNearest fuel s m = Ok (m', None) /\
     interior m t /\ cell_at m t = Ok Path /\
     (exists p dir, wall_reach m s p /\ dir ∈ directions /\ t = move p dir) /\
     inner_reach m' s t /\
     (t <> s -> cell_at m' s = Ok Path) /\
     forall q, cell_at m' q <> cell_at m q ->
       cell_at m' q = Ok Path /\ wall_reach m s q) \/
  (carvePathToNearest fuel s m = Ok (m, Some ErrNoPathToMaze) /\
   forall p dir, wall_reach m s p -> dir ∈ directions ->
     interior m (move p dir) -> cell_at m (move p dir) <> Ok Path).
Proof.
  intros Hwf Hs Hf.
  destruct (carvePathToNearest_total fuel s m Hwf Hs Hf) as (m' & err & Hcp).
  pose proof (carvePathToNearest_Ok _ _ _ _ _ Hcp) as (Hsh & _ & _ & Hoc & _).
  revert Hcp. unfold carvePathToNearest.
  intros ([st target] & Hsearch & Hrest)%bind_Ok.
  assert (Hso0 : carve_sound m s (mkCarve [s] {[s := true]} ∅)).
  { split; cbn [cparent cqueue].
    - intros p q Hpq. rewrite lookup_empty in Hpq. discriminate.
    - intros p ->%list_elem_of_singleton. constructor. }
  destruct (carve_search_sound m s Hwf fuel 0%nat _ st target (carve_inv_init m s) Hso0)
    as (Hi & Hso & Ht); [cbn; lia|intros i p dir Hlt; lia|exact Hsearch|].
  destruct target as [t|].
  - left. apply bind_Ok in Hrest as (m1 & Hback & [= <- <-]).
    destruct Ht as (cur & dir & Hcurq & Hdir & Et & Hti & Htp & Hpar).
    exists m1, t.
    assert (Hres : inner_reach m1 s t /\
                   forall q, q ∉ cqueue st -> cell_at m1 q = cell_at m q).
    { destruct fuel as [|fuel']; [discriminate|]. cbn [carve_back] in Hback.
      destruct (decide (t = s)) as [->|Hne].
      { injection Hback as <-. split; [constructor|reflexivity]. }
      rewrite (lookup_total_correct _ _ _ Hpar) in Hback.
      apply bind_Ok in Hback as (m2 & Hm2 & Hrec).
      destruct (set_cell_Ok _ _ _ _ Hm2) as (Hre2 & Hc2 & Ho2 & _).
      apply list_elem_of_lookup_1 in Hcurq as [j Hj].
      destruct (carve_back_reach m s st Hi Hso Hs fuel' j cur m2 m1 Hj
                  (regrid_shape _ _ Hre2) Hrec (or_intror Hc2)) as [Hrc Hfr].
      split.
      - rewrite Et. apply ir_step; [exact Hrc|exact Hdir| |].
        + rewrite <- Et. apply (interior_shape m m1 t Hsh). exact Hti.
        + rewrite <- Et. exists Path. split; [|discriminate].
          eapply only_carved_path; [exact Hoc|exact Htp].
      - intros q Hq. rewrite (Hfr q Hq). apply Ho2.
        intros ->. apply Hq. eapply list_elem_of_lookup_2; eauto. }
    destruct Hres as [Hreach Hfr].
    split; [unfold carvePathToNearest; rewrite Hsearch; rsimpl; rewrite Hback;
            reflexivity|].
    split; [exact Hti|]. split; [exact Htp|].
    split; [exists cur, dir; split; [apply (proj2 Hso); exact Hcurq|auto]|].
    split; [exact Hreach|]. split.
    + intros Hne. eapply carve_back_sets; eauto.
    + intros q Hq.
      destruct (decide (q ∈ cqueue st)) as [Hin|Hnin];
        [|exfalso; apply Hq; apply Hfr; exact Hnin].
      split; [|apply Hso; exact Hin].
      destruct (Hoc q) as [E|E]; [exact E|contradiction].
  - right. injection Hrest as <- <-.
    split; [unfold carvePathToNearest; rewrite Hsearch; reflexivity|].
    intros p dir Hp Hdir Hin.
    pose proof (carve_closed_reach m s st Hi Ht p Hp) as Hpq.
    apply list_elem_of_lookup_1 in Hpq as [i Hpi].
    apply (Ht i p dir (lookup_lt_Some _ _ _ Hpi) Hpi Hdir Hin).
Qed.
End Corridor.

Lemma carvePathToNearest_corridor_witness :
  (exists m' t, carvePathToNearest 200 (mkPoint 4 1) den_maze_9 = Ok (m', None) /\
     interior den_maze_9 t /\ cell_at den_maze_9 t = Ok Path /\
     (exists p dir, wall_reach den_maze_9 (mkPoint 4 1) p /\ dir ∈ directions /\
        t = move p dir) /\
     inner_reach m' (mkPoint 4 1) t /\
     (t <> mkPoint 4 1 -> cell_at m' (mkPoint 4 1) = Ok Path) /\
     forall q, cell_at m' q <> cell_at den_maze_9 q ->
       cell_at m' q = Ok Path /\ wall_reach den_maze_9 (mkPoint 4 1) q) /\
  carvePathToNearest 200 (mkPoint 1 1) plain_maze_5
  = Ok (plain_maze_5, Some ErrNoPathToMaze) /\
  (forall p dir, wall_reach plain_maze_5 (mkPoint 1 1) p -> dir ∈ directions ->
     interior plain_maze_5 (move p dir) ->
     cell_at plain_maze_5 (move p dir) <> Ok Path).
Proof.
  split.
  - destruct (carvePathToNearest_corridor 200 (mkPoint 4 1) den_maze_9)
      as [Hok|[Hc _]].
    + apply constructed_wf, den_maze_9_constructed.
    + split; cbn; lia.
    + vm_compute. lia.
    + exact Hok.
    + vm_compute in Hc. discriminate.
  - destruct (carvePathToNearest_corridor 200 (mkPoint 1 1) plain_maze_5)
      as [(m' & t & Hc & _)|[Hc Hno]].
    + apply constructed_wf, plain_maze_5_constructed.
    + split; cbn; lia.
    + vm_compute. lia.
    + vm_compute in Hc. discriminate.
    + split; [exact Hc|exact Hno].
Defined.

(** ** The distance returned by the farthest-point search *)

Lemma far_explore_levels (m : Maze) (s cur : Point) (c : nat) (st st' : far_state)
  (dir : Point) :
  maze_wf m -> Z.of_nat (cells m) < int_max ->
  far_inv m s st -> far_levels m s st c ->
  fqueue st !! c = Some cur -> dir ∈ directions ->
  far_explore m cur st dir = Ok st' ->
  far_levels m s st' c /\
  (forall p dp, distances st !! p = Some dp -> distances st' !! p = Some dp) /\
  (interior m (move cur dir) -> open_cell m (move cur dir) ->
   exists dn dc, distances st' !! move cur dir = Some dn /\
     distances st' !! cur = Some dc /\ dn <= dc + 1).
Proof.
  intros Hwf Hcells Hi Hl Hcur Hdir. unfold far_explore.
  remember (move cur dir) as next eqn:Hnext.
  assert (Hcurq : cur ∈ fqueue st) by (eapply list_elem_of_lookup_2; eauto).
  destruct (proj2 (fi_keys _ _ _ Hi cur) Hcurq) as [dc Hdc].
  assert (Hsame : far_levels m s st c /\
    (forall p dp, distances st !! p = Some dp -> distances st !! p = Some dp) /\
    (is_Some (distances st !! next) ->
     exists dn dc, distances st !! next = Some dn /\
       distances st !! cur = Some dc /\ dn <= dc + 1)).
  { split; [exact Hl|]. split; [auto|]. intros [dn Hdn].
    exists dn, dc. split; [exact Hdn|]. split; [exact Hdc|].
    apply (fl_front _ _ _ _ Hl cur dc next dn Hcur Hdc Hdn). }
  pose proof (inside_border_spec m next (maze_wf_border m Hwf)) as Hib.
  destruct (inside_border m next).
  2: { intros [= <-]. destruct Hsame as (A & B & _). split; [exact A|].
       split; [exact B|]. intros Hin. apply Hib in Hin. discriminate. }
  assert (Hin : interior m next) by (apply Hib; reflexivity).
  destruct (maze_wf_cell m next Hwf (interior_inb _ _ Hin)) as [cell Hcell].
  rewrite Hcell. rsimpl.
  destruct (Z.eqb_spec cell Wall) as [->|Hnw]; cbn [negb].
  { intros [= <-]. destruct Hsame as (A & B & _). split; [exact A|].
    split; [exact B|]. intros _ (c' & Hc' & Hne).
    unfold cell_at in Hcell. rewrite Hcell in Hc'. congruence. }
  destruct (distances st !! next) as [dn|] eqn:Hdn.
  { intros [= <-]. destruct Hsame as (A & B & C). split; [exact A|].
    split; [exact B|]. intros _ _. rewrite Hdn. apply C. eauto. }
  assert (Hfresh : next ∉ fqueue st).
  { intros Hq. apply (fi_keys _ _ _ Hi) in Hq as [x Hx]. congruence. }
  pose proof (fi_range _ _ _ Hi c cur dc Hcur Hdc) as Hrange.
  pose proof (lookup_lt_Some _ _ _ Hcur) as Hclt.
  pose proof (far_inv_length m s st Hi) as Hlen.
  rewrite Hdc. cbn [default from_option]. unfold id.
  assert (Hdist : add64 dc 1 = dc + 1).
  { unfold add64. apply wrap_id. unfold is_int, int_min, int_max in *. lia. }
  rewrite Hdist.
  assert (Hold : forall p dp, distances st !! p = Some dp ->
            <[next := dc + 1]> (distances st) !! p = Some dp).
  { intros p dp Hp. rewrite lookup_insert_ne; [exact Hp|]. intros <-. congruence. }
  assert (Hinv : forall p dp, <[next := dc + 1]> (distances st) !! p = Some dp ->
            (p = next /\ dp = dc + 1) \/ (p <> next /\ distances st !! p = Some dp)).
  { intros p dp Hp. destruct (decide (p = next)) as [->|Hne].
    - rewrite lookup_insert_eq in Hp. injection Hp as <-. auto.
    - rewrite lookup_insert_ne in Hp by congruence. auto. }
  assert (Hnew : forall fp md,
    far_levels m s (mkFar (fqueue st ++ [next]) (<[next := dc + 1]> (distances st))
                      fp md) c).
  { intros fp md. constructor; cbn [fqueue distances].
    - intros p dp Hp. destruct (Hinv p dp Hp) as [[-> ->]|[_ Hp']].
      + split; [lia|]. replace (Z.to_nat (dc + 1)) with (S (Z.to_nat dc)) by lia.
        rewrite Hnext. apply is_step; [apply (fl_steps _ _ _ _ Hl); exact Hdc
                                      |exact Hdir| |]; rewrite <- Hnext.
        * exact Hin.
        * exists cell. split; [exact Hcell|exact Hnw].
      + apply (fl_steps _ _ _ _ Hl). exact Hp'.
    - intros i j p q dp dq Hij Hp Hq Hdp Hdq.
      apply lookup_snoc_Some in Hp as [[Hilt Hp]|[-> <-]];
        apply lookup_snoc_Some in Hq as [[Hjlt Hq]|[-> <-]].
      + destruct (Hinv p dp Hdp) as [[-> _]|[_ Hdp']];
          [exfalso; apply Hfresh; eapply list_elem_of_lookup_2; eauto|].
        destruct (Hinv q dq Hdq) as [[-> _]|[_ Hdq']];
          [exfalso; apply Hfresh; eapply list_elem_of_lookup_2; eauto|].
        apply (fl_mono _ _ _ _ Hl i j p q dp dq Hij Hp Hq Hdp' Hdq').
      + destruct (Hinv p dp Hdp) as [[-> _]|[_ Hdp']];
          [exfalso; apply Hfresh; eapply list_elem_of_lookup_2; eauto|].
        rewrite lookup_insert_eq in Hdq. injection Hdq as <-.
        apply (fl_front _ _ _ _ Hl cur dc p dp Hcur Hdc Hdp').
      + lia.
      + rewrite lookup_insert_eq in Hdp, Hdq.
        injection Hdp as <-. injection Hdq as <-. lia.
    - intros cur' dc' q dq Hc' Hdc' Hdq.
      rewrite lookup_app_l in Hc' by exact Hclt.
      rewrite Hcur in Hc'. injection Hc' as <-.
      rewrite (Hold cur dc Hdc) in Hdc'. injection Hdc' as <-.
      destruct (Hinv q dq Hdq) as [[-> ->]|[_ Hdq']]; [lia|].
      apply (fl_front _ _ _ _ Hl cur dc q dq Hcur Hdc Hdq').
    - intros i p d0 dp Hil Hp Hdp Hd0 Hpi Hpo.
      rewrite lookup_app_l in Hp by lia.
      assert (Hpq : p ∈ fqueue st) by (eapply list_elem_of_lookup_2; eauto).
      destruct (Hinv p dp Hdp) as [[-> _]|[_ Hdp']]; [contradiction|].
      destruct (fl_closed _ _ _ _ Hl i p d0 dp Hil Hp Hdp' Hd0 Hpi Hpo)
        as (dn' & Hdn' & Hle).
      exists dn'. split; [apply Hold; exact Hdn'|exact Hle]. }
  assert (Hres : forall fp md,
    far_levels m s (mkFar (fqueue st ++ [next]) (<[next := dc + 1]> (distances st))
                      fp md) c /\
    (forall p dp, distances st !! p = Some dp ->
       <[next := dc + 1]> (distances st) !! p = Some dp) /\
    (interior m next -> open_cell m next ->
     exists dn dc0, <[next := dc + 1]> (distances st) !! next = Some dn /\
       <[next := dc + 1]> (distances st) !! cur = Some dc0 /\ dn <= dc0 + 1)).
  { intros fp md. split; [apply Hnew|]. split; [exact Hold|].
    intros _ _. exists (dc + 1), dc. split; [apply lookup_insert_eq|].
    split; [apply Hold; exact Hdc|lia]. }
  destruct (_ && _); intros [= <-]; apply Hres.
Qed.

Lemma far_explore_all_levels (m : Maze) (s cur : Point) (c : nat) (dirs : list Point) :
  maze_wf m -> Z.of_nat (cells m) < int_max ->
  (forall dir, dir ∈ dirs -> dir ∈ directions) ->
  forall st st', far_inv m s st -> far_levels m s st c ->
  fqueue st !! c = Some cur ->
  for_each (far_explore m cur) dirs st = Ok st' ->
  far_levels m s st' c /\
  (forall p dp, distances st !! p = Some dp -> distances st' !! p = Some dp) /\
  forall dir, dir ∈ dirs -> interior m (move cur dir) -> open_cell m (move cur dir) ->
    exists dn dc, distances st' !! move cur dir = Some dn /\
      distances st' !! cur = Some dc /\ dn <= dc + 1.
Proof.
  intros Hwf Hcells. induction dirs as [|d dirs IH];
    intros Hsub st st' Hi Hl Hcur Hfe.
  - injection Hfe as <-. split; [exact Hl|]. split; [auto|].
    intros dir Hdir. inversion Hdir.
  - cbn [for_each] in Hfe. apply bind_Ok in Hfe as (st1 & H1 & Hrest).
    destruct (far_explore_spec m s cur c st d Hwf Hcells Hi Hcur)
      as (st1' & H1' & Hi1 & suf1 & Hq1); [apply Hsub; left|].
    rewrite H1 in H1'. injection H1' as <-.
    destruct (far_explore_levels m s cur c st st1 d Hwf Hcells Hi Hl Hcur
                (Hsub d ltac:(left)) H1) as (Hl1 & Hkeep1 & Henq1).
    assert (Hcur1 : fqueue st1 !! c = Some cur).
    { rewrite Hq1. rewrite lookup_app_l; [exact Hcur|eapply lookup_lt_Some; eauto]. }
    destruct (IH (fun d' Hd' => Hsub d' (list_elem_of_further _ _ _ Hd'))
                st1 st' Hi1 Hl1 Hcur1 Hrest) as (Hl' & Hkeep' & Henq').
    split; [exact Hl'|]. split; [auto|].
    intros dir [->|Hdir]%elem_of_cons Hin Hop.
    + destruct (Henq1 Hin Hop) as (dn & dc & Hdn & Hdc & Hle).
      exists dn, dc. auto.
    + apply Henq'; assumption.
Qed.

Lemma far_search_levels (m : Maze) (s : Point) :
  maze_wf m -> Z.of_nat (cells m) < int_max ->
  forall fuel head st st', far_inv m s st -> (head <= length (fqueue st))%nat ->
    far_levels m s st head ->
    far_search fuel m head st = Ok st' ->
    far_inv m s st' /\ far_levels m s st' (length (fqueue st')).
Proof.
  intros Hwf Hcells fuel. induction fuel as [|fuel IH]; intros head st st' Hi Hh Hl;
    [discriminate|].
  cbn [far_search]. destruct (fqueue st !! head) as [cur|] eqn:Hcur.
  2: { intros [= <-]. apply lookup_ge_None in Hcur.
       replace (length (fqueue st)) with head by lia. auto. }
  intros (st1 & Hfe & Hrec)%bind_Ok.
  destruct (far_explore_all m s cur head directions Hwf Hcells (fun _ Hd => Hd) st Hi Hcur)
    as (st1' & Hst1 & Hi1 & suf & Hq).
  rewrite Hfe in Hst1. injection Hst1 as <-.
  destruct (far_explore_all_levels m s cur head directions Hwf Hcells (fun _ Hd => Hd)
              st st1 Hi Hl Hcur Hfe) as (Hl1 & Hkeep & Henq).
  pose proof (lookup_lt_Some _ _ _ Hcur) as Hlt.
  assert (Hcur1 : fqueue st1 !! head = Some cur).
  { rewrite Hq, lookup_app_l; [exact Hcur|exact Hlt]. }
  apply (IH (S head) st1 st' Hi1); [rewrite Hq, length_app; lia| |exact Hrec].
  constructor.
  - apply (fl_steps _ _ _ _ Hl1).
  - apply (fl_mono _ _ _ _ Hl1).
  - intros cur' dc' q dq Hc' Hdc' Hdq.
    assert (Hcq : cur ∈ fqueue st1) by (eapply list_elem_of_lookup_2; eauto).
    destruct (proj2 (fi_keys _ _ _ Hi1 cur) Hcq) as [dc Hdc].
    pose proof (fl_front _ _ _ _ Hl1 cur dc q dq Hcur1 Hdc Hdq).
    pose proof (fl_mono _ _ _ _ Hl1 head (S head) cur cur' dc dc' ltac:(lia)
                  Hcur1 Hc' Hdc Hdc'). lia.
  - intros i p dir dp Hil Hp Hdp Hdir Hin Hop.
    destruct (decide (i = head)) as [->|Hne].
    + rewrite Hcur1 in Hp. injection Hp as <-.
      destruct (Henq dir Hdir Hin Hop) as (dn & dc & Hdn & Hdc & Hle).
      rewrite Hdp in Hdc. injection Hdc as <-. eauto.
    + apply (fl_closed _ _ _ _ Hl1 i p dir dp); try assumption. lia.
Qed.

Lemma far_levels_init (m : Maze) (s : Point) :
  far_levels m s (mkFar [s] {[s := 0]} s 0) 0.
Proof.
  constructor; cbn [fqueue distances].
  - intros p dp Hp. apply lookup_singleton_Some in Hp as [<- <-].
    split; [lia|constructor].
  - intros i j p q dp dq _ _ _ Hp Hq.
    apply lookup_singleton_Some in Hp as [_ <-].
    apply lookup_singleton_Some in Hq as [_ <-]. lia.
  - intros cur dc q dq _ Hc Hq.
    apply lookup_singleton_Some in Hc as [_ <-].
    apply lookup_singleton_Some in Hq as [_ <-]. lia.
  - intros i p dir dp Hlt. lia.
Qed.

Lemma far_levels_least (m : Maze) (s : Point) (st : far_state) :
  far_inv m s st -> far_levels m s st (length (fqueue st)) ->
  forall n p, inner_steps m s n p ->
    exists dp, distances st !! p = Some dp /\ dp <= Z.of_nat n.
Proof.
  intros Hi Hl n p Hs. induction Hs as [|n p dir _ IH Hdir Hin Hop].
  - exists 0. split; [apply (fi_dist0 _ _ _ Hi)|lia].
  - destruct IH as (dp & Hdp & Hle).
    assert (Hpq : p ∈ fqueue st) by (apply (fi_keys _ _ _ Hi); eauto).
    apply list_elem_of_lookup_1 in Hpq as [i Hp].
    destruct (fl_closed _ _ _ _ Hl i p dir dp (lookup_lt_Some _ _ _ Hp) Hp Hdp
                Hdir Hin Hop) as (dn & Hdn & Hle').
    exists dn. split; [exact Hdn|lia].
Qed.

(** ** The random door on any well-formed maze (C7) *)

(** A seam has a den cell beside it or is a den cell itself: it is never a
    cell the farthest-point search may choose. *)
Lemma door_seam_excluded (m : Maze) (d : Point) :
  maze_wf m -> has_den m -> door_seam m d -> ~ qualifies m d.
Proof.
  intros Hwf Hden (Hint & Hwall & Hpair) [Hin Hadj].
  assert (Hm : maze_ints m).
  { destruct Hwf as ((? & ? & _) & ? & ?). unfold maze_ints, is_int, int_min. lia. }
  revert Hadj. unfold IsAdjacentToDen. destruct Hden as [Hdw Hdh].
  destruct (Z.leb_spec (denWidth m) 0); [lia|].
  destruct (Z.leb_spec (denHeight m) 0); [lia|]. cbn [orb].
  rewrite Hin. intros Hadj.
  assert (Hdir : forall dir, dir ∈ directions ->
            IsInsideDen m (mkPoint (X d + X dir) (Y d + Y dir)) = true -> False).
  { intros dir Hd Hi.
    assert (Hex : existsb (fun dir => IsInsideDen m (move d dir)) directions = true).
    { apply existsb_exists. exists dir. split; [apply list_elem_of_In; exact Hd|].
      rewrite (move_inb m d dir Hm (interior_inb _ _ Hint) Hd). exact Hi. }
    congruence. }
  unfold directions in Hdir.
  destruct Hpair as [(_ & _ & Hne)|(_ & _ & Hne)].
  - destruct (IsInsideDen m (mkPoint (X d - 1) (Y d))) eqn:E1.
    + apply (Hdir (mkPoint (-1) 0)); [set_solver|]. cbn [X Y].
      replace (X d + -1) with (X d - 1) by lia.
      replace (Y d + 0) with (Y d) by lia. exact E1.
    + destruct (IsInsideDen m (mkPoint (X d + 1) (Y d))) eqn:E2; [|congruence].
      apply (Hdir (mkPoint 1 0)); [set_solver|]. cbn [X Y].
      replace (Y d + 0) with (Y d) by lia. exact E2.
  - destruct (IsInsideDen m (mkPoint (X d) (Y d - 1))) eqn:E1.
    + apply (Hdir (mkPoint 0 (-1))); [set_solver|]. cbn [X Y].
      replace (Y d + -1) with (Y d - 1) by lia.
      replace (X d + 0) with (X d) by lia. exact E1.
    + destruct (IsInsideDen m (mkPoint (X d) (Y d + 1))) eqn:E2; [|congruence].
      apply (Hdir (mkPoint 0 1)); [set_solver|]. cbn [X Y].
      replace (X d + 0) with (X d) by lia. exact E2.
Qed.

Section RandomDoorAny.
Context `{RandSource}.

(** C7: on every well-formed maze with a den, constructed or hand built,
    and under the random door strategy, [Generate] never returns a door
    error.  When it returns without error, [m1] being the maze left by the
    carving walk: if [m1] has no seam, no door is recorded and no cell is
    carved for it; if it has one, the recorded door is a seam of [m1], it
    is a [Path] cell of the result, and no other cell changed but the start
    and end markers.  With a valid supplied start (or once the random
    start is drawn) and two units of fuel per cell, plus three, the call
    returns without error. *)
Theorem random_door_strategy (fuel : nat) (seed : Z) (s : option Point)
  (bias : float64) (m : Maze) :
  maze_wf m -> has_den m -> Z.of_nat (cells m) < int_max ->
  (forall m' e, Generate fuel seed s None EmptyString bias m = Ok (m', Some e) ->
     start_error e /\ m' = m) /\
  (forall m', Generate fuel seed s None EmptyString bias m = Ok (m', None) ->
     exists gs r1 r2 m1,
       match s with
       | Some p => p = gs /\ r1 = NewSource seed
       | None => random_start fuel (NewSource seed) m = Ok (gs, r1)
       end /\
       runDFS fuel r1 gs bias m = Ok (m1, r2) /\
       ((forall p, ~ door_seam m1 p) ->
          door m' = door m /\
          forall q, q <> start m' -> q <> end_ m' -> cell_at m' q = cell_at m1 q) /\
       ((exists p, door_seam m1 p) ->
          door_seam m1 (door m') /\ cell_at m' (door m') = Ok Path /\
          forall q, q <> door m' -> q <> start m' -> q <> end_ m' ->
            cell_at m' q = cell_at m1 q)) /\
  (match s with
   | Some p => ~ start_invalid m p
   | None => exists gs r1, random_start fuel (NewSource seed) m = Ok (gs, r1)
   end ->
   (2 * cells m + 2 < fuel)%nat ->
   exists m', Generate fuel seed s None EmptyString bias m = Ok (m', None)).
Proof.
  intros Hwf Hden Hcells.
  split; [|split].
  - intros m' e HG.
    destruct (Generate_Ok _ _ _ _ _ _ _ _ _ HG)
      as [(p & err & _ & [= <-] & He & -> & _)
         |(gs & r1 & m1 & r2 & m2 & err & Hs & Hdfs & Hcd & Hrest)]; [auto|].
    destruct (generation_start_facts fuel seed s m gs r1 Hwf Hs) as (Hgi & _).
    pose proof (runDFS_spec fuel r1 gs bias m Hwf Hgi) as Hr. rewrite Hdfs in Hr.
    destruct Hr as (Hwf1 & Hre1 & _).
    rewrite connectDen_random in Hcd
      by (eapply has_den_shape; [apply regrid_shape; exact Hre1|exact Hden]).
    destruct (connectRandomDenDoor_Ok_frame _ _ _ _ Hcd) as [_ ->].
    destruct Hrest as [[=] _].
  - intros m' HG.
    destruct (Generate_Ok _ _ _ _ _ _ _ _ _ HG)
      as [(p & err & _ & [=] & _)
         |(gs & r1 & m1 & r2 & m2 & err & Hs & Hdfs & Hcd & Hrest)].
    destruct (generation_start_facts fuel seed s m gs r1 Hwf Hs) as (Hgi & _).
    pose proof (runDFS_spec fuel r1 gs bias m Hwf Hgi) as Hr. rewrite Hdfs in Hr.
    destruct Hr as (Hwf1 & Hre1 & Hoc1 & Hgs1).
    pose proof (regrid_shape _ _ Hre1) as Hsh1.
    pose proof (has_den_shape _ _ Hsh1 Hden) as Hden1.
    rewrite connectDen_random in Hcd by exact Hden1.
    destruct (connectRandomDenDoor_spec r2 m1 Hwf1) as (m2' & Hcd' & Hnone & Hsome).
    rewrite Hcd in Hcd'. injection Hcd' as <- ->.
    destruct (connectRandomDenDoor_Ok_frame _ _ _ _ Hcd) as [(Hsh12 & _ & _ & _ & Hwf2) _].
    specialize (Hwf2 Hwf1).
    destruct Hrest as [_ Hplace].
    destruct (placeStartAndEnd_Ok _ _ _ _ _ Hplace)
      as (ps & pe & ds & de & m3 & Hps & Hpe & _ & _ & Es & Ee & Ed & Hsh').
    pose proof (placeStartAndEnd_cells _ _ _ _ _ Hplace) as Hcells'.
    exists gs, r1, r2, m1.
    split; [destruct s; [destruct Hs as (? & _ & _ & ?); auto|exact Hs]|].
    split; [exact Hdfs|]. split.
    + intros Hno. specialize (Hnone Hno). subst m2. split.
      * rewrite Ed. apply (regrid_points _ _ Hre1).
      * exact Hcells'.
    + intros Hex. destruct (Hsome Hex) as (Hseam & Hpath & Hother).
      rewrite Ed.
      assert (Hcells2 : Z.of_nat (cells m2) < int_max).
      { replace (cells m2) with (cells m); [exact Hcells|].
        unfold cells. destruct Hsh12 as (-> & -> & _).
        destruct Hsh1 as (-> & -> & _). reflexivity. }
      assert (Hnq : ~ qualifies m2 (door m2)).
      { rewrite (qualifies_shape m1 m2 _ Hsh12).
        apply door_seam_excluded; assumption. }
      assert (Hng : door m2 <> gs).
      { intros E. destruct Hseam as (_ & Hw & _). rewrite E, Hgs1 in Hw. discriminate. }
      assert (Hnps : door m2 <> ps).
      { destruct s as [p0|].
        - destruct Hps as [-> _]. exact Hng.
        - destruct (findFarthestPoint_result m2 gs fuel ps ds Hwf2 Hcells2 Hps)
            as [->|[Hq _]]; [exact Hng|]. intros E. apply Hnq. rewrite E. exact Hq. }
      assert (Hnpe : door m2 <> pe).
      { destruct (findFarthestPoint_result m2 ps fuel pe de Hwf2 Hcells2 Hpe)
          as [->|[Hq _]]; [exact Hnps|]. intros E. apply Hnq. rewrite E. exact Hq. }
      split; [exact Hseam|]. split.
      * rewrite Hcells' by congruence. exact Hpath.
      * intros q Hq Hqs' Hqe'. rewrite Hcells' by assumption.
        apply Hother. exact Hq.
  - intros Hstart Hf. unfold Generate.
    assert (Hchosen : exists gs r1,
      match s with
      | Some p =>
          if start_rejected m p then inr ErrInvalidStart
          else if IsInsideDen m p then inr ErrStartInsideDen
          else inl (Ok (p, NewSource seed))
      | None => inl (random_start fuel (NewSource seed) m)
      end = inl (Ok (gs, r1)) /\ interior m gs).
    { destruct s as [p|].
      - assert (Hr : start_rejected m p = false /\ IsInsideDen m p = false).
        { destruct (start_rejected m p) eqn:E1, (IsInsideDen m p) eqn:E2; auto;
            exfalso; apply Hstart;
            apply (start_rejected_spec m p (maze_wf_border m Hwf)); auto. }
        destruct Hr as [Hr Hd]. rewrite Hr, Hd.
        exists p, (NewSource seed). split; [reflexivity|].
        apply (start_rejected_false m p (maze_wf_border m Hwf) Hr).
      - destruct Hstart as (gs & r1 & Hrs). rewrite Hrs.
        exists gs, r1. split; [reflexivity|].
        eapply random_start_Ok; eauto. }
    destruct Hchosen as (gs & r1 & -> & Hgi). rsimpl.
    pose proof (runDFS_spec fuel r1 gs bias m Hwf Hgi) as Hr.
    destruct (runDFS fuel r1 gs bias m) as [[m1 r2]| |]; [|contradiction|lia].
    destruct Hr as (Hwf1 & Hre1 & _). rsimpl.
    pose proof (regrid_shape _ _ Hre1) as Hsh1.
    rewrite connectDen_random by (eapply has_den_shape; eauto).
    destruct (connectRandomDenDoor_spec r2 m1 Hwf1) as (m2 & Hcd & _).
    rewrite Hcd. rsimpl.
    destruct (connectRandomDenDoor_Ok_frame _ _ _ _ Hcd) as [(Hsh2 & _ & _ & _ & Hwf2) _].
    specialize (Hwf2 Hwf1).
    assert (Hsh02 : same_shape m m2) by (eapply same_shape_trans; eauto).
    assert (Ecells : cells m2 = cells m).
    { unfold cells. destruct Hsh02 as (-> & -> & _). reflexivity. }
    destruct (placeStartAndEnd_total fuel gs
                (match s with Some _ => true | None => false end) m2)
      as [m' Hm']; try assumption.
    + rewrite Ecells. exact Hcells.
    + rewrite Ecells. lia.
    + apply (interior_shape m m2 gs Hsh02). exact Hgi.
    + rewrite Hm'. rsimpl. eauto.
Qed.
End RandomDoorAny.

Lemma sealed_den_5_wf : maze_wf sealed_den_5.
Proof.
  split; [|split; vm_compute; discriminate].
  split; [cbn; lia|]. split; [cbn; lia|]. split; [reflexivity|].
  repeat constructor.
Qed.

Lemma random_door_strategy_witness :
  (exists m', Generate (H := lcg_rand) 400 42 None None EmptyString half sealed_den_5
              = Ok (m', None) /\
     (forall p, ~ door_seam sealed_walked_5 p) /\
     door m' = door sealed_den_5 /\
     forall q, q <> start m' -> q <> end_ m' ->
       cell_at m' q = cell_at sealed_walked_5 q) /\
  (exists m1, (exists p, door_seam m1 p) /\
     door_seam m1 (door generated_9) /\
     cell_at generated_9 (door generated_9) = Ok Path).
Proof.
  split.
  - destruct (random_door_strategy (H := lcg_rand) 400 42 None half sealed_den_5)
      as (_ & Hok & Htotal).
    + apply sealed_den_5_wf.
    + split; reflexivity.
    + vm_compute. reflexivity.
    + destruct Htotal as [m' Hm'].
      * eexists _, _. vm_compute. reflexivity.
      * vm_compute. lia.
      * exists m'. split; [exact Hm'|].
        destruct (Hok m' Hm') as (gs & r1 & r2 & m1 & Hrs & Hdfs & Hno & _).
        vm_compute in Hrs. injection Hrs as <- <-.
        vm_compute in Hdfs. injection Hdfs as <- <-.
        assert (Hseams : forall p, ~ door_seam sealed_walked_5 p).
        { intros p Hp.
          destruct (potentialDoors_spec sealed_walked_5) as (doors & Hd & Hiff).
          - split; [|split; vm_compute; discriminate].
            split; [cbn; lia|]. split; [cbn; lia|]. split; [reflexivity|].
            repeat constructor.
          - vm_compute in Hd. injection Hd as <-.
            apply Hiff in Hp. inversion Hp. }
        split; [exact Hseams|]. apply Hno. exact Hseams.
  - destruct (random_door_strategy (H := lcg_rand) 400 42 None half den_maze_9)
      as (_ & Hok & _).
    + apply constructed_wf, den_maze_9_constructed.
    + split; reflexivity.
    + vm_compute. reflexivity.
    + destruct (Hok generated_9) as (gs & r1 & r2 & m1 & Hrs & Hdfs & _ & Hyes).
      { vm_compute. reflexivity. }
      vm_compute in Hrs. injection Hrs as <- <-.
      vm_compute in Hdfs. injection Hdfs as <- <-.
      match type of Hyes with (exists p, door_seam ?m p) -> _ =>
        assert (Hseam : exists p, door_seam m p); [|exists m] end.
      { exists (mkPoint 4 2). split; [split; cbn; lia|].
        split; [reflexivity|]. right.
        split; [reflexivity|]. split; [reflexivity|]. discriminate. }
      split; [exact Hseam|].
      destruct (Hyes Hseam) as (Hd & Hp & _). split; [exact Hd|exact Hp].
Defined.

(** ** The farthest point is farthest (C5) *)

(** At the end of the search the recorded distances are the breadth-first
    distances. *)
Lemma far_levels_distance (m : Maze) (s : Point) (st : far_state) :
  far_inv m s st -> far_levels m s st (length (fqueue st)) ->
  forall q dq, distances st !! q = Some dq ->
    0 <= dq /\ bfs_distance m s q (Z.to_nat dq).
Proof.
  intros Hi Hl q dq Hdq.
  destruct (fl_steps _ _ _ _ Hl q dq Hdq) as [Hnn Hst].
  split; [exact Hnn|]. split; [exact Hst|].
  intros k Hk.
  destruct (far_levels_least m s st Hi Hl k q Hk) as (dp & Hdp & Hle).
  rewrite Hdq in Hdp. injection Hdp as <-. lia.
Qed.

Lemma inner_steps_reach (m : Maze) (s p : Point) (n : nat) :
  inner_steps m s n p -> inner_reach m s p.
Proof.
  induction 1 as [|n p dir _ IH Hdir Hin Hop]; [constructor|].
  apply ir_step; assumption.
Qed.

Lemma bfs_distance_unique (m : Maze) (s p : Point) (n n' : nat) :
  bfs_distance m s p n -> bfs_distance m s p n' -> n = n'.
Proof.
  intros [H1 L1] [H2 L2]. pose proof (L1 _ H2). pose proof (L2 _ H1). lia.
Qed.

(** What the search has recorded when it ends, without its state: the
    cells visited are the cells within reach, each once, nearer cells
    first; and the point kept is the first visited cell of greatest
    distance among the qualifying cells other than the reference point. *)
Lemma findFarthestPoint_farthest (m : Maze) (s : Point) (fuel : nat) :
  maze_wf m -> Z.of_nat (cells m) < int_max -> (S (cells m) < fuel)%nat ->
  exists p d order,
    findFarthestPoint fuel m s = Ok (p, d) /\
    visit_order fuel m s = Ok order /\
    NoDup order /\ order !! 0%nat = Some s /\
    (forall q, q ∈ order <-> inner_reach m s q) /\
    (forall i j q q' n n', (i <= j)%nat ->
       order !! i = Some q -> order !! j = Some q' ->
       bfs_distance m s q n -> bfs_distance m s q' n' -> (n <= n')%nat) /\
    0 <= d /\ bfs_distance m s p (Z.to_nat d) /\
    ((p = s /\ d = 0 /\
      forall q, inner_reach m s q -> q <> s -> ~ qualifies m q) \/
     (p <> s /\ qualifies m p /\ 0 < d /\
      (forall q n, q <> s -> qualifies m q -> bfs_distance m s q n ->
         (n <= Z.to_nat d)%nat) /\
      (forall i j q n, order !! j = Some p -> (i < j)%nat ->
         order !! i = Some q -> q <> s -> qualifies m q ->
         bfs_distance m s q n -> (n < Z.to_nat d)%nat))).
Proof.
  intros Hwf Hcells Hf.
  destruct (findFarthestPoint_spec m s fuel Hwf Hcells Hf) as (st & Hs & Hfp & _).
  destruct (far_search_closed m s Hwf Hcells fuel 0%nat _ st (far_inv_init m s))
    as [_ Hcl]; [cbn; lia|intros i q dir Hlt; lia|exact Hs|].
  destruct (far_search_levels m s Hwf Hcells fuel 0%nat _ st (far_inv_init m s))
    as [Hi Hl]; [cbn; lia|apply far_levels_init|exact Hs|].
  pose proof (far_levels_distance m s st Hi Hl) as Hdist.
  assert (Hrec : forall q n, q ∈ fqueue st -> bfs_distance m s q n ->
            distances st !! q = Some (Z.of_nat n)).
  { intros q n Hq Hn.
    destruct (proj2 (fi_keys _ _ _ Hi q) Hq) as [dq Hdq].
    destruct (Hdist q dq Hdq) as [Hnn Hd].
    rewrite Hdq. f_equal.
    pose proof (bfs_distance_unique m s q _ _ Hn Hd). lia. }
  assert (Hreach : forall q, q ∈ fqueue st <-> inner_reach m s q).
  { intros q. split.
    - intros [i Hq]%list_elem_of_lookup_1. eapply far_inv_inner; eauto.
    - apply (far_closed_inner m s st Hi Hcl). }
  exists (farthestPoint st), (maxDistance st), (fqueue st).
  split; [exact Hfp|]. split; [unfold visit_order; rewrite Hs; reflexivity|].
  split; [apply (fi_nodup _ _ _ Hi)|]. split; [apply (fi_start _ _ _ Hi)|].
  split; [exact Hreach|]. split.
  { intros i j q q' n n' Hij Hq Hq' Hn Hn'.
    pose proof (Hrec q n (list_elem_of_lookup_2 _ _ _ Hq) Hn) as Hdq.
    pose proof (Hrec q' n' (list_elem_of_lookup_2 _ _ _ Hq') Hn') as Hdq'.
    pose proof (fl_mono _ _ _ _ Hl i j q q' _ _ Hij Hq Hq' Hdq Hdq'). lia. }
  destruct (Hdist _ _ (fi_far _ _ _ Hi)) as [Hnn Hd].
  split; [exact Hnn|]. split; [exact Hd|].
  destruct (fi_choice _ _ _ Hi) as [[E0 Em]|(j & Hj & Hfj & Hql & Hmd & Hfirst)].
  - left. split; [exact E0|]. split; [exact Em|].
    intros q Hq Hne Hqual. apply Hreach in Hq.
    destruct (far_inv_index m s st q Hi Hq Hne) as (i & Hpos & Hqi).
    destruct (proj2 (fi_keys _ _ _ Hi q) Hq) as [dq Hdq].
    pose proof (fi_max _ _ _ Hi i q dq Hpos Hqi Hqual Hdq).
    pose proof (far_inv_tail_level m s st Hi i q dq Hpos Hqi Hdq). lia.
  - right. split; [apply (far_inv_positive m s st j _ Hi Hj Hfj)|].
    split; [exact Hql|]. split; [exact Hmd|]. split.
    + intros q n Hne Hqual Hn.
      assert (Hq : q ∈ fqueue st) by (apply Hreach; eapply inner_steps_reach; apply Hn).
      destruct (far_inv_index m s st q Hi Hq Hne) as (i & Hpos & Hqi).
      pose proof (fi_max _ _ _ Hi i q _ Hpos Hqi Hqual (Hrec q n Hq Hn)). lia.
    + intros i j' q n Hj' Hij Hqi Hne Hqual Hn.
      assert (j' = j).
      { eapply NoDup_lookup; [apply (fi_nodup _ _ _ Hi)|exact Hj'|exact Hfj]. }
      subst j'.
      assert (Hpos : (0 < i)%nat).
      { destruct i; [|lia]. pose proof (fi_start _ _ _ Hi). congruence. }
      pose proof (Hfirst i q _ ltac:(lia) Hqi Hqual
                    (Hrec q n (list_elem_of_lookup_2 _ _ _ Hqi) Hn)). lia.
Qed.

Section Farthest.
Context `{RandSource}.

(** C5, as the code has it.  On a well-formed maze, [findFarthestPoint]
    from the reference point [s] visits exactly the cells reached from [s]
    through non-wall cells strictly inside the border, each once and nearer
    cells first, and returns a point together with its breadth-first
    distance from [s].  The point is [s] itself, at distance 0, when no
    other cell within reach is outside the den and not adjacent to it,
    whether or not [s] is; otherwise it is such a cell, other than [s], of
    greatest breadth-first distance among them, and the first visited of
    those at that distance.  Consequently the start and end placed by
    [Generate] on a constructed maze with a den are neither inside nor
    adjacent to the den. *)
Theorem farthest_point_excludes_den (m : Maze) (fuel : nat) :
  maze_wf m -> Z.of_nat (cells m) < int_max ->
  (forall s, (S (cells m) < fuel)%nat ->
     exists p d order,
       findFarthestPoint fuel m s = Ok (p, d) /\
       visit_order fuel m s = Ok order /\
       NoDup order /\ order !! 0%nat = Some s /\
       (forall q, q ∈ order <-> inner_reach m s q) /\
       (forall i j q q' n n', (i <= j)%nat ->
          order !! i = Some q -> order !! j = Some q' ->
          bfs_distance m s q n -> bfs_distance m s q' n' -> (n <= n')%nat) /\
       0 <= d /\ bfs_distance m s p (Z.to_nat d) /\
       ((p = s /\ d = 0 /\
         forall q, inner_reach m s q -> q <> s -> ~ qualifies m q) \/
        (p <> s /\ qualifies m p /\ 0 < d /\
         (forall q n, q <> s -> qualifies m q -> bfs_distance m s q n ->
            (n <= Z.to_nat d)%nat) /\
         (forall i j q n, order !! j = Some p -> (i < j)%nat ->
            order !! i = Some q -> q <> s -> qualifies m q ->
            bfs_distance m s q n -> (n < Z.to_nat d)%nat)))) /\
  (forall seed s userDoor side bias m',
     constructed m -> has_den m ->
     Generate fuel seed s userDoor side bias m = Ok (m', None) ->
     qualifies m' (start m') /\ qualifies m' (end_ m')).
Proof.
  intros Hwf Hcells. split.
  - intros s Hf. apply findFarthestPoint_farthest; assumption.
  - intros seed s userDoor side bias m' Hcon Hden HG.
    eapply generated_endpoints_qualify; eauto.
Qed.
End Farthest.

Lemma generated_9_wf : maze_wf generated_9.
Proof.
  split; [|split; vm_compute; discriminate].
  repeat split; try (cbn; lia). repeat constructor.
Qed.

Lemma farthest_point_excludes_den_witness :
  (exists order,
     findFarthestPoint 200 generated_9 (mkPoint 7 7) = Ok (mkPoint 5 7, 22) /\
     visit_order 200 generated_9 (mkPoint 7 7) = Ok order /\
     (forall q, q ∈ order <-> inner_reach generated_9 (mkPoint 7 7) q) /\
     bfs_distance generated_9 (mkPoint 7 7) (mkPoint 5 7) 22 /\
     qualifies generated_9 (mkPoint 5 7) /\
     (forall q n, q <> mkPoint 7 7 -> qualifies generated_9 q ->
        bfs_distance generated_9 (mkPoint 7 7) q n -> (n <= 22)%nat) /\
     (forall i j q n, order !! j = Some (mkPoint 5 7) -> (i < j)%nat ->
        order !! i = Some q -> q <> mkPoint 7 7 -> qualifies generated_9 q ->
        bfs_distance generated_9 (mkPoint 7 7) q n -> (n < 22)%nat)) /\
  qualifies generated_9 (start generated_9) /\
  qualifies generated_9 (end_ generated_9).
Proof.
  split.
  - destruct (farthest_point_excludes_den (H := lcg_rand) generated_9 200) as [Hfar _].
    + apply generated_9_wf.
    + vm_compute. reflexivity.
    + destruct (Hfar (mkPoint 7 7)) as (p & d & order & Hf & Ho & _ & _ & Hr & _ & _ & Hd & Hc).
      { vm_compute. lia. }
      vm_compute in Hf. injection Hf as <- <-.
      exists order. split; [vm_compute; reflexivity|].
      split; [exact Ho|]. split; [exact Hr|]. split; [exact Hd|].
      destruct Hc as [(E & _)|(_ & Hq & _ & Hmax & Hfirst)]; [discriminate|].
      split; [exact Hq|]. split; [exact Hmax|exact Hfirst].
  - destruct (farthest_point_excludes_den (H := lcg_rand) den_maze_9 200) as [_ Hgen].
    + apply constructed_wf, den_maze_9_constructed.
    + vm_compute. reflexivity.
    + apply (Hgen 42 None None EmptyString half generated_9).
      * apply den_maze_9_constructed.
      * split; reflexivity.
      * vm_compute. reflexivity.
Defined.

(** ** What [Generate] depends on (C4) *)


Section Ends.
Context `{RandSource}.

















End Ends.

Section Determinism.
Context `{RandSource}.


End Determinism.


(** ** The den of a constructed maze always gets a door *)

(** Carving never makes a cell carvable again. *)
Lemma carvable_anti (m m' : Maze) (p dir : Point) :
  same_shape m m' ->
  (forall q, cell_at m' q = Ok Wall -> cell_at m q = Ok Wall) ->
  carvable m' p dir -> carvable m p dir.
Proof.
  intros Hsh Hwall (Hi & Hw & Hd & Ha).
  split; [apply (interior_shape m m' _ Hsh); exact Hi|].
  split; [apply Hwall; exact Hw|].
  rewrite <- (IsInsideDen_shape m m' _ Hsh), <- (IsAdjacentToDen_shape m m' _ Hsh).
  split; assumption.
Qed.

Section WalkClosed.
Context `{RandSource}.
Variable m0 : Maze.
Hypothesis Hcon : constructed m0.

Lemma walk_closed_push (m : Maze) (stack : list Point) (cur dir : Point)
  (m1 m2 : Maze) :
  maze_wf m -> Forall (interior m) stack -> walk_closed m0 m stack ->
  last stack = Some cur -> dir ∈ carve_directions -> carvable m cur dir ->
  set_cell m (wall_between cur dir) Path = Ok m1 ->
  set_cell m1 (two_steps cur dir) Path = Ok m2 ->
  walk_closed m0 m2 (stack ++ [two_steps cur dir]).
Proof.
  intros Hwf Hst [Hfr Hcl] Hlast Hdir Hcv Hm1 Hm2.
  split; [eapply walk_frame_push; eauto|].
  destruct (set_cell_Ok _ _ _ _ Hm1) as (Hre1 & Hc1 & Ho1 & _).
  destruct (set_cell_Ok _ _ _ _ Hm2) as (Hre2 & Hc2 & Ho2 & _).
  assert (Hsh : same_shape m m2).
  { eapply same_shape_trans; apply regrid_shape; eassumption. }
  assert (Hcur : odd_cell cur).
  { destruct Hfr as (_ & Hodd & _). apply last_Some in Hlast as [st' ->].
    apply Forall_app in Hodd as [_ Hoc]. apply Forall_cons in Hoc as [[Hoc _] _].
    exact Hoc. }
  destruct (carve_geometry cur dir Hdir Hcur) as (_ & _ & _ & _ & _ & Hpar).
  intros p Hp Hpi Hpd Hpath.
  destruct (decide (p = two_steps cur dir)) as [->|Hne2].
  { left. apply elem_of_app. right. apply list_elem_of_singleton. reflexivity. }
  assert (Hne1 : p <> wall_between cur dir).
  { intros ->. destruct Hp as [[kx Ex] [ky Ey]].
    destruct Hpar as [[[k E] _]|[_ [k E]]]; lia. }
  rewrite Ho2, Ho1 in Hpath by assumption.
  destruct (Hcl p Hp Hpi Hpd Hpath) as [Hin|Hno].
  - left. apply elem_of_app. left. exact Hin.
  - right. intros d Hd Hc. apply (Hno d Hd).
    apply (carvable_anti m m2 p d Hsh); [|exact Hc].
    intros q Hq.
    destruct (decide (q = two_steps cur dir)) as [->|Hq2];
      [rewrite Hc2 in Hq; discriminate|].
    rewrite Ho2 in Hq by exact Hq2.
    destruct (decide (q = wall_between cur dir)) as [->|Hq1];
      [rewrite Hc1 in Hq; discriminate|].
    rewrite Ho1 in Hq by exact Hq1. exact Hq.
Qed.

Lemma walk_closed_pop (m : Maze) (stack : list Point) (cur : Point) :
  walk_closed m0 m stack -> last stack = Some cur ->
  (forall dir, dir ∈ carve_directions -> ~ carvable m cur dir) ->
  walk_closed m0 m (removelast stack).
Proof.
  intros [Hfr Hcl] Hlast Hno.
  split; [eapply walk_frame_pop; eauto|].
  intros p Hp Hpi Hpd Hpath.
  destruct (Hcl p Hp Hpi Hpd Hpath) as [Hin|Hdone]; [|right; exact Hdone].
  apply last_Some in Hlast as [st' ->]. rewrite removelast_last.
  apply elem_of_app in Hin as [Hin|Hin]; [left; exact Hin|].
  apply list_elem_of_singleton in Hin as ->. right. exact Hno.
Qed.

(** When the carving walk ends, no carved passage cell has a two-step
    neighbour left to carve. *)
Lemma runDFS_closed (fuel : nat) (r r' : Rand) (gs : Point) (bias : float64)
  (m1 : Maze) :
  interior m0 gs -> odd_cell gs -> IsInsideDen m0 gs = false ->
  runDFS fuel r gs bias m0 = Ok (m1, r') ->
  walk_closed m0 m1 [].
Proof.
  intros Hgi Hgo Hgin. unfold runDFS. intros (ma & Hma & Hloop)%bind_Ok.
  pose proof (constructed_wf m0 Hcon) as Hwf0.
  assert (Hal0 : has_den m0 -> den_aligned m0) by (apply constructed_den; exact Hcon).
  destruct (set_cell_Ok _ _ _ _ Hma) as (Hrea & Hca & Hoa & Hwfa).
  destruct (Hwfa Hwf0) as [Hwfa' _].
  pose proof (regrid_shape _ _ Hrea) as Hsha.
  pose proof (runDFS_loop_rule (walk_closed m0)
                (fun m stack cur dir m1 m2 Hw Hs HI Hl Hd Hc H1 H2 =>
                   walk_closed_push m stack cur dir m1 m2 Hw Hs HI Hl Hd Hc H1 H2)
                (fun m stack cur _ _ HI Hl Hn => walk_closed_pop m stack cur HI Hl Hn)
                fuel r bias ma [gs] Hwfa') as Hrule.
  rewrite Hloop in Hrule.
  destruct Hrule as (_ & _ & Hfr).
  - constructor; [|constructor]. apply (interior_shape m0 ma gs Hsha). exact Hgi.
  - split.
    + split; [exact Hsha|]. split.
      * constructor; [split; assumption|constructor].
      * intros p Hp. apply Hoa. intros ->. revert Hp.
        apply (odd_cell_unprotected m0 gs Hwf0 Hal0 Hgi Hgo Hgin).
    + intros p Hp Hpi Hpd Hpath. left. apply list_elem_of_singleton.
      destruct (decide (p = gs)) as [->|Hne]; [reflexivity|exfalso].
      rewrite Hoa in Hpath by exact Hne.
      rewrite (constructed_cells m0 p Hcon (interior_inb _ _ Hpi)), Hpd in Hpath.
      discriminate.
  - exact Hfr.
Qed.
End WalkClosed.

(** A wall between a passage cell outside the den and a cell two steps
    away is not a den cell: the den begins and ends on odd coordinates. *)
Lemma wall_between_outside (m : Maze) (p dir : Point) :
  maze_wf m -> has_den m -> den_aligned m ->
  dir ∈ carve_directions -> odd_cell p -> IsInsideDen m p = false ->
  IsInsideDen m (wall_between p dir) = false.
Proof.
  intros Hwf Hd Hal Hdir [[kx Ex] [ky Ey]] Hp.
  destruct (IsInsideDen m (wall_between p dir)) eqn:E; [exfalso|reflexivity].
  apply (IsInsideDen_spec m _ Hwf Hd Hal) in E.
  assert (Hp' : ~ (denStartX m <= X p < denStartX m + denWidth m /\
                   denStartY m <= Y p < denStartY m + denHeight m)).
  { intros Hin. apply (IsInsideDen_spec m p Hwf Hd Hal) in Hin. congruence. }
  destruct Hal as (A1 & A2 & A3 & A4 & _).
  apply Z.odd_spec in A1 as [k1 E1], A2 as [k2 E2], A3 as [k3 E3], A4 as [k4 E4].
  revert E. unfold wall_between.
  destruct (carve_directions_cases dir Hdir) as [-> | [-> | [-> | -> ]]];
    cbn [X Y];
    [replace (Z.quot 0 2) with 0 by reflexivity;
     replace (Z.quot (-2) 2) with (-1) by reflexivity
    |replace (Z.quot 0 2) with 0 by reflexivity;
     replace (Z.quot 2 2) with 1 by reflexivity
    |replace (Z.quot 0 2) with 0 by reflexivity;
     replace (Z.quot (-2) 2) with (-1) by reflexivity
    |replace (Z.quot 0 2) with 0 by reflexivity;
     replace (Z.quot 2 2) with 1 by reflexivity];
    intros E; lia.
Qed.

(** The wall between a carved passage cell and a den cell two steps away is
    a seam. *)
Lemma den_front_seam (m0 m1 : Maze) (p dir : Point) :
  constructed m0 -> has_den m0 -> same_shape m0 m1 ->
  (forall q, protected m0 q -> cell_at m1 q = cell_at m0 q) ->
  dir ∈ carve_directions -> odd_cell p -> interior m0 p ->
  IsInsideDen m0 p = false -> cell_at m1 p = Ok Path ->
  interior m0 (two_steps p dir) -> IsInsideDen m0 (two_steps p dir) = true ->
  cell_at m1 (two_steps p dir) = Ok Path ->
  door_seam m1 (wall_between p dir).
Proof.
  intros Hcon Hden Hsh Hfr Hdir Hp Hpi Hpd Hpp Hqi Hqd Hqp.
  pose proof (constructed_wf m0 Hcon) as Hwf0.
  pose proof (constructed_den m0 Hcon Hden) as Hal.
  pose proof (wall_between_interior m0 p dir Hdir Hpi Hqi) as Hwi.
  pose proof (wall_between_outside m0 p dir Hwf0 Hden Hal Hdir Hp Hpd) as Hwd.
  assert (Hadj : IsAdjacentToDen m0 (wall_between p dir) = true).
  { pose proof Hwf0 as (_ & Hwm & Hhm).
    apply (IsAdjacentToDen_spec m0 _ Hwf0 Hden Hal);
      try (unfold interior, is_int, int_min, int_max in *; lia).
    assert (Hw' : ~ (denStartX m0 <= X (wall_between p dir) < denStartX m0 + denWidth m0 /\
                     denStartY m0 <= Y (wall_between p dir) < denStartY m0 + denHeight m0)).
    { intros Hin. apply (IsInsideDen_spec m0 _ Hwf0 Hden Hal) in Hin. congruence. }
    apply (IsInsideDen_spec m0 _ Hwf0 Hden Hal) in Hqd.
    revert Hw' Hqd. unfold wall_between, two_steps.
    destruct (carve_directions_cases dir Hdir) as [-> | [-> | [-> | -> ]]];
      cbn [X Y];
      [replace (Z.quot 0 2) with 0 by reflexivity;
       replace (Z.quot (-2) 2) with (-1) by reflexivity
      |replace (Z.quot 0 2) with 0 by reflexivity;
       replace (Z.quot 2 2) with 1 by reflexivity
      |replace (Z.quot 0 2) with 0 by reflexivity;
       replace (Z.quot (-2) 2) with (-1) by reflexivity
      |replace (Z.quot 0 2) with 0 by reflexivity;
       replace (Z.quot 2 2) with 1 by reflexivity];
      intros Hw' Hqd; lia. }
  split; [apply (interior_shape m0 m1 _ Hsh); exact Hwi|]. split.
  { rewrite Hfr by (right; right; exact Hadj).
    rewrite (constructed_cells m0 _ Hcon (interior_inb _ _ Hwi)), Hwd. reflexivity. }
  rewrite !(IsInsideDen_shape m0 m1 _ Hsh).
  revert Hqd Hqp. unfold wall_between, two_steps.
  destruct (carve_directions_cases dir Hdir) as [-> | [-> | [-> | -> ]]];
    cbn [X Y];
    [replace (Z.quot 0 2) with 0 by reflexivity;
     replace (Z.quot (-2) 2) with (-1) by reflexivity
    |replace (Z.quot 0 2) with 0 by reflexivity;
     replace (Z.quot 2 2) with 1 by reflexivity
    |replace (Z.quot 0 2) with 0 by reflexivity;
     replace (Z.quot (-2) 2) with (-1) by reflexivity
    |replace (Z.quot 0 2) with 0 by reflexivity;
     replace (Z.quot 2 2) with 1 by reflexivity];
    intros Hqd Hqp.
  - right.
    replace (mkPoint (X p + 0) (Y p + -1 - 1)) with (mkPoint (X p + 0) (Y p + -2))
      by (f_equal; lia).
    replace (mkPoint (X p + 0) (Y p + -1 + 1)) with p by (apply point_ext; cbn; lia).
    rewrite Hqd, Hpd, Hqp, Hpp. repeat split; discriminate.
  - right.
    replace (mkPoint (X p + 0) (Y p + 1 + 1)) with (mkPoint (X p + 0) (Y p + 2))
      by (f_equal; lia).
    replace (mkPoint (X p + 0) (Y p + 1 - 1)) with p by (apply point_ext; cbn; lia).
    rewrite Hqd, Hpd, Hqp, Hpp. repeat split; discriminate.
  - left.
    replace (mkPoint (X p + -1 - 1) (Y p + 0)) with (mkPoint (X p + -2) (Y p + 0))
      by (f_equal; lia).
    replace (mkPoint (X p + -1 + 1) (Y p + 0)) with p by (apply point_ext; cbn; lia).
    rewrite Hqd, Hpd, Hqp, Hpp. repeat split; discriminate.
  - left.
    replace (mkPoint (X p + 1 + 1) (Y p + 0)) with (mkPoint (X p + 2) (Y p + 0))
      by (f_equal; lia).
    replace (mkPoint (X p + 1 - 1) (Y p + 0)) with p by (apply point_ext; cbn; lia).
    rewrite Hqd, Hpd, Hqp, Hpp. repeat split; discriminate.
Qed.

(** After the carving walk on a constructed maze with a den, some wall
    cell is a seam: walking from the start of the walk towards the corner
    of the den, passage by passage, the first den cell met lies behind
    one. *)
Lemma den_seam_exists (m0 m1 : Maze) (gs : Point) :
  constructed m0 -> has_den m0 -> maze_wf m1 -> only_carved m0 m1 ->
  walk_closed m0 m1 [] ->
  interior m0 gs -> odd_cell gs -> IsInsideDen m0 gs = false ->
  cell_at m1 gs = Ok Path ->
  exists d, door_seam m1 d.
Proof.
  intros Hcon Hden Hwf1 Hoc [(Hsh & _ & Hfr) Hcl] Hgi Hgo Hgd Hgp.
  pose proof (constructed_wf m0 Hcon) as Hwf0.
  pose proof (constructed_den m0 Hcon Hden) as Hal.
  set (S := fun p => (cell_at m1 p = Ok Path /\ IsInsideDen m0 p = false) \/
                     exists d, door_seam m1 d).
  assert (Hall : forall p, interior m0 p -> odd_cell p -> S p).
  { apply (lattice_span m0 S gs Hgi Hgo); [left; split; assumption|].
    intros p [[Hpp Hpd]|Hex] Hp dir Hdir Hqi; [|right; exact Hex].
    assert (Hpi : interior m0 p).
    { assert (Hc : interior m0 p \/ ~ interior m0 p) by (unfold interior; lia).
      destruct Hc as [Hi|Hn]; [exact Hi|exfalso].
      rewrite Hfr in Hpp by (left; exact Hn).
      pose proof (cell_at_inb m0 p Path Hwf0 Hpp) as Hin.
      rewrite (constructed_cells m0 p Hcon Hin), Hpd in Hpp. discriminate. }
    destruct (carve_geometry p dir Hdir Hp) as (Hqo & _).
    assert (Hqp : cell_at m1 (two_steps p dir) = Ok Path).
    { destruct (Hcl p Hp Hpi Hpd Hpp) as [Hin|Hno]; [inversion Hin|].
      destruct (Hoc (two_steps p dir)) as [E|E]; [exact E|].
      rewrite E, (constructed_cells m0 _ Hcon (interior_inb _ _ Hqi)).
      destruct (IsInsideDen m0 (two_steps p dir)) eqn:Eq; [reflexivity|exfalso].
      apply (Hno dir Hdir). split; [apply (interior_shape m0 m1 _ Hsh); exact Hqi|].
      split.
      { rewrite E, (constructed_cells m0 _ Hcon (interior_inb _ _ Hqi)), Eq.
        reflexivity. }
      rewrite (IsInsideDen_shape m0 m1 _ Hsh), (IsAdjacentToDen_shape m0 m1 _ Hsh).
      split; [apply wall_between_outside; assumption|].
      destruct Hqo as [Hx Hy].
      apply (odd_not_adjacent m0 _ Hwf0 Hden Hal Hqi); apply Z.odd_spec; assumption. }
    destruct (IsInsideDen m0 (two_steps p dir)) eqn:Eq.
    - right. exists (wall_between p dir).
      apply (den_front_seam m0 m1 p dir); assumption.
    - left. split; assumption. }
  destruct Hal as (A1 & A2 & A3 & A4 & A5 & A6 & A7 & A8).
  destruct Hden as [Hd1 Hd2].
  destruct (Hall (mkPoint (denStartX m0) (denStartY m0))) as [[_ Hout]|Hex];
    [unfold interior; cbn [X Y]; lia
    |split; apply Z.odd_spec; assumption| |exact Hex].
  exfalso.
  assert (Hin : IsInsideDen m0 (mkPoint (denStartX m0) (denStartY m0)) = true).
  { apply (IsInsideDen_spec m0 _ Hwf0); [split; assumption| |cbn [X Y]; lia].
    repeat split; assumption. }
  congruence.
Qed.

Section DenDoor.
Context `{RandSource}.

(** X21: on a maze built by [New] with a den, the random door strategy
    never leaves the den closed: whenever [Generate], called without a
    door point or a door side, returns without error, the door it recorded
    is a [Path] strictly inside the border and outside the den, it lies
    between two cells that are not walls, one inside the den and one
    outside, and neither the start nor the end marker was put on it. *)
Theorem Generate_den_door (fuel : nat) (seed : Z) (s : option Point)
  (bias : float64) (m m' : Maze) :
  constructed m -> has_den m -> Z.of_nat (cells m) < int_max ->
  Generate fuel seed s None EmptyString bias m = Ok (m', None) ->
  den_door m' (door m') /\ door m' <> start m' /\ door m' <> end_ m'.
Proof.
  intros Hcon Hden Hcells HG.
  pose proof (constructed_wf m Hcon) as Hwf.
  destruct (Generate_Ok _ _ _ _ _ _ _ _ _ HG)
    as [(p & err & _ & [=] & _)
       |(gs & r1 & m1 & r2 & m2 & err & Hs & Hdfs & Hcd & Hrest)].
  destruct (generation_start_facts fuel seed s m gs r1 Hwf Hs) as (Hgi & Hgx & Hgy & Hgd).
  assert (Hgo : odd_cell gs) by (split; apply Z.odd_spec; assumption).
  pose proof (runDFS_spec fuel r1 gs bias m Hwf Hgi) as Hr. rewrite Hdfs in Hr.
  destruct Hr as (Hwf1 & Hre1 & Hoc1 & Hgs1).
  pose proof (runDFS_closed m Hcon fuel r1 r2 gs bias m1 Hgi Hgo Hgd Hdfs) as Hclosed.
  destruct (den_seam_exists m m1 gs Hcon Hden Hwf1 Hoc1 Hclosed Hgi Hgo Hgd Hgs1)
    as [d0 Hd0].
  destruct Hclosed as [(Hsh1 & _ & Hfr) _].
  pose proof (has_den_shape _ _ Hsh1 Hden) as Hden1.
  rewrite connectDen_random in Hcd by exact Hden1.
  destruct (connectRandomDenDoor_spec r2 m1 Hwf1) as (m2' & Hcd' & _ & Hsome).
  rewrite Hcd in Hcd'. injection Hcd' as <- ->.
  destruct (Hsome (ex_intro _ d0 Hd0)) as (Hseam & Hpath & Hother).
  destruct (connectRandomDenDoor_Ok_frame _ _ _ _ Hcd) as [(Hsh12 & _ & _ & _ & Hwf2) _].
  specialize (Hwf2 Hwf1).
  destruct Hrest as [_ Hplace].
  destruct (placeStartAndEnd_Ok _ _ _ _ _ Hplace)
    as (ps & pe & ds & de & m3 & Hps & Hpe & _ & _ & Es & Ee & Ed & Hsh').
  pose proof (placeStartAndEnd_cells _ _ _ _ _ Hplace) as Hcells'.
  assert (Hcells2 : Z.of_nat (cells m2) < int_max).
  { replace (cells m2) with (cells m); [exact Hcells|].
    unfold cells. destruct Hsh12 as (-> & -> & _).
    destruct Hsh1 as (-> & -> & _). reflexivity. }
  assert (Hnq : ~ qualifies m2 (door m2)).
  { rewrite (qualifies_shape m1 m2 _ Hsh12).
    apply door_seam_excluded; assumption. }
  assert (Hng : door m2 <> gs).
  { intros E. destruct Hseam as (_ & Hw & _). rewrite E, Hgs1 in Hw. discriminate. }
  assert (Hnps : door m2 <> ps).
  { destruct s as [p0|].
    - destruct Hps as [-> _]. exact Hng.
    - destruct (findFarthestPoint_result m2 gs fuel ps ds Hwf2 Hcells2 Hps)
        as [->|[Hq _]]; [exact Hng|]. intros E. apply Hnq. rewrite E. exact Hq. }
  assert (Hnpe : door m2 <> pe).
  { destruct (findFarthestPoint_result m2 ps fuel pe de Hwf2 Hcells2 Hpe)
      as [->|[Hq _]]; [exact Hnps|]. intros E. apply Hnq. rewrite E. exact Hq. }
  assert (Hgw2 : walkable m2 gs).
  { split; [apply (inb_shape m1 m2 _ Hsh12), (inb_shape m m1 _ Hsh1), interior_inb;
            exact Hgi|].
    exists Path. split; [|discriminate].
    change (cell_at m2 gs = Ok Path). rewrite Hother by congruence. exact Hgs1. }
  destruct (placeStartAndEnd_walkable fuel gs _ m2 m' Hwf2 Hcells2 Hgw2 Hplace)
    as (_ & _ & Hwalk).
  assert (Hopen : forall q, q <> door m2 -> inb m1 q -> cell_at m1 q = Ok Path ->
            open_cell m' q).
  { intros q Hq Hin Hc. apply Hwalk. split; [apply (inb_shape m1 m2 _ Hsh12); exact Hin|].
    exists Path. split; [|discriminate].
    change (cell_at m2 q = Ok Path). rewrite Hother by exact Hq. exact Hc. }
  rewrite Ed, Es, Ee. split; [|split; assumption].
  destruct Hseam as (Hdi & Hdw & Hpair).
  assert (Hsh1' : same_shape m1 m').
  { eapply same_shape_trans; [exact Hsh12|exact Hsh']. }
  split; [apply (interior_shape m1 m' _ Hsh1'); exact Hdi|].
  split; [rewrite Hcells' by congruence; exact Hpath|].
  split.
  { rewrite (IsInsideDen_shape m1 m' _ Hsh1'), (IsInsideDen_shape m m1 _ Hsh1).
    destruct (IsInsideDen m (door m2)) eqn:E; [exfalso|reflexivity].
    rewrite Hfr in Hdw by (right; left; exact E).
    assert (Hin : inb m (door m2)).
    { apply (inb_shape m m1 _ Hsh1), interior_inb. exact Hdi. }
    rewrite (constructed_cells m _ Hcon Hin), E in Hdw. discriminate. }
  rewrite !(IsInsideDen_shape m1 m' _ Hsh1').
  unfold interior in Hdi.
  destruct Hpair as [(Ha & Hb & Hne)|(Ha & Hb & Hne)]; [left|right];
    (split; [apply Hopen;
             [intros E; apply (f_equal X) in E as EX; apply (f_equal Y) in E as EY;
              cbn [X Y] in EX, EY; lia
             |split; cbn [X Y]; lia|exact Ha]|]);
    (split; [apply Hopen;
             [intros E; apply (f_equal X) in E as EX; apply (f_equal Y) in E as EY;
              cbn [X Y] in EX, EY; lia
             |split; cbn [X Y]; lia|exact Hb]|exact Hne]).
Qed.
End DenDoor.

Lemma Generate_den_door_witness :
  den_door generated_9 (door generated_9) /\
  door generated_9 <> start generated_9 /\ door generated_9 <> end_ generated_9.
Proof.
  apply (Generate_den_door (H := lcg_rand) 400 42 None half den_maze_9 generated_9).
  - apply den_maze_9_constructed.
  - split; reflexivity.
  - vm_compute. reflexivity.
  - vm_compute. reflexivity.
Defined.

(** ** The den of a constructed maze is reached from the start *)

Lemma reachable_refl (m : Maze) (a : Point) : inb m a -> reachable m a a.
Proof. intros Ha. exists [a]. apply route_single. exact Ha. Qed.

Lemma reachable_step (m : Maze) (a b c : Point) :
  reachable m a b -> adjacent b c -> inb m c -> open_cell m c -> reachable m a c.
Proof.
  intros [l Hl] Hadj Hc Ho. exists (l ++ [c]). eapply route_snoc; eauto.
Qed.

Lemma reachable_trans (m : Maze) (a b c : Point) :
  reachable m a b -> reachable m b c -> reachable m a c.
Proof.
  intros Hab [l Hl]. revert c Hl.
  induction l as [|x l IH] using rev_ind; intros c Hl.
  - destruct Hl as (Hh & _). discriminate.
  - destruct (route_snoc_inv _ _ _ _ Hl)
      as [[_ ->]|(l' & b' & E & Hr & Hadj & Hin & Hop)]; [exact Hab|].
    apply app_inj_tail in E as [-> _].
    eapply reachable_step; [apply IH; exact Hr|exact Hadj|exact Hin|exact Hop].
Qed.

Lemma route_first_inb (m : Maze) (a b : Point) (l : list Point) :
  route m a b l -> inb m a.
Proof.
  intros (Hh & _ & _ & Hin & _). destruct l as [|x l]; [discriminate|].
  injection Hh as ->. apply Forall_cons in Hin as [Hin _]. exact Hin.
Qed.

Lemma reachable_sym (m : Maze) (a b : Point) :
  open_cell m a -> reachable m a b -> reachable m b a.
Proof.
  intros Ha [l Hl]. revert b Hl.
  induction l as [|x l IH] using rev_ind; intros b Hl.
  - destruct Hl as (Hh & _). discriminate.
  - pose proof (route_first_inb _ _ _ _ Hl) as Hain.
    destruct (route_snoc_inv _ _ _ _ Hl)
      as [[_ ->]|(l' & b' & E & Hr & Hadj & Hin & Hop)];
      [apply reachable_refl; exact Hain|].
    apply app_inj_tail in E as [-> _].
    pose proof (IH b' Hr) as Hback.
    apply (reachable_trans m b b' a); [|exact Hback].
    assert (Hb' : inb m b' /\ open_cell m b').
    { destruct (route_snoc_inv _ _ _ _ Hr)
        as [[_ ->]|(l2 & b2 & _ & _ & _ & Hin' & Hop')]; auto. }
    destruct Hb' as [Hb'in Hb'op].
    eapply reachable_step; [apply reachable_refl; exact Hin| |exact Hb'in|exact Hb'op].
    apply adjacent_sym. exact Hadj.
Qed.

(** Carving only opens cells: what was reached stays reached. *)
Lemma reachable_carved (m m' : Maze) (a b : Point) :
  same_shape m m' -> only_carved m m' ->
  reachable m a b -> reachable m' a b.
Proof.
  intros Hsh Hoc [l Hl]. exists l.
  apply (route_walkable m m'); [intros q; apply (inb_shape m m' q Hsh)| |exact Hl].
  intros q [Hin (c & Hc & Hne)]. split; [apply (inb_shape m m' q Hsh); exact Hin|].
  destruct (Hoc q) as [E|E].
  - exists Path. split; [exact E|discriminate].
  - exists c. split; [|exact Hne]. unfold cell_at in E. rewrite E. exact Hc.
Qed.

Section WalkJoined.
Context `{RandSource}.
Variable m0 : Maze.
Hypothesis Hcon : constructed m0.
Variable gs : Point.

Lemma walk_joined_push (m : Maze) (stack : list Point) (cur dir : Point)
  (m1 m2 : Maze) :
  maze_wf m -> Forall (interior m) stack -> walk_joined m0 gs m stack ->
  last stack = Some cur -> dir ∈ carve_directions -> carvable m cur dir ->
  set_cell m (wall_between cur dir) Path = Ok m1 ->
  set_cell m1 (two_steps cur dir) Path = Ok m2 ->
  walk_joined m0 gs m2 (stack ++ [two_steps cur dir]).
Proof.
  intros Hwf Hst (Hfr & Hpaths & Hreach) Hlast Hdir Hcv Hm1 Hm2.
  split; [eapply walk_frame_push; eauto|].
  destruct (set_cell_Ok _ _ _ _ Hm1) as (Hre1 & Hc1 & Ho1 & _).
  destruct (set_cell_Ok _ _ _ _ Hm2) as (Hre2 & Hc2 & Ho2 & _).
  assert (Hsh : same_shape m m2).
  { eapply same_shape_trans; apply regrid_shape; eassumption. }
  assert (Hoc : only_carved m m2).
  { eapply only_carved_trans; eapply only_carved_set_cell; eassumption. }
  pose proof Hlast as Hlast'.
  apply last_Some in Hlast' as [st' ->].
  assert (Hcur : interior m cur /\ odd_cell cur /\ IsInsideDen m0 cur = false /\
                 cell_at m cur = Ok Path).
  { apply Forall_app in Hst as [_ Hci]. apply Forall_cons in Hci as [Hci _].
    destruct Hfr as (_ & Hodd & _).
    apply Forall_app in Hodd as [_ Ho]. apply Forall_cons in Ho as [[Ho Hd] _].
    apply Forall_app in Hpaths as [_ Hp]. apply Forall_cons in Hp as [Hp _].
    auto. }
  destruct Hcur as (Hci & Hco & Hcd & Hcp).
  destruct Hcv as (Hti & _).
  destruct (carve_geometry cur dir Hdir Hco) as (_ & Ha1 & Ha2 & _).
  pose proof (wall_between_interior m cur dir Hdir Hci Hti) as Hwi.
  assert (Hrw : reachable m2 gs (wall_between cur dir)).
  { eapply reachable_step; [apply (reachable_carved m m2 _ _ Hsh Hoc),
                              (Hreach cur Hcp Hcd)|exact Ha1| |].
    - apply (inb_shape m m2 _ Hsh), interior_inb. exact Hwi.
    - exists Path. split; [|discriminate].
      change (cell_at m2 (wall_between cur dir) = Ok Path).
      eapply only_carved_path; [eapply only_carved_set_cell; exact Hm2|exact Hc1]. }
  assert (Hrt : reachable m2 gs (two_steps cur dir)).
  { eapply reachable_step; [exact Hrw|exact Ha2| |].
    - apply (inb_shape m m2 _ Hsh), interior_inb. exact Hti.
    - exists Path. split; [exact Hc2|discriminate]. }
  split.
  - apply Forall_app. split.
    + eapply Forall_impl; [exact Hpaths|]. intros p Hp.
      eapply only_carved_path; [exact Hoc|exact Hp].
    + constructor; [exact Hc2|constructor].
  - intros q Hq Hqd.
    destruct (decide (q = two_steps cur dir)) as [->|Hne2]; [exact Hrt|].
    destruct (decide (q = wall_between cur dir)) as [->|Hne1]; [exact Hrw|].
    rewrite Ho2, Ho1 in Hq by assumption.
    apply (reachable_carved m m2 _ _ Hsh Hoc), Hreach; assumption.
Qed.

Lemma walk_joined_pop (m : Maze) (stack : list Point) (cur : Point) :
  walk_joined m0 gs m stack -> last stack = Some cur ->
  walk_joined m0 gs m (removelast stack).
Proof.
  intros (Hfr & Hpaths & Hreach) Hlast.
  split; [eapply walk_frame_pop; eauto|]. split; [|exact Hreach].
  apply last_Some in Hlast as [st' ->]. rewrite removelast_last.
  apply Forall_app in Hpaths as [Hp _]. exact Hp.
Qed.

(** When the carving walk ends, every cell it carved is reached from its
    start. *)
Lemma runDFS_joined (fuel : nat) (r r' : Rand) (bias : float64) (m1 : Maze) :
  interior m0 gs -> odd_cell gs -> IsInsideDen m0 gs = false ->
  runDFS fuel r gs bias m0 = Ok (m1, r') ->
  forall q, cell_at m1 q = Ok Path -> IsInsideDen m0 q = false ->
    reachable m1 gs q.
Proof.
  intros Hgi Hgo Hgin. unfold runDFS. intros (ma & Hma & Hloop)%bind_Ok.
  pose proof (constructed_wf m0 Hcon) as Hwf0.
  assert (Hal0 : has_den m0 -> den_aligned m0) by (apply constructed_den; exact Hcon).
  destruct (set_cell_Ok _ _ _ _ Hma) as (Hrea & Hca & Hoa & Hwfa).
  destruct (Hwfa Hwf0) as [Hwfa' _].
  pose proof (regrid_shape _ _ Hrea) as Hsha.
  pose proof (runDFS_loop_rule (walk_joined m0 gs)
                (fun m stack cur dir m1 m2 Hw Hs HI Hl Hd Hc H1 H2 =>
                   walk_joined_push m stack cur dir m1 m2 Hw Hs HI Hl Hd Hc H1 H2)
                (fun m stack cur _ _ HI Hl _ => walk_joined_pop m stack cur HI Hl)
                fuel r bias ma [gs] Hwfa') as Hrule.
  rewrite Hloop in Hrule.
  destruct Hrule as (_ & _ & (_ & _ & Hreach)).
  - constructor; [|constructor]. apply (interior_shape m0 ma gs Hsha). exact Hgi.
  - split; [|split].
    + split; [exact Hsha|]. split.
      * constructor; [split; assumption|constructor].
      * intros p Hp. apply Hoa. intros ->. revert Hp.
        apply (odd_cell_unprotected m0 gs Hwf0 Hal0 Hgi Hgo Hgin).
    + constructor; [exact Hca|constructor].
    + intros q Hq Hqd.
      destruct (decide (q = gs)) as [->|Hne].
      * apply reachable_refl, (inb_shape m0 ma _ Hsha), interior_inb. exact Hgi.
      * exfalso. rewrite Hoa in Hq by exact Hne.
        pose proof (cell_at_inb m0 q Path Hwf0 Hq) as Hin.
        rewrite (constructed_cells m0 q Hcon Hin), Hqd in Hq. discriminate.
  - exact Hreach.
Qed.
End WalkJoined.

(** The cells of an open den are reached from its corner. *)
Lemma den_connected (m : Maze) :
  maze_wf m -> has_den m -> den_aligned m ->
  (forall p, IsInsideDen m p = true -> open_cell m p) ->
  forall u, IsInsideDen m u = true ->
    reachable m (mkPoint (denStartX m) (denStartY m)) u.
Proof.
  intros Hwf Hd Hal Hopen.
  assert (Hind : forall n u, IsInsideDen m u = true ->
            (Z.to_nat (X u - denStartX m + (Y u - denStartY m)) <= n)%nat ->
            reachable m (mkPoint (denStartX m) (denStartY m)) u).
  { induction n as [|n IH]; intros u Hu Hn;
      pose proof (inside_den_interior m u Hwf Hd Hal Hu) as Hui;
      pose proof (proj1 (IsInsideDen_spec m u Hwf Hd Hal) Hu) as [Hx Hy].
    - replace u with (mkPoint (denStartX m) (denStartY m))
        by (apply point_ext; cbn [X Y]; lia).
      apply reachable_refl, interior_inb.
      replace (mkPoint (denStartX m) (denStartY m)) with u
        by (apply point_ext; cbn [X Y]; lia).
      exact Hui.
    - destruct (Z.eq_dec (X u) (denStartX m)) as [Ex|Nx].
      + destruct (Z.eq_dec (Y u) (denStartY m)) as [Ey|Ny].
        * replace u with (mkPoint (denStartX m) (denStartY m))
            by (apply point_ext; cbn [X Y]; lia).
          apply reachable_refl, interior_inb.
          replace (mkPoint (denStartX m) (denStartY m)) with u
            by (apply point_ext; cbn [X Y]; lia).
          exact Hui.
        * assert (Hv : IsInsideDen m (mkPoint (X u) (Y u - 1)) = true).
          { apply (IsInsideDen_spec m _ Hwf Hd Hal). cbn [X Y]. lia. }
          eapply reachable_step; [apply (IH _ Hv); cbn [X Y]; lia| | |].
          -- unfold adjacent. cbn [X Y]. lia.
          -- apply interior_inb. exact Hui.
          -- apply Hopen. exact Hu.
      + assert (Hv : IsInsideDen m (mkPoint (X u - 1) (Y u)) = true).
        { apply (IsInsideDen_spec m _ Hwf Hd Hal). cbn [X Y]. lia. }
        eapply reachable_step; [apply (IH _ Hv); cbn [X Y]; lia| | |].
        * unfold adjacent. cbn [X Y]. lia.
        * apply interior_inb. exact Hui.
        * apply Hopen. exact Hu. }
  intros u Hu. eapply Hind; eauto.
Qed.

Section DenReached.
Context `{RandSource}.

(** X22: a maze built by [New] with a den and generated under the random
    door strategy is in one piece: whenever [Generate], called without a
    door point or a door side, returns without error, every cell of the den
    is open, and every cell that is not a wall, the cells of the den
    included, is reached from the start through cells that are not
    walls. *)
Theorem generated_den_reached (fuel : nat) (seed : Z) (s : option Point)
  (bias : float64) (m m' : Maze) :
  constructed m -> has_den m -> Z.of_nat (cells m) < int_max ->
  Generate fuel seed s None EmptyString bias m = Ok (m', None) ->
  (forall q, IsInsideDen m q = true -> walkable m' q) /\
  (forall q, walkable m' q -> reachable m' (start m') q).
Proof.
  intros Hcon Hden Hcells HG.
  pose proof (constructed_wf m Hcon) as Hwf.
  pose proof (constructed_den m Hcon Hden) as Hal.
  destruct (Generate_Ok _ _ _ _ _ _ _ _ _ HG)
    as [(p & err & _ & [=] & _)
       |(gs & r1 & m1 & r2 & m2 & err & Hs & Hdfs & Hcd & Hrest)].
  destruct (generation_start_facts fuel seed s m gs r1 Hwf Hs) as (Hgi & Hgx & Hgy & Hgd).
  assert (Hgo : odd_cell gs) by (split; apply Z.odd_spec; assumption).
  pose proof (runDFS_spec fuel r1 gs bias m Hwf Hgi) as Hr. rewrite Hdfs in Hr.
  destruct Hr as (Hwf1 & Hre1 & Hoc1 & Hgs1).
  pose proof (runDFS_closed m Hcon fuel r1 r2 gs bias m1 Hgi Hgo Hgd Hdfs) as Hclosed.
  pose proof (runDFS_joined m Hcon gs fuel r1 r2 bias m1 Hgi Hgo Hgd Hdfs) as Hjoin.
  destruct (den_seam_exists m m1 gs Hcon Hden Hwf1 Hoc1 Hclosed Hgi Hgo Hgd Hgs1)
    as [d0 Hd0].
  destruct Hclosed as [(Hsh1 & _ & Hfr) _].
  pose proof (has_den_shape _ _ Hsh1 Hden) as Hden1.
  rewrite connectDen_random in Hcd by exact Hden1.
  destruct (connectRandomDenDoor_spec r2 m1 Hwf1) as (m2' & Hcd' & _ & Hsome).
  rewrite Hcd in Hcd'. injection Hcd' as <- ->.
  destruct (Hsome (ex_intro _ d0 Hd0)) as (Hseam & Hpath & Hother).
  destruct (connectRandomDenDoor_Ok_frame _ _ _ _ Hcd)
    as [(Hsh12 & _ & _ & Hoc12 & Hwf2) _].
  specialize (Hwf2 Hwf1).
  destruct Hrest as [_ Hplace].
  assert (Hsh02 : same_shape m m2) by (eapply same_shape_trans; eauto).
  assert (Hcells2 : Z.of_nat (cells m2) < int_max).
  { replace (cells m2) with (cells m); [exact Hcells|].
    unfold cells. destruct Hsh02 as (-> & -> & _). reflexivity. }
  assert (Hgw2 : walkable m2 gs).
  { split; [apply (inb_shape m m2 _ Hsh02), interior_inb; exact Hgi|].
    exists Path. split; [|discriminate].
    eapply only_carved_path; [exact Hoc12|exact Hgs1]. }
  destruct (placeStartAndEnd_walkable fuel gs _ m2 m' Hwf2 Hcells2 Hgw2 Hplace)
    as (Hsw & _ & Hwalk).
  destruct (placeStartAndEnd_Ok _ _ _ _ _ Hplace)
    as (_ & _ & _ & _ & _ & _ & _ & _ & _ & _ & _ & _ & Hsh').
  (* the den is open *)
  assert (Hden2 : forall q, IsInsideDen m q = true -> cell_at m2 q = Ok Path).
  { intros q Hq. eapply only_carved_path; [exact Hoc12|].
    rewrite Hfr by (right; left; exact Hq).
    rewrite (constructed_cells m q Hcon), Hq; [reflexivity|].
    apply interior_inb. eapply inside_den_interior; eauto. }
  (* every open cell is a path *)
  assert (Hpaths : forall q, walkable m2 q -> cell_at m2 q = Ok Path).
  { intros q [Hin (c & Hc & Hne)].
    destruct (Hoc12 q) as [E|E]; [exact E|].
    destruct (Hoc1 q) as [E1|E1]; [rewrite E, E1; reflexivity|].
    apply (inb_shape m m2 _ Hsh02) in Hin.
    rewrite E, E1, (constructed_cells m q Hcon Hin).
    destruct (IsInsideDen m q) eqn:Eq; [reflexivity|exfalso].
    change (cell_at m2 q = Ok c) in Hc.
    rewrite E, E1, (constructed_cells m q Hcon Hin), Eq in Hc.
    injection Hc as <-. contradiction. }
  (* the two sides of the door *)
  destruct Hseam as (Hdi & Hdw & Hpair).
  assert (Hsides : exists a b, adjacent a (door m2) /\ adjacent (door m2) b /\
            cell_at m1 a = Ok Path /\ cell_at m1 b = Ok Path /\
            IsInsideDen m1 a = false /\ IsInsideDen m1 b = true /\
            inb m1 a /\ inb m1 b).
  { unfold interior in Hdi.
    destruct Hpair as [(Ha & Hb & Hne)|(Ha & Hb & Hne)];
      match type of Hne with IsInsideDen _ ?a <> IsInsideDen _ ?b =>
        destruct (IsInsideDen m1 a) eqn:Ea, (IsInsideDen m1 b) eqn:Eb;
          try contradiction; [exists b, a|exists a, b]
      end;
      (split; [unfold adjacent; cbn [X Y]; lia|]);
      (split; [unfold adjacent; cbn [X Y]; lia|]);
      repeat split; try assumption; cbn [X Y]; lia. }
  destruct Hsides as (a & b & Had & Hdb & Hap & Hbp & Hao & Hbi & Hain & Hbin).
  rewrite (IsInsideDen_shape m m1 a Hsh1) in Hao.
  rewrite (IsInsideDen_shape m m1 b Hsh1) in Hbi.
  assert (Hdoor : reachable m2 gs (door m2)).
  { eapply reachable_step;
      [apply (reachable_carved m1 m2 _ _ Hsh12 Hoc12), (Hjoin a Hap Hao)|exact Had| |].
    - apply (inb_shape m1 m2 _ Hsh12), interior_inb. exact Hdi.
    - exists Path. split; [exact Hpath|discriminate]. }
  assert (Hinner : reachable m2 gs b).
  { eapply reachable_step; [exact Hdoor|exact Hdb| |].
    - apply (inb_shape m1 m2 _ Hsh12). exact Hbin.
    - exists Path. split; [|discriminate].
      eapply only_carved_path; [exact Hoc12|exact Hbp]. }
  pose proof (has_den_shape _ _ Hsh02 Hden) as Hdenm2.
  pose proof (den_aligned_shape _ _ Hsh02 Hal) as Hal2.
  assert (Hopen2 : forall q, IsInsideDen m2 q = true -> open_cell m2 q).
  { intros q Hq. rewrite (IsInsideDen_shape m m2 _ Hsh02) in Hq.
    exists Path. split; [apply Hden2; exact Hq|discriminate]. }
  pose proof (den_connected m2 Hwf2 Hdenm2 Hal2 Hopen2) as Hdenc.
  set (c := mkPoint (denStartX m2) (denStartY m2)) in *.
  assert (Hcorner : reachable m2 gs c).
  { apply (reachable_trans m2 gs b c); [exact Hinner|].
    apply reachable_sym.
    - apply Hopen2.
      apply (IsInsideDen_spec m2 _ Hwf2 Hdenm2 Hal2). subst c. cbn [X Y].
      destruct Hdenm2. lia.
    - apply Hdenc. rewrite (IsInsideDen_shape m m2 _ Hsh02). exact Hbi. }
  assert (Hall : forall q, walkable m2 q -> reachable m2 gs q).
  { intros q Hq. pose proof (Hpaths q Hq) as Hqp.
    destruct (IsInsideDen m q) eqn:Eq.
    - apply (reachable_trans m2 gs c q); [exact Hcorner|].
      apply Hdenc. rewrite (IsInsideDen_shape m m2 _ Hsh02). exact Eq.
    - destruct (decide (q = door m2)) as [->|Hne]; [exact Hdoor|].
      apply (reachable_carved m1 m2 _ _ Hsh12 Hoc12), Hjoin; [|exact Eq].
      rewrite <- Hother by exact Hne. exact Hqp. }
  split.
  - intros q Hq. apply Hwalk. split.
    + apply (inb_shape m m2 _ Hsh02), interior_inb.
      eapply inside_den_interior; eauto.
    + exists Path. split; [apply Hden2; exact Hq|discriminate].
  - intros q Hq. apply Hwalk in Hq.
    assert (Hr : reachable m2 (start m') q).
    { apply (reachable_trans m2 _ gs q); [|apply Hall; exact Hq].
      apply reachable_sym; [apply Hgw2|apply Hall; exact Hsw]. }
    destruct Hr as [l Hl]. exists l.
    apply (route_walkable m2 m'); [intros x; apply (inb_shape m2 m' x Hsh')| |exact Hl].
    intros x Hx. apply Hwalk. exact Hx.
Qed.
End DenReached.

Lemma generated_den_reached_witness :
  (forall q, IsInsideDen den_maze_9 q = true -> walkable generated_9 q) /\
  (forall q, walkable generated_9 q -> reachable generated_9 (start generated_9) q).
Proof.
  apply (generated_den_reached (H := lcg_rand) 400 42 None half den_maze_9 generated_9).
  - apply den_maze_9_constructed.
  - split; reflexivity.
  - vm_compute. reflexivity.
  - vm_compute. reflexivity.
Defined.
